(** * Lan-FPS: the maze server (Server.py)

    A shallow embedding of the multiplayer maze server: the multi-layer
    maze generator, the grid/world coordinate mapping, the player registry
    and the event handlers, followed by the properties of the
    specification that were checked against them.

    Conventions of the embedding.
    - Python [int] is [Z]; Python [float] is a binary64 primitive float;
      a one-character string of a maze cell is an [ascii]; other strings
      are [string].
    - A Python list is a [list]; [l[i]] is [py_get], with Python's
      wrap-around of negative indices and [IndexError] out of range.
    - An exception is a value of [exn]; code that can raise returns a
      [result].
    - The module [random] is an oracle: a tape of naturals read from left
      to right.  Every theorem about generated data quantifies over the
      tape.
    - The interpreter's recursion limit is the [depth] argument of
      [_carve_path].
    - The transport is an oracle as well: a tape of outcomes, one for
      each [websocket.send], read from left to right.  Every theorem
      about the server quantifies over the tape. *)

From Stdlib Require Import ZArith Floats Ascii String.
From stdpp Require Import list strings gmap pretty.

Open Scope Z_scope.

(** ** Exceptions and results *)

Inductive exn : Type :=
| KeyError | IndexError | TypeError | ValueError | OverflowError
| RecursionError
| ConnectionClosedOK | ConnectionClosedError.

Inductive result (A : Type) : Type :=
| Ok (a : A)
| Raise (e : exn).
Arguments Ok {A} a.
Arguments Raise {A} e.

Definition rbind {A B} (m : result A) (k : A -> result B) : result B :=
  match m with
  | Ok a => k a
  | Raise e => Raise e
  end.

Declare Scope result_scope.
Delimit Scope result_scope with res.
Notation "'let*' x ':=' m 'in' k" := (rbind m (fun x => k))
  (at level 10, x name, m at level 100, k at level 200) : result_scope.
Notation "'let*' ' p ':=' m 'in' k" := (rbind m (fun p => k))
  (at level 10, p pattern, m at level 100, k at level 200) : result_scope.

(** ** Python lists *)

(** [range(n)] *)
Definition range (n : Z) : list Z := Z.of_nat <$> seq 0 (Z.to_nat n).

(** The position a Python index denotes in a list of length [len]. *)
Definition py_index (len : nat) (i : Z) : option nat :=
  if 0 <=? i then
    if i <? Z.of_nat len then Some (Z.to_nat i) else None
  else
    if - Z.of_nat len <=? i then Some (Z.to_nat (Z.of_nat len + i)) else None.

(** [l[i]] *)
Definition py_get {A} (l : list A) (i : Z) : result A :=
  match py_index (length l) i with
  | Some n => match l !! n with Some x => Ok x | None => Raise IndexError end
  | None => Raise IndexError
  end.

(** [l[i] = x] *)
Definition py_set {A} (l : list A) (i : Z) (x : A) : result (list A) :=
  match py_index (length l) i with
  | Some n => Ok (<[n := x]> l)
  | None => Raise IndexError
  end.

(** ** The random source *)

Record rng : Type := { tape : nat -> nat; cursor : nat }.

(** [random._randbelow(n)], for [n > 0]. *)
Definition randbelow (n : nat) (g : rng) : nat * rng :=
  ((tape g (cursor g) mod n)%nat, {| tape := tape g; cursor := S (cursor g) |}).

(** Computations that draw random numbers and may raise. *)
Definition Gen (A : Type) : Type := rng -> result (A * rng).

Definition gret {A} (a : A) : Gen A := fun g => Ok (a, g).
Definition gbind {A B} (m : Gen A) (k : A -> Gen B) : Gen B :=
  fun g => match m g with
           | Ok (a, g') => k a g'
           | Raise e => Raise e
           end.
Definition glift {A} (m : result A) : Gen A :=
  fun g => match m with Ok a => Ok (a, g) | Raise e => Raise e end.
Definition graise {A} (e : exn) : Gen A := fun _ => Raise e.

Declare Scope gen_scope.
Delimit Scope gen_scope with gen.
Notation "'let*' x ':=' m 'in' k" := (gbind m (fun x => k))
  (at level 10, x name, m at level 100, k at level 200) : gen_scope.
Notation "'let*' ' p ':=' m 'in' k" := (gbind m (fun p => k))
  (at level 10, p pattern, m at level 100, k at level 200) : gen_scope.

(** [random.randrange(start, stop, 2)] *)
Definition randrange_step2 (start stop : Z) : Gen Z :=
  fun g =>
    let n := (stop - start + 1) / 2 in
    if 0 <? n then
      let '(k, g') := randbelow (Z.to_nat n) g in
      Ok (start + 2 * Z.of_nat k, g')
    else Raise ValueError.

(** [random.randint(a, b)]: the next entry of the tape, reduced to the
    [b - a + 1] values of the range. *)
Definition randint (a b : Z) : Gen Z :=
  fun g =>
    if a <=? b then
      Ok (a + Z.of_nat (tape g (cursor g)) mod (b - a + 1),
          {| tape := tape g; cursor := S (cursor g) |})
    else Raise ValueError.

(** [random.choice(seq)] *)
Definition choice {A} (l : list A) : Gen A :=
  fun g =>
    match l with
    | [] => Raise IndexError
    | _ => let '(k, g') := randbelow (length l) g in
           match l !! k with
           | Some x => Ok (x, g')
           | None => Raise IndexError
           end
    end.

(** [x[i], x[j] = x[j], x[i]] *)
Definition swap {A} (x : list A) (i j : nat) : list A :=
  match x !! i, x !! j with
  | Some a, Some b => <[j := a]> (<[i := b]> x)
  | _, _ => x
  end.

(** [random.shuffle(x)]: for [i] from [len(x) - 1] down to [1], exchange
    [x[i]] with [x[randbelow(i + 1)]]. *)
Fixpoint shuffle_from {A} (i : nat) (x : list A) (g : rng) : list A * rng :=
  match i with
  | O => (x, g)
  | S i' =>
      let '(j, g') := randbelow (S i) g in
      shuffle_from i' (swap x i j) g'
  end.

Definition shuffle {A} (x : list A) : Gen (list A) :=
  fun g => Ok (shuffle_from (length x - 1)%nat x g).

(** ** MazeGenerator *)

Module MazeGenerator.

Definition WALL : ascii := "#".
Definition OPEN : ascii := " ".
Definition START : ascii := "S".
Definition END : ascii := "E".
Definition UP : ascii := "L".
Definition DOWN : ascii := "l".

(** The grid of one layer: a list of rows of cell codes. *)
Abbreviation grid := (list (list ascii)).

Record teleporter : Type := { tp_r : Z; tp_c : Z; tp_type : ascii }.

Record t : Type := {
  width : Z;
  height : Z;
  num_layers : Z;
  mazes : list grid;
  start_coords : option (Z * Z);
  end_coords : option (Z * Z);
  teleporter_coords : gmap Z (list teleporter);
  all_open_spots_layer0 : list (Z * Z)
}.

(** [__init__] *)
Definition init (width height num_layers : Z) : t :=
  {| width := if width mod 2 =? 1 then width else width + 1;
     height := if height mod 2 =? 1 then height else height + 1;
     num_layers := num_layers;
     mazes := [];
     start_coords := None;
     end_coords := None;
     teleporter_coords := ∅;
     all_open_spots_layer0 := [] |}.

(** [_is_valid] *)
Definition _is_valid (self : t) (r c : Z) : bool :=
  (0 <=? r) && (r <? height self) && (0 <=? c) && (c <? width self).

(** [maze[r][c]] and [maze[r][c] = x] *)
Definition get_cell (maze : grid) (r c : Z) : result ascii :=
  (let* row := py_get maze r in py_get row c)%res.

Definition set_cell (maze : grid) (r c : Z) (x : ascii) : result grid :=
  (let* row := py_get maze r in
   let* row' := py_set row c x in
   py_set maze r row')%res.

Definition directions : list (Z * Z) := [(0, 2); (0, -2); (2, 0); (-2, 0)].

Section Carve.
Variable self : t.
(** the recursive call [self._carve_path] *)
Variable rec : Z -> Z -> grid -> Gen grid.

(** The [for dr, dc in directions] loop of [_carve_path]. *)
Fixpoint carve_directions (dirs : list (Z * Z)) (r c : Z) (maze : grid)
  : Gen grid :=
  match dirs with
  | [] => gret maze
  | (dr, dc) :: dirs' =>
      let nr := r + dr in
      let nc := c + dc in
      if _is_valid self nr nc then
        (let* cell := glift (get_cell maze nr nc) in
         if Ascii.eqb cell WALL then
           let* maze := glift (set_cell maze (r + dr / 2) (c + dc / 2) OPEN) in
           let* maze := rec nr nc maze in
           carve_directions dirs' r c maze
         else carve_directions dirs' r c maze)%gen
      else carve_directions dirs' r c maze
  end.
End Carve.

(** [_carve_path]; [depth] is the number of nested calls the interpreter
    still allows. *)
Fixpoint _carve_path (self : t) (depth : nat) (r c : Z) (maze : grid)
  : Gen grid :=
  match depth with
  | O => graise RecursionError
  | S depth' =>
      (let* maze := glift (set_cell maze r c OPEN) in
       let* dirs := shuffle directions in
       carve_directions self (_carve_path self depth') dirs r c maze)%gen
  end.

(** The doubly nested loop that collects the cells of [maze] holding
    [OPEN], row by row. *)
Fixpoint scan_row (maze : grid) (r : Z) (cols : list Z) (acc : list (Z * Z))
  : result (list (Z * Z)) :=
  match cols with
  | [] => Ok acc
  | c :: cols' =>
      (let* cell := get_cell maze r c in
       scan_row maze r cols'
         (if Ascii.eqb cell OPEN then acc ++ [(r, c)] else acc))%res
  end.

Fixpoint scan_rows (maze : grid) (rows cols : list Z) (acc : list (Z * Z))
  : result (list (Z * Z)) :=
  match rows with
  | [] => Ok acc
  | r :: rows' =>
      (let* acc := scan_row maze r cols acc in
       scan_rows maze rows' cols acc)%res
  end.

Definition open_spots (h w : Z) (maze : grid) : result (list (Z * Z)) :=
  scan_rows maze (range h) (range w) [].

(** The first loop of [generate]: one carved layer per index. *)
Fixpoint carve_layers (self : t) (depth : nat) (idx : list Z)
  (mazes : list grid) : Gen (list grid) :=
  match idx with
  | [] => gret mazes
  | _ :: idx' =>
      (let maze := (fun _ => (fun _ => WALL) <$> range (width self))
                     <$> range (height self) in
       let* start_r := randrange_step2 1 (height self) in
       let* start_c := randrange_step2 1 (width self) in
       let* maze := _carve_path self depth start_r start_c maze in
       carve_layers self depth idx' (mazes ++ [maze]))%gen
  end.

(** [self.mazes[l][r][c] = x] *)
Definition set_maze_cell (mazes : list grid) (l r c : Z) (x : ascii)
  : result (list grid) :=
  (let* maze := py_get mazes l in
   let* maze' := set_cell maze r c x in
   py_set mazes l maze')%res.

Definition with_mazes (self : t) (m : list grid) : t :=
  {| width := width self; height := height self;
     num_layers := num_layers self; mazes := m;
     start_coords := start_coords self; end_coords := end_coords self;
     teleporter_coords := teleporter_coords self;
     all_open_spots_layer0 := all_open_spots_layer0 self |}.

Definition with_teleporter_coords (self : t) (tc : gmap Z (list teleporter))
  : t :=
  {| width := width self; height := height self;
     num_layers := num_layers self; mazes := mazes self;
     start_coords := start_coords self; end_coords := end_coords self;
     teleporter_coords := tc;
     all_open_spots_layer0 := all_open_spots_layer0 self |}.

(** One teleporter placement: the open cells of layer [l] are collected,
    and when there is one, a random one is relabelled [kind] and recorded
    in [teleporter_coords[l]]. *)
Definition place_teleporter (self : t) (l : Z) (kind : ascii) : Gen t :=
  (let* maze := glift (py_get (mazes self) l) in
   let* spots := glift (open_spots (height self) (width self) maze) in
   match spots with
   | [] => gret self
   | _ =>
       let* '(tr, tc) := choice spots in
       let* mazes' := glift (set_maze_cell (mazes self) l tr tc kind) in
       let* entry := glift (match teleporter_coords self !! l with
                            | Some e => Ok e
                            | None => Raise KeyError
                            end) in
       gret (with_teleporter_coords (with_mazes self mazes')
               (<[l := entry ++ [{| tp_r := tr; tp_c := tc; tp_type := kind |}]]>
                  (teleporter_coords self)))
   end)%gen.

(** The last loop of [generate]. *)
Fixpoint place_teleporters (self : t) (ls : list Z) : Gen t :=
  match ls with
  | [] => gret self
  | l :: ls' =>
      (let self :=
         with_teleporter_coords self (<[l := []]> (teleporter_coords self)) in
       let* self := (if l <? num_layers self - 1
                     then place_teleporter self l UP else gret self) in
       let* self := (if 0 <? l
                     then place_teleporter self l DOWN else gret self) in
       place_teleporters self ls')%gen
  end.

(** Placement of ['S'] or ['E']: a random open cell of layer [l] is
    relabelled; without an open cell the coordinates fall back to (1,1)
    and nothing is relabelled. *)
Definition place_mark (self : t) (mazes : list grid) (l : Z) (mark : ascii)
  : Gen (list grid * (Z * Z) * list (Z * Z)) :=
  (let* maze := glift (py_get mazes l) in
   let* spots := glift (open_spots (height self) (width self) maze) in
   match spots with
   | [] => gret (mazes, (1, 1), spots)
   | _ =>
       let* '(sr, sc) := choice spots in
       let* mazes' := glift (set_maze_cell mazes l sr sc mark) in
       gret (mazes', (sr, sc), spots)
   end)%gen.

(** [generate]; the value returned to the caller is [mazes] of the
    generator that results. *)
Definition generate (self : t) (depth : nat) : Gen t :=
  (let* mazes0 := carve_layers self depth (range (num_layers self)) [] in
   let* '(mazes1, start, spots0) := place_mark self mazes0 0 START in
   let* '(mazes2, end_, _) :=
     place_mark self mazes1 (num_layers self - 1) END in
   place_teleporters
     {| width := width self; height := height self;
        num_layers := num_layers self;
        mazes := mazes2;
        start_coords := Some start;
        end_coords := Some end_;
        teleporter_coords := ∅;
        all_open_spots_layer0 := spots0 |}
     (range (num_layers self)))%gen.

(** [get_maze_data], [get_start_coords], [get_end_coords] *)
Definition get_maze_data (self : t) : list grid := mazes self.
Definition get_start_coords (self : t) : option (Z * Z) := start_coords self.
Definition get_end_coords (self : t) : option (Z * Z) := end_coords self.

End MazeGenerator.

(** ** Python numbers *)

(** A number held in a dictionary: an [int] or a [float]. *)
Inductive num : Type :=
| Int (z : Z)
| Float (f : float).

(** The binary64 value nearest to an integer (ties to even). *)
Definition float_of_Z (z : Z) : float :=
  SF2Prim (binary_normalize prec emax z 0 false).

(** Conversion of an [int] operand in mixed arithmetic, and [float(int)]. *)
Definition int_to_float (z : Z) : result float :=
  let f := float_of_Z z in
  if PrimFloat.is_infinity f then Raise OverflowError else Ok f.

Definition num_to_float (n : num) : result float :=
  match n with
  | Int z => int_to_float z
  | Float f => Ok f
  end.

(** [a / b] on two small [int] constants. *)
Definition truediv (a b : Z) : float :=
  (float_of_Z a / float_of_Z b)%float.

(** [math.floor] of a float. *)
Definition floor (f : float) : result Z :=
  match Prim2SF f with
  | S754_zero _ => Ok 0
  | S754_finite s m e =>
      let v := if s then Z.neg m else Z.pos m in
      Ok (if 0 <=? e then v * 2 ^ e else v / 2 ^ (- e))
  | S754_infinity _ => Raise OverflowError
  | S754_nan => Raise ValueError
  end.

(** [int] of a float: truncation toward zero. *)
Definition trunc (f : float) : result Z :=
  match Prim2SF f with
  | S754_zero _ => Ok 0
  | S754_finite s m e =>
      let v := if s then Z.neg m else Z.pos m in
      Ok (if 0 <=? e then v * 2 ^ e else Z.quot v (2 ^ (- e)))
  | S754_infinity _ => Raise OverflowError
  | S754_nan => Raise ValueError
  end.

(** ** Decoded JSON *)

#[local] Set Warnings "-register-all".

Inductive json : Type :=
| JNull
| JBool (b : bool)
| JNum (n : num)
| JStr (s : string)
| JList (l : list json)
| JDict (kv : list (string * json)).

(** A decoded JSON object: keys in order, first binding of a key wins. *)
Abbreviation dict := (list (string * json)).

Fixpoint dict_get (kv : dict) (k : string) : option json :=
  match kv with
  | [] => None
  | (k', v) :: kv' => if String.eqb k' k then Some v else dict_get kv' k
  end.

(** [v[k]] for a string key. *)
Definition subscript (v : json) (k : string) : result json :=
  match v with
  | JDict kv => match dict_get kv k with
                | Some x => Ok x
                | None => Raise KeyError
                end
  | _ => Raise TypeError
  end.

(** Truth value of a decoded JSON value. *)
Definition truthy (v : json) : bool :=
  match v with
  | JNull => false
  | JBool b => b
  | JNum (Int z) => negb (z =? 0)
  | JNum (Float f) => negb (PrimFloat.eqb f 0)
  | JStr s => negb (String.eqb s "")
  | JList l => match l with [] => false | _ => true end
  | JDict kv => match kv with [] => false | _ => true end
  end.

(** [v == s] for a string [s]. *)
Definition eq_str (v : json) (s : string) : bool :=
  match v with
  | JStr s' => String.eqb s' s
  | _ => false
  end.

Section Conversions.
(** Python's parsers of numeric strings, used by [float(str)] and
    [int(str)]; [None] is [ValueError]. *)
Variable float_of_string : string -> option float.
Variable int_of_string : string -> option Z.

(** [float(v)] *)
Definition py_float (v : json) : result float :=
  match v with
  | JNum n => num_to_float n
  | JBool b => Ok (if b then 1%float else 0%float)
  | JStr s => match float_of_string s with
              | Some f => Ok f
              | None => Raise ValueError
              end
  | _ => Raise TypeError
  end.

(** [int(v)] *)
Definition py_int (v : json) : result Z :=
  match v with
  | JNum (Int z) => Ok z
  | JNum (Float f) => trunc f
  | JBool b => Ok (Z.b2z b)
  | JStr s => match int_of_string s with
              | Some z => Ok z
              | None => Raise ValueError
              end
  | _ => Raise TypeError
  end.
End Conversions.

(** ** Game constants *)

Definition MAZE_WIDTH : Z := 17.
Definition MAZE_HEIGHT : Z := 17.
Definition NUM_MAZE_LAYERS : Z := 2.
Definition BLOCK_SIZE : Z := 5.
Definition WALL_HEIGHT : Z := 6.
Definition MAX_HEALTH : Z := 100.
Definition BULLET_DAMAGE : Z := 10.

(** ** World state *)

(** A dictionary with the keys ["x"], ["y"], ["z"]. *)
Record vec3 : Type := { vx : num; vy : num; vz : num }.

Definition zero3 : vec3 := {| vx := Int 0; vy := Int 0; vz := Int 0 |}.

Record player : Type := {
  id : string;
  position : vec3;
  rotation : vec3;
  layer : Z;
  health : Z;
  score : Z;
  color : string
}.

Record bullet : Type := {
  bullet_id : string;
  shooter_id : string;
  bullet_position : vec3;
  direction : vec3;
  bullet_layer : Z;
  creation_time : float
}.

(** A connection is identified by a number. *)
Abbreviation websocket := nat.

(** What one [websocket.send] does: the message is delivered, or the
    call raises [ConnectionClosedOK], or it raises another exception. *)
Inductive outcome : Type :=
| Delivered
| ClosedOK
| Failed.

(** The transport: the outcomes of the sends to come, and the number of
    sends made so far. *)
Record net : Type := { outcomes : nat -> outcome; sent : nat }.

(** The module's global state and its environment.  [PLAYERS] is a
    dictionary in insertion order; [RANDOM] is the state of the module
    [random]; [NETWORK] is the transport.  [DETACHED] holds the player
    dictionaries that were deleted from [PLAYERS]: a handler that read
    [PLAYERS[ws]] into a local variable before the deletion still refers
    to that dictionary. *)
Record server : Type := {
  PLAYERS : list (websocket * player);
  BULLETS : list bullet;
  NEXT_PLAYER_ID : Z;
  NEXT_BULLET_ID : Z;
  RANDOM : rng;
  NETWORK : net;
  DETACHED : list (websocket * player)
}.

(** ** Messages and observable events *)

Inductive message : Type :=
| init (player_id : string) (players : list player)
       (maze_data : list (list (list ascii)))
       (start_position end_position : vec3)
| player_connected (p : player)
| player_disconnected (player_id : string)
| player_update (player_id : string) (position rotation : vec3) (layer : Z)
| bullet_fired (bullet_id shooter_id : string)
               (start_position direction : vec3) (layer : Z)
| score_update (player_id : string) (new_score : Z)
| health_update (target_id : string) (new_health score : Z)
| player_defeated (player_id : string) (final_score : Z)
                  (killer_id : option string)
| player_respawned (player_id : string) (position : vec3) (layer health score : Z)
                   (color : string) (rotation : vec3)
| game_win (winner_id : string).

(** The value of the field ["type"]. *)
Definition message_type (m : message) : string :=
  match m with
  | init _ _ _ _ _ => "init"
  | player_connected _ => "player_connected"
  | player_disconnected _ => "player_disconnected"
  | player_update _ _ _ _ => "player_update"
  | bullet_fired _ _ _ _ _ => "bullet_fired"
  | score_update _ _ => "score_update"
  | health_update _ _ _ => "health_update"
  | player_defeated _ _ _ => "player_defeated"
  | player_respawned _ _ _ _ _ _ _ => "player_respawned"
  | game_win _ => "game_win"
  end.

(** The [print] calls that report a rejected event, a fallback or an
    error.  Purely informational prints are not recorded. *)
Inductive diagnostic : Type :=
| LayerOutOfBounds (layer_index : Z)
| NoOpenSpots (layer_index : Z)
| InvalidPlayerHit
| TargetNotFound
| InvalidTeleportRequest
| NoDownTeleporter (target_layer : Z)
| InvalidTeleport
| NotAtEnd
| UnknownMessageType
| UnexpectedError (e : exn)
| BroadcastError (player_id : string).

(** What the server does that can be seen from outside.  A broadcast
    records the registry at the moment of sending: a send is attempted
    to each of its keys, in order.  [Send] is a send that was
    delivered. *)
Inductive event : Type :=
| Broadcast (m : message) (registry : list (websocket * player))
| Send (ws : websocket) (m : message)
| Print (d : diagnostic)
| Sleep (seconds : Z).

Definition broadcasts (tr : list event) : list message :=
  omap (fun e => match e with Broadcast m _ => Some m | _ => None end) tr.


(** ** The handler monad: global state, exceptions, a trace *)

Definition M (A : Type) : Type := server -> result A * server * list event.

Definition mret {A} (a : A) : M A := fun st => (Ok a, st, []).

Definition mbind {A B} (m : M A) (k : A -> M B) : M B :=
  fun st =>
    match m st with
    | (Ok a, st1, tr1) =>
        let '(r, st2, tr2) := k a st1 in (r, st2, tr1 ++ tr2)
    | (Raise e, st1, tr1) => (Raise e, st1, tr1)
    end.

Declare Scope handler_scope.
Delimit Scope handler_scope with M.
Notation "'let*' x ':=' m 'in' k" := (mbind m (fun x => k))
  (at level 10, x name, m at level 100, k at level 200) : handler_scope.
Notation "'let*' ' p ':=' m 'in' k" := (mbind m (fun p => k))
  (at level 10, p pattern, m at level 100, k at level 200) : handler_scope.
Notation "m1 ';;;' m2" := (mbind m1 (fun _ => m2))
  (at level 100, right associativity) : handler_scope.

Definition get : M server := fun st => (Ok st, st, []).
Definition put (st : server) : M unit := fun _ => (Ok tt, st, []).
Definition emit (e : event) : M unit := fun st => (Ok tt, st, [e]).
Definition lift {A} (r : result A) : M A := fun st => (r, st, []).

(** [try: m except Exception as e: h e] *)
Definition catch {A} (m : M A) (h : exn -> M A) : M A :=
  fun st =>
    match m st with
    | (Ok a, st1, tr1) => (Ok a, st1, tr1)
    | (Raise e, st1, tr1) =>
        let '(r, st2, tr2) := h e st1 in (r, st2, tr1 ++ tr2)
    end.

Definition with_random (st : server) (g : rng) : server :=
  {| PLAYERS := PLAYERS st; BULLETS := BULLETS st;
     NEXT_PLAYER_ID := NEXT_PLAYER_ID st;
     NEXT_BULLET_ID := NEXT_BULLET_ID st; RANDOM := g;
     NETWORK := NETWORK st; DETACHED := DETACHED st |}.

Definition with_network (st : server) (n : net) : server :=
  {| PLAYERS := PLAYERS st; BULLETS := BULLETS st;
     NEXT_PLAYER_ID := NEXT_PLAYER_ID st;
     NEXT_BULLET_ID := NEXT_BULLET_ID st; RANDOM := RANDOM st;
     NETWORK := n; DETACHED := DETACHED st |}.

Definition with_next_player_id (st : server) (n : Z) : server :=
  {| PLAYERS := PLAYERS st; BULLETS := BULLETS st;
     NEXT_PLAYER_ID := n;
     NEXT_BULLET_ID := NEXT_BULLET_ID st; RANDOM := RANDOM st;
     NETWORK := NETWORK st; DETACHED := DETACHED st |}.

Definition with_next_bullet_id (st : server) (n : Z) : server :=
  {| PLAYERS := PLAYERS st; BULLETS := BULLETS st;
     NEXT_PLAYER_ID := NEXT_PLAYER_ID st;
     NEXT_BULLET_ID := n; RANDOM := RANDOM st;
     NETWORK := NETWORK st; DETACHED := DETACHED st |}.

Definition with_bullets (st : server) (bs : list bullet) : server :=
  {| PLAYERS := PLAYERS st; BULLETS := bs;
     NEXT_PLAYER_ID := NEXT_PLAYER_ID st;
     NEXT_BULLET_ID := NEXT_BULLET_ID st; RANDOM := RANDOM st;
     NETWORK := NETWORK st; DETACHED := DETACHED st |}.

(** One [websocket.send]: the next outcome of the transport. *)
Definition send_outcome : M outcome :=
  fun st =>
    let n := NETWORK st in
    (Ok (outcomes n (sent n)),
     with_network st {| outcomes := outcomes n; sent := S (sent n) |}, []).

(** A computation on the random source. *)
Definition random {A} (m : Gen A) : M A :=
  fun st =>
    match m (RANDOM st) with
    | Ok (a, g) => (Ok a, with_random st g, [])
    | Raise e => (Raise e, st, [])
    end.

Definition print (d : diagnostic) : M unit := emit (Print d).

(** *** The dictionary [PLAYERS] *)

Fixpoint players_get (ps : list (websocket * player)) (ws : websocket)
  : option player :=
  match ps with
  | [] => None
  | (ws', p) :: ps' => if Nat.eqb ws' ws then Some p else players_get ps' ws
  end.

(** [PLAYERS[ws] = p]: in place for a known key, at the end for a new one. *)
Fixpoint players_set (ps : list (websocket * player)) (ws : websocket)
    (p : player) : list (websocket * player) :=
  match ps with
  | [] => [(ws, p)]
  | (ws', p') :: ps' =>
      if Nat.eqb ws' ws then (ws, p) :: ps'
      else (ws', p') :: players_set ps' ws p
  end.

(** [del PLAYERS[ws]]: the key is gone, the other keys keep their
    order. *)
Fixpoint players_del (ps : list (websocket * player)) (ws : websocket)
  : list (websocket * player) :=
  match ps with
  | [] => []
  | (ws', p') :: ps' =>
      if Nat.eqb ws' ws then players_del ps' ws
      else (ws', p') :: players_del ps' ws
  end.

Definition with_players (st : server) (ps : list (websocket * player))
  : server :=
  {| PLAYERS := ps; BULLETS := BULLETS st;
     NEXT_PLAYER_ID := NEXT_PLAYER_ID st;
     NEXT_BULLET_ID := NEXT_BULLET_ID st; RANDOM := RANDOM st;
     NETWORK := NETWORK st; DETACHED := DETACHED st |}.

Definition with_detached (st : server) (ps : list (websocket * player))
  : server :=
  {| PLAYERS := PLAYERS st; BULLETS := BULLETS st;
     NEXT_PLAYER_ID := NEXT_PLAYER_ID st;
     NEXT_BULLET_ID := NEXT_BULLET_ID st; RANDOM := RANDOM st;
     NETWORK := NETWORK st; DETACHED := ps |}.

(** The state after [del PLAYERS[ws]], [p] being the dictionary that was
    registered. *)
Definition detach (st : server) (ws : websocket) (p : player) : server :=
  with_detached (with_players st (players_del (PLAYERS st) ws))
    (players_set (DETACHED st) ws p).

(** [PLAYERS.get(ws)] *)
Definition lookup_player (ws : websocket) : M (option player) :=
  fun st => (Ok (players_get (PLAYERS st) ws), st, []).

(** [PLAYERS[ws]] *)
Definition the_player (ws : websocket) : M player :=
  fun st => match players_get (PLAYERS st) ws with
            | Some p => (Ok p, st, [])
            | None => (Raise KeyError, st, [])
            end.

(** *** Local variables that refer to a player dictionary

    A handler reads [PLAYERS[ws]] or [PLAYERS.get(ws)] into a local
    variable and then reads and writes fields through it.  The variable
    refers to the dictionary itself, which [PLAYERS] shares while the
    connection is registered; a [broadcast] in between may delete the key,
    and the variable then still refers to the dictionary, now detached.
    In the model a variable obtained for [ws] is [ws] itself, and the
    dictionary it refers to is [object st ws]. *)
Definition object (st : server) (ws : websocket) : option player :=
  match players_get (PLAYERS st) ws with
  | Some p => Some p
  | None => players_get (DETACHED st) ws
  end.

(** A read through the local variable obtained for [ws].  (A variable
    is obtained from [PLAYERS] in the same handler, so the dictionary is
    registered or detached; the last case is not reached.) *)
Definition deref (ws : websocket) : M player :=
  fun st => match object st ws with
            | Some p => (Ok p, st, [])
            | None => (Raise KeyError, st, [])
            end.

(** An assignment to a field through the local variable obtained for
    [ws]: the write goes to the dictionary, in the registry or
    detached. *)
Definition assign (ws : websocket) (f : player -> player) : M unit :=
  fun st =>
    match players_get (PLAYERS st) ws with
    | Some p =>
        (Ok tt, with_players st (players_set (PLAYERS st) ws (f p)), [])
    | None =>
        match players_get (DETACHED st) ws with
        | Some p =>
            (Ok tt, with_detached st (players_set (DETACHED st) ws (f p)), [])
        | None => (Raise KeyError, st, [])
        end
    end.

(** [for x in l: f(x)] *)
Fixpoint for_each {A} (l : list A) (f : A -> M unit) : M unit :=
  match l with
  | [] => mret tt
  | a :: l' => mbind (f a) (fun _ => for_each l' f)
  end.

Definition set_position (v : vec3) (p : player) : player :=
  {| id := id p; position := v; rotation := rotation p; layer := layer p;
     health := health p; score := score p; color := color p |}.
Definition set_rotation (v : vec3) (p : player) : player :=
  {| id := id p; position := position p; rotation := v; layer := layer p;
     health := health p; score := score p; color := color p |}.
Definition set_layer (l : Z) (p : player) : player :=
  {| id := id p; position := position p; rotation := rotation p; layer := l;
     health := health p; score := score p; color := color p |}.
Definition set_health (h : Z) (p : player) : player :=
  {| id := id p; position := position p; rotation := rotation p;
     layer := layer p; health := h; score := score p; color := color p |}.
Definition set_score (s : Z) (p : player) : player :=
  {| id := id p; position := position p; rotation := rotation p;
     layer := layer p; health := health p; score := s; color := color p |}.

Definition set_vx (n : num) (v : vec3) : vec3 :=
  {| vx := n; vy := vy v; vz := vz v |}.
Definition set_vy (n : num) (v : vec3) : vec3 :=
  {| vx := vx v; vy := n; vz := vz v |}.
Definition set_vz (n : num) (v : vec3) : vec3 :=
  {| vx := vx v; vy := vy v; vz := n |}.

(** ** Coordinates *)

(** [grid_to_world_coords] *)
Definition grid_to_world_coords (grid_row grid_col layer : Z) : result vec3 :=
  (let* fx := int_to_float (grid_col * BLOCK_SIZE) in
   let world_x :=
     (fx - truediv (MAZE_WIDTH * BLOCK_SIZE) 2 + truediv BLOCK_SIZE 2)%float in
   let* fz := int_to_float (grid_row * BLOCK_SIZE) in
   let world_z :=
     (fz - truediv (MAZE_HEIGHT * BLOCK_SIZE) 2 + truediv BLOCK_SIZE 2)%float in
   let world_y := layer * WALL_HEIGHT in
   Ok {| vx := Float world_x; vy := Int world_y; vz := Float world_z |})%res.

(** [world_to_grid_coords]; the dictionary with the keys ["r"] and ["c"]
    is the pair (row, column). *)
Definition world_to_grid_coords (world_x world_z : num) : result (Z * Z) :=
  (let* fx := num_to_float world_x in
   let* grid_col :=
     floor ((fx + truediv (MAZE_WIDTH * BLOCK_SIZE) 2 - truediv BLOCK_SIZE 2)
            / float_of_Z BLOCK_SIZE)%float in
   let* fz := num_to_float world_z in
   let* grid_row :=
     floor ((fz + truediv (MAZE_HEIGHT * BLOCK_SIZE) 2 - truediv BLOCK_SIZE 2)
            / float_of_Z BLOCK_SIZE)%float in
   Ok (grid_row, grid_col))%res.

(** ["#%06x" % n] for [0 <= n <= 0xFFFFFF] *)
Definition hex_digit (d : Z) : ascii :=
  match d with
  | 0 => "0" | 1 => "1" | 2 => "2" | 3 => "3" | 4 => "4" | 5 => "5"
  | 6 => "6" | 7 => "7" | 8 => "8" | 9 => "9" | 10 => "a" | 11 => "b"
  | 12 => "c" | 13 => "d" | 14 => "e" | _ => "f"
  end%char.

Definition color_code (n : Z) : string :=
  String "#"
    (string_of_list_ascii
       ((fun k => hex_digit ((n / 16 ^ k) mod 16)) <$> [5; 4; 3; 2; 1; 0])).

(** A frame received from a client: text that [json.loads] rejects, or
    the decoded value. *)
Inductive frame : Type :=
| Malformed
| Decoded (data : json).

(** [isinstance(v, int)], with the integer when it holds; [bool] is a
    subclass of [int]. *)
Definition as_int (v : json) : option Z :=
  match v with
  | JNum (Int z) => Some z
  | JBool b => Some (Z.b2z b)
  | _ => None
  end.

Definition is_dict (v : json) : bool :=
  match v with JDict _ => true | _ => false end.

Section Server.
(** The generator after [generate()], as the module holds it. *)
Variable MAZE_GENERATOR : MazeGenerator.t.
Variable float_of_string : string -> option float.
Variable int_of_string : string -> option Z.

Definition GENERATED_MAZE_DATA : list (list (list ascii)) :=
  MazeGenerator.mazes MAZE_GENERATOR.
Definition START_GRID_COORDS : option (Z * Z) :=
  MazeGenerator.start_coords MAZE_GENERATOR.
Definition END_GRID_COORDS : option (Z * Z) :=
  MazeGenerator.end_coords MAZE_GENERATOR.

(** [INITIAL_START_POSITION] as [debug_coordinates] leaves it at import. *)
Definition INITIAL_START_POSITION : result vec3 :=
  match START_GRID_COORDS with
  | Some (r, c) => grid_to_world_coords r c 0
  | None => Raise TypeError
  end.

(** [END_GRID_COORDS[0]] and [END_GRID_COORDS[1]] *)
Definition end_row : result Z :=
  match END_GRID_COORDS with Some (r, _) => Ok r | None => Raise TypeError end.
Definition end_col : result Z :=
  match END_GRID_COORDS with Some (_, c) => Ok c | None => Raise TypeError end.

(** [debug_coordinates]: the position it leaves in
    [INITIAL_START_POSITION], the outcome of its conversion test and the
    world position of the centre of the map that it prints. *)
Definition debug_coordinates : result (vec3 * bool * vec3) :=
  match START_GRID_COORDS with
  | Some (sr, sc) =>
      (let* initial_start_position := grid_to_world_coords sr sc 0 in
       let* end_world_position :=
         (let* er := end_row in
          let* ec := end_col in
          grid_to_world_coords er ec (NUM_MAZE_LAYERS - 1)) in
       let* '(r, c) := world_to_grid_coords (vx initial_start_position)
                         (vz initial_start_position) in
       let* center_world_coords :=
         grid_to_world_coords (MAZE_HEIGHT / 2) (MAZE_WIDTH / 2) 0 in
       Ok (initial_start_position, (r =? sr) && (c =? sc),
           center_world_coords))%res
  | None => Raise TypeError
  end.

(** [get_random_open_position_on_layer] *)
Definition get_random_open_position_on_layer (layer_index : Z) : M vec3 :=
  (if (layer_index <? 0) || (NUM_MAZE_LAYERS <=? layer_index) then
     print (LayerOutOfBounds layer_index) ;;;
     lift INITIAL_START_POSITION
   else
     let* target_maze_layer := lift (py_get GENERATED_MAZE_DATA layer_index) in
     let* open_spots :=
       lift (MazeGenerator.open_spots MAZE_HEIGHT MAZE_WIDTH target_maze_layer) in
     match open_spots with
     | [] =>
         print (NoOpenSpots layer_index) ;;;
         lift INITIAL_START_POSITION
     | _ =>
         let* '(sr, sc) := random (choice open_spots) in
         lift (grid_to_world_coords sr sc layer_index)
     end)%M.

(** The first loop of [broadcast]: one send for each connection, in the
    order of the dictionary; the result is [disconnected_players]. *)
Fixpoint send_each (receivers : list (websocket * player))
  : M (list websocket) :=
  match receivers with
  | [] => mret []
  | (ws, p) :: rest =>
      (let* o := send_outcome in
       match o with
       | Delivered => send_each rest
       | ClosedOK =>
           let* disconnected := send_each rest in
           mret (ws :: disconnected)
       | Failed =>
           print (BroadcastError (id p)) ;;;
           let* disconnected := send_each rest in
           mret (ws :: disconnected)
       end)%M
  end.

(** [unregister_player], given the [broadcast] it calls. *)
Definition unregister_with (broadcast : message -> M unit) (ws : websocket)
  : M unit :=
  (let* st := get in
   match players_get (PLAYERS st) ws with
   | Some p =>
       if negb (String.eqb (id p) "") then
         put (detach st ws p) ;;;
         broadcast (player_disconnected (id p))
       else mret tt
   | None => mret tt
   end)%M.

(** [broadcast] and [unregister_player] call each other: a broadcast
    unregisters the connections whose send failed, and each of these
    broadcasts [player_disconnected].  Every nested broadcast comes after
    a deletion, so the nesting is at most as deep as the registry is
    long; [depth] bounds it.  (The model takes it that this stays within
    the recursion limit of the interpreter.) *)
Fixpoint broadcast_within (depth : nat) (m : message) : M unit :=
  match depth with
  | O => mret tt
  | S depth' =>
      (let* st := get in
       emit (Broadcast m (PLAYERS st)) ;;;
       let* disconnected_players := send_each (PLAYERS st) in
       for_each disconnected_players
         (unregister_with (broadcast_within depth')))%M
  end.

(** [broadcast] *)
Definition broadcast (m : message) : M unit :=
  fun st => broadcast_within (S (length (PLAYERS st))) m st.

(** [unregister_player] *)
Definition unregister_player (ws : websocket) : M unit :=
  unregister_with broadcast ws.

(** [await websocket.send(...)] outside [broadcast]: the exception of a
    failed send is raised. *)
Definition send (ws : websocket) (m : message) : M unit :=
  (let* o := send_outcome in
   match o with
   | Delivered => emit (Send ws m)
   | ClosedOK => lift (Raise ConnectionClosedOK)
   | Failed => lift (Raise ConnectionClosedError)
   end)%M.

(** [register_player] *)
Definition register_player (ws : websocket) : M unit :=
  (let* st := get in
   let player_id := "player_" +:+ pretty (NEXT_PLAYER_ID st) in
   put (with_next_player_id st (NEXT_PLAYER_ID st + 1)) ;;;
   let* n := random (randint 0 0xFFFFFF) in
   let color := color_code n in
   let* spawn_position := get_random_open_position_on_layer 0 in
   let player_data :=
     {| id := player_id; position := spawn_position; rotation := zero3;
        layer := 0; health := MAX_HEALTH; score := 0; color := color |} in
   let* st := get in
   put (with_players st (players_set (PLAYERS st) ws player_data)) ;;;
   (* the grid position printed for debugging *)
   let* spawn_grid_coords :=
     lift (world_to_grid_coords (vx spawn_position) (vz spawn_position)) in
   let* st := get in
   let existing_players :=
     snd <$> filter (fun wp => negb (Nat.eqb (fst wp) ws)) (PLAYERS st) in
   let* end_position :=
     lift (let* r := end_row in
           let* c := end_col in
           grid_to_world_coords r c (NUM_MAZE_LAYERS - 1))%res in
   send ws (init player_id existing_players GENERATED_MAZE_DATA
              spawn_position end_position) ;;;
   broadcast (player_connected player_data))%M.

(** [respawn_player]: [player_data = PLAYERS[websocket]] raises
    [KeyError] for a connection that is not registered; after it the
    function works through the local variable. *)
Definition respawn_player (ws : websocket) (player_id : string)
    (killer_id : option string) (reset_score : bool) : M unit :=
  (let* player_data := the_player ws in
   (if match killer_id with
       | Some k => negb (String.eqb k "")
       | None => false
       end && reset_score
    then assign ws (fun p => set_score (Z.max 0 (score p - 100)) p)
    else mret tt) ;;;
   let* new_respawn_position := get_random_open_position_on_layer 0 in
   assign ws (set_health MAX_HEALTH) ;;;
   assign ws (set_position new_respawn_position) ;;;
   assign ws (set_layer 0) ;;;
   assign ws (set_rotation zero3) ;;;
   let* p := deref ws in
   broadcast (player_defeated player_id (score p) killer_id) ;;;
   let* p := deref ws in
   broadcast (player_respawned player_id (position p) (layer p) (health p)
                (score p) (color p) (rotation p)))%M.

(** One of the three assignments [d[axis] = float(src.get(axis, d[axis]))]
    of [handle_player_update]. *)
Definition update_axis (ws : websocket) (src : json) (axis : string)
    (read : player -> num) (write : num -> player -> player) : M unit :=
  (let* p := deref ws in
   let arg := match src with
              | JDict kv => match dict_get kv axis with
                            | Some v => v
                            | None => JNum (read p)
                            end
              | _ => JNum (read p)
              end in
   let* f := lift (py_float float_of_string arg) in
   assign ws (write (Float f)))%M.

(** [handle_player_update] *)
Definition handle_player_update (ws : websocket) (data : dict) : M unit :=
  (let* player_data := lookup_player ws in
   match player_data with
   | None => mret tt
   | Some _ =>
       (match dict_get data "position" with
        | Some pos =>
            if is_dict pos then
              update_axis ws pos "x" (fun p => vx (position p))
                (fun n p => set_position (set_vx n (position p)) p) ;;;
              update_axis ws pos "y" (fun p => vy (position p))
                (fun n p => set_position (set_vy n (position p)) p) ;;;
              update_axis ws pos "z" (fun p => vz (position p))
                (fun n p => set_position (set_vz n (position p)) p)
            else mret tt
        | None => mret tt
        end) ;;;
       (match dict_get data "rotation" with
        | Some rot =>
            if is_dict rot then
              update_axis ws rot "x" (fun p => vx (rotation p))
                (fun n p => set_rotation (set_vx n (rotation p)) p) ;;;
              update_axis ws rot "y" (fun p => vy (rotation p))
                (fun n p => set_rotation (set_vy n (rotation p)) p) ;;;
              update_axis ws rot "z" (fun p => vz (rotation p))
                (fun n p => set_rotation (set_vz n (rotation p)) p)
            else mret tt
        | None => mret tt
        end) ;;;
       (match dict_get data "layer" with
        | Some l =>
            let* l := lift (py_int int_of_string l) in
            assign ws (set_layer l)
        | None => mret tt
        end) ;;;
       let* p := deref ws in
       broadcast (player_update (id p) (position p) (rotation p) (layer p))
   end)%M.

(** The dictionary [{"x": float(v["x"]), "y": float(v["y"]), "z": float(v["z"])}]
    of [handle_bullet_fired]. *)
Definition float_vec (v : result json) : result vec3 :=
  (let* fx := (let* v := v in let* x := subscript v "x" in
               py_float float_of_string x) in
   let* fy := (let* v := v in let* y := subscript v "y" in
               py_float float_of_string y) in
   let* fz := (let* v := v in let* z := subscript v "z" in
               py_float float_of_string z) in
   Ok {| vx := Float fx; vy := Float fy; vz := Float fz |})%res.

(** [handle_bullet_fired]; [now] is the time of the event loop. *)
Definition handle_bullet_fired (ws : websocket) (data : dict) (now : float)
  : M unit :=
  (let* player_data := lookup_player ws in
   match player_data with
   | None => mret tt
   | Some p =>
       let* st := get in
       let bullet_id := "bullet_" +:+ pretty (NEXT_BULLET_ID st) in
       put (with_next_bullet_id st (NEXT_BULLET_ID st + 1)) ;;;
       let* start_position :=
         lift (float_vec (subscript (JDict data) "start_position")) in
       let* direction :=
         lift (float_vec (subscript (JDict data) "direction")) in
       let* layer := lift (let* l := subscript (JDict data) "layer" in
                           py_int int_of_string l)%res in
       let bullet_data :=
         {| bullet_id := bullet_id; shooter_id := id p;
            bullet_position := start_position; direction := direction;
            bullet_layer := layer; creation_time := now |} in
       let* st := get in
       put (with_bullets st (BULLETS st ++ [bullet_data])) ;;;
       broadcast (bullet_fired bullet_id (id p) start_position direction layer)
   end)%M.

(** The search loop of [handle_player_hit]: the connection of the first
    player whose id equals [target_id]. *)
Fixpoint find_target (ps : list (websocket * player)) (target_id : json)
  : option (websocket * string) :=
  match ps with
  | [] => None
  | (ws, p) :: ps' =>
      if eq_str target_id (id p) then Some (ws, id p)
      else find_target ps' target_id
  end.

(** [handle_player_hit].  [target_player_data] and [shooter_data] are
    read from [PLAYERS] before the first broadcast; after a broadcast the
    handler goes on through these variables, and only [respawn_player]
    looks the target up again. *)
Definition handle_player_hit (ws : websocket) (data : dict) : M unit :=
  (let target_id := default JNull (dict_get data "target_id") in
   let* shooter := lookup_player ws in
   match shooter with
   | Some sh =>
       if truthy target_id && negb (String.eqb (id sh) "") then
         let shooter_id := id sh in
         let* st := get in
         match find_target (PLAYERS st) target_id with
         | None => print TargetNotFound
         | Some (target_websocket, target_id) =>
             let* target_player_data := the_player target_websocket in
             assign target_websocket
               (fun p => set_health (health p - BULLET_DAMAGE) p) ;;;
             let* shooter_data := the_player ws in
             assign ws (fun p => set_score (score p + 10) p) ;;;
             let* shooter_data := deref ws in
             broadcast (score_update shooter_id (score shooter_data)) ;;;
             let* target_player_data := deref target_websocket in
             broadcast (health_update target_id (health target_player_data)
                          (score target_player_data)) ;;;
             let* target_player_data := deref target_websocket in
             if health target_player_data <=? 0 then
               respawn_player target_websocket target_id (Some shooter_id) true ;;;
               assign ws (fun p => set_score (score p + 500) p) ;;;
               let* shooter_data := deref ws in
               broadcast (score_update shooter_id (score shooter_data))
             else mret tt
         end
       else print InvalidPlayerHit
   | None => print InvalidPlayerHit
   end)%M.

(** [handle_teleport_request] *)
Definition handle_teleport_request (ws : websocket) (data : dict) : M unit :=
  (let* player_data := lookup_player ws in
   match player_data with
   | None => mret tt
   | Some p =>
       match as_int (default JNull (dict_get data "target_layer")) with
       | None => print InvalidTeleportRequest
       | Some target_layer =>
           let* '(r, c) :=
             lift (world_to_grid_coords (vx (position p)) (vz (position p))) in
           let* current_cell_char :=
             lift (let* maze := py_get GENERATED_MAZE_DATA (layer p) in
                   let* row := py_get maze r in
                   py_get row c)%res in
           if Ascii.eqb current_cell_char MazeGenerator.UP
              && (target_layer =? layer p + 1)
              && (target_layer <? NUM_MAZE_LAYERS)
           then
             match
               List.find (fun t => Ascii.eqb (MazeGenerator.tp_type t)
                                     MazeGenerator.DOWN)
                 (default [] (MazeGenerator.teleporter_coords MAZE_GENERATOR
                                !! target_layer))
             with
             | Some teleporter =>
                 let* new_position :=
                   lift (grid_to_world_coords (MazeGenerator.tp_r teleporter)
                           (MazeGenerator.tp_c teleporter) target_layer) in
                 assign ws (set_position new_position) ;;;
                 assign ws (set_layer target_layer) ;;;
                 let* p := deref ws in
                 broadcast (player_update (id p) (position p) (rotation p)
                              (layer p))
             | None => print (NoDownTeleporter target_layer)
             end
           else print InvalidTeleport
       end
   end)%M.

(** [handle_teleport_to_start] *)
Definition handle_teleport_to_start (ws : websocket) : M unit :=
  (let* player_data := lookup_player ws in
   match player_data with
   | None => mret tt
   | Some _ =>
       let* new_respawn_position := get_random_open_position_on_layer 0 in
       assign ws (set_position new_respawn_position) ;;;
       assign ws (set_layer 0) ;;;
       assign ws (set_rotation zero3) ;;;
       let* p := deref ws in
       broadcast (player_update (id p) (position p) (rotation p) (layer p))
   end)%M.

(** [handle_player_reached_end] up to [await asyncio.sleep(3)].  While
    the handler sleeps the inputs of the other connections are handled;
    what it does when the sleep ends is [resume_player_reached_end]. *)
Definition handle_player_reached_end (ws : websocket) : M unit :=
  (let* player_data := lookup_player ws in
   match player_data with
   | None => mret tt
   | Some p =>
       let player_id := id p in
       let* '(r, c) :=
         lift (world_to_grid_coords (vx (position p)) (vz (position p))) in
       let* at_end :=
         lift (if layer p =? NUM_MAZE_LAYERS - 1 then
                 let* er := end_row in
                 if r =? er then
                   let* ec := end_col in Ok (c =? ec)
                 else Ok false
               else Ok false)%res in
       if at_end then
         broadcast (game_win player_id) ;;;
         emit (Sleep 3)
       else print NotAtEnd
   end)%M.

(** The rest of [handle_player_reached_end], from the end of the sleep
    on; [player_id] was read before the sleep. *)
Definition resume_player_reached_end (ws : websocket) (player_id : string)
  : M unit :=
  respawn_player ws player_id (Some "maze"%string) false.

(** The body of the receive loop of [handle_client_messages]: decoding
    and dispatch on [data["type"]]. *)
Definition dispatch (ws : websocket) (message : frame) (now : float) : M unit :=
  (let* data := lift (match message with
                      | Malformed => Raise ValueError
                      | Decoded d => Ok d
                      end) in
   let* ty := lift (subscript data "type") in
   let kv := match data with JDict kv => kv | _ => [] end in
   if eq_str ty "player_update" then handle_player_update ws kv
   else if eq_str ty "bullet_fired" then handle_bullet_fired ws kv now
   else if eq_str ty "player_hit" then handle_player_hit ws kv
   else if eq_str ty "teleport_request" then handle_teleport_request ws kv
   else if eq_str ty "teleport_to_start" then handle_teleport_to_start ws
   else if eq_str ty "player_reached_end" then handle_player_reached_end ws
   else print UnknownMessageType)%M.

(** The [try] of [handle_client_messages] around a step of the receive
    loop.  An exception leaves the loop: it is printed and the [finally]
    clause unregisters the player, after which the connection is closed.
    The result tells whether the connection stays open. *)
Definition guarded (ws : websocket) (m : M unit) : M bool :=
  catch (m ;;; mret true)%M
        (fun e => print (UnexpectedError e) ;;;
                  unregister_player ws ;;;
                  mret false)%M.

(** One turn of the receive loop, up to the return of the handler or to
    its sleep. *)
Definition receive (ws : websocket) (message : frame) (now : float) : M bool :=
  guarded ws (dispatch ws message now).

(** The end of the sleep of [handle_player_reached_end] on the
    connection [ws]. *)
Definition wake (ws : websocket) (player_id : string) : M bool :=
  guarded ws (resume_player_reached_end ws player_id).

(** What reaches the server: a new connection, a frame on a connection,
    the end of the sleep of a handler, the end of a connection. *)
Inductive input : Type :=
| Connect (ws : websocket)
| Receive (ws : websocket) (message : frame) (now : float)
| Wake (ws : websocket) (player_id : string)
| Disconnect (ws : websocket).

Definition serve (i : input) : M unit :=
  match i with
  | Connect ws => register_player ws
  | Receive ws message now => (receive ws message now ;;; mret tt)%M
  | Wake ws player_id => (wake ws player_id ;;; mret tt)%M
  | Disconnect ws => unregister_player ws
  end.

(** A run over a sequence of inputs, each handled up to its return or to
    its sleep; an exception that escapes (from [register_player] only)
    ends the handling of that input. *)
Fixpoint run (inputs : list input) (st : server) : server * list event :=
  match inputs with
  | [] => (st, [])
  | i :: inputs' =>
      let '(_, st1, tr1) := serve i st in
      let '(st2, tr2) := run inputs' st1 in
      (st2, tr1 ++ tr2)
  end.

End Server.

Definition initial (g : rng) (n : net) : server :=
  {| PLAYERS := []; BULLETS := []; NEXT_PLAYER_ID := 0; NEXT_BULLET_ID := 0;
     RANDOM := g; NETWORK := n; DETACHED := [] |}.

(** The message [init], under a name that [MazeGenerator.init] does not
    hide. *)
Abbreviation init_message := init.

(** * Properties *)

(** ** The maze generator *)

Module MazeFacts.
Import MazeGenerator.

(** The cell of a layer at a position, [None] outside the layer. *)
Definition cell_at (m : grid) (r c : nat) : option ascii :=
  match m !! r with
  | Some row => row !! c
  | None => None
  end.

Definition set_at (m : grid) (r c : nat) (x : ascii) : grid :=
  match m !! r with
  | Some row => <[r := <[c := x]> row]> m
  | None => m
  end.

(** Number of cells of a row, and of a layer, that hold [ch]. *)
Definition count_row (ch : ascii) (row : list ascii) : nat :=
  length (filter (λ x, x = ch) row).

Definition count_cell (ch : ascii) (m : grid) : nat :=
  sum_list (count_row ch <$> m).

(** A layer of [h] rows of [w] cells each. *)
Definition dims (h w : nat) (m : grid) : Prop :=
  length m = h ∧ Forall (λ row, length row = w) m.

Definition tick (b : Prop) `{Decision b} : nat := if decide b then 1%nat else 0%nat.

Lemma py_index_valid (len : nat) (i : Z) :
  0 <= i < Z.of_nat len -> py_index len i = Some (Z.to_nat i).
Proof.
  intros [H0 H1]. unfold py_index.
  destruct (Z.leb_spec 0 i); [|lia].
  destruct (Z.ltb_spec i (Z.of_nat len)); [done|lia].
Qed.

Lemma py_get_valid {A} (l : list A) (i : Z) (x : A) :
  0 <= i -> l !! Z.to_nat i = Some x -> py_get l i = Ok x.
Proof.
  intros H0 Hx. unfold py_get.
  apply lookup_lt_Some in Hx as Hlt.
  rewrite py_index_valid by lia. by rewrite Hx.
Qed.

Lemma py_set_valid {A} (l : list A) (i : Z) (x : A) :
  0 <= i < Z.of_nat (length l) -> py_set l i x = Ok (<[Z.to_nat i := x]> l).
Proof. intros H. unfold py_set. by rewrite py_index_valid. Qed.

Lemma get_cell_valid (m : grid) (r c : Z) (x : ascii) :
  0 <= r -> 0 <= c ->
  cell_at m (Z.to_nat r) (Z.to_nat c) = Some x -> get_cell m r c = Ok x.
Proof.
  intros Hr Hc. unfold cell_at, get_cell.
  destruct (m !! Z.to_nat r) as [row|] eqn:Hrow; [|done].
  intros Hx. rewrite (py_get_valid _ _ _ Hr Hrow). simpl.
  by apply py_get_valid.
Qed.

Lemma set_cell_valid (m : grid) (r c : Z) (x : ascii) :
  0 <= r -> 0 <= c ->
  is_Some (cell_at m (Z.to_nat r) (Z.to_nat c)) ->
  set_cell m r c x = Ok (set_at m (Z.to_nat r) (Z.to_nat c) x).
Proof.
  intros Hr Hc [old Hold]. unfold cell_at, set_cell, set_at in *.
  destruct (m !! Z.to_nat r) as [row|] eqn:Hrow; [|done].
  rewrite (py_get_valid _ _ _ Hr Hrow). simpl.
  apply lookup_lt_Some in Hold, Hrow.
  rewrite py_set_valid by lia. simpl.
  by rewrite py_set_valid by lia.
Qed.

Lemma dims_cell (h w : nat) (m : grid) (r c : nat) :
  dims h w m -> (r < h)%nat -> (c < w)%nat -> is_Some (cell_at m r c).
Proof.
  intros [Hh Hw] Hr Hc. unfold cell_at.
  destruct (lookup_lt_is_Some_2 m r) as [row Hrow]; [lia|].
  rewrite Hrow. apply lookup_lt_is_Some_2.
  rewrite Forall_lookup in Hw. rewrite (Hw _ _ Hrow). done.
Qed.

Lemma cell_at_dims (h w : nat) (m : grid) (r c : nat) (x : ascii) :
  dims h w m -> cell_at m r c = Some x -> (r < h)%nat ∧ (c < w)%nat.
Proof.
  intros [Hh Hw]. unfold cell_at.
  destruct (m !! r) as [row|] eqn:Hrow; [|done].
  intros Hx. rewrite Forall_lookup in Hw.
  apply lookup_lt_Some in Hx. rewrite (Hw _ _ Hrow) in Hx.
  apply lookup_lt_Some in Hrow. lia.
Qed.

Lemma dims_set_at (h w : nat) (m : grid) (r c : nat) (x : ascii) :
  dims h w m -> dims h w (set_at m r c x).
Proof.
  intros [Hh Hw]. unfold set_at.
  destruct (m !! r) as [row|] eqn:Hrow; [|done].
  split; [by rewrite length_insert|].
  apply Forall_insert; [done|].
  rewrite length_insert. rewrite Forall_lookup in Hw. by eapply Hw.
Qed.

Lemma cell_at_set_at_eq (m : grid) (r c : nat) (x : ascii) :
  is_Some (cell_at m r c) -> cell_at (set_at m r c x) r c = Some x.
Proof.
  intros [old Hold]. unfold cell_at, set_at in *.
  destruct (m !! r) as [row|] eqn:Hrow; [|done].
  apply lookup_lt_Some in Hrow as Hlt.
  rewrite list_lookup_insert_eq by done.
  apply list_lookup_insert_eq. by eapply lookup_lt_Some.
Qed.

Lemma cell_at_set_at_ne (m : grid) (r c r' c' : nat) (x : ascii) :
  (r, c) ≠ (r', c') -> cell_at (set_at m r c x) r' c' = cell_at m r' c'.
Proof.
  intros Hne. unfold cell_at, set_at.
  destruct (m !! r) as [row|] eqn:Hrow; [|done].
  destruct (decide (r = r')) as [->|Hr].
  - apply lookup_lt_Some in Hrow as Hlt.
    rewrite list_lookup_insert_eq by done. rewrite Hrow.
    apply list_lookup_insert_ne. congruence.
  - by rewrite list_lookup_insert_ne.
Qed.

Lemma count_row_insert (ch : ascii) (row : list ascii) (c : nat) (old x : ascii) :
  row !! c = Some old ->
  (count_row ch (<[c := x]> row) + tick (old = ch)
   = count_row ch row + tick (x = ch))%nat.
Proof.
  unfold count_row, tick. revert c.
  induction row as [|y row IH]; intros [|c] H; simplify_eq/=.
  - rewrite !filter_cons. repeat case_decide; simpl; lia.
  - specialize (IH _ H). rewrite !filter_cons.
    repeat case_decide; simpl in *; lia.
Qed.

Lemma count_cell_set_at (ch : ascii) (m : grid) (r c : nat) (old x : ascii) :
  cell_at m r c = Some old ->
  (count_cell ch (set_at m r c x) + tick (old = ch)
   = count_cell ch m + tick (x = ch))%nat.
Proof.
  unfold cell_at, set_at, count_cell.
  destruct (m !! r) as [row|] eqn:Hrow; [|done].
  intros Hold. pose proof (count_row_insert ch row c old x Hold) as Hc.
  clear Hold. revert r Hrow.
  induction m as [|row0 m IH]; intros [|r] Hrow; simplify_eq/=.
  - lia.
  - specialize (IH _ Hrow). lia.
Qed.

(** A layer that holds walls and open cells only. *)
Definition carved (m : grid) : Prop :=
  ∀ r c x, cell_at m r c = Some x -> x = WALL ∨ x = OPEN.

(** [m'] results from [m] by opening cells. *)
Record opened (h w : nat) (m m' : grid) : Prop := {
  opened_dims : dims h w m';
  opened_carved : carved m';
  opened_walls : (count_cell WALL m' <= count_cell WALL m)%nat;
  opened_opens : (count_cell OPEN m <= count_cell OPEN m')%nat
}.

Lemma opened_refl h w m : dims h w m -> carved m -> opened h w m m.
Proof. by split. Qed.

Lemma opened_trans h w m1 m2 m3 :
  opened h w m1 m2 -> opened h w m2 m3 -> opened h w m1 m3.
Proof. intros [] []. split; [done|done|lia|lia]. Qed.

Lemma carved_set_open (m : grid) (r c : nat) :
  carved m -> carved (set_at m r c OPEN).
Proof.
  intros Hm r' c' x. destruct (decide ((r, c) = (r', c'))) as [[= <- <-]|Hne].
  - destruct (cell_at m r c) as [old|] eqn:Hold.
    + rewrite cell_at_set_at_eq by eauto. intros [= <-]. by right.
    + unfold set_at, cell_at in *.
      destruct (m !! r) as [row|] eqn:Hrow; [|by rewrite Hrow].
      apply lookup_lt_Some in Hrow as Hlt.
      rewrite list_lookup_insert_eq by done.
      rewrite list_insert_ge; [by rewrite Hold|].
      by apply lookup_ge_None.
  - rewrite cell_at_set_at_ne by done. apply Hm.
Qed.

(** Opening a cell of a carved layer. *)
Lemma set_open_opened h w (m : grid) (r c : nat) :
  dims h w m -> carved m -> is_Some (cell_at m r c) ->
  opened h w m (set_at m r c OPEN).
Proof.
  intros Hd Hm [old Hold]. split.
  - by apply dims_set_at.
  - by apply carved_set_open.
  - pose proof (count_cell_set_at WALL m r c old OPEN Hold) as H.
    unfold tick in H. repeat case_decide; try done; lia.
  - pose proof (count_cell_set_at OPEN m r c old OPEN Hold) as H.
    unfold tick in H. repeat case_decide; try done; lia.
Qed.

Lemma set_open_wall (m : grid) (r c : nat) :
  cell_at m r c = Some WALL ->
  count_cell WALL (set_at m r c OPEN) = pred (count_cell WALL m)
  ∧ (0 < count_cell WALL m)%nat
  ∧ count_cell OPEN (set_at m r c OPEN) = S (count_cell OPEN m).
Proof.
  intros Hold.
  pose proof (count_cell_set_at WALL m r c WALL OPEN Hold) as H1.
  pose proof (count_cell_set_at OPEN m r c WALL OPEN Hold) as H2.
  unfold tick in *. repeat case_decide; try done; lia.
Qed.

Section Loop.
Variable self : t.
Variable rec : Z -> Z -> grid -> Gen grid.
Variable d : nat.

Local Abbreviation h := (Z.to_nat (height self)).
Local Abbreviation w := (Z.to_nat (width self)).

(** What a call of [_carve_path] on a wall cell achieves. *)
Definition carve_spec (f : Z -> Z -> grid -> Gen grid) (bound : nat) : Prop :=
  ∀ r c m g,
    dims h w m -> carved m -> _is_valid self r c = true ->
    cell_at m (Z.to_nat r) (Z.to_nat c) = Some WALL ->
    (count_cell WALL m <= bound)%nat ->
    ∃ m' g', f r c m g = Ok (m', g') ∧ opened h w m m'
             ∧ (count_cell WALL m' < count_cell WALL m)%nat
             ∧ (count_cell OPEN m < count_cell OPEN m')%nat.

Hypothesis Hrec : carve_spec rec d.

Lemma is_valid_spec r c :
  _is_valid self r c = true <-> 0 <= r < height self ∧ 0 <= c < width self.
Proof. unfold _is_valid. rewrite !andb_true_iff. lia. Qed.

Lemma is_valid_cell m r c :
  dims h w m -> _is_valid self r c = true ->
  is_Some (cell_at m (Z.to_nat r) (Z.to_nat c)) ∧ 0 <= r ∧ 0 <= c.
Proof.
  intros Hd Hv%is_valid_spec. split; [|lia].
  eapply dims_cell; [done|lia|lia].
Qed.

Lemma mid_valid r c dr dc :
  (dr, dc) ∈ directions ->
  _is_valid self r c = true -> _is_valid self (r + dr) (c + dc) = true ->
  _is_valid self (r + dr / 2) (c + dc / 2) = true
  ∧ (r + dr / 2, c + dc / 2) ≠ (r, c)
  ∧ (r + dr / 2, c + dc / 2) ≠ (r + dr, c + dc)
  ∧ (r + dr, c + dc) ≠ (r, c).
Proof.
  rewrite !is_valid_spec. unfold directions. intros Hin.
  repeat (apply elem_of_cons in Hin as [[= -> ->]|Hin]);
    [..|by apply elem_of_nil in Hin];
    (change (2 / 2) with 1; change (-2 / 2) with (-1); change (0 / 2) with 0);
    intros ? ?; (split; [lia|]); repeat split; intros [=]; lia.
Qed.

(** The loop opens cells and nothing else. *)
Lemma carve_directions_opened dirs r c m g :
  dirs ⊆ directions ->
  dims h w m -> carved m -> _is_valid self r c = true ->
  (count_cell WALL m <= d)%nat ->
  ∃ m' g', carve_directions self rec dirs r c m g = Ok (m', g')
           ∧ opened h w m m'.
Proof.
  revert m g. induction dirs as [|[dr dc] dirs IH]; intros m g Hsub Hd Hm Hv Hb.
  - exists m, g. split; [done|by apply opened_refl].
  - assert (Hin : (dr, dc) ∈ directions) by (apply Hsub; left).
    assert (Hsub' : dirs ⊆ directions) by (intros x Hx; apply Hsub; by right).
    simpl. destruct (_is_valid self (r + dr) (c + dc)) eqn:Hv'; [|by apply IH].
    destruct (is_valid_cell m _ _ Hd Hv') as ([x Hx] & Hr0 & Hc0).
    unfold gbind at 1. rewrite (get_cell_valid _ _ _ _ Hr0 Hc0 Hx). simpl.
    destruct (Ascii.eqb_spec x WALL) as [->|Hnw]; [|by apply IH].
    destruct (mid_valid r c dr dc Hin Hv Hv') as (Hmv & Hne1 & Hne2 & Hne3).
    destruct (is_valid_cell m _ _ Hd Hmv) as (Hmid & Hr1 & Hc1).
    unfold gbind at 1. rewrite (set_cell_valid _ _ _ _ Hr1 Hc1 Hmid). simpl.
    set (m1 := set_at m _ _ OPEN).
    assert (Ho1 : opened h w m m1) by (by apply set_open_opened).
    destruct (Hrec (r + dr) (c + dc) m1 g) as (m2 & g2 & Hcall & Ho2 & Hw2 & Hop2).
    + apply Ho1.
    + apply Ho1.
    + done.
    + subst m1. rewrite cell_at_set_at_ne; [done|].
      intros [= E1 E2]. apply Hne2. f_equal; lia.
    + destruct Ho1. lia.
    + unfold gbind at 1. rewrite Hcall.
      destruct (IH m2 g2) as (m3 & g3 & Hloop & Ho3); try done.
      * apply Ho2.
      * apply Ho2.
      * destruct Ho1, Ho2. lia.
      * exists m3, g3. split; [done|].
        eapply opened_trans; [exact Ho1|]. by eapply opened_trans.
Qed.

(** On a layer whose cells other than [(r, c)] are all walls, the loop
    opens at least two more cells as soon as one direction stays inside
    the grid. *)
Lemma carve_directions_first dirs r c m g :
  dirs ⊆ directions ->
  dims h w m -> carved m -> _is_valid self r c = true ->
  (count_cell WALL m <= d)%nat ->
  (∀ r' c' x, (r', c') ≠ (Z.to_nat r, Z.to_nat c) ->
              cell_at m r' c' = Some x -> x = WALL) ->
  (∃ dr dc, (dr, dc) ∈ dirs ∧ _is_valid self (r + dr) (c + dc) = true) ->
  ∃ m' g', carve_directions self rec dirs r c m g = Ok (m', g')
           ∧ opened h w m m'
           ∧ (count_cell OPEN m + 2 <= count_cell OPEN m')%nat.
Proof.
  revert g. induction dirs as [|[dr dc] dirs IH]; intros g Hsub Hd Hm Hv Hb Hall Hex.
  - destruct Hex as (? & ? & []%elem_of_nil & _).
  - assert (Hin : (dr, dc) ∈ directions) by (apply Hsub; left).
    assert (Hsub' : dirs ⊆ directions) by (intros x Hx; apply Hsub; by right).
    simpl. destruct (_is_valid self (r + dr) (c + dc)) eqn:Hv'.
    + destruct (is_valid_cell m _ _ Hd Hv') as ([x Hx] & Hr0 & Hc0).
      destruct (mid_valid r c dr dc Hin Hv Hv') as (Hmv & Hne1 & Hne2 & Hne3).
      apply is_valid_spec in Hv as Hvr.
      assert (x = WALL) as ->.
      { eapply Hall; [|exact Hx]. intros [= E1 E2]. apply Hne3. f_equal; lia. }
      unfold gbind at 1. rewrite (get_cell_valid _ _ _ _ Hr0 Hc0 Hx). simpl.
      destruct (is_valid_cell m _ _ Hd Hmv) as ([y Hy] & Hr1 & Hc1).
      assert (y = WALL) as ->.
      { eapply Hall; [|exact Hy]. intros [= E1 E2]. apply Hne1. f_equal; lia. }
      unfold gbind at 1.
      rewrite (set_cell_valid _ _ _ _ Hr1 Hc1) by eauto. simpl.
      set (m1 := set_at m _ _ OPEN).
      assert (Ho1 : opened h w m m1) by (apply set_open_opened; eauto).
      destruct (set_open_wall _ _ _ Hy) as (_ & _ & Hop1). fold m1 in Hop1.
      destruct (Hrec (r + dr) (c + dc) m1 g) as (m2 & g2 & Hcall & Ho2 & Hw2 & Hop2).
      * apply Ho1.
      * apply Ho1.
      * done.
      * subst m1. rewrite cell_at_set_at_ne; [done|].
        intros [= E1 E2]. apply Hne2. f_equal; lia.
      * destruct Ho1. lia.
      * unfold gbind at 1. rewrite Hcall.
        destruct (carve_directions_opened dirs r c m2 g2)
          as (m3 & g3 & Hloop & Ho3); try done.
        -- apply Ho2.
        -- apply Ho2.
        -- destruct Ho1, Ho2. lia.
        -- exists m3, g3. split; [done|]. split.
           ++ eapply opened_trans; [exact Ho1|]. by eapply opened_trans.
           ++ destruct Ho3. lia.
    + apply IH; try done.
      destruct Hex as (dr' & dc' & Hin' & Hv'').
      apply elem_of_cons in Hin' as [[= -> ->]|Hin']; [congruence|eauto].
Qed.

End Loop.

Lemma swap_perm {A} (x : list A) (i j : nat) : swap x i j ≡ₚ x.
Proof.
  unfold swap. destruct (x !! i) as [a|] eqn:Ha; [|done].
  destruct (x !! j) as [b|] eqn:Hb; [|done].
  by apply Permutation_insert_swap.
Qed.

Lemma shuffle_from_perm {A} (i : nat) (x : list A) (g : rng) :
  (shuffle_from i x g).1 ≡ₚ x.
Proof.
  revert x g. induction i as [|i IH]; intros x g; [done|].
  simpl. rewrite IH. apply swap_perm.
Qed.

Lemma shuffle_perm {A} (x : list A) (g : rng) :
  ∃ y g', shuffle x g = Ok (y, g') ∧ y ≡ₚ x.
Proof.
  unfold shuffle. destruct (shuffle_from _ x g) as [y g'] eqn:E.
  exists y, g'. split; [done|].
  change y with (y, g').1. rewrite <- E. apply shuffle_from_perm.
Qed.

Lemma count_row_le ch row : (count_row ch row <= length row)%nat.
Proof. unfold count_row. apply length_filter. Qed.

Lemma count_cell_le h w ch m :
  dims h w m -> (count_cell ch m <= h * w)%nat.
Proof.
  intros [<- Hw]. unfold count_cell.
  induction Hw as [|row m Hrow Hw IH]; csimpl; [lia|].
  pose proof (count_row_le ch row). lia.
Qed.

Lemma count_row_pos ch row :
  (0 < count_row ch row)%nat -> ∃ c, row !! c = Some ch.
Proof.
  unfold count_row. induction row as [|x row IH]; simpl; [lia|].
  rewrite filter_cons. case_decide as Hx.
  - subst. intros _. by exists 0%nat.
  - intros [c Hc]%IH. by exists (S c).
Qed.

Lemma count_cell_pos ch m :
  (0 < count_cell ch m)%nat -> ∃ r c, cell_at m r c = Some ch.
Proof.
  unfold count_cell, cell_at. induction m as [|row m IH]; csimpl; [lia|].
  destruct (count_row ch row) eqn:E.
  - intros (r & c & H)%IH. by exists (S r), c.
  - intros _. destruct (count_row_pos ch row) as [c Hc]; [lia|].
    by exists 0%nat, c.
Qed.

Lemma carved_count ch m :
  carved m -> ch ≠ WALL -> ch ≠ OPEN -> count_cell ch m = 0%nat.
Proof.
  intros Hm H1 H2. destruct (count_cell ch m) eqn:E; [done|].
  destruct (count_cell_pos ch m) as (r & c & H); [lia|].
  by destruct (Hm _ _ _ H).
Qed.

(** The layer of walls [generate] starts from. *)
Definition all_walls (self : t) : grid :=
  (fun _ => (fun _ => WALL) <$> range (width self)) <$> range (height self).

Lemma length_range n : length (range n) = Z.to_nat n.
Proof. unfold range. by rewrite length_fmap, length_seq. Qed.

Lemma elem_of_range n i : i ∈ range n <-> 0 <= i < n.
Proof.
  unfold range. rewrite list_elem_of_fmap. split.
  - intros (k & -> & Hk%elem_of_seq). lia.
  - intros H. exists (Z.to_nat i). split; [lia|]. apply elem_of_seq. lia.
Qed.

Lemma all_walls_eq self :
  all_walls self
  = replicate (Z.to_nat (height self)) (replicate (Z.to_nat (width self)) WALL).
Proof.
  unfold all_walls.
  rewrite (const_fmap _ (range (height self))
             (replicate (Z.to_nat (width self)) WALL)).
  - by rewrite length_range.
  - intros ?. simpl. rewrite (const_fmap _ (range (width self)) WALL) by done.
    by rewrite length_range.
Qed.

Lemma all_walls_cell self r c x :
  cell_at (all_walls self) r c = Some x -> x = WALL.
Proof.
  rewrite all_walls_eq. unfold cell_at.
  destruct (replicate _ _ !! r) as [row|] eqn:Hrow; [|done].
  apply lookup_replicate in Hrow as [-> _].
  by intros [-> _]%lookup_replicate.
Qed.

Lemma all_walls_dims self :
  dims (Z.to_nat (height self)) (Z.to_nat (width self)) (all_walls self).
Proof.
  rewrite all_walls_eq. split; [by rewrite length_replicate|].
  apply Forall_replicate. by rewrite length_replicate.
Qed.

Lemma all_walls_carved self : carved (all_walls self).
Proof. intros r c x ->%all_walls_cell. by left. Qed.

Lemma all_walls_opens self : count_cell OPEN (all_walls self) = 0%nat.
Proof.
  destruct (count_cell OPEN (all_walls self)) eqn:E; [done|].
  destruct (count_cell_pos OPEN (all_walls self)) as (r & c & H); [lia|].
  by apply all_walls_cell in H.
Qed.

(** [_carve_path] on a wall cell terminates within the depth the walls of
    the layer allow, and opens at least that cell. *)
Lemma carve_path_spec self d : carve_spec self (_carve_path self d) d.
Proof.
  induction d as [|d IH]; intros r c m g Hd Hm Hv Hcell Hb.
  - destruct (set_open_wall _ _ _ Hcell) as (_ & ? & _). lia.
  - simpl. destruct (is_valid_cell self m _ _ Hd Hv) as (Hsome & Hr0 & Hc0).
    unfold gbind at 1. rewrite (set_cell_valid _ _ _ _ Hr0 Hc0 Hsome). simpl.
    set (m1 := set_at m _ _ OPEN).
    assert (Ho1 : opened (Z.to_nat (height self)) (Z.to_nat (width self)) m m1)
      by (by apply set_open_opened).
    destruct (set_open_wall _ _ _ Hcell) as (Hw1 & Hpos & Hop1).
    fold m1 in Hw1, Hop1.
    destruct (shuffle_perm directions g) as (dirs & g1 & Hsh & Hperm).
    unfold gbind at 1. rewrite Hsh.
    destruct (carve_directions_opened self _ d IH dirs r c m1 g1)
      as (m2 & g2 & Hloop & Ho2).
    + intros x Hx. by rewrite <- Hperm.
    + apply Ho1.
    + apply Ho1.
    + done.
    + lia.
    + exists m2, g2. split; [done|]. split; [by eapply opened_trans|].
      destruct Ho2. lia.
Qed.

(** The first call of [_carve_path] on a layer of walls: at least three
    cells are open afterwards when some direction stays inside the grid. *)
Lemma carve_path_all_walls self depth r c g :
  _is_valid self r c = true ->
  (Z.to_nat (height self) * Z.to_nat (width self) <= depth)%nat ->
  (∃ dr dc, (dr, dc) ∈ directions ∧ _is_valid self (r + dr) (c + dc) = true) ->
  ∃ m' g', _carve_path self depth r c (all_walls self) g = Ok (m', g')
           ∧ dims (Z.to_nat (height self)) (Z.to_nat (width self)) m'
           ∧ carved m'
           ∧ (3 <= count_cell OPEN m')%nat.
Proof.
  intros Hv Hdepth (dr & dc & Hin & Hv').
  pose proof (all_walls_dims self) as Hd.
  pose proof (all_walls_carved self) as Hm.
  destruct (is_valid_cell self _ _ _ Hd Hv) as ([x Hx] & Hr0 & Hc0).
  assert (x = WALL) as -> by (by eapply all_walls_cell).
  destruct depth as [|d].
  { destruct (set_open_wall _ _ _ Hx) as (_ & ? & _).
    pose proof (count_cell_le _ _ WALL _ Hd). lia. }
  simpl. unfold gbind at 1.
  rewrite (set_cell_valid _ _ _ _ Hr0 Hc0) by eauto. simpl.
  set (m1 := set_at _ _ _ OPEN).
  assert (Ho1 : opened (Z.to_nat (height self)) (Z.to_nat (width self))
                  (all_walls self) m1) by (apply set_open_opened; eauto).
  destruct (set_open_wall _ _ _ Hx) as (Hw1 & Hpos & Hop1).
  fold m1 in Hw1, Hop1.
  destruct (shuffle_perm directions g) as (dirs & g1 & Hsh & Hperm).
  unfold gbind at 1. rewrite Hsh.
  destruct (carve_directions_first self _ d (carve_path_spec self d) dirs r c m1 g1)
    as (m2 & g2 & Hloop & Ho2 & Hop2).
  - intros y Hy. by rewrite <- Hperm.
  - apply Ho1.
  - apply Ho1.
  - done.
  - pose proof (count_cell_le _ _ WALL _ Hd). lia.
  - intros r' c' y Hne. subst m1. rewrite cell_at_set_at_ne by done.
    apply all_walls_cell.
  - exists dr, dc. by rewrite Hperm.
  - exists m2, g2. split; [done|]. split; [apply Ho2|]. split; [apply Ho2|].
    rewrite all_walls_opens in Hop1. lia.
Qed.

Lemma randbelow_lt (n : nat) (g : rng) (k : nat) (g' : rng) :
  randbelow n g = (k, g') -> (0 < n)%nat -> (k < n)%nat.
Proof.
  unfold randbelow. intros [= <- _] ?. apply Nat.mod_upper_bound. lia.
Qed.

Lemma randrange_step2_spec (stop : Z) (g : rng) :
  2 <= stop ->
  ∃ r g', randrange_step2 1 stop g = Ok (r, g') ∧ 1 <= r < stop.
Proof.
  intros H. unfold randrange_step2.
  replace (stop - 1 + 1) with stop by lia.
  assert (0 < stop / 2) by (apply Z.div_str_pos; lia).
  destruct (Z.ltb_spec 0 (stop / 2)); [|lia].
  destruct (randbelow _ g) as [k g'] eqn:E. exists (1 + 2 * Z.of_nat k), g'.
  split; [done|].
  assert (k < Z.to_nat (stop / 2))%nat.
  { apply (randbelow_lt _ _ _ _ E). lia. }
  pose proof (Z.mul_div_le stop 2). lia.
Qed.

Lemma choice_spec {A} (l : list A) (g : rng) :
  l ≠ [] -> ∃ x g', choice l g = Ok (x, g') ∧ x ∈ l.
Proof.
  intros Hl. unfold choice. destruct l as [|a l]; [done|].
  destruct (randbelow _ g) as [k g'] eqn:E.
  assert (k < length (a :: l))%nat as Hk.
  { apply (randbelow_lt _ _ _ _ E). simpl. lia. }
  destruct (lookup_lt_is_Some_2 _ _ Hk) as [x Hx]. rewrite Hx.
  exists x, g'. split; [done|]. by eapply list_elem_of_lookup_2.
Qed.

Section Scan.
Variables (h w : nat) (m : grid).
Hypothesis Hd : dims h w m.

Definition is_open_at (p : Z * Z) : Prop :=
  cell_at m (Z.to_nat p.1) (Z.to_nat p.2) = Some OPEN.

Lemma scan_row_spec r cols acc :
  0 <= r < Z.of_nat h -> (∀ c, c ∈ cols -> 0 <= c < Z.of_nat w) ->
  ∃ acc', scan_row m r cols acc = Ok acc'
          ∧ ∀ p, p ∈ acc' <-> p ∈ acc ∨ (p.1 = r ∧ p.2 ∈ cols ∧ is_open_at p).
Proof.
  intros Hr. revert acc. induction cols as [|c cols IH]; intros acc Hcols.
  - exists acc. split; [done|]. intros p. split; [by left|].
    intros [?|(_ & []%elem_of_nil & _)]; done.
  - simpl.
    assert (0 <= c < Z.of_nat w) as Hc by (apply Hcols; left).
    destruct (dims_cell h w m (Z.to_nat r) (Z.to_nat c) Hd) as [x Hx]; [lia..|].
    rewrite (get_cell_valid m r c x) by (done || lia). simpl.
    edestruct IH as (acc' & -> & Hacc').
    { intros c' Hc'. apply Hcols. by right. }
    exists acc'. split; [done|]. intros [pr pc]. rewrite Hacc'.
    unfold is_open_at. simpl. rewrite elem_of_cons.
    destruct (Ascii.eqb_spec x OPEN) as [->|Hne].
    + rewrite elem_of_app, list_elem_of_singleton. split.
      * intros [[?|[= -> ->]]|(-> & ? & ?)]; eauto 6.
      * intros [?|(-> & [->|?] & ?)]; eauto 6.
    + split.
      * intros [?|(-> & ? & ?)]; eauto 6.
      * intros [?|(-> & [->|?] & ?)]; eauto 6. congruence.
Qed.

Lemma scan_rows_spec rows cols acc :
  (∀ r, r ∈ rows -> 0 <= r < Z.of_nat h) ->
  (∀ c, c ∈ cols -> 0 <= c < Z.of_nat w) ->
  ∃ acc', scan_rows m rows cols acc = Ok acc'
          ∧ ∀ p, p ∈ acc' <-> p ∈ acc ∨ (p.1 ∈ rows ∧ p.2 ∈ cols ∧ is_open_at p).
Proof.
  revert acc. induction rows as [|r rows IH]; intros acc Hrows Hcols.
  - exists acc. split; [done|]. intros p. split; [by left|].
    intros [?|([]%elem_of_nil & _)]; done.
  - simpl. destruct (scan_row_spec r cols acc) as (acc1 & -> & Hacc1);
      [apply Hrows; left|done|]. simpl.
    edestruct (IH acc1) as (acc' & -> & Hacc'); [|done|].
    { intros r' Hr'. apply Hrows. by right. }
    exists acc'. split; [done|]. intros p. rewrite Hacc', Hacc1, elem_of_cons.
    split.
    + intros [[?|(-> & ? & ?)]|(? & ? & ?)]; eauto 7.
    + intros [?|([->|?] & ? & ?)]; eauto 7.
Qed.

(** [open_spots] returns the positions of the open cells. *)
Lemma open_spots_spec :
  ∃ spots, open_spots (Z.of_nat h) (Z.of_nat w) m = Ok spots
           ∧ ∀ p, p ∈ spots <->
                  0 <= p.1 < Z.of_nat h ∧ 0 <= p.2 < Z.of_nat w ∧ is_open_at p.
Proof.
  unfold open_spots.
  destruct (scan_rows_spec (range (Z.of_nat h)) (range (Z.of_nat w)) [])
    as (spots & -> & Hspots).
  - intros r. by rewrite elem_of_range.
  - intros c. by rewrite elem_of_range.
  - exists spots. split; [done|]. intros p.
    rewrite Hspots, !elem_of_range. split; [|by right].
    intros [[]%elem_of_nil|?]; done.
Qed.

Lemma open_spots_nonempty spots :
  open_spots (Z.of_nat h) (Z.of_nat w) m = Ok spots ->
  (0 < count_cell OPEN m)%nat -> spots ≠ [].
Proof.
  intros Hs Hpos. destruct open_spots_spec as (spots' & Hs' & Hspec).
  rewrite Hs in Hs'. injection Hs' as <-.
  destruct (count_cell_pos OPEN m Hpos) as (r & c & Hcell).
  destruct (cell_at_dims h w m r c OPEN Hd Hcell) as [Hr Hc].
  assert ((Z.of_nat r, Z.of_nat c) ∈ spots) as Hin.
  { apply Hspec. unfold is_open_at. simpl. rewrite !Nat2Z.id.
    split; [lia|]. split; [lia|done]. }
  intros ->. by apply elem_of_nil in Hin.
Qed.

End Scan.

(** Relabelling a random open cell of layer [l]: the three steps shared by
    the placements of [generate]. *)
Lemma relabel_spec (h w : nat) (mazes : list grid) (l : nat) (m : grid)
    (mark : ascii) (g : rng) :
  mazes !! l = Some m -> dims h w m -> (0 < count_cell OPEN m)%nat ->
  ∃ spots p g' m',
    open_spots (Z.of_nat h) (Z.of_nat w) m = Ok spots ∧ spots ≠ []
    ∧ choice spots g = Ok (p, g')
    ∧ set_maze_cell mazes (Z.of_nat l) p.1 p.2 mark = Ok (<[l := m']> mazes)
    ∧ m' = set_at m (Z.to_nat p.1) (Z.to_nat p.2) mark
    ∧ 0 <= p.1 ∧ 0 <= p.2
    ∧ cell_at m (Z.to_nat p.1) (Z.to_nat p.2) = Some OPEN.
Proof.
  intros Hl Hd Hpos.
  destruct (open_spots_spec h w m Hd) as (spots & Hs & Hspec).
  pose proof (open_spots_nonempty h w m Hd spots Hs Hpos) as Hne.
  destruct (choice_spec spots g Hne) as (p & g' & Hch & Hin).
  apply Hspec in Hin as (Hr & Hc & Hopen).
  exists spots, p, g', (set_at m (Z.to_nat p.1) (Z.to_nat p.2) mark).
  repeat split; try done; try lia.
  unfold set_maze_cell.
  rewrite (py_get_valid mazes (Z.of_nat l) m) by (lia || by rewrite Nat2Z.id).
  simpl. rewrite set_cell_valid by (lia || eauto). simpl.
  apply lookup_lt_Some in Hl.
  rewrite py_set_valid by lia. by rewrite Nat2Z.id.
Qed.

Lemma relabel_counts (m : grid) (r c : nat) (mark ch : ascii) :
  cell_at m r c = Some OPEN -> mark ≠ OPEN ->
  (count_cell OPEN (set_at m r c mark) + 1 = count_cell OPEN m)%nat
  ∧ (ch ≠ OPEN ->
     count_cell ch (set_at m r c mark) = (count_cell ch m + tick (mark = ch))%nat).
Proof.
  intros Hcell Hmark. split.
  - pose proof (count_cell_set_at OPEN m r c OPEN mark Hcell) as H.
    unfold tick in H. repeat case_decide; try done; lia.
  - intros Hch. pose proof (count_cell_set_at ch m r c OPEN mark Hcell) as H.
    unfold tick in *. repeat case_decide; try done; lia.
Qed.

(** A freshly carved layer: walls and open cells only, at least three of
    them open. *)
Definition fresh_layer (h w : nat) (m : grid) : Prop :=
  dims h w m ∧ carved m ∧ (3 <= count_cell OPEN m)%nat.

Lemma direction_inside self r c :
  1 <= r < height self -> 1 <= c < width self ->
  5 <= height self ∨ 5 <= width self ->
  ∃ dr dc, (dr, dc) ∈ directions ∧ _is_valid self (r + dr) (c + dc) = true.
Proof.
  intros Hr Hc [Hh|Hw].
  - destruct (decide (r = 1)) as [->|].
    + exists 2, 0. split; [unfold directions; by repeat constructor|]. apply is_valid_spec. lia.
    + exists (-2), 0. split; [unfold directions; by repeat constructor|]. apply is_valid_spec. lia.
  - destruct (decide (c = 1)) as [->|].
    + exists 0, 2. split; [unfold directions; by repeat constructor|]. apply is_valid_spec. lia.
    + exists 0, (-2). split; [unfold directions; by repeat constructor|]. apply is_valid_spec. lia.
Qed.

Lemma carve_layers_spec self depth idx mazes g :
  3 <= height self -> 3 <= width self ->
  5 <= height self ∨ 5 <= width self ->
  (Z.to_nat (height self) * Z.to_nat (width self) <= depth)%nat ->
  Forall (fresh_layer (Z.to_nat (height self)) (Z.to_nat (width self))) mazes ->
  ∃ mazes' g',
    carve_layers self depth idx mazes g = Ok (mazes', g')
    ∧ length mazes' = (length mazes + length idx)%nat
    ∧ Forall (fresh_layer (Z.to_nat (height self)) (Z.to_nat (width self))) mazes'.
Proof.
  intros Hh Hw Hbig Hdepth. revert mazes g.
  induction idx as [|i idx IH]; intros mazes g Hall.
  - exists mazes, g. simpl. split; [done|]. split; [lia|done].
  - simpl. fold (all_walls self).
    destruct (randrange_step2_spec (height self) g) as (r & g1 & Hr' & Hr); [lia|].
    unfold gbind at 1. rewrite Hr'.
    destruct (randrange_step2_spec (width self) g1) as (c & g2 & Hc' & Hc); [lia|].
    unfold gbind at 1. rewrite Hc'.
    destruct (carve_path_all_walls self depth r c g2)
      as (m & g3 & Hcarve & Hd & Hm & Hop).
    + apply is_valid_spec. lia.
    + done.
    + by apply direction_inside.
    + unfold gbind at 1. rewrite Hcarve.
      destruct (IH (mazes ++ [m]) g3) as (mazes' & g' & Hrest & Hlen & Hall').
      * apply Forall_app. split; [done|]. by apply Forall_singleton.
      * exists mazes', g'. split; [done|]. split; [|done].
        rewrite Hlen, length_app. simpl. lia.
Qed.

Lemma place_mark_spec self (h w : nat) (mazes : list grid) (l : nat)
    (m : grid) (mark : ascii) (g : rng) :
  height self = Z.of_nat h -> width self = Z.of_nat w ->
  mazes !! l = Some m -> dims h w m -> (0 < count_cell OPEN m)%nat ->
  ∃ p spots g',
    place_mark self mazes (Z.of_nat l) mark g
    = Ok (<[l := set_at m (Z.to_nat p.1) (Z.to_nat p.2) mark]> mazes, p, spots, g')
    ∧ 0 <= p.1 ∧ 0 <= p.2
    ∧ cell_at m (Z.to_nat p.1) (Z.to_nat p.2) = Some OPEN.
Proof.
  intros Hh Hw Hl Hd Hpos.
  destruct (relabel_spec h w mazes l m mark g Hl Hd Hpos)
    as (spots & [pr pc] & g' & m' & Hs & Hne & Hch & Hset & -> & H1 & H2 & Hcell).
  exists (pr, pc), spots, g'. split; [|done].
  unfold place_mark. unfold gbind at 1.
  rewrite (py_get_valid mazes (Z.of_nat l) m) by (lia || by rewrite Nat2Z.id).
  simpl. unfold gbind at 1. rewrite Hh, Hw, Hs. simpl.
  destruct spots as [|s spots]; [done|].
  unfold gbind at 1. rewrite Hch. unfold gbind at 1.
  simpl in Hset. rewrite Hset. done.
Qed.

Lemma place_teleporter_spec self (h w : nat) (l : nat) (m : grid)
    (kind : ascii) (entry : list teleporter) (g : rng) :
  height self = Z.of_nat h -> width self = Z.of_nat w ->
  mazes self !! l = Some m -> dims h w m -> (0 < count_cell OPEN m)%nat ->
  teleporter_coords self !! Z.of_nat l = Some entry ->
  ∃ p g',
    place_teleporter self (Z.of_nat l) kind g
    = Ok (with_teleporter_coords
            (with_mazes self
               (<[l := set_at m (Z.to_nat p.1) (Z.to_nat p.2) kind]> (mazes self)))
            (<[Z.of_nat l :=
                 entry ++ [{| tp_r := p.1; tp_c := p.2; tp_type := kind |}]]>
               (teleporter_coords self)), g')
    ∧ 0 <= p.1 ∧ 0 <= p.2
    ∧ cell_at m (Z.to_nat p.1) (Z.to_nat p.2) = Some OPEN.
Proof.
  intros Hh Hw Hl Hd Hpos Hentry.
  destruct (relabel_spec h w (mazes self) l m kind g Hl Hd Hpos)
    as (spots & [pr pc] & g' & m' & Hs & Hne & Hch & Hset & -> & H1 & H2 & Hcell).
  exists (pr, pc), g'. split; [|done].
  unfold place_teleporter. unfold gbind at 1.
  rewrite (py_get_valid (mazes self) (Z.of_nat l) m)
    by (lia || by rewrite Nat2Z.id).
  simpl. unfold gbind at 1. rewrite Hh, Hw, Hs. simpl.
  destruct spots as [|s spots]; [done|].
  unfold gbind at 1. rewrite Hch. unfold gbind at 1.
  simpl in Hset. rewrite Hset. simpl.
  unfold gbind at 1. rewrite Hentry. done.
Qed.

Section Generate.
Variables (h w n : nat).

(** The generator works on [n] layers of [h] rows and [w] columns. *)
Definition shape (self : t) : Prop :=
  height self = Z.of_nat h ∧ width self = Z.of_nat w
  ∧ num_layers self = Z.of_nat n.

(** Layer [l] before its turn in the teleporter loop. *)
Definition pending (l : nat) (m : grid) : Prop :=
  dims h w m
  ∧ count_cell START m = tick (l = 0%nat)
  ∧ count_cell END m = tick (S l = n)
  ∧ count_cell UP m = 0%nat
  ∧ count_cell DOWN m = 0%nat
  ∧ (3 <= count_cell OPEN m + tick (l = 0%nat) + tick (S l = n))%nat.

(** [teleporter_coords[l]] ends with the position of the ['l'] cell of
    layer [l], and holds no other entry of that type. *)
Definition down_recorded (tc : gmap Z (list teleporter)) (l : nat)
    (m : grid) : Prop :=
  ∃ pre r c,
    tc !! Z.of_nat l = Some (pre ++ [{| tp_r := r; tp_c := c; tp_type := DOWN |}])
    ∧ Forall (λ e, tp_type e ≠ DOWN) pre
    ∧ 0 <= r ∧ 0 <= c
    ∧ cell_at m (Z.to_nat r) (Z.to_nat c) = Some DOWN.

(** Layer [l] of the finished maze set. *)
Definition placed (tc : gmap Z (list teleporter)) (l : nat) (m : grid)
  : Prop :=
  dims h w m
  ∧ count_cell START m = tick (l = 0%nat)
  ∧ count_cell END m = tick (S l = n)
  ∧ count_cell UP m = tick (S l < n)%nat
  ∧ count_cell DOWN m = tick (0 < l)%nat
  ∧ (1 <= count_cell OPEN m)%nat
  ∧ ((0 < l)%nat -> down_recorded tc l m).

Definition loop_inv (ls : list Z) (self : t) : Prop :=
  shape self ∧ length (mazes self) = n
  ∧ ∀ l m, mazes self !! l = Some m ->
      (Z.of_nat l ∈ ls -> pending l m)
      ∧ (Z.of_nat l ∉ ls -> placed (teleporter_coords self) l m).

(** One guarded placement of the teleporter loop. *)
Lemma guarded_placement (b : bool) self (l : nat) (m : grid) (kind : ascii)
    (entry : list teleporter) (g : rng) :
  shape self -> mazes self !! l = Some m -> dims h w m ->
  (b = true -> (0 < count_cell OPEN m)%nat) -> kind ≠ OPEN ->
  teleporter_coords self !! Z.of_nat l = Some entry ->
  ∃ self' g' m' entry',
    (if b then place_teleporter self (Z.of_nat l) kind else gret self) g
    = Ok (self', g')
    ∧ shape self'
    ∧ mazes self' = <[l := m']> (mazes self)
    ∧ teleporter_coords self' = <[Z.of_nat l := entry']> (teleporter_coords self)
    ∧ dims h w m'
    ∧ (count_cell OPEN m' + Nat.b2n b = count_cell OPEN m)%nat
    ∧ (∀ ch, ch ≠ OPEN ->
         count_cell ch m'
         = (count_cell ch m + if b then tick (kind = ch) else 0)%nat)
    ∧ (if b
       then ∃ r c, entry' = entry ++ [{| tp_r := r; tp_c := c; tp_type := kind |}]
                   ∧ 0 <= r ∧ 0 <= c
                   ∧ cell_at m' (Z.to_nat r) (Z.to_nat c) = Some kind
       else entry' = entry).
Proof.
  intros (Hh & Hw & Hn) Hl Hd Hpos Hkind Hentry. destruct b.
  - destruct (place_teleporter_spec self h w l m kind entry g)
      as ([r c] & g' & Hplace & Hr & Hc & Hcell); try done; [by apply Hpos|].
    simpl in *.
    eexists _, g', (set_at m (Z.to_nat r) (Z.to_nat c) kind), _.
    split; [exact Hplace|]. split; [done|]. split; [done|]. split; [done|].
    split; [by apply dims_set_at|].
    split; [apply (relabel_counts m _ _ kind OPEN Hcell Hkind)|].
    split; [intros ch; apply (relabel_counts m _ _ kind ch Hcell Hkind)|].
    exists r, c. split; [done|]. split; [done|]. split; [done|].
    apply cell_at_set_at_eq. eauto.
  - exists self, g, m, entry. split; [done|]. split; [done|].
    split; [by rewrite list_insert_id|]. split; [by rewrite insert_id|].
    split; [done|]. split; [simpl; lia|]. split; [intros; lia|done].
Qed.

Lemma place_teleporters_spec ls self g :
  NoDup ls -> (∀ x, x ∈ ls -> 0 <= x < Z.of_nat n) ->
  loop_inv ls self ->
  ∃ self' g', place_teleporters self ls g = Ok (self', g')
              ∧ loop_inv [] self'.
Proof.
  revert self g. induction ls as [|l0 ls IH]; intros self g Hnd Hrange Hinv.
  { by exists self, g. }
  apply NoDup_cons in Hnd as [Hl0 Hnd].
  assert (0 <= l0 < Z.of_nat n) as Hl0r by (apply Hrange; left).
  destruct Hinv as (Hshape & Hlen & Hlayers).
  assert (∃ k : nat, l0 = Z.of_nat k) as [k ->]
    by (exists (Z.to_nat l0); lia).
  destruct (lookup_lt_is_Some_2 (mazes self) k) as [m Hm].
  { rewrite Hlen. lia. }
  destruct (Hlayers k m Hm) as [Hpend _].
  destruct Hpend as (Hd & HS & HE & HU & HD & HO); [left|].
  assert (k < n)%nat as Hk by (rewrite <- Hlen; by eapply lookup_lt_Some).
  simpl.
  set (self1 := with_teleporter_coords self _).
  assert (shape self1) as Hshape1 by done.
  destruct Hshape as (Hh & Hw & Hn).
  remember (Z.of_nat k <? num_layers self - 1) as b1 eqn:Eb1.
  remember (0 <? Z.of_nat k) as b2 eqn:Eb2.
  assert (b1 = true <-> (S k < n)%nat) as Hb1.
  { subst b1. rewrite Z.ltb_lt. lia. }
  assert (b2 = true <-> (0 < k)%nat) as Hb2.
  { subst b2. rewrite Z.ltb_lt. lia. }
  clear Eb1 Eb2.
  (* the 'L' placement *)
  destruct (guarded_placement b1 self1 k m UP [] g)
    as (self2 & g2 & m2 & e2 & Hstep2 & Hshape2 & Hmz2 & Htc2 & Hd2 & HO2 & Hc2 & He2);
    try done.
  { intros _. unfold tick in HO. repeat case_decide; lia. }
  { subst self1. simpl. by rewrite lookup_insert_eq. }
  unfold gbind at 1. rewrite Hstep2.
  (* the 'l' placement *)
  destruct (guarded_placement b2 self2 k m2 DOWN e2 g2)
    as (self3 & g3 & m3 & e3 & Hstep3 & Hshape3 & Hmz3 & Htc3 & Hd3 & HO3 & Hc3 & He3);
    try done.
  { rewrite Hmz2. apply list_lookup_insert_eq. by eapply lookup_lt_Some. }
  { intros _. destruct b1; simpl in HO2; unfold tick in HO;
      repeat case_decide; try lia;
      assert (S k < n)%nat by (by apply Hb1); lia. }
  { rewrite Htc2. by rewrite lookup_insert_eq. }
  unfold gbind at 1. rewrite Hstep3.
  apply IH; [done|intros x Hx; apply Hrange; by right|].
  split; [done|]. split.
  { rewrite Hmz3, Hmz2, !length_insert. done. }
  intros l m' Hm'. rewrite Hmz3, Hmz2, list_insert_insert_eq in Hm'.
  destruct (decide (l = k)) as [->|Hne].
  - rewrite list_lookup_insert_eq in Hm' by (by eapply lookup_lt_Some).
    injection Hm' as <-. split; [intros Hin; by destruct Hl0|]. intros _.
    assert (count_cell START m3 = count_cell START m) as H3S.
    { rewrite (Hc3 START), (Hc2 START) by done.
      destruct b1, b2; unfold tick; repeat case_decide; (done || lia). }
    assert (count_cell END m3 = count_cell END m) as H3E.
    { rewrite (Hc3 END), (Hc2 END) by done.
      destruct b1, b2; unfold tick; repeat case_decide; (done || lia). }
    assert (count_cell UP m3 = (count_cell UP m + Nat.b2n b1)%nat) as H3U.
    { rewrite (Hc3 UP), (Hc2 UP) by done.
      destruct b1, b2; unfold tick; repeat case_decide; (done || simpl; lia). }
    assert (count_cell DOWN m3 = (count_cell DOWN m + Nat.b2n b2)%nat) as H3D.
    { rewrite (Hc3 DOWN), (Hc2 DOWN) by done.
      destruct b1, b2; unfold tick; repeat case_decide; (done || simpl; lia). }
    clear Hc2 Hc3.
    assert (Nat.b2n b1 = tick (S k < n)%nat) as Ht1.
    { unfold tick. destruct b1, (decide (S k < n)%nat) as [Hc|Hc]; simpl; try done.
      - exfalso. apply Hc. by apply Hb1.
      - by apply Hb1 in Hc. }
    assert (Nat.b2n b2 = tick (0 < k)%nat) as Ht2.
    { unfold tick. destruct b2, (decide (0 < k)%nat) as [Hc|Hc]; simpl; try done.
      - exfalso. apply Hc. by apply Hb2.
      - by apply Hb2 in Hc. }
    assert (b2 = false -> ¬ (0 < k)%nat) as Hb2' by (intros -> ?%Hb2; done).
    unfold placed.
    split; [done|].
    split; [by rewrite H3S|].
    split; [by rewrite H3E|].
    split; [by rewrite H3U, HU, Ht1|].
    split; [by rewrite H3D, HD, Ht2|].
    split.
    { rewrite Ht1 in HO2. rewrite Ht2 in HO3. unfold tick in HO, HO2, HO3.
      repeat case_decide; lia. }
    intros Hpos. destruct b2; [|exfalso; by apply Hb2'].
    destruct He3 as (r & c & -> & ? & ? & ?).
    exists e2, r, c. rewrite Htc3, lookup_insert_eq. split; [done|].
    split; [|done].
    destruct b1.
    + destruct He2 as (r2 & c2 & -> & _). by repeat constructor.
    + subst e2. constructor.
  - rewrite list_lookup_insert_ne in Hm' by done.
    destruct (Hlayers l m' Hm') as [Hp Hq]. split.
    + intros Hin. apply Hp. by right.
    + intros Hnin.
      destruct Hq as (? & ? & ? & ? & ? & ? & Hdown).
      { rewrite not_elem_of_cons. split; [lia|done]. }
      repeat (split; [done|]). intros Hpos.
      destruct (Hdown Hpos) as (pre & r & c & Hlk & Hrest).
      exists pre, r, c. split; [|done].
      rewrite Htc3, Htc2. subst self1. simpl.
      rewrite !lookup_insert_ne by lia. done.
Qed.

End Generate.

Lemma fresh_layer_marks h w m ch :
  fresh_layer h w m -> ch ≠ WALL -> ch ≠ OPEN -> count_cell ch m = 0%nat.
Proof. intros (_ & Hm & _). by apply carved_count. Qed.

Lemma NoDup_range n : NoDup (range n).
Proof.
  unfold range. apply NoDup_fmap_2; [|apply NoDup_seq].
  intros x y. lia.
Qed.

Lemma place_teleporter_coords self l kind g self' g' :
  place_teleporter self l kind g = Ok (self', g') ->
  start_coords self' = start_coords self ∧ end_coords self' = end_coords self.
Proof.
  unfold place_teleporter, gbind, glift, gret.
  destruct (py_get _ _); [|done].
  destruct (open_spots _ _ _) as [[|s spots]|]; [by intros [= <- _]| |done].
  destruct (choice _ _) as [[[tr tc] g1]|]; [|done].
  destruct (set_maze_cell _ _ _ _ _); [|done].
  destruct (teleporter_coords self !! l); [|done].
  by intros [= <- _].
Qed.

Lemma place_teleporters_coords ls self g self' g' :
  place_teleporters self ls g = Ok (self', g') ->
  start_coords self' = start_coords self ∧ end_coords self' = end_coords self.
Proof.
  revert self g. induction ls as [|l ls IH]; intros self g; simpl.
  { by intros [= <- _]. }
  unfold gbind at 1.
  set (self1 := with_teleporter_coords self _).
  destruct ((if l <? num_layers self - 1
             then place_teleporter self1 l UP else gret self1) g)
    as [[self2 g2]|] eqn:E2; [|done].
  unfold gbind at 1.
  destruct ((if 0 <? l then place_teleporter self2 l DOWN else gret self2) g2)
    as [[self3 g3]|] eqn:E3; [|done].
  intros [H1 H2]%IH.
  assert (start_coords self2 = start_coords self
          ∧ end_coords self2 = end_coords self) as [H3 H4].
  { destruct (l <? num_layers self - 1).
    - by apply place_teleporter_coords in E2.
    - by injection E2 as <- _. }
  assert (start_coords self3 = start_coords self2
          ∧ end_coords self3 = end_coords self2) as [H5 H6].
  { destruct (0 <? l).
    - by apply place_teleporter_coords in E3.
    - by injection E3 as <- _. }
  split; congruence.
Qed.

(** [generate] on a grid of [h] rows and [w] columns, both at least 3 and
    one of them at least 5, with [n >= 1] layers and a recursion depth of
    at least [h * w]: the call returns, and every layer of the result is
    in its final state [placed]. *)
Lemma generate_placed (h w n : nat) self depth g :
  shape h w n self ->
  (3 <= h)%nat -> (3 <= w)%nat -> (5 <= h ∨ 5 <= w)%nat -> (1 <= n)%nat ->
  (h * w <= depth)%nat ->
  ∃ self' g',
    generate self depth g = Ok (self', g')
    ∧ shape h w n self'
    ∧ length (mazes self') = n
    ∧ is_Some (start_coords self') ∧ is_Some (end_coords self')
    ∧ ∀ l m, mazes self' !! l = Some m ->
             placed h w n (teleporter_coords self') l m.
Proof.
  intros (Hh & Hw & Hn) Hh3 Hw3 Hbig Hn1 Hdepth.
  assert (Z.to_nat (height self) = h) as Hh' by lia.
  assert (Z.to_nat (width self) = w) as Hw' by lia.
  unfold generate.
  destruct (carve_layers_spec self depth (range (num_layers self)) [] g)
    as (mazes0 & g0 & Hcarve & Hlen0 & Hfresh);
    [lia|lia|lia|by rewrite Hh', Hw'|constructor|].
  rewrite Hh', Hw' in Hfresh. rewrite length_range, Hn, Nat2Z.id in Hlen0.
  simpl in Hlen0.
  unfold gbind at 1. rewrite Hcarve.
  rewrite Forall_lookup in Hfresh.
  (* 'S' *)
  destruct (lookup_lt_is_Some_2 mazes0 0) as [m0 Hm0]; [lia|].
  pose proof (Hfresh _ _ Hm0) as Hf0.
  destruct (place_mark_spec self h w mazes0 0 m0 START g0)
    as ([sr sc] & spots0 & g1 & Hplace1 & Hsr & Hsc & Hcell1); try done.
  { apply Hf0. }
  { destruct Hf0 as (_ & _ & ?). lia. }
  simpl in Hplace1, Hcell1.
  set (m0' := set_at m0 (Z.to_nat sr) (Z.to_nat sc) START) in *.
  unfold gbind at 1. change (Z.of_nat 0) with 0 in Hplace1. rewrite Hplace1.
  set (mazes1 := <[0%nat := m0']> mazes0).
  assert (START ≠ OPEN) as HSO by done.
  pose proof (relabel_counts m0 _ _ START OPEN Hcell1 HSO) as [HO1 _].
  fold m0' in HO1.
  (* 'E' *)
  assert (num_layers self - 1 = Z.of_nat (n - 1)) as HnE by lia.
  rewrite HnE.
  destruct (lookup_lt_is_Some_2 mazes1 (n - 1)) as [mE HmE].
  { subst mazes1. rewrite length_insert. lia. }
  assert (dims h w mE ∧ (0 < count_cell OPEN mE)%nat) as [HdE HposE].
  { subst mazes1. destruct (decide (n - 1 = 0)%nat) as [E|E].
    - rewrite E, list_lookup_insert_eq in HmE by lia. injection HmE as <-.
      split; [apply dims_set_at, Hf0|]. destruct Hf0 as (_ & _ & ?). lia.
    - rewrite list_lookup_insert_ne in HmE by lia.
      destruct (Hfresh _ _ HmE) as (? & _ & ?). split; [done|lia]. }
  destruct (place_mark_spec self h w mazes1 (n - 1) mE END g1)
    as ([er ec] & spotsE & g2 & Hplace2 & Her & Hec & Hcell2); try done.
  simpl in Hplace2, Hcell2.
  set (mE' := set_at mE (Z.to_nat er) (Z.to_nat ec) END) in *.
  unfold gbind at 1. rewrite Hplace2.
  assert (END ≠ OPEN) as HEO by done.
  pose proof (relabel_counts mE _ _ END OPEN Hcell2 HEO) as [HO2 _].
  fold mE' in HO2.
  (* the teleporter loop *)
  set (self2 := {| width := _ |}).
  destruct (place_teleporters_spec h w n (range (num_layers self)) self2 g2)
    as (self' & g' & Hloop & Hshape' & Hlen' & Hall).
  - apply NoDup_range.
  - intros x. rewrite elem_of_range. lia.
  - split; [done|]. split.
    { subst self2 mazes1. simpl. by rewrite !length_insert. }
    intros l m Hm. split; [intros _|].
    2:{ intros Hnin. exfalso. apply Hnin, elem_of_range.
        apply lookup_lt_Some in Hm. subst self2 mazes1. simpl in Hm.
        rewrite !length_insert in Hm. lia. }
    subst self2. simpl in Hm.
    assert (∀ ch, ch ≠ OPEN -> count_cell ch m0'
              = (count_cell ch m0 + tick (START = ch))%nat) as Hc1.
    { intros ch. apply (relabel_counts m0 _ _ START ch Hcell1 HSO). }
    assert (∀ ch, ch ≠ OPEN -> count_cell ch mE'
              = (count_cell ch mE + tick (END = ch))%nat) as Hc2.
    { intros ch. apply (relabel_counts mE _ _ END ch Hcell2 HEO). }
    pose proof (fresh_layer_marks h w m0 START Hf0) as F0S.
    pose proof (fresh_layer_marks h w m0 END Hf0) as F0E.
    pose proof (fresh_layer_marks h w m0 UP Hf0) as F0U.
    pose proof (fresh_layer_marks h w m0 DOWN Hf0) as F0D.
    destruct Hf0 as (Hd0 & _ & Hop0).
    unfold pending.
    destruct (decide (l = n - 1)%nat) as [->|HlE].
    + rewrite list_lookup_insert_eq in Hm
        by (subst mazes1; rewrite length_insert; lia).
      injection Hm as <-.
      split; [by apply dims_set_at|].
      rewrite !Hc2 by done. unfold tick in *.
      subst mazes1. destruct (decide (n - 1 = 0)%nat) as [E|E].
      * rewrite E, list_lookup_insert_eq in HmE by lia. injection HmE as <-.
        rewrite !Hc1 by done. unfold tick.
        rewrite F0S, F0E, F0U, F0D by done.
        repeat case_decide; try done; lia.
      * rewrite list_lookup_insert_ne in HmE by lia.
        pose proof (Hfresh _ _ HmE) as HfE.
        rewrite (fresh_layer_marks h w mE START HfE),
          (fresh_layer_marks h w mE END HfE),
          (fresh_layer_marks h w mE UP HfE),
          (fresh_layer_marks h w mE DOWN HfE) by done.
        destruct HfE as (_ & _ & ?).
        repeat case_decide; try done; lia.
    + rewrite list_lookup_insert_ne in Hm by done. subst mazes1.
      destruct (decide (l = 0)%nat) as [->|Hl0].
      * rewrite list_lookup_insert_eq in Hm by lia. injection Hm as <-.
        split; [by apply dims_set_at|].
        rewrite !Hc1 by done. unfold tick.
        rewrite F0S, F0E, F0U, F0D by done.
        repeat case_decide; try done; lia.
      * rewrite list_lookup_insert_ne in Hm by done.
        pose proof (Hfresh _ _ Hm) as Hf.
        rewrite (fresh_layer_marks h w m START Hf),
          (fresh_layer_marks h w m END Hf),
          (fresh_layer_marks h w m UP Hf),
          (fresh_layer_marks h w m DOWN Hf) by done.
        destruct Hf as (? & _ & ?). split; [done|]. unfold tick.
        repeat case_decide; try done; lia.
  - exists self', g'. split; [done|]. split; [done|]. split; [done|].
    apply place_teleporters_coords in Hloop as [-> ->]. subst self2. simpl.
    split; [eauto|]. split; [eauto|].
    intros l m Hm. apply (Hall l m Hm). apply not_elem_of_nil.
Qed.

(** *** The recursion depth *)

(** A deeper recursion limit does not change a result. *)
Lemma carve_directions_mono self (rec rec' : Z -> Z -> grid -> Gen grid) :
  (∀ r c m g x, rec r c m g = Ok x -> rec' r c m g = Ok x) ->
  ∀ dirs r c m g x,
    carve_directions self rec dirs r c m g = Ok x ->
    carve_directions self rec' dirs r c m g = Ok x.
Proof.
  intros Hrec dirs. induction dirs as [|[dr dc] dirs IH]; intros r c m g x;
    simpl; [done|].
  destruct (_is_valid self (r + dr) (c + dc)); [|apply IH].
  unfold gbind, glift.
  destruct (get_cell m (r + dr) (c + dc)) as [cell|]; [|done].
  destruct (Ascii.eqb cell WALL); [|apply IH].
  destruct (set_cell m (r + dr / 2) (c + dc / 2) OPEN) as [m1|]; [|done].
  destruct (rec (r + dr) (c + dc) m1 g) as [[m2 g2]|] eqn:E; [|done].
  rewrite (Hrec _ _ _ _ _ E). apply IH.
Qed.

Lemma carve_path_mono_S self d :
  ∀ r c m g x,
    _carve_path self d r c m g = Ok x -> _carve_path self (S d) r c m g = Ok x.
Proof.
  induction d as [|d IH]; intros r c m g x; [done|].
  change (_carve_path self (S (S d)) r c m g)
    with ((let* maze := glift (set_cell m r c OPEN) in
           let* dirs := shuffle directions in
           carve_directions self (_carve_path self (S d)) dirs r c maze)%gen g).
  change (_carve_path self (S d) r c m g)
    with ((let* maze := glift (set_cell m r c OPEN) in
           let* dirs := shuffle directions in
           carve_directions self (_carve_path self d) dirs r c maze)%gen g).
  unfold gbind, glift. destruct (set_cell m r c OPEN) as [m1|]; [|done].
  destruct (shuffle directions g) as [[dirs g2]|]; [|done].
  by apply carve_directions_mono.
Qed.

Lemma carve_path_mono self d d' :
  (d <= d')%nat ->
  ∀ r c m g x,
    _carve_path self d r c m g = Ok x -> _carve_path self d' r c m g = Ok x.
Proof.
  induction 1 as [|d' _ IH]; intros r c m g x H; [done|].
  by apply carve_path_mono_S, IH.
Qed.

Lemma carve_layers_mono self d d' :
  (d <= d')%nat ->
  ∀ idx mazes g x,
    carve_layers self d idx mazes g = Ok x ->
    carve_layers self d' idx mazes g = Ok x.
Proof.
  intros Hd idx. induction idx as [|i idx IH]; intros mazes g x; simpl; [done|].
  unfold gbind.
  destruct (randrange_step2 1 (height self) g) as [[r g1]|]; [|done].
  destruct (randrange_step2 1 (width self) g1) as [[c g2]|]; [|done].
  destruct (_carve_path self d r c _ g2) as [[m g3]|] eqn:E; [|done].
  rewrite (carve_path_mono self d d' Hd _ _ _ _ _ E). apply IH.
Qed.

Lemma generate_mono self d d' g x :
  (d <= d')%nat -> generate self d g = Ok x -> generate self d' g = Ok x.
Proof.
  intros Hd. unfold generate, gbind.
  destruct (carve_layers self d _ [] g) as [[mazes0 g0]|] eqn:E; [|done].
  by rewrite (carve_layers_mono self d d' Hd _ _ _ _ E).
Qed.

(** Whatever the recursion limit, a maze set that [generate] returns has
    every layer in its final state. *)
Lemma generate_returned (h w n : nat) self depth g self' g' :
  shape h w n self ->
  (3 <= h)%nat -> (3 <= w)%nat -> (5 <= h ∨ 5 <= w)%nat -> (1 <= n)%nat ->
  generate self depth g = Ok (self', g') ->
  shape h w n self'
  ∧ length (mazes self') = n
  ∧ is_Some (start_coords self') ∧ is_Some (end_coords self')
  ∧ ∀ l m, mazes self' !! l = Some m ->
           placed h w n (teleporter_coords self') l m.
Proof.
  intros Hshape Hh Hw Hbig Hn Hgen.
  destruct (generate_placed h w n self (depth `max` (h * w)) g)
    as (self'' & g'' & Hgen' & H); try done; [lia|].
  rewrite (generate_mono self depth _ g (self', g')) in Hgen'; [|lia|done].
  by injection Hgen' as <- <-.
Qed.

(** Number of cells of a maze set that hold [ch]. *)
Definition total (ch : ascii) (mz : list grid) : nat :=
  sum_list (count_cell ch <$> mz).

(** The marks of a maze set as the specification lists them: one start
    cell in the whole set, on layer 0; one end cell, on the last layer;
    one up-teleporter on every layer but the last; one down-teleporter on
    every layer but the first. *)
Definition marks_as_specified (mz : list grid) : Prop :=
  total START mz = 1%nat
  ∧ (∃ m, mz !! 0%nat = Some m ∧ count_cell START m = 1%nat)
  ∧ total END mz = 1%nat
  ∧ (∃ m, mz !! (length mz - 1)%nat = Some m ∧ count_cell END m = 1%nat)
  ∧ (∀ l m, mz !! l = Some m -> (S l < length mz)%nat ->
            count_cell UP m = 1%nat)
  ∧ (∀ l m, mz !! l = Some m -> (0 < l)%nat -> count_cell DOWN m = 1%nat).

Lemma sum_zero (f : grid -> nat) (mz : list grid) :
  (∀ l m, mz !! l = Some m -> f m = 0%nat) -> sum_list (f <$> mz) = 0%nat.
Proof.
  induction mz as [|m mz IH]; intros H; csimpl; [done|].
  rewrite (H 0%nat m) by done. rewrite IH; [done|].
  intros l m' Hl. by apply (H (S l)).
Qed.

Lemma sum_single (f : grid -> nat) (mz : list grid) (k : nat) :
  (k < length mz)%nat ->
  (∀ l m, mz !! l = Some m -> f m = tick (l = k)) ->
  sum_list (f <$> mz) = 1%nat.
Proof.
  revert k. induction mz as [|m mz IH]; intros k Hk H; csimpl.
  { simpl in Hk. lia. }
  destruct k as [|k].
  - rewrite (H 0%nat m) by done. rewrite sum_zero; [done|].
    intros l m' Hl. by rewrite (H (S l) m' Hl).
  - rewrite (H 0%nat m) by done. rewrite (IH k); [done|simpl in Hk; lia|].
    intros l m' Hl. rewrite (H (S l) m' Hl). unfold tick.
    repeat case_decide; (done || lia).
Qed.

(** The final state of every layer gives the marks of the specification. *)
Lemma placed_marks (h w n : nat) tc (mz : list grid) :
  length mz = n -> (1 <= n)%nat ->
  (∀ l m, mz !! l = Some m -> placed h w n tc l m) ->
  marks_as_specified mz.
Proof.
  intros Hlen Hn Hall. unfold marks_as_specified. rewrite Hlen.
  destruct (lookup_lt_is_Some_2 mz 0) as [m0 Hm0]; [lia|].
  destruct (lookup_lt_is_Some_2 mz (n - 1)) as [mE HmE]; [lia|].
  split; [|split; [|split; [|split; [|split]]]].
  - apply (sum_single _ mz 0); [lia|].
    intros l m Hl. by destruct (Hall l m Hl) as (_ & ? & _).
  - exists m0. split; [done|]. by destruct (Hall _ _ Hm0) as (_ & ? & _).
  - apply (sum_single _ mz (n - 1)); [lia|].
    intros l m Hl. destruct (Hall l m Hl) as (_ & _ & -> & _).
    unfold tick. repeat case_decide; (done || lia).
  - exists mE. split; [done|]. destruct (Hall _ _ HmE) as (_ & _ & -> & _).
    unfold tick. case_decide; (done || lia).
  - intros l m Hl Hlt. destruct (Hall l m Hl) as (_ & _ & _ & -> & _).
    unfold tick. case_decide; (done || lia).
  - intros l m Hl Hlt. destruct (Hall l m Hl) as (_ & _ & _ & _ & -> & _).
    unfold tick. case_decide; (done || lia).
Qed.

(** C4, as amended: on a grid whose width and height, after rounding to
    odd, are at least 3 and not both 3, with at least one layer, every
    maze set that [generate] returns has one layer per index and its
    marks as specified; and [generate] does return one as soon as the
    recursion limit covers the grid. *)
Theorem generate_marks (width0 height0 n : Z) :
  let self := init width0 height0 n in
  3 <= width self -> 3 <= height self ->
  5 <= width self ∨ 5 <= height self ->
  1 <= n ->
  (∀ (depth : nat) (g : rng) self' g',
     generate self depth g = Ok (self', g') ->
     length (mazes self') = Z.to_nat n ∧ marks_as_specified (mazes self'))
  ∧ (∀ (depth : nat) (g : rng),
       (Z.to_nat (height self) * Z.to_nat (width self) <= depth)%nat ->
       ∃ self' g', generate self depth g = Ok (self', g')).
Proof.
  intros self Hw Hh Hbig Hn.
  assert (Hshape : shape (Z.to_nat (height self)) (Z.to_nat (width self))
                     (Z.to_nat n) self).
  { unfold shape. split; [lia|]. split; [lia|]. subst self. simpl. lia. }
  split.
  - intros depth g self' g' Hgen.
    destruct (generate_returned _ _ _ self depth g self' g' Hshape)
      as (_ & Hlen & _ & _ & Hall); try lia; [done|].
    split; [done|]. eapply placed_marks; [exact Hlen|lia|exact Hall].
  - intros depth g Hdepth.
    destruct (generate_placed _ _ _ self depth g Hshape)
      as (self' & g' & Hgen & _); try lia.
    by exists self', g'.
Qed.

Definition tape0 : rng := {| tape := fun _ => 0%nat; cursor := 0 |}.

Lemma generate_marks_witness :
  ∃ self' g',
    generate (init 16 17 2) 1000 tape0 = Ok (self', g')
    ∧ length (mazes self') = Z.to_nat 2
    ∧ marks_as_specified (mazes self').
Proof.
  assert (H16 : 3 <= width (init 16 17 2)) by (vm_compute; congruence).
  assert (H17 : 3 <= height (init 16 17 2)) by (vm_compute; congruence).
  assert (Hbig : 5 <= width (init 16 17 2) ∨ 5 <= height (init 16 17 2))
    by (left; vm_compute; congruence).
  assert (Hn : 1 <= 2) by lia.
  destruct (generate_marks 16 17 2 H16 H17 Hbig Hn) as [Hret Hterm].
  destruct (Hterm 1000%nat tape0) as (self' & g' & Hgen); [vm_compute; lia|].
  exists self', g'. split; [done|]. by apply (Hret 1000%nat tape0 self' g').
Defined.

(** C4 fails on the smallest grid: a 3 x 3 layer has a single open cell,
    which the start mark takes; the end mark finds no open cell and is
    not placed. *)
Lemma generate_3x3_no_end :
  3 <= width (init 3 3 1) ∧ 3 <= height (init 3 3 1) ∧ 1 <= 1
  ∧ ∃ self' g',
      generate (init 3 3 1) 1000 tape0 = Ok (self', g')
      ∧ mazes self' = [["#"; "#"; "#"]; ["#"; "S"; "#"]; ["#"; "#"; "#"]]%char :: nil
      ∧ total END (mazes self') = 0%nat
      ∧ ¬ marks_as_specified (mazes self').
Proof.
  split; [done|]. split; [done|]. split; [done|].
  eexists _, _. split; [vm_compute; reflexivity|].
  split; [reflexivity|]. split; [reflexivity|].
  intros (_ & _ & HE & _). vm_compute in HE. discriminate.
Qed.

(** *** The shape of a carved layer *)

(** A cell that is not a wall. *)
Definition passable (m : grid) (r c : nat) : Prop :=
  ∃ x, cell_at m r c = Some x ∧ x ≠ WALL.

Lemma passable_set_at_eq (m : grid) (r c : nat) (x : ascii) :
  is_Some (cell_at m r c) -> x ≠ WALL -> passable (set_at m r c x) r c.
Proof. intros H Hx. exists x. by rewrite cell_at_set_at_eq. Qed.

Lemma passable_set_at (m : grid) (r c r' c' : nat) (x : ascii) :
  x ≠ WALL -> passable m r' c' -> passable (set_at m r c x) r' c'.
Proof.
  intros Hx (y & Hy & Hne).
  destruct (decide ((r, c) = (r', c'))) as [[= -> ->]|Hd].
  - apply passable_set_at_eq; eauto.
  - exists y. by rewrite cell_at_set_at_ne.
Qed.

Lemma wall_set_open (m : grid) (r c r' c' : nat) :
  cell_at (set_at m r c OPEN) r' c' = Some WALL -> cell_at m r' c' = Some WALL.
Proof.
  destruct (decide ((r, c) = (r', c'))) as [[= -> ->]|Hd].
  - destruct (cell_at m r' c') as [y|] eqn:Hy.
    + rewrite cell_at_set_at_eq by eauto. done.
    + unfold set_at, cell_at in *.
      destruct (m !! r') as [row|] eqn:Hrow; [|by rewrite Hrow].
      apply lookup_lt_Some in Hrow as Hlt.
      rewrite list_lookup_insert_eq by done.
      rewrite list_insert_ge; [by rewrite Hy|]. by apply lookup_ge_None.
  - by rewrite cell_at_set_at_ne.
Qed.

Section Corridors.
Variable self : t.
Local Abbreviation h := (Z.to_nat (height self)).
Local Abbreviation w := (Z.to_nat (width self)).

(** A room: a cell of the grid with both coordinates odd. *)
Definition room (r c : Z) : Prop :=
  Z.Odd r ∧ Z.Odd c ∧ _is_valid self r c = true.

(** One corridor: from a passable room, the cell between it and a
    walled-in room two steps away is opened, and then that room. *)
Inductive corridor : grid -> grid -> Prop :=
| corridor_intro m r c dr dc :
    (dr, dc) ∈ directions -> room r c -> room (r + dr) (c + dc) ->
    passable m (Z.to_nat r) (Z.to_nat c) ->
    cell_at m (Z.to_nat (r + dr)) (Z.to_nat (c + dc)) = Some WALL ->
    corridor m
      (set_at (set_at m (Z.to_nat (r + dr / 2)) (Z.to_nat (c + dc / 2)) OPEN)
         (Z.to_nat (r + dr)) (Z.to_nat (c + dc)) OPEN).

Lemma corridor_dims m m' : corridor m m' -> dims h w m -> dims h w m'.
Proof. intros [] Hd. by do 2 apply dims_set_at. Qed.

Lemma corridors_dims m m' : rtc corridor m m' -> dims h w m -> dims h w m'.
Proof. induction 1; eauto using corridor_dims. Qed.

Lemma corridor_passable m m' r c :
  corridor m m' -> passable m r c -> passable m' r c.
Proof. intros [] Hp. by do 2 (apply passable_set_at; [done|]). Qed.

Lemma corridors_passable m m' r c :
  rtc corridor m m' -> passable m r c -> passable m' r c.
Proof. induction 1; eauto using corridor_passable. Qed.

Lemma corridor_wall m m' r c :
  corridor m m' -> cell_at m' r c = Some WALL -> cell_at m r c = Some WALL.
Proof. intros [] Hw. by do 2 apply wall_set_open in Hw. Qed.

Lemma corridors_wall m m' r c :
  rtc corridor m m' -> cell_at m' r c = Some WALL -> cell_at m r c = Some WALL.
Proof. induction 1; eauto using corridor_wall. Qed.

Lemma corridor_carved m m' : corridor m m' -> carved m -> carved m'.
Proof. intros [] Hc. by do 2 apply carved_set_open. Qed.

Lemma corridors_carved m m' : rtc corridor m m' -> carved m -> carved m'.
Proof. induction 1; eauto using corridor_carved. Qed.

Lemma room_step r c dr dc :
  (dr, dc) ∈ directions -> room r c ->
  _is_valid self (r + dr) (c + dc) = true -> room (r + dr) (c + dc).
Proof.
  intros Hin ([i Hi] & [j Hj] & _) Hv. unfold directions in Hin.
  repeat (apply elem_of_cons in Hin as [[= -> ->]|Hin]);
    try (by apply elem_of_nil in Hin);
    (split; [|split; [|done]]);
    first [ by (exists i; lia) | by (exists j; lia)
          | by (exists (i + 1); lia) | by (exists (i - 1); lia)
          | by (exists (j + 1); lia) | by (exists (j - 1); lia) ].
Qed.

(** The cell between two rooms is not a room. *)
Lemma mid_not_room r c dr dc r' c' :
  (dr, dc) ∈ directions -> room r c -> room r' c' ->
  _is_valid self (r + dr) (c + dc) = true ->
  (Z.to_nat (r + dr / 2), Z.to_nat (c + dc / 2)) ≠ (Z.to_nat r', Z.to_nat c').
Proof.
  intros Hin ([i Hi] & [j Hj] & Hv%is_valid_spec)
    ([i' Hi'] & [j' Hj'] & Hv'%is_valid_spec) Hv2%is_valid_spec.
  unfold directions in Hin.
  repeat (apply elem_of_cons in Hin as [[= -> ->]|Hin]);
    try (by apply elem_of_nil in Hin);
    (change (2 / 2) with 1 in *; change (-2 / 2) with (-1) in *;
     change (0 / 2) with 0 in * );
    intros [= E1 E2]; lia.
Qed.

(** Every valid neighbouring room of [(r, c)] is passable. *)
Definition explored (m : grid) (r c : Z) : Prop :=
  ∀ dr dc, (dr, dc) ∈ directions ->
           _is_valid self (r + dr) (c + dc) = true ->
           passable m (Z.to_nat (r + dr)) (Z.to_nat (c + dc)).

(** The rooms opened between [m] and [m'] are explored in [m']. *)
Definition exhausted (m m' : grid) : Prop :=
  ∀ r c, room r c ->
         cell_at m (Z.to_nat r) (Z.to_nat c) = Some WALL ->
         passable m' (Z.to_nat r) (Z.to_nat c) ->
         explored m' r c.

Lemma explored_corridors m m' r c :
  rtc corridor m m' -> explored m r c -> explored m' r c.
Proof. intros H He dr dc Hin Hv. eapply corridors_passable; eauto. Qed.

Lemma exhausted_trans m1 m2 m3 :
  dims h w m2 -> rtc corridor m2 m3 ->
  exhausted m1 m2 -> exhausted m2 m3 -> exhausted m1 m3.
Proof.
  intros Hd H23 E12 E23 r c Hroom Hw Hp.
  destruct (is_valid_cell self m2 r c Hd) as ([x Hx] & _); [apply Hroom|].
  destruct (decide (x = WALL)) as [->|Hne].
  - by apply E23.
  - eapply explored_corridors; [exact H23|]. apply E12; [done|done|].
    by exists x.
Qed.

(** *** Carving digs corridors *)

(** What a call of [_carve_path] on a walled-in room does, when it
    returns. *)
Definition digs (f : Z -> Z -> grid -> Gen grid) : Prop :=
  ∀ r c m g m' g',
    dims h w m -> room r c ->
    cell_at m (Z.to_nat r) (Z.to_nat c) = Some WALL ->
    f r c m g = Ok (m', g') ->
    rtc corridor (set_at m (Z.to_nat r) (Z.to_nat c) OPEN) m'
    ∧ exhausted m m'.

Lemma wall_not_passable m r c :
  cell_at m r c = Some WALL -> ¬ passable m r c.
Proof. intros H (x & Hx & Hne). congruence. Qed.

Lemma carve_directions_digs rec dirs :
  digs rec ->
  ∀ r c m g m' g',
    dirs ⊆ directions -> dims h w m -> room r c ->
    passable m (Z.to_nat r) (Z.to_nat c) ->
    carve_directions self rec dirs r c m g = Ok (m', g') ->
    rtc corridor m m' ∧ exhausted m m'
    ∧ ∀ dr dc, (dr, dc) ∈ dirs ->
               _is_valid self (r + dr) (c + dc) = true ->
               passable m' (Z.to_nat (r + dr)) (Z.to_nat (c + dc)).
Proof.
  intros Hrec r c. induction dirs as [|[dr dc] dirs IH];
    intros m g m' g' Hsub Hd Hroom Hp Hrun.
  - injection Hrun as <- <-. split; [done|]. split.
    + intros r' c' _ Hw' Hp'. by destruct (wall_not_passable m _ _ Hw').
    + by intros ? ? ?%elem_of_nil.
  - assert (Hin : (dr, dc) ∈ directions) by (apply Hsub; left).
    assert (Hsub' : dirs ⊆ directions) by (intros x Hx; apply Hsub; by right).
    simpl in Hrun.
    destruct (_is_valid self (r + dr) (c + dc)) eqn:Hv'.
    2:{ destruct (IH m g m' g') as (H1 & H2 & H3); try done.
        split; [done|]. split; [done|].
        intros dr' dc' [[= -> ->]|Hin']%elem_of_cons Hv''; [congruence|eauto]. }
    destruct (is_valid_cell self m _ _ Hd Hv') as ([x Hx] & Hr0 & Hc0).
    unfold gbind at 1 in Hrun.
    rewrite (get_cell_valid _ _ _ _ Hr0 Hc0 Hx) in Hrun. simpl in Hrun.
    destruct (Ascii.eqb_spec x WALL) as [Heq|Hnw]; [rewrite Heq in Hx; clear Heq|].
    2:{ destruct (IH m g m' g') as (H1 & H2 & H3); try done.
        split; [done|]. split; [done|].
        intros dr' dc' [[= -> ->]|Hin']%elem_of_cons Hv''; [|eauto].
        eapply corridors_passable; [exact H1|]. by exists x. }
    assert (Hv : _is_valid self r c = true) by apply Hroom.
    destruct (mid_valid self r c dr dc Hin Hv Hv') as (Hmv & Hne1 & Hne2 & Hne3).
    destruct (is_valid_cell self m _ _ Hd Hmv) as (Hmid & Hr1 & Hc1).
    unfold gbind at 1 in Hrun.
    rewrite (set_cell_valid _ _ _ _ Hr1 Hc1 Hmid) in Hrun. simpl in Hrun.
    set (m1 := set_at m _ _ OPEN) in Hrun.
    unfold gbind at 1 in Hrun.
    destruct (rec (r + dr) (c + dc) m1 g) as [[m2 g2]|] eqn:Hcall; [|done].
    assert (Hroom' : room (r + dr) (c + dc)) by (by apply room_step).
    assert (Hd1 : dims h w m1) by (by apply dims_set_at).
    assert (Hw1 : cell_at m1 (Z.to_nat (r + dr)) (Z.to_nat (c + dc)) = Some WALL).
    { subst m1. rewrite cell_at_set_at_ne; [done|].
      intros [= E1 E2]. apply Hne2. f_equal; lia. }
    destruct (Hrec _ _ _ _ _ _ Hd1 Hroom' Hw1 Hcall) as (Hc2 & He2).
    assert (Hstep : corridor m (set_at m1 (Z.to_nat (r + dr)) (Z.to_nat (c + dc)) OPEN))
      by (by constructor).
    assert (H02 : rtc corridor m m2) by (by eapply rtc_l).
    assert (Hd2 : dims h w m2) by (by eapply corridors_dims).
    destruct (IH m2 g2 m' g') as (H1 & H2 & H3); try done.
    { by eapply corridors_passable. }
    split; [by etrans|]. split.
    + intros r' c' Hr' Hw' Hp'.
      assert (cell_at m1 (Z.to_nat r') (Z.to_nat c') = Some WALL) as Hw1'.
      { subst m1. rewrite cell_at_set_at_ne; [done|].
        by apply (mid_not_room r c dr dc r' c'). }
      by apply (exhausted_trans m1 m2 m' Hd2 H1 He2 H2).
    + intros dr' dc' [[= -> ->]|Hin']%elem_of_cons Hv''; [|eauto].
      eapply corridors_passable; [exact H1|].
      eapply corridors_passable; [exact Hc2|].
      apply passable_set_at_eq; [|done]. by exists WALL.
Qed.

Lemma carve_path_digs d : digs (_carve_path self d).
Proof.
  induction d as [|d IH]; intros r c m g m' g' Hd Hroom Hw Hrun; [done|].
  assert (Hv : _is_valid self r c = true) by apply Hroom.
  destruct (is_valid_cell self m _ _ Hd Hv) as (Hcell & Hr0 & Hc0).
  simpl in Hrun. unfold gbind at 1 in Hrun. unfold glift at 1 in Hrun.
  rewrite (set_cell_valid _ _ _ _ Hr0 Hc0 Hcell) in Hrun.
  set (m1 := set_at m _ _ OPEN) in *.
  unfold gbind at 1 in Hrun.
  destruct (shuffle_perm directions g) as (dirs & g1 & Hsh & Hperm).
  rewrite Hsh in Hrun.
  destruct (carve_directions_digs (_carve_path self d) dirs IH r c m1 g1 m' g')
    as (H1 & H2 & H3); try done.
  { intros x Hx. by rewrite <- Hperm. }
  { by apply dims_set_at. }
  { by apply passable_set_at_eq. }
  split; [done|].
  intros r' c' Hr' Hw' Hp'.
  destruct (decide ((Z.to_nat r, Z.to_nat c) = (Z.to_nat r', Z.to_nat c')))
    as [[= E1 E2]|Hne].
  - assert (r' = r ∧ c' = c) as [-> ->].
    { destruct Hr' as (_ & _ & ?%is_valid_spec). lia. }
    intros dr dc Hin. apply H3. by rewrite Hperm.
  - apply H2; [done| |done]. subst m1. by rewrite cell_at_set_at_ne.
Qed.

(** *** What corridors leave *)

Hypothesis height_odd : Z.Odd (height self).
Hypothesis width_odd : Z.Odd (width self).

Lemma passable_set_at_inv (m : grid) (r c r' c' : nat) (x : ascii) :
  passable (set_at m r c x) r' c' -> (r', c') = (r, c) ∨ passable m r' c'.
Proof.
  intros (y & Hy & Hne).
  destruct (decide ((r, c) = (r', c'))) as [->|Hd]; [by left|right].
  exists y. by rewrite cell_at_set_at_ne in Hy.
Qed.

Lemma corridor_passable_inv m m' r' c' :
  dims h w m -> corridor m m' -> passable m' r' c' ->
  passable m r' c'
  ∨ ∃ r c dr dc,
      (dr, dc) ∈ directions ∧ room r c ∧ room (r + dr) (c + dc)
      ∧ passable m (Z.to_nat r) (Z.to_nat c)
      ∧ passable m' (Z.to_nat (r + dr / 2)) (Z.to_nat (c + dc / 2))
      ∧ passable m' (Z.to_nat (r + dr)) (Z.to_nat (c + dc))
      ∧ ((r', c') = (Z.to_nat (r + dr / 2), Z.to_nat (c + dc / 2))
         ∨ (r', c') = (Z.to_nat (r + dr), Z.to_nat (c + dc))).
Proof.
  intros Hd Hc. revert Hd. destruct Hc as [m0 r c dr dc Hin Hr Hr' Hp Hw].
  intros Hd Hp'.
  assert (Hmid : passable (set_at m0 (Z.to_nat (r + dr / 2))
                             (Z.to_nat (c + dc / 2)) OPEN)
                   (Z.to_nat (r + dr / 2)) (Z.to_nat (c + dc / 2))).
  { apply passable_set_at_eq; [|done].
    destruct (mid_valid self r c dr dc Hin) as (Hmv & _); [apply Hr|apply Hr'|].
    by destruct (is_valid_cell self m0 _ _ Hd Hmv). }
  assert (Hnew : passable
                   (set_at (set_at m0 (Z.to_nat (r + dr / 2))
                              (Z.to_nat (c + dc / 2)) OPEN)
                      (Z.to_nat (r + dr)) (Z.to_nat (c + dc)) OPEN)
                   (Z.to_nat (r + dr)) (Z.to_nat (c + dc))).
  { apply passable_set_at_eq; [|done].
    eapply dims_cell; [by apply dims_set_at|..];
      destruct Hr' as (_ & _ & ?%is_valid_spec); lia. }
  apply passable_set_at_inv in Hp' as [E|Hp'].
  { right. exists r, c, dr, dc.
    repeat (split; [done|]). split; [by apply passable_set_at|]. eauto. }
  apply passable_set_at_inv in Hp' as [E|Hp']; [|by left].
  right. exists r, c, dr, dc.
  repeat (split; [done|]). split; [by apply passable_set_at|]. eauto.
Qed.

(** The passable cells lie strictly inside the grid, and none has two
    even coordinates. *)
Definition inside (r c : nat) : Prop :=
  (0 < r ∧ r + 1 < h ∧ 0 < c ∧ c + 1 < w)%nat ∧ (Nat.Odd r ∨ Nat.Odd c).

Definition lattice (m : grid) : Prop := ∀ r c, passable m r c -> inside r c.

Lemma room_inside r c : room r c -> inside (Z.to_nat r) (Z.to_nat c).
Proof.
  destruct height_odd as [kh Hh], width_odd as [kw Hw].
  intros ([i Hi] & [j Hj] & Hv%is_valid_spec). split; [lia|].
  left. exists (Z.to_nat i). lia.
Qed.

Lemma mid_inside r c dr dc :
  (dr, dc) ∈ directions -> room r c -> room (r + dr) (c + dc) ->
  inside (Z.to_nat (r + dr / 2)) (Z.to_nat (c + dc / 2)).
Proof.
  destruct height_odd as [kh Hh], width_odd as [kw Hw].
  intros Hin ([i Hi] & [j Hj] & Hv%is_valid_spec)
    ([i' Hi'] & [j' Hj'] & Hv'%is_valid_spec).
  unfold directions in Hin.
  repeat (apply elem_of_cons in Hin as [[= -> ->]|Hin]);
    try (by apply elem_of_nil in Hin);
    (change (2 / 2) with 1 in *; change (-2 / 2) with (-1) in *;
     change (0 / 2) with 0 in * );
    (split; [lia|]);
    first [ by (left; exists (Z.to_nat i); lia)
          | by (right; exists (Z.to_nat j); lia) ].
Qed.

Lemma corridor_lattice m m' :
  dims h w m -> corridor m m' -> lattice m -> lattice m'.
Proof.
  intros Hd Hc Hl r' c' Hp'.
  destruct (corridor_passable_inv _ _ _ _ Hd Hc Hp')
    as [Hp|(r & c & dr & dc & Hin & Hr & Hr' & _ & _ & _
            & [[= -> ->]|[= -> ->]])].
  - by apply Hl.
  - by apply mid_inside.
  - by apply room_inside.
Qed.

Lemma corridors_lattice m m' :
  rtc corridor m m' -> dims h w m -> lattice m -> lattice m'.
Proof.
  induction 1 as [|a b c Hab Hbc IH]; intros Hd Hl; [done|].
  apply IH; [by eapply corridor_dims|by eapply corridor_lattice].
Qed.

(** *** Paths *)

Definition adjacent (a b : nat * nat) : Prop :=
  (a.1 = b.1 ∧ (a.2 = S b.2 ∨ b.2 = S a.2))
  ∨ (a.2 = b.2 ∧ (a.1 = S b.1 ∨ b.1 = S a.1)).

(** One step of a path: two passable cells that share a side. *)
Definition link (m : grid) (a b : nat * nat) : Prop :=
  adjacent a b ∧ passable m a.1 a.2 ∧ passable m b.1 b.2.

Lemma link_sym m a b : link m a b -> link m b a.
Proof.
  intros (Ha & ? & ?). split; [|done]. unfold adjacent in *. lia.
Qed.

Lemma path_sym m a b : rtc (link m) a b -> rtc (link m) b a.
Proof.
  induction 1 as [|a b c Hab _ IH]; [done|].
  eapply rtc_r; [exact IH|]. by apply link_sym.
Qed.

Lemma path_mono (m m' : grid) a b :
  (∀ r c, passable m r c -> passable m' r c) ->
  rtc (link m) a b -> rtc (link m') a b.
Proof.
  intros Hsub. apply rtc_subrel. intros x y (? & ? & ?). split; eauto.
Qed.

(** Every passable cell is joined to [root]. *)
Definition reached (root : nat * nat) (m : grid) : Prop :=
  ∀ r c, passable m r c -> rtc (link m) root (r, c).

Lemma mid_adjacent r c dr dc :
  (dr, dc) ∈ directions -> room r c -> room (r + dr) (c + dc) ->
  adjacent (Z.to_nat r, Z.to_nat c)
    (Z.to_nat (r + dr / 2), Z.to_nat (c + dc / 2))
  ∧ adjacent (Z.to_nat (r + dr / 2), Z.to_nat (c + dc / 2))
      (Z.to_nat (r + dr), Z.to_nat (c + dc)).
Proof.
  intros Hin (_ & _ & Hv%is_valid_spec) (_ & _ & Hv'%is_valid_spec).
  unfold directions in Hin. unfold adjacent. simpl.
  repeat (apply elem_of_cons in Hin as [[= -> ->]|Hin]);
    try (by apply elem_of_nil in Hin);
    (change (2 / 2) with 1 in *; change (-2 / 2) with (-1) in *;
     change (0 / 2) with 0 in * ); lia.
Qed.

Lemma corridor_reached root m m' :
  dims h w m -> corridor m m' -> reached root m -> reached root m'.
Proof.
  intros Hd Hc Hreach r' c' Hp'.
  assert (Hsub : ∀ r c, passable m r c -> passable m' r c)
    by (intros; by eapply corridor_passable).
  destruct (corridor_passable_inv _ _ _ _ Hd Hc Hp')
    as [Hp|(r & c & dr & dc & Hin & Hr & Hr' & Hsrc & Hmid & Hnew & Hwhich)].
  { eapply path_mono; [exact Hsub|]. by apply Hreach. }
  destruct (mid_adjacent r c dr dc Hin Hr Hr') as [Ha1 Ha2].
  assert (Hpath : rtc (link m') root
                    (Z.to_nat (r + dr / 2), Z.to_nat (c + dc / 2))).
  { eapply rtc_r.
    - eapply path_mono; [exact Hsub|]. apply Hreach, Hsrc.
    - split; [done|]. split; [by apply Hsub|done]. }
  destruct Hwhich as [[= -> ->]|[= -> ->]]; [done|].
  eapply rtc_r; [exact Hpath|]. by split.
Qed.

Lemma corridors_reached root m m' :
  rtc corridor m m' -> dims h w m -> reached root m -> reached root m'.
Proof.
  induction 1 as [|a b c Hab Hbc IH]; intros Hd Hl; [done|].
  apply IH; [by eapply corridor_dims|by eapply corridor_reached].
Qed.

(** *** A dug layer *)

(** The state of a layer when [_carve_path], started on a room of an
    all-wall grid, has returned. *)
Definition dug (m : grid) : Prop :=
  ∃ r0 c0,
    room r0 c0
    ∧ rtc corridor (set_at (all_walls self) (Z.to_nat r0) (Z.to_nat c0) OPEN) m
    ∧ exhausted (all_walls self) m.

Lemma all_walls_wall r c :
  _is_valid self r c = true ->
  cell_at (all_walls self) (Z.to_nat r) (Z.to_nat c) = Some WALL.
Proof.
  intros Hv.
  destruct (is_valid_cell self (all_walls self) r c (all_walls_dims self) Hv)
    as ([x Hx] & _).
  by rewrite Hx, (all_walls_cell _ _ _ _ Hx).
Qed.

Lemma carve_path_dug depth r c g m' g' :
  room r c ->
  _carve_path self depth r c (all_walls self) g = Ok (m', g') -> dug m'.
Proof.
  intros Hr Hrun. exists r, c. split; [done|].
  eapply (carve_path_digs depth); [apply all_walls_dims|done| |done].
  apply all_walls_wall, Hr.
Qed.

Section Dug.
Variable m : grid.
Hypothesis Hdug : dug m.

Lemma first_room_only r0 c0 r c :
  _is_valid self r0 c0 = true ->
  passable (set_at (all_walls self) (Z.to_nat r0) (Z.to_nat c0) OPEN) r c ->
  (r, c) = (Z.to_nat r0, Z.to_nat c0).
Proof.
  intros Hv [E|(x & Hx & Hne)]%passable_set_at_inv; [done|].
  by apply all_walls_cell in Hx.
Qed.

Lemma dug_dims : dims h w m.
Proof.
  destruct Hdug as (r0 & c0 & Hr & Hc & _).
  eapply corridors_dims; [exact Hc|]. apply dims_set_at, all_walls_dims.
Qed.

Lemma dug_carved : carved m.
Proof.
  destruct Hdug as (r0 & c0 & Hr & Hc & _).
  eapply corridors_carved; [exact Hc|]. apply carved_set_open, all_walls_carved.
Qed.

Lemma dug_lattice : lattice m.
Proof.
  destruct Hdug as (r0 & c0 & Hr & Hc & _).
  eapply corridors_lattice; [exact Hc|apply dims_set_at, all_walls_dims|].
  intros r c Hp. apply first_room_only in Hp as [= -> ->]; [|apply Hr].
  by apply room_inside.
Qed.

Lemma dug_reached :
  ∃ r0 c0, room r0 c0 ∧ passable m (Z.to_nat r0) (Z.to_nat c0)
           ∧ reached (Z.to_nat r0, Z.to_nat c0) m.
Proof.
  destruct Hdug as (r0 & c0 & Hr & Hc & _). exists r0, c0. split; [done|].
  split.
  { eapply corridors_passable; [exact Hc|]. apply passable_set_at_eq; [|done].
    by destruct (is_valid_cell self (all_walls self) r0 c0 (all_walls_dims self))
      as (? & _); [apply Hr|]. }
  eapply corridors_reached; [exact Hc|apply dims_set_at, all_walls_dims|].
  intros r c Hp. apply first_room_only in Hp as [= -> ->]; [done|apply Hr].
Qed.

(** Any two passable cells of a dug layer are joined by a path. *)
Lemma dug_connected a b :
  passable m a.1 a.2 -> passable m b.1 b.2 -> rtc (link m) a b.
Proof.
  destruct dug_reached as (r0 & c0 & _ & _ & Hreach).
  destruct a as [ra ca], b as [rb cb]. intros Ha Hb.
  etrans; [apply path_sym, (Hreach ra ca Ha)|]. by apply Hreach.
Qed.

(** Every room of a dug layer is passable. *)
Lemma dug_rooms r c : room r c -> passable m (Z.to_nat r) (Z.to_nat c).
Proof.
  destruct Hdug as (r0 & c0 & Hr0 & Hc & He).
  assert (Hexp : ∀ r c, room r c -> passable m (Z.to_nat r) (Z.to_nat c) ->
                        explored m r c).
  { intros r1 c1 Hr1 Hp1. apply He; [done| |done]. apply all_walls_wall, Hr1. }
  assert (Hroot : passable m (Z.to_nat r0) (Z.to_nat c0)).
  { eapply corridors_passable; [exact Hc|]. apply passable_set_at_eq; [|done].
    by destruct (is_valid_cell self (all_walls self) r0 c0 (all_walls_dims self))
      as (? & _); [apply Hr0|]. }
  assert (Hnear : ∀ (n : nat) r c,
            room r c -> Z.abs (r - r0) + Z.abs (c - c0) <= 2 * Z.of_nat n ->
            passable m (Z.to_nat r) (Z.to_nat c)).
  { induction n as [|n IH]; intros r1 c1 Hr1 Hdist.
    { by replace r1 with r0 by lia; replace c1 with c0 by lia. }
    destruct Hr0 as ([i0 Hi0] & [j0 Hj0] & Hv0%is_valid_spec).
    destruct Hr1 as ([i1 Hi1] & [j1 Hj1] & Hv1%is_valid_spec).
    assert (Hstep : ∀ r2 c2 dr dc,
              (dr, dc) ∈ directions -> r2 + dr = r1 -> c2 + dc = c1 ->
              Z.Odd r2 -> Z.Odd c2 ->
              0 <= r2 < height self -> 0 <= c2 < width self ->
              Z.abs (r2 - r0) + Z.abs (c2 - c0) <= 2 * Z.of_nat n ->
              passable m (Z.to_nat r1) (Z.to_nat c1)).
    { intros r2 c2 dr dc Hin <- <- Ho1 Ho2 Hb1 Hb2 Hd2.
      assert (room r2 c2) as Hr2.
      { split; [done|]. split; [done|]. apply is_valid_spec. lia. }
      apply (Hexp r2 c2 Hr2); [by apply IH|done|]. apply is_valid_spec. lia. }
    destruct (Z.lt_trichotomy r1 r0) as [Hlt|[Heq|Hgt]].
    - apply (Hstep (r1 + 2) c1 (-2) 0); unfold directions;
        [by repeat constructor|lia|lia|exists (i1 + 1); lia|by exists j1|lia|lia|lia].
    - destruct (Z.lt_trichotomy c1 c0) as [Hlt|[Heq'|Hgt]].
      + apply (Hstep r1 (c1 + 2) 0 (-2)); unfold directions;
          [by repeat constructor|lia|lia|by exists i1|exists (j1 + 1); lia|lia|lia|lia].
      + by replace r1 with r0 by lia; replace c1 with c0 by lia.
      + apply (Hstep r1 (c1 - 2) 0 2); unfold directions;
          [by repeat constructor|lia|lia|by exists i1|exists (j1 - 1); lia|lia|lia|lia].
    - apply (Hstep (r1 - 2) c1 2 0); unfold directions;
        [by repeat constructor|lia|lia|exists (i1 - 1); lia|by exists j1|lia|lia|lia]. }
  intros Hr. apply (Hnear (Z.to_nat (Z.abs (r - r0) + Z.abs (c - c0)))); [done|].
  lia.
Qed.

End Dug.

End Corridors.

(** *** Counting rooms *)

(** The elements at odd and at even positions of a list. *)
Fixpoint odds {A} (l : list A) : list A :=
  match l with
  | [] => []
  | _ :: l' => evens l'
  end
with evens {A} (l : list A) : list A :=
  match l with
  | [] => []
  | x :: l' => x :: odds l'
  end.

Lemma odds_evens_lookup {A} (l : list A) (i : nat) :
  odds l !! i = l !! (2 * i + 1)%nat ∧ evens l !! i = l !! (2 * i)%nat.
Proof.
  revert i. induction l as [|a l IH]; intros i; [done|]. split.
  - simpl odds. replace (2 * i + 1)%nat with (S (2 * i)) by lia. simpl.
    apply IH.
  - destruct i as [|i]; [done|]. simpl evens.
    replace (2 * S i)%nat with (S (2 * i + 1)) by lia. simpl. apply IH.
Qed.

Lemma odds_lookup {A} (l : list A) (i : nat) :
  odds l !! i = l !! (2 * i + 1)%nat.
Proof. apply odds_evens_lookup. Qed.

Lemma odds_evens_length {A} (l : list A) :
  length (odds l) = (length l / 2)%nat
  ∧ length (evens l) = ((length l + 1) / 2)%nat.
Proof.
  induction l as [|a l [IH1 IH2]]; [done|]. simpl odds. simpl evens.
  simpl length. rewrite IH1, IH2. split; [f_equal; lia|].
  replace (S (length l) + 1)%nat with (length l + 1 * 2)%nat by lia.
  rewrite Nat.div_add by done. lia.
Qed.

Lemma half_odd (j : nat) : ((2 * j + 1) / 2 = j)%nat.
Proof. symmetry. apply (Nat.div_unique _ 2 j 1); lia. Qed.

Lemma half_even (j : nat) : ((2 * j) / 2 = j)%nat.
Proof. symmetry. apply (Nat.div_unique _ 2 j 0); lia. Qed.

Lemma odds_evens_insert {A} (l : list A) (k : nat) (x : A) :
  odds (<[k := x]> l)
  = (if Nat.odd k then <[(k / 2)%nat := x]> (odds l) else odds l)
  ∧ evens (<[k := x]> l)
    = (if Nat.odd k then evens l else <[(k / 2)%nat := x]> (evens l)).
Proof.
  revert k. induction l as [|a l IH]; intros k.
  { cbn. by destruct (Nat.odd k). }
  destruct k as [|k]; [done|].
  destruct (IH k) as [IH1 IH2].
  change (odds (<[S k := x]> (a :: l))) with (evens (<[k := x]> l)).
  change (evens (<[S k := x]> (a :: l))) with (a :: odds (<[k := x]> l)).
  change (odds (a :: l)) with (evens l).
  change (evens (a :: l)) with (a :: odds l).
  rewrite IH1, IH2, Nat.odd_succ, <- Nat.negb_odd.
  destruct (Nat.odd k) eqn:Hk; cbn [negb].
  - split; [done|].
    apply Nat.odd_spec in Hk as [j ->].
    replace (S (2 * j + 1)) with (2 * (S j))%nat by lia.
    by rewrite half_odd, half_even.
  - split; [|done].
    assert (Nat.even k = true) as [j ->]%Nat.even_spec
      by (by rewrite <- Nat.negb_odd, Hk).
    replace (S (2 * j)) with (2 * j + 1)%nat by lia.
    by rewrite half_odd, half_even.
Qed.

(** The sub-grid of the cells with both coordinates odd. *)
Definition rooms (m : grid) : grid := odds (odds <$> m).

Lemma rooms_cell (m : grid) (i j : nat) :
  cell_at (rooms m) i j = cell_at m (2 * i + 1) (2 * j + 1).
Proof.
  unfold cell_at, rooms. rewrite odds_lookup, list_lookup_fmap.
  destruct (m !! (2 * i + 1)%nat); simpl; [apply odds_lookup|done].
Qed.

Lemma rooms_dims (h w : nat) (m : grid) :
  dims h w m -> dims (h / 2) (w / 2) (rooms m).
Proof.
  intros [Hh Hw]. split.
  - unfold rooms. rewrite (proj1 (odds_evens_length _)), length_fmap. by rewrite Hh.
  - apply Forall_forall. intros row Hin.
    apply list_elem_of_lookup in Hin as [i Hi].
    unfold rooms in Hi. rewrite odds_lookup, list_lookup_fmap in Hi.
    destruct (m !! (2 * i + 1)%nat) as [row0|] eqn:E; [|done].
    injection Hi as <-. rewrite (proj1 (odds_evens_length _)).
    f_equal. eapply Forall_lookup_1 in Hw; [|exact E]. done.
Qed.

Lemma rooms_set_at (m : grid) (r c : nat) (x : ascii) :
  rooms (set_at m r c x)
  = if Nat.odd r && Nat.odd c then set_at (rooms m) (r / 2) (c / 2) x
    else rooms m.
Proof.
  unfold set_at at 1.
  destruct (m !! r) as [row|] eqn:Hrow.
  2:{ destruct (Nat.odd r && Nat.odd c) eqn:Hodd; [|done].
      apply andb_true_iff in Hodd as [[i ->]%Nat.odd_spec _].
      unfold set_at, rooms. rewrite odds_lookup, list_lookup_fmap.
      rewrite half_odd. by rewrite Hrow. }
  unfold rooms. rewrite list_fmap_insert.
  rewrite (proj1 (odds_evens_insert _ _ _)).
  destruct (Nat.odd r) eqn:Hr; cbn [andb]; [|done].
  apply Nat.odd_spec in Hr as [i ->].
  rewrite half_odd. rewrite (proj1 (odds_evens_insert _ _ _)).
  assert (Hi : odds (odds <$> m) !! i = Some (odds row))
    by (by rewrite odds_lookup, list_lookup_fmap, Hrow).
  destruct (Nat.odd c) eqn:Hc.
  - unfold set_at. by rewrite Hi.
  - by apply list_insert_id.
Qed.

Lemma count_cell_none (ch : ascii) (m : grid) :
  (∀ r c x, cell_at m r c = Some x -> x ≠ ch) -> count_cell ch m = 0%nat.
Proof.
  intros H. destruct (count_cell ch m) eqn:E; [done|].
  destruct (count_cell_pos ch m) as (r & c & Hc); [lia|].
  by destruct (H _ _ _ Hc).
Qed.

Lemma count_row_all (ch : ascii) (row : list ascii) :
  Forall (λ x, x = ch) row -> count_row ch row = length row.
Proof.
  unfold count_row. induction 1 as [|x row -> _ IH]; [done|].
  rewrite filter_cons_True by done. simpl. by rewrite IH.
Qed.

Lemma count_cell_all (h w : nat) (ch : ascii) (m : grid) :
  dims h w m -> (∀ r c x, cell_at m r c = Some x -> x = ch) ->
  count_cell ch m = (h * w)%nat.
Proof.
  intros [<- Hw] Hall. unfold count_cell.
  induction m as [|row m IH]; [done|]. csimpl.
  apply Forall_cons in Hw as [Hrow Hw]. rewrite IH; [|done|].
  - rewrite count_row_all; [lia|]. apply Forall_lookup. intros c x Hx.
    apply (Hall 0%nat c). unfold cell_at. simpl. done.
  - intros r c x Hx. by apply (Hall (S r) c).
Qed.

Lemma count_row_two (a b : ascii) (row : list ascii) :
  a ≠ b -> Forall (λ x, x = a ∨ x = b) row ->
  (count_row a row + count_row b row = length row)%nat.
Proof.
  intros Hab. unfold count_row. induction 1 as [|x row [->| ->] _ IH]; [done|..].
  - rewrite filter_cons_True, filter_cons_False by done. simpl. lia.
  - rewrite filter_cons_False, filter_cons_True by done. simpl. lia.
Qed.

Lemma carved_cells (h w : nat) (m : grid) :
  dims h w m -> carved m ->
  (count_cell WALL m + count_cell OPEN m = h * w)%nat.
Proof.
  intros [<- Hw] Hc. unfold count_cell.
  induction m as [|row m IH]; [done|]. csimpl.
  apply Forall_cons in Hw as [Hrow Hw].
  assert (Hrest : (sum_list (count_row WALL <$> m)
                   + sum_list (count_row OPEN <$> m) = length m * w)%nat).
  { apply IH; [done|]. intros r c x Hx. by apply (Hc (S r) c). }
  assert (Hfirst : (count_row WALL row + count_row OPEN row = length row)%nat).
  { apply count_row_two; [done|]. apply Forall_lookup. intros c x Hx.
    by apply (Hc 0%nat c). }
  lia.
Qed.

Lemma nat_odd_of (r : Z) : Z.Odd r -> 0 <= r -> Nat.odd (Z.to_nat r) = true.
Proof. intros [i Hi] Hr. apply Nat.odd_spec. exists (Z.to_nat i). lia. Qed.

Lemma nat_even_of (r : Z) : Z.Even r -> 0 <= r -> Nat.odd (Z.to_nat r) = false.
Proof.
  intros [i Hi] Hr. rewrite <- Nat.negb_even.
  assert (Nat.even (Z.to_nat r) = true) as ->; [|done].
  apply Nat.even_spec. exists (Z.to_nat i). lia.
Qed.

Lemma double_half (r : Z) :
  Z.Odd r -> 0 <= r -> (2 * (Z.to_nat r / 2) + 1)%nat = Z.to_nat r.
Proof.
  intros [i Hi] Hr. replace (Z.to_nat r) with (2 * Z.to_nat i + 1)%nat by lia.
  by rewrite half_odd.
Qed.

Section Count.
Variable self : t.
Hypothesis height_odd : Z.Odd (height self).
Hypothesis width_odd : Z.Odd (width self).
Local Abbreviation h := (Z.to_nat (height self)).
Local Abbreviation w := (Z.to_nat (width self)).

(** A passable cell between two rooms has both rooms passable. *)
Definition sealed (m : grid) : Prop :=
  ∀ r c dr dc,
    (dr, dc) ∈ directions -> room self r c -> room self (r + dr) (c + dc) ->
    passable m (Z.to_nat (r + dr / 2)) (Z.to_nat (c + dc / 2)) ->
    passable m (Z.to_nat r) (Z.to_nat c).

Ltac four Hin :=
  unfold directions in Hin;
  repeat (apply elem_of_cons in Hin as [[= -> ->]|Hin]);
  try (by apply elem_of_nil in Hin);
  (change (2 / 2) with 1 in *; change (-2 / 2) with (-1) in *;
   change (0 / 2) with 0 in * ).

Lemma mid_ends r c dr dc r' c' dr' dc' :
  (dr, dc) ∈ directions -> (dr', dc') ∈ directions ->
  room self r c -> room self (r + dr) (c + dc) ->
  room self r' c' -> room self (r' + dr') (c' + dc') ->
  (Z.to_nat (r + dr / 2), Z.to_nat (c + dc / 2))
  = (Z.to_nat (r' + dr' / 2), Z.to_nat (c' + dc' / 2)) ->
  (r = r' ∧ c = c') ∨ (r = r' + dr' ∧ c = c' + dc').
Proof.
  intros Hin Hin' ([i Hi] & [j Hj] & Hv%is_valid_spec)
    (_ & _ & Hv2%is_valid_spec)
    ([i' Hi'] & [j' Hj'] & Hv'%is_valid_spec) (_ & _ & Hv2'%is_valid_spec).
  four Hin; four Hin'; intros [= E1 E2]; lia.
Qed.

Lemma opposite r c dr dc :
  (dr, dc) ∈ directions ->
  (- dr, - dc) ∈ directions
  ∧ r + dr + - dr = r ∧ c + dc + - dc = c
  ∧ r + dr + - dr / 2 = r + dr / 2 ∧ c + dc + - dc / 2 = c + dc / 2.
Proof.
  intros Hin. unfold directions in *.
  repeat (apply elem_of_cons in Hin as [[= -> ->]|Hin]);
    try (by apply elem_of_nil in Hin);
    (split; [by repeat constructor|]);
    change (- (2) / 2) with (-1); change (- (-2) / 2) with 1;
    change (- 0 / 2) with 0; change (2 / 2) with 1;
    change (-2 / 2) with (-1); change (0 / 2) with 0; lia.
Qed.

Lemma corridor_sealed m m' :
  dims h w m -> corridor self m m' -> sealed m -> sealed m'.
Proof.
  intros Hd Hc Hs r c dr dc Hin Hr Hr' Hp'.
  destruct (corridor_passable_inv self m m' _ _ Hd Hc Hp')
    as [Hp|(r1 & c1 & dr1 & dc1 & Hin1 & Hr1 & Hr1' & Hsrc & Hmid & Hnew
            & Hwhich)].
  { eapply corridor_passable; [exact Hc|]. by apply (Hs r c dr dc). }
  destruct Hwhich as [E|E].
  - destruct (mid_ends _ _ _ _ _ _ _ _ Hin Hin1 Hr Hr' Hr1 Hr1' E)
      as [[-> ->]|[-> ->]]; [|done].
    by eapply corridor_passable.
  - exfalso. revert E. apply (mid_not_room self r c dr dc); [done..|].
    apply Hr'.
Qed.

Lemma sealed_mid_wall m r c dr dc :
  dims h w m -> sealed m ->
  (dr, dc) ∈ directions -> room self r c -> room self (r + dr) (c + dc) ->
  cell_at m (Z.to_nat (r + dr)) (Z.to_nat (c + dc)) = Some WALL ->
  cell_at m (Z.to_nat (r + dr / 2)) (Z.to_nat (c + dc / 2)) = Some WALL.
Proof.
  intros Hd Hs Hin Hr Hr' Hw.
  destruct (mid_valid self r c dr dc Hin) as (Hmv & _); [apply Hr|apply Hr'|].
  destruct (is_valid_cell self m _ _ Hd Hmv) as ([x Hx] & _).
  destruct (decide (x = WALL)) as [->|Hne]; [done|].
  destruct (opposite r c dr dc Hin) as (Hin' & E1 & E2 & E3 & E4).
  destruct (wall_not_passable m _ _ Hw).
  apply (Hs (r + dr) (c + dc) (- dr) (- dc)); [done|done|by rewrite E1, E2|].
  rewrite E3, E4. by exists x.
Qed.

Lemma corridor_counts m m' :
  dims h w m -> sealed m -> corridor self m m' ->
  count_cell OPEN m' = (count_cell OPEN m + 2)%nat
  ∧ count_cell OPEN (rooms m') = (count_cell OPEN (rooms m) + 1)%nat.
Proof.
  intros Hd Hs Hc. revert Hd Hs.
  destruct Hc as [m0 r c dr dc Hin Hr Hr' Hp Hw]. intros Hd Hs.
  pose proof (sealed_mid_wall m0 r c dr dc Hd Hs Hin Hr Hr' Hw) as Hmw.
  assert (Hv : _is_valid self r c = true) by apply Hr.
  assert (Hv' : _is_valid self (r + dr) (c + dc) = true) by apply Hr'.
  destruct (mid_valid self r c dr dc Hin Hv Hv') as (Hmv & Hne1 & Hne2 & Hne3).
  apply is_valid_spec in Hmv as Hmb. apply is_valid_spec in Hv' as Hnb.
  set (m1 := set_at m0 (Z.to_nat (r + dr / 2)) (Z.to_nat (c + dc / 2)) OPEN).
  assert (Hw1 : cell_at m1 (Z.to_nat (r + dr)) (Z.to_nat (c + dc)) = Some WALL).
  { subst m1. rewrite cell_at_set_at_ne; [done|].
    intros [= E1 E2]. apply Hne2. f_equal; lia. }
  destruct (set_open_wall _ _ _ Hmw) as (_ & _ & Ho1). fold m1 in Ho1.
  destruct (set_open_wall _ _ _ Hw1) as (_ & _ & Ho2).
  split; [lia|].
  assert (Hmid : Nat.odd (Z.to_nat (r + dr / 2))
                 && Nat.odd (Z.to_nat (c + dc / 2)) = false).
  { destruct Hr as ([i Hi] & [j Hj] & _).
    clear -Hin Hi Hj Hmb. four Hin.
    - rewrite (nat_even_of (c + 1)); [by rewrite andb_false_r|by exists (j + 1); lia|lia].
    - rewrite (nat_even_of (c + -1)); [by rewrite andb_false_r|by exists j; lia|lia].
    - rewrite (nat_even_of (r + 1)); [done|by exists (i + 1); lia|lia].
    - rewrite (nat_even_of (r + -1)); [done|by exists i; lia|lia]. }
  destruct Hr' as (Ho & Ho' & _).
  rewrite rooms_set_at.
  rewrite (nat_odd_of _ Ho), (nat_odd_of _ Ho') by lia. cbn [andb].
  subst m1. rewrite rooms_set_at, Hmid.
  assert (Hrw : cell_at (rooms m0) (Z.to_nat (r + dr) / 2)
                  (Z.to_nat (c + dc) / 2) = Some WALL).
  { rewrite rooms_cell. rewrite !double_half by (done || lia). done. }
  destruct (set_open_wall _ _ _ Hrw) as (_ & _ & Ho3). lia.
Qed.

Lemma corridors_counts m m' :
  rtc (corridor self) m m' -> dims h w m -> sealed m ->
  (count_cell OPEN m + 1 = 2 * count_cell OPEN (rooms m))%nat ->
  (count_cell OPEN m' + 1 = 2 * count_cell OPEN (rooms m'))%nat.
Proof.
  induction 1 as [|a b c Hab Hbc IH]; intros Hd Hs Hn; [done|].
  destruct (corridor_counts a b Hd Hs Hab) as [H1 H2].
  apply IH; [by eapply corridor_dims|by eapply corridor_sealed|lia].
Qed.

(** The open cells of a dug layer: all the rooms, and one cell less
    between them, as in a tree. *)
Lemma dug_open_cells m :
  dug self m ->
  (count_cell OPEN m + 1 = 2 * ((h / 2) * (w / 2)))%nat.
Proof.
  intros Hdug.
  pose proof (dug_dims self m Hdug) as Hd.
  pose proof (dug_carved self m Hdug) as Hcv.
  assert (Hall : count_cell OPEN (rooms m) = ((h / 2) * (w / 2))%nat).
  { apply count_cell_all; [by apply rooms_dims|].
    intros i j x Hx. rewrite rooms_cell in Hx.
    destruct (cell_at_dims _ _ _ _ _ _ Hd Hx) as [Hi Hj].
    destruct (dug_rooms self m Hdug (Z.of_nat (2 * i + 1)) (Z.of_nat (2 * j + 1)))
      as (y & Hy & Hne).
    { split; [exists (Z.of_nat i); lia|]. split; [exists (Z.of_nat j); lia|].
      apply is_valid_spec. lia. }
    rewrite !Nat2Z.id in Hy. rewrite Hx in Hy. injection Hy as <-.
    by destruct (Hcv _ _ _ Hx). }
  rewrite <- Hall.
  destruct Hdug as (r0 & c0 & Hr0 & Hc & _).
  eapply corridors_counts; [exact Hc|apply dims_set_at, all_walls_dims|..].
  - intros r c dr dc Hin Hr Hr' Hp.
    apply first_room_only in Hp; [|apply Hr0].
    exfalso. revert Hp. apply (mid_not_room self r c dr dc); [done..|].
    apply Hr'.
  - assert (Hv0 : _is_valid self r0 c0 = true) by apply Hr0.
    apply is_valid_spec in Hv0 as Hb0.
    destruct (set_open_wall _ _ _ (all_walls_wall self r0 c0 Hv0)) as (_ & _ & ->).
    rewrite all_walls_opens, rooms_set_at.
    destruct Hr0 as (Ho & Ho' & _).
    rewrite (nat_odd_of _ Ho), (nat_odd_of _ Ho') by lia. cbn [andb].
    assert (Hrw : cell_at (rooms (all_walls self)) (Z.to_nat r0 / 2)
                    (Z.to_nat c0 / 2) = Some WALL).
    { rewrite rooms_cell, !double_half by (done || lia).
      by apply all_walls_wall. }
    destruct (set_open_wall _ _ _ Hrw) as (_ & _ & ->).
    rewrite (count_cell_none OPEN (rooms (all_walls self))); [done|].
    intros i j x Hx. rewrite rooms_cell in Hx.
    by apply all_walls_cell in Hx as ->.
Qed.

Lemma dug_walls m :
  dug self m ->
  (count_cell WALL m + 2 * ((h / 2) * (w / 2)) = h * w + 1)%nat.
Proof.
  intros Hdug. pose proof (dug_open_cells m Hdug).
  pose proof (carved_cells h w m (dug_dims self m Hdug) (dug_carved self m Hdug)).
  lia.
Qed.

End Count.

(** *** Marks replace open cells *)

(** One placement: an open cell takes a mark. *)
Inductive relabel : grid -> grid -> Prop :=
| relabel_intro m r c mark :
    mark ≠ WALL -> mark ≠ OPEN -> cell_at m r c = Some OPEN ->
    relabel m (set_at m r c mark).

Lemma relabel_dims h w m m' : relabel m m' -> dims h w m -> dims h w m'.
Proof. intros [] Hd. by apply dims_set_at. Qed.

Lemma relabel_passable m m' r c :
  relabel m m' -> passable m r c <-> passable m' r c.
Proof.
  intros [m0 r0 c0 mark Hw Ho Hc]. split.
  - by apply passable_set_at.
  - intros [[= -> ->]|Hp]%passable_set_at_inv; [|done]. by exists OPEN.
Qed.

(** A cell that is not open keeps its content. *)
Lemma relabel_kept m m' r c x :
  relabel m m' -> x ≠ OPEN -> cell_at m r c = Some x -> cell_at m' r c = Some x.
Proof.
  intros [m0 r0 c0 mark Hw Ho Hc] Hx Hcell.
  rewrite cell_at_set_at_ne; [done|]. intros [= -> ->]. congruence.
Qed.

(** A cell that is not open afterwards had that content before, or was
    the open cell that took the mark. *)
Lemma relabel_cell_inv m m' r c x :
  relabel m m' -> cell_at m' r c = Some x ->
  cell_at m r c = Some x ∨ (cell_at m r c = Some OPEN ∧ x ≠ WALL ∧ x ≠ OPEN).
Proof.
  intros [m0 r0 c0 mark Hw Ho Hc] Hcell.
  destruct (decide ((r0, c0) = (r, c))) as [[= -> ->]|Hne].
  - rewrite cell_at_set_at_eq in Hcell by eauto. injection Hcell as <-. eauto.
  - rewrite cell_at_set_at_ne in Hcell by done. by left.
Qed.


Lemma relabel_walls m m' :
  relabel m m' -> count_cell WALL m' = count_cell WALL m.
Proof.
  intros [m0 r0 c0 mark Hw Ho Hc].
  destruct (relabel_counts m0 r0 c0 mark WALL Hc Ho) as [_ H].
  rewrite H by done. unfold tick. rewrite decide_False by done. lia.
Qed.

Lemma relabel_opens m m' :
  relabel m m' -> (count_cell OPEN m' + 1 = count_cell OPEN m)%nat.
Proof.
  intros [m0 r0 c0 mark Hw Ho Hc].
  by destruct (relabel_counts m0 r0 c0 mark WALL Hc Ho) as [? _].
Qed.

Lemma relabels_dims h w m m' : rtc relabel m m' -> dims h w m -> dims h w m'.
Proof. induction 1; eauto using relabel_dims. Qed.

Lemma relabels_passable m m' r c :
  rtc relabel m m' -> passable m r c <-> passable m' r c.
Proof.
  induction 1 as [|a b c' Hab _ IH]; [done|].
  by rewrite (relabel_passable a b r c Hab).
Qed.

Lemma relabels_kept m m' r c x :
  rtc relabel m m' -> x ≠ OPEN ->
  cell_at m r c = Some x -> cell_at m' r c = Some x.
Proof. induction 1; eauto using relabel_kept. Qed.

Lemma relabels_walls m m' :
  rtc relabel m m' -> count_cell WALL m' = count_cell WALL m.
Proof.
  induction 1 as [|a b c Hab _ IH]; [done|].
  by rewrite IH, (relabel_walls a b Hab).
Qed.

Lemma relabels_opens m m' :
  rtc relabel m m' -> (count_cell OPEN m' <= count_cell OPEN m)%nat.
Proof.
  induction 1 as [|a b c Hab _ IH]; [done|].
  pose proof (relabel_opens a b Hab). lia.
Qed.

Lemma relabels_link m m' a b :
  rtc relabel m m' -> link m a b <-> link m' a b.
Proof.
  intros H. unfold link.
  by rewrite (relabels_passable m m' a.1 a.2 H),
    (relabels_passable m m' b.1 b.2 H).
Qed.

Lemma relabels_path m m' a b :
  rtc relabel m m' -> rtc (link m) a b -> rtc (link m') a b.
Proof.
  intros H. apply rtc_subrel. intros x y Hxy. by apply (relabels_link m m').
Qed.

(** *** Layers of a maze set *)

Definition relabelled (mz mz' : list grid) : Prop := Forall2 (rtc relabel) mz mz'.

Lemma relabelled_refl mz : relabelled mz mz.
Proof. induction mz; by constructor. Qed.

Lemma relabelled_trans mz1 mz2 mz3 :
  relabelled mz1 mz2 -> relabelled mz2 mz3 -> relabelled mz1 mz3.
Proof.
  apply Forall2_trans. intros x y z ? ?. by etrans.
Qed.

Lemma relabelled_insert mz n m m' :
  mz !! n = Some m -> relabel m m' -> relabelled mz (<[n := m']> mz).
Proof.
  intros Hn Hr. apply Forall2_same_length_lookup_2; [by rewrite length_insert|].
  intros i a b Ha Hb. destruct (decide (i = n)) as [->|Hne].
  - rewrite list_lookup_insert_eq in Hb by (by eapply lookup_lt_Some).
    simplify_eq. by apply rtc_once.
  - rewrite list_lookup_insert_ne in Hb by done. by simplify_eq.
Qed.

Lemma relabelled_lookup mz mz' n m' :
  relabelled mz mz' -> mz' !! n = Some m' ->
  ∃ m, mz !! n = Some m ∧ rtc relabel m m'.
Proof. intros H Hn. by destruct (Forall2_lookup_r _ _ _ _ _ H Hn) as (m & ? & ?); eauto. Qed.

Lemma relabelled_lookup_l mz mz' n m :
  relabelled mz mz' -> mz !! n = Some m ->
  ∃ m', mz' !! n = Some m' ∧ rtc relabel m m'.
Proof. intros H Hn. by destruct (Forall2_lookup_l _ _ _ _ _ H Hn) as (m' & ? & ?); eauto. Qed.

(** *** What the placement steps return *)

Lemma py_get_inv {A} (l : list A) (i : Z) (x : A) :
  py_get l i = Ok x -> ∃ n, py_index (length l) i = Some n ∧ l !! n = Some x.
Proof.
  unfold py_get. destruct (py_index (length l) i) as [n|]; [|done].
  destruct (l !! n) eqn:E; [|done]. intros [= <-]. eauto.
Qed.

Lemma py_index_nonneg (len : nat) (i : Z) (n : nat) :
  0 <= i -> py_index len i = Some n -> n = Z.to_nat i.
Proof.
  unfold py_index. intros Hi. destruct (Z.leb_spec 0 i); [|lia].
  destruct (i <? Z.of_nat len); [|done]. by intros [= <-].
Qed.

Lemma choice_inv {A} (l : list A) (g : rng) (x : A) (g' : rng) :
  choice l g = Ok (x, g') -> x ∈ l.
Proof.
  unfold choice. destruct l as [|a l]; [done|].
  destruct (randbelow _ g) as [k g1]. destruct (_ !! k) eqn:E; [|done].
  intros [= <- <-]. by eapply list_elem_of_lookup_2.
Qed.

Lemma set_maze_cell_at (mazes : list grid) (l : Z) (n : nat) (m : grid)
    (r c : Z) (mark : ascii) :
  py_index (length mazes) l = Some n -> mazes !! n = Some m ->
  0 <= r -> 0 <= c -> is_Some (cell_at m (Z.to_nat r) (Z.to_nat c)) ->
  set_maze_cell mazes l r c mark
  = Ok (<[n := set_at m (Z.to_nat r) (Z.to_nat c) mark]> mazes).
Proof.
  intros Hi Hn Hr Hc Hcell. unfold set_maze_cell, py_get, py_set.
  rewrite Hi, Hn. simpl. by rewrite set_cell_valid.
Qed.

Section Placement.
Variable self : t.
Variables h w : nat.
Hypothesis Hh : height self = Z.of_nat h.
Hypothesis Hw : width self = Z.of_nat w.

(** The cell chosen for a mark, when the layer had an open cell. *)
Lemma pick_open (m : grid) (spots : list (Z * Z)) (g : rng) :
  dims h w m ->
  open_spots (height self) (width self) m = Ok spots ->
  (spots = [] ∧ count_cell OPEN m = 0%nat)
  ∨ (spots ≠ []
     ∧ ∀ p g', choice spots g = Ok (p, g') ->
               0 <= p.1 ∧ 0 <= p.2
               ∧ cell_at m (Z.to_nat p.1) (Z.to_nat p.2) = Some OPEN).
Proof.
  intros Hd Hs. rewrite Hh, Hw in Hs.
  destruct (open_spots_spec h w m Hd) as (spots' & Hs' & Hiff).
  rewrite Hs in Hs'. injection Hs' as <-.
  destruct spots as [|s spots].
  - left. split; [done|].
    destruct (count_cell OPEN m) eqn:E; [done|].
    destruct (count_cell_pos OPEN m) as (r & c & Hcell); [lia|].
    destruct (cell_at_dims _ _ _ _ _ _ Hd Hcell).
    assert ((Z.of_nat r, Z.of_nat c) ∈ @nil (Z * Z)) as []%elem_of_nil.
    apply Hiff. simpl. unfold is_open_at. simpl. rewrite !Nat2Z.id.
    split; [lia|]. split; [lia|done].
  - right. split; [done|]. intros p g' Hp%choice_inv.
    apply Hiff in Hp as (? & ? & ?). split; [lia|]. split; [lia|done].
Qed.

Lemma place_mark_inv (mazes : list grid) (l : Z) (mark : ascii) (g : rng)
    mazes' p spots g' :
  Forall (dims h w) mazes -> mark ≠ WALL -> mark ≠ OPEN ->
  place_mark self mazes l mark g = Ok (mazes', p, spots, g') ->
  ∃ n m,
    py_index (length mazes) l = Some n ∧ mazes !! n = Some m
    ∧ ((count_cell OPEN m = 0%nat ∧ spots = [] ∧ mazes' = mazes ∧ p = (1, 1))
       ∨ (0 <= p.1 ∧ 0 <= p.2
          ∧ cell_at m (Z.to_nat p.1) (Z.to_nat p.2) = Some OPEN
          ∧ mazes' = <[n := set_at m (Z.to_nat p.1) (Z.to_nat p.2) mark]> mazes)).
Proof.
  intros Hds Hmw Hmo Hrun. unfold place_mark in Hrun.
  unfold gbind at 1 in Hrun. unfold glift at 1 in Hrun.
  destruct (py_get mazes l) as [m|] eqn:Hget; [|done].
  apply py_get_inv in Hget as (n & Hi & Hn). exists n, m.
  split; [done|]. split; [done|].
  assert (Hd : dims h w m) by (by eapply Forall_lookup_1 in Hds).
  unfold gbind at 1 in Hrun. unfold glift at 1 in Hrun.
  destruct (open_spots (height self) (width self) m) as [spots0|] eqn:Hs; [|done].
  destruct (pick_open m spots0 g Hd Hs) as [[-> Hnone]|[Hne Hpick]].
  - injection Hrun as <- <- <- <-. by left.
  - destruct spots0 as [|s0 spots0]; [done|].
    unfold gbind at 1 in Hrun.
    destruct (choice (s0 :: spots0) g) as [[[sr sc] g1]|] eqn:Hch; [|done].
    destruct (Hpick _ _ eq_refl) as (Hr & Hc & Hcell). simpl in Hr, Hc, Hcell.
    unfold gbind at 1 in Hrun. unfold glift at 1 in Hrun.
    rewrite (set_maze_cell_at mazes l n m sr sc mark) in Hrun by eauto.
    injection Hrun as <- <- <- <-. right. done.
Qed.

Lemma place_teleporter_inv (me : t) (l : Z) (kind : ascii) (g : rng) me' g' :
  height me = height self -> width me = width self ->
  Forall (dims h w) (mazes me) ->
  place_teleporter me l kind g = Ok (me', g') ->
  ∃ n m,
    py_index (length (mazes me)) l = Some n ∧ mazes me !! n = Some m
    ∧ ((count_cell OPEN m = 0%nat ∧ me' = me)
       ∨ ∃ p entry,
           0 <= p.1 ∧ 0 <= p.2
           ∧ cell_at m (Z.to_nat p.1) (Z.to_nat p.2) = Some OPEN
           ∧ teleporter_coords me !! l = Some entry
           ∧ me' = with_teleporter_coords
                     (with_mazes me
                        (<[n := set_at m (Z.to_nat p.1) (Z.to_nat p.2) kind]>
                           (mazes me)))
                     (<[l := entry ++ [{| tp_r := p.1; tp_c := p.2;
                                          tp_type := kind |}]]>
                        (teleporter_coords me))).
Proof.
  intros Eh Ew Hds Hrun. unfold place_teleporter in Hrun.
  unfold gbind at 1 in Hrun. unfold glift at 1 in Hrun.
  destruct (py_get (mazes me) l) as [m|] eqn:Hget; [|done].
  apply py_get_inv in Hget as (n & Hi & Hn). exists n, m.
  split; [done|]. split; [done|].
  assert (Hd : dims h w m) by (by eapply Forall_lookup_1 in Hds).
  unfold gbind at 1 in Hrun. unfold glift at 1 in Hrun.
  rewrite Eh, Ew in Hrun.
  destruct (open_spots (height self) (width self) m) as [spots0|] eqn:Hs; [|done].
  destruct (pick_open m spots0 g Hd Hs) as [[-> Hnone]|[Hne Hpick]].
  - injection Hrun as <- <-. by left.
  - destruct spots0 as [|s0 spots0]; [done|].
    unfold gbind at 1 in Hrun.
    destruct (choice (s0 :: spots0) g) as [[[sr sc] g1]|] eqn:Hch; [|done].
    destruct (Hpick _ _ eq_refl) as (Hr & Hc & Hcell). simpl in Hr, Hc, Hcell.
    unfold gbind at 1 in Hrun. unfold glift at 1 in Hrun.
    rewrite (set_maze_cell_at (mazes me) l n m sr sc kind) in Hrun by eauto.
    unfold gbind at 1 in Hrun. unfold glift at 1 in Hrun.
    destruct (teleporter_coords me !! l) as [entry|] eqn:He; [|done].
    injection Hrun as <- <-. right. exists (sr, sc), entry. done.
Qed.

End Placement.

(** *** What [generate] returns *)

Lemma randrange_step2_inv (stop : Z) (g : rng) (r : Z) (g' : rng) :
  randrange_step2 1 stop g = Ok (r, g') -> Z.Odd r ∧ 1 <= r < stop.
Proof.
  unfold randrange_step2. replace (stop - 1 + 1) with stop by lia.
  destruct (Z.ltb_spec 0 (stop / 2)) as [Hn|]; [|done].
  destruct (randbelow (Z.to_nat (stop / 2)) g) as [k g1] eqn:Hk.
  intros [= <- <-]. apply randbelow_lt in Hk; [|lia].
  pose proof (Z.mul_div_le stop 2). split; [exists (Z.of_nat k); lia|lia].
Qed.

(** Every teleporter that is recorded names a cell that holds it. *)
Definition recorded (me : t) : Prop :=
  ∀ l entry e,
    teleporter_coords me !! l = Some entry -> e ∈ entry ->
    0 <= l ∧ 0 <= tp_r e ∧ 0 <= tp_c e
    ∧ (tp_type e = UP ∨ tp_type e = DOWN)
    ∧ ∃ m, mazes me !! Z.to_nat l = Some m
           ∧ cell_at m (Z.to_nat (tp_r e)) (Z.to_nat (tp_c e))
             = Some (tp_type e).

(** The generator keeps its size and its start and end. *)
Definition same_frame (me me' : t) : Prop :=
  height me' = height me ∧ width me' = width me
  ∧ num_layers me' = num_layers me
  ∧ start_coords me' = start_coords me ∧ end_coords me' = end_coords me.

Section Finished.
Variable self : t.
Hypothesis height_odd : Z.Odd (height self).
Hypothesis width_odd : Z.Odd (width self).
Hypothesis height_pos : 0 <= height self.
Hypothesis width_pos : 0 <= width self.
Local Abbreviation h := (Z.to_nat (height self)).
Local Abbreviation w := (Z.to_nat (width self)).


Lemma carve_layers_dug depth idx mazes g mazes' g' :
  Forall (dug self) mazes ->
  carve_layers self depth idx mazes g = Ok (mazes', g') ->
  Forall (dug self) mazes'
  ∧ length mazes' = (length mazes + length idx)%nat.
Proof.
  revert mazes g. induction idx as [|i idx IH]; intros mazes g Hall Hrun.
  { injection Hrun as <- <-. split; [done|]. simpl. lia. }
  simpl in Hrun. unfold gbind at 1 in Hrun.
  destruct (randrange_step2 1 (height self) g) as [[r g1]|] eqn:Hr; [|done].
  unfold gbind at 1 in Hrun.
  destruct (randrange_step2 1 (width self) g1) as [[c g2]|] eqn:Hc; [|done].
  unfold gbind at 1 in Hrun.
  destruct (_carve_path self depth r c _ g2) as [[m g3]|] eqn:Hcarve; [|done].
  apply randrange_step2_inv in Hr as [Hor Hrb].
  apply randrange_step2_inv in Hc as [Hoc Hcb].
  apply (carve_path_dug self) in Hcarve.
  2:{ split; [done|]. split; [done|]. apply is_valid_spec. lia. }
  destruct (IH (mazes ++ [m]) g3) as [H1 H2]; [|done|].
  { apply Forall_app. split; [done|]. by constructor. }
  split; [done|]. rewrite H2, length_app. simpl. lia.
Qed.

Lemma dug_has_open m : dug self m -> (1 <= count_cell OPEN m)%nat.
Proof.
  intros Hd. pose proof (dug_open_cells self m Hd). lia.
Qed.

Lemma recorded_reset (me : t) (l : Z) :
  recorded me ->
  recorded (with_teleporter_coords me (<[l := []]> (teleporter_coords me))).
Proof.
  intros Hrec l2 entry e Hl He. simpl in Hl.
  destruct (decide (l2 = l)) as [->|Hne].
  - rewrite lookup_insert_eq in Hl. injection Hl as <-.
    by apply elem_of_nil in He.
  - rewrite lookup_insert_ne in Hl by done. by apply (Hrec l2 entry e).
Qed.

Lemma placement_step (b : bool) (me : t) (l : Z) (kind : ascii) (g : rng)
    me' g' :
  0 <= l -> height me = height self -> width me = width self ->
  Forall (dims h w) (mazes me) -> recorded me ->
  kind = UP ∨ kind = DOWN ->
  (if b then place_teleporter me l kind else gret me) g = Ok (me', g') ->
  same_frame me me'
  ∧ relabelled (mazes me) (mazes me')
  ∧ Forall (dims h w) (mazes me')
  ∧ recorded me'.
Proof.
  intros Hl Eh Ew Hds Hrec Hkind Hrun.
  destruct b.
  2:{ injection Hrun as <- <-. split; [done|]. split; [apply relabelled_refl|done]. }
  assert (Hsz : height self = Z.of_nat h ∧ width self = Z.of_nat w).
  { lia. }
  destruct Hsz as [Hh Hw].
  destruct (place_teleporter_inv self h w Hh Hw me l kind g me' g' Eh Ew Hds Hrun)
    as (n & m & Hi & Hn & [[_ ->]|(p & entry & Hr & Hc & Hcell & He & ->)]).
  { split; [done|]. split; [apply relabelled_refl|done]. }
  apply py_index_nonneg in Hi as ->; [|done].
  assert (Hko : kind ≠ OPEN) by (by destruct Hkind as [-> | ->]).
  assert (Hkw : kind ≠ WALL) by (by destruct Hkind as [-> | ->]).
  assert (Hstep : relabel m (set_at m (Z.to_nat p.1) (Z.to_nat p.2) kind))
    by (by constructor).
  split; [done|]. split; [by apply (relabelled_insert _ _ m)|]. split.
  { simpl. apply Forall_insert; [done|]. eapply relabel_dims; [done|].
    by eapply Forall_lookup_1 in Hds. }
  intros l2 entry2 e Hl2 Hin. simpl in Hl2. simpl mazes.
  destruct (decide (l2 = l)) as [->|Hne].
  - rewrite lookup_insert_eq in Hl2. injection Hl2 as <-.
    rewrite list_lookup_insert_eq by (by eapply lookup_lt_Some).
    apply elem_of_app in Hin as [Hin|Hin].
    + destruct (Hrec l entry e He Hin) as (? & ? & ? & Hty & m2 & Hm2 & Hc2).
      rewrite Hn in Hm2. injection Hm2 as <-.
      repeat (split; [done|]). eexists. split; [done|].
      eapply relabel_kept; [done| |done]. by destruct Hty as [-> | ->].
    + apply list_elem_of_singleton in Hin as ->. simpl.
      repeat (split; [done|]). eexists. split; [done|].
      rewrite cell_at_set_at_eq; eauto.
  - rewrite lookup_insert_ne in Hl2 by done.
    destruct (Hrec l2 entry2 e Hl2 Hin) as (? & ? & ? & Hty & m2 & Hm2 & Hc2).
    repeat (split; [done|]). exists m2. split; [|done].
    rewrite list_lookup_insert_ne; [done|]. lia.
Qed.

Lemma place_teleporters_inv (ls : list Z) (me : t) (g : rng) me' g' :
  (∀ x, x ∈ ls -> 0 <= x) ->
  height me = height self -> width me = width self ->
  Forall (dims h w) (mazes me) -> recorded me ->
  place_teleporters me ls g = Ok (me', g') ->
  same_frame me me'
  ∧ relabelled (mazes me) (mazes me')
  ∧ recorded me'.
Proof.
  revert me g. induction ls as [|l ls IH]; intros me g Hls Eh Ew Hds Hrec Hrun.
  { injection Hrun as <- <-. split; [done|]. split; [apply relabelled_refl|done]. }
  simpl in Hrun. unfold gbind at 1 in Hrun.
  set (me0 := with_teleporter_coords me (<[l := []]> (teleporter_coords me))).
  match type of Hrun with
  | match ?x with _ => _ end = _ => destruct x as [[me1 g1]|] eqn:H1; [|done]
  end.
  unfold gbind at 1 in Hrun.
  match type of Hrun with
  | match ?x with _ => _ end = _ => destruct x as [[me2 g2]|] eqn:H2; [|done]
  end.
  assert (Hl : 0 <= l) by (apply Hls; left).
  destruct (placement_step (l <? num_layers me - 1) me0 l UP g me1 g1 Hl Eh Ew Hds)
    as (F1 & R1 & D1 & C1); [by apply recorded_reset|by left|exact H1|].
  destruct F1 as (Eh1 & Ew1 & En1 & Es1 & Ee1).
  destruct (placement_step (0 <? l) me1 l DOWN g1 me2 g2 Hl)
    as (F2 & R2 & D2 & C2);
    [simpl in *; congruence|simpl in *; congruence|done|done|by right|exact H2|].
  destruct F2 as (Eh2 & Ew2 & En2 & Es2 & Ee2).
  assert (Hls' : ∀ x, x ∈ ls -> 0 <= x) by (intros x Hx; apply Hls; by right).
  assert (Eh' : height me2 = height self) by (simpl in *; congruence).
  assert (Ew' : width me2 = width self) by (simpl in *; congruence).
  destruct (IH me2 g2 Hls' Eh' Ew' D2 C2 Hrun) as (F3 & R3 & C3).
  destruct F3 as (Eh3 & Ew3 & En3 & Es3 & Ee3).
  split; [unfold same_frame; simpl in *; repeat split; congruence|].
  split; [|done].
  eapply relabelled_trans; [exact R1|]. by eapply relabelled_trans.
Qed.

End Finished.

(** The generator when [generate] has returned. *)
Record finished (self self' : t) : Prop := {
  fin_height : height self' = height self;
  fin_width : width self' = width self;
  fin_layers : num_layers self' = num_layers self;
  fin_count : 1 <= num_layers self
              ∧ length (mazes self') = Z.to_nat (num_layers self);
  fin_size : 2 <= height self ∧ 2 <= width self;
  fin_dug : ∃ mazes0, Forall (dug self) mazes0
                      ∧ relabelled mazes0 (mazes self');
  fin_start :
    ∃ sr sc m,
      start_coords self' = Some (sr, sc) ∧ 0 <= sr ∧ 0 <= sc
      ∧ mazes self' !! 0%nat = Some m
      ∧ cell_at m (Z.to_nat sr) (Z.to_nat sc) = Some START;
  fin_end :
    ∃ er ec m,
      end_coords self' = Some (er, ec)
      ∧ mazes self' !! Z.to_nat (num_layers self - 1) = Some m
      ∧ ((0 <= er ∧ 0 <= ec
          ∧ cell_at m (Z.to_nat er) (Z.to_nat ec) = Some END)
         ∨ ((er, ec) = (1, 1) ∧ count_cell END m = 0%nat
            ∧ num_layers self = 1
            ∧ (Z.to_nat (height self) / 2 = 1)%nat
            ∧ (Z.to_nat (width self) / 2 = 1)%nat));
  fin_recorded : recorded self'
}.

Lemma dug_size self m : dug self m -> 2 <= height self ∧ 2 <= width self.
Proof.
  intros (r0 & c0 & ([i Hi] & [j Hj] & Hv%is_valid_spec) & _). lia.
Qed.

Lemma dug_no_marks self m ch :
  dug self m -> ch ≠ WALL -> ch ≠ OPEN -> count_cell ch m = 0%nat.
Proof. intros Hd. apply carved_count. by eapply dug_carved. Qed.

Lemma generate_finished self depth g self' g' :
  generate self depth g = Ok (self', g') -> finished self self'.
Proof.
  intros Hrun. unfold generate in Hrun. unfold gbind at 1 in Hrun.
  destruct (carve_layers self depth (range (num_layers self)) [] g)
    as [[mazes0 g0]|] eqn:Hcarve; [|done].
  apply carve_layers_dug in Hcarve as [Hdug Hlen]; [|done].
  rewrite length_range in Hlen. simpl in Hlen.
  set (h := Z.to_nat (height self)). set (w := Z.to_nat (width self)).
  assert (Hds0 : Forall (dims h w) mazes0).
  { eapply Forall_impl; [exact Hdug|]. intros m. apply dug_dims. }
  (* the start mark *)
  unfold gbind at 1 in Hrun.
  destruct (place_mark self mazes0 0 START g0)
    as [[[[mazes1 start] spots0] g1]|] eqn:Hstart; [|done].
  assert (Hne0 : ∃ m0, mazes0 !! 0%nat = Some m0).
  { unfold place_mark, gbind, glift in Hstart.
    destruct (py_get mazes0 0) as [m|] eqn:E; [|done].
    apply py_get_inv in E as (n & Hi & Hn).
    apply py_index_nonneg in Hi as ->; [|done]. eauto. }
  destruct Hne0 as [m0 Hm0].
  assert (Hdug0 : dug self m0) by (by eapply Forall_lookup_1 in Hdug).
  destruct (dug_size self m0 Hdug0) as [Hh2 Hw2].
  assert (Hh : height self = Z.of_nat h) by lia.
  assert (Hw : width self = Z.of_nat w) by lia.
  assert (Hn1 : 1 <= num_layers self).
  { apply lookup_lt_Some in Hm0. lia. }
  destruct (place_mark_inv self h w Hh Hw mazes0 0 START g0 mazes1 start spots0 g1)
    as (n & m & Hi & Hn & Hcase); [done..|].
  apply py_index_nonneg in Hi as ->; [|done]. change (Z.to_nat 0) with 0%nat in *.
  rewrite Hm0 in Hn. injection Hn as <-.
  destruct Hcase as [(Hnone & _)|(Hsr & Hsc & Hscell & ->)].
  { pose proof (dug_has_open self m0 Hdug0). lia. }
  set (mS := set_at m0 (Z.to_nat start.1) (Z.to_nat start.2) START) in *.
  assert (HrS : relabel m0 mS) by (by constructor).
  assert (Hrel1 : relabelled mazes0 (<[0%nat := mS]> mazes0))
    by (by apply (relabelled_insert _ _ m0)).
  assert (Hds1 : Forall (dims h w) (<[0%nat := mS]> mazes0)).
  { apply Forall_insert; [done|]. eapply relabel_dims; [done|].
    by apply dug_dims. }
  (* the end mark *)
  unfold gbind at 1 in Hrun.
  match type of Hrun with
  | match ?x with _ => _ end = _ =>
      destruct x as [[[[mazes2 end_] spotsE] g2]|] eqn:Hend; [|done]
  end.
  destruct (place_mark_inv self h w Hh Hw (<[0%nat := mS]> mazes0)
              (num_layers self - 1) END g1 mazes2 end_ spotsE g2)
    as (n & mE & Hi & HnE & Hcase); [done..|exact Hend|].
  apply py_index_nonneg in Hi as ->; [|lia].
  set (last := Z.to_nat (num_layers self - 1)) in *.
  assert (Hrel2 : relabelled (<[0%nat := mS]> mazes0) mazes2
                  ∧ Forall (dims h w) mazes2
                  ∧ ∃ m2, mazes2 !! last = Some m2
                          ∧ ((0 <= end_.1 ∧ 0 <= end_.2
                              ∧ cell_at m2 (Z.to_nat end_.1) (Z.to_nat end_.2)
                                = Some END)
                             ∨ (end_ = (1, 1) ∧ count_cell END m2 = 0%nat
                                ∧ num_layers self = 1
                                ∧ (h / 2 = 1)%nat ∧ (w / 2 = 1)%nat))).
  { destruct Hcase as [(Hnone & _ & -> & ->)|(Her & Hec & Hecell & ->)].
    - split; [apply relabelled_refl|]. split; [done|]. exists mE.
      split; [done|]. right. split; [done|].
      destruct (decide (last = 0%nat)) as [E0|Hne].
      + rewrite E0, list_lookup_insert_eq in HnE
          by (by eapply lookup_lt_Some). injection HnE as <-.
        pose proof (relabel_opens m0 mS HrS) as Ho.
        pose proof (dug_open_cells self m0 Hdug0) as Hc. fold h w in Hc.
        assert ((h / 2) * (w / 2) = 1)%nat as Hone by lia.
        apply Nat.eq_mul_1 in Hone as [? ?].
        split; [|split; [lia|done]].
        destruct (relabel_counts m0 (Z.to_nat start.1) (Z.to_nat start.2)
                    START END Hscell) as [_ Hk]; [done|].
        fold mS in Hk. rewrite Hk by done.
        rewrite (dug_no_marks self m0 END Hdug0) by done. done.
      + rewrite list_lookup_insert_ne in HnE by done.
        assert (dug self mE) as HdE by (by eapply Forall_lookup_1 in Hdug).
        pose proof (dug_has_open self mE HdE). lia.
    - split; [by apply (relabelled_insert _ _ mE); [|constructor]|].
      split.
      { apply Forall_insert; [done|]. apply dims_set_at.
        by eapply Forall_lookup_1 in Hds1. }
      eexists. split.
      { apply list_lookup_insert_eq. by eapply lookup_lt_Some. }
      left. split; [done|]. split; [done|]. rewrite cell_at_set_at_eq; eauto. }
  destruct Hrel2 as (Hrel2 & Hds2 & m2 & Hm2 & Hend2).
  (* the teleporters *)
  set (me := {| width := width self; height := height self;
                num_layers := num_layers self; mazes := mazes2;
                start_coords := Some start; end_coords := Some end_;
                teleporter_coords := ∅; all_open_spots_layer0 := spots0 |})
    in Hrun.
  assert (Hls : ∀ x, x ∈ range (num_layers self) -> 0 <= x)
    by (intros x Hx%elem_of_range; lia).
  assert (Hrec0 : recorded me)
    by (intros l entry e Hl; simpl in Hl; by rewrite lookup_empty in Hl).
  destruct (place_teleporters_inv self ltac:(lia) ltac:(lia)
              (range (num_layers self)) me g2 self' g' Hls eq_refl eq_refl
              Hds2 Hrec0 Hrun)
    as ((Eh & Ew & En & Es & Ee) & Hrel3 & Hrec).
  simpl in Eh, Ew, En, Es, Ee, Hrel3.
  assert (Hrel : relabelled mazes0 (mazes self')).
  { eapply relabelled_trans; [exact Hrel1|]. by eapply relabelled_trans. }
  split; try done.
  - split; [done|]. rewrite <- (Forall2_length _ _ _ Hrel). lia.
  - by exists mazes0.
  - assert (<[0%nat := mS]> mazes0 !! 0%nat = Some mS) as HS
      by (apply list_lookup_insert_eq; by eapply lookup_lt_Some).
    destruct (relabelled_lookup_l _ _ _ _ Hrel2 HS) as (mS2 & HS2 & HrS2).
    destruct (relabelled_lookup_l _ _ _ _ Hrel3 HS2) as (mS3 & HS3 & HrS3).
    exists start.1, start.2, mS3. destruct start as [sr sc]. simpl in *.
    repeat (split; [done|]).
    eapply relabels_kept; [exact HrS3|done|].
    eapply relabels_kept; [exact HrS2|done|].
    subst mS. rewrite cell_at_set_at_eq; eauto.
  - destruct (relabelled_lookup_l _ _ _ _ Hrel3 Hm2) as (m3 & Hm3 & Hr3).
    exists end_.1, end_.2, m3. destruct end_ as [er ec]. simpl in *.
    split; [done|]. split; [done|].
    destruct Hend2 as [(? & ? & Hc)|([= -> ->] & Hc0 & Hone & Hh1 & Hw1)].
    + left. repeat (split; [done|]). by eapply relabels_kept.
    + right. split; [done|]. split; [|done].
      assert (mazes self' = mazes2) as Emz.
      { subst me. revert Hrun. rewrite Hone. change (range 1) with [0].
        simpl. unfold gbind, gret. by intros [= <- <-]. }
      rewrite Emz, Hm2 in Hm3. by injection Hm3 as <-.
Qed.

(** *** The generator as a whole *)

(** [__init__] rounds the width and the height up to odd numbers and
    starts without layers, coordinates or teleporters. *)
Lemma init_odd (width0 height0 n : Z) :
  let self := init width0 height0 n in
  Z.Odd (width self) ∧ width0 <= width self <= width0 + 1
  ∧ Z.Odd (height self) ∧ height0 <= height self <= height0 + 1
  ∧ num_layers self = n ∧ get_maze_data self = []
  ∧ get_start_coords self = None ∧ get_end_coords self = None.
Proof.
  assert (Hodd : ∀ x, let y := if x mod 2 =? 1 then x else x + 1 in
                      Z.Odd y ∧ x <= y <= x + 1).
  { intros x. pose proof (Z.mod_pos_bound x 2 ltac:(lia)) as Hb.
    pose proof (Z.div_mod x 2 ltac:(lia)) as Hx. simpl.
    destruct (Z.eqb_spec (x mod 2) 1) as [E|E].
    - split; [exists (x / 2); lia|lia].
    - split; [exists (x / 2); lia|lia]. }
  simpl. destruct (Hodd width0), (Hodd height0). done.
Qed.

Section Returned.
Variables (width0 height0 n : Z) (depth : nat) (g : rng).
Variables (self' : t) (g' : rng).
Hypothesis Hgen : generate (init width0 height0 n) depth g = Ok (self', g').
Local Abbreviation self := (init width0 height0 n).
Local Abbreviation h := (Z.to_nat (height self')).
Local Abbreviation w := (Z.to_nat (width self')).

Lemma returned_layer (l : nat) (m : grid) :
  get_maze_data self' !! l = Some m ->
  ∃ m0, dug self m0 ∧ rtc relabel m0 m
        ∧ height self' = height self ∧ width self' = width self.
Proof.
  intros Hm. destruct (generate_finished _ _ _ _ _ Hgen)
    as [Eh Ew _ _ _ (mazes0 & Hdug & Hrel) _ _ _].
  destruct (relabelled_lookup _ _ _ _ Hrel Hm) as (m0 & Hm0 & Hr).
  exists m0. split; [by eapply Forall_lookup_1 in Hdug|done].
Qed.

Lemma walled_at (l : nat) (m : grid) :
  get_maze_data self' !! l = Some m ->
  dims h w m
  ∧ ∀ r c x,
      cell_at m r c = Some x ->
      r = 0%nat ∨ S r = h ∨ c = 0%nat ∨ S c = w ∨ (Nat.Even r ∧ Nat.Even c) ->
      x = WALL.
Proof.
  intros Hm. destruct (returned_layer l m Hm) as (m0 & Hdug & Hr & Eh & Ew).
  rewrite Eh, Ew. split.
  { eapply relabels_dims; [exact Hr|]. by apply dug_dims. }
  intros r c x Hx Hpos. destruct (decide (x = WALL)) as [->|Hne]; [done|].
  assert (passable m0 r c) as Hp.
  { apply (relabels_passable m0 m r c Hr). by exists x. }
  destruct (init_odd width0 height0 n) as (Hw & _ & Hh & _).
  destruct (dug_lattice self Hh Hw m0 Hdug r c Hp) as [Hin Hodd].
  destruct Hpos as [->|[E|[->|[E|[[i ->] [j ->]]]]]]; try lia.
  destruct Hodd as [[k Hk]|[k Hk]]; lia.
Qed.

Lemma rooms_at (l : nat) (m : grid) (r c : nat) :
  get_maze_data self' !! l = Some m ->
  Nat.Odd r -> Nat.Odd c -> (r < h)%nat -> (c < w)%nat -> passable m r c.
Proof.
  intros Hm [i Hi] [j Hj] Hr Hc.
  destruct (returned_layer l m Hm) as (m0 & Hdug & Hrel & Eh & Ew).
  apply (relabels_passable m0 m r c Hrel).
  replace r with (Z.to_nat (Z.of_nat r)) by lia.
  replace c with (Z.to_nat (Z.of_nat c)) by lia.
  apply (dug_rooms self m0 Hdug). rewrite Eh, Ew in *.
  split; [exists (Z.of_nat i); lia|]. split; [exists (Z.of_nat j); lia|].
  apply is_valid_spec. lia.
Qed.

Lemma connected_at (l : nat) (m : grid) (a b : nat * nat) :
  get_maze_data self' !! l = Some m ->
  passable m a.1 a.2 -> passable m b.1 b.2 -> rtc (link m) a b.
Proof.
  intros Hm Ha Hb.
  destruct (returned_layer l m Hm) as (m0 & Hdug & Hrel & _).
  apply (relabels_path m0 m a b Hrel). apply (dug_connected self m0 Hdug).
  - by apply (relabels_passable m0 m a.1 a.2 Hrel).
  - by apply (relabels_passable m0 m b.1 b.2 Hrel).
Qed.

Lemma walls_at (l : nat) (m : grid) :
  get_maze_data self' !! l = Some m ->
  (count_cell WALL m + 2 * ((h / 2) * (w / 2)) = h * w + 1)%nat.
Proof.
  intros Hm. destruct (returned_layer l m Hm) as (m0 & Hdug & Hrel & Eh & Ew).
  rewrite (relabels_walls m0 m Hrel), Eh, Ew. by apply dug_walls.
Qed.

End Returned.

(** A small maze set for the examples: two layers of 7 x 7 cells. *)
Definition sample : t :=
  Eval vm_compute in
    match generate (init 6 7 2) 100 tape0 with
    | Ok (G, _) => G
    | Raise _ => init 6 7 2
    end.

Definition sample_rng : rng :=
  match generate (init 6 7 2) 100 tape0 with
  | Ok (_, g') => g'
  | Raise _ => tape0
  end.

Lemma sample_generated : generate (init 6 7 2) 100 tape0 = Ok (sample, sample_rng).
Proof. vm_compute. reflexivity. Defined.

Definition sample_layer (l : nat) : grid := default [] (mazes sample !! l).

(** X1: each layer that [generate] returns is a full grid whose outer
    border is wall and whose cells with two even coordinates are wall. *)
Theorem generate_border_walled (width0 height0 n : Z) (depth : nat) (g : rng)
    (self' : t) (g' : rng) (l : nat) (m : grid) :
  generate (init width0 height0 n) depth g = Ok (self', g') ->
  get_maze_data self' !! l = Some m ->
  dims (Z.to_nat (height self')) (Z.to_nat (width self')) m
  ∧ ∀ r c x,
      cell_at m r c = Some x ->
      r = 0%nat ∨ S r = Z.to_nat (height self')
      ∨ c = 0%nat ∨ S c = Z.to_nat (width self')
      ∨ (Nat.Even r ∧ Nat.Even c) ->
      x = WALL.
Proof. intros Hgen Hm. by eapply walled_at. Qed.

Lemma generate_border_walled_witness :
  dims 7 7 (sample_layer 1)
  ∧ ∀ r c x,
      cell_at (sample_layer 1) r c = Some x ->
      r = 0%nat ∨ S r = 7%nat ∨ c = 0%nat ∨ S c = 7%nat
      ∨ (Nat.Even r ∧ Nat.Even c) ->
      x = WALL.
Proof.
  apply (generate_border_walled 6 7 2 100 tape0 sample sample_rng 1
           (sample_layer 1)); [vm_compute; reflexivity|reflexivity].
Defined.

(** X2: in each layer that [generate] returns, every cell with two odd
    coordinates is passable. *)
Theorem generate_rooms_passable (width0 height0 n : Z) (depth : nat) (g : rng)
    (self' : t) (g' : rng) (l : nat) (m : grid) (r c : nat) :
  generate (init width0 height0 n) depth g = Ok (self', g') ->
  get_maze_data self' !! l = Some m ->
  Nat.Odd r -> Nat.Odd c ->
  (r < Z.to_nat (height self'))%nat -> (c < Z.to_nat (width self'))%nat ->
  passable m r c.
Proof. intros Hgen Hm. by eapply rooms_at. Qed.

Lemma generate_rooms_passable_witness : passable (sample_layer 0) 3 5.
Proof.
  apply (generate_rooms_passable 6 7 2 100 tape0 sample sample_rng 0
           (sample_layer 0) 3 5);
    [vm_compute; reflexivity|reflexivity|by exists 1%nat|by exists 2%nat
    |vm_compute; lia|vm_compute; lia].
Defined.

(** X3: in each layer that [generate] returns, any two passable cells
    are joined by a path of passable cells that share a side. *)
Theorem generate_connected (width0 height0 n : Z) (depth : nat) (g : rng)
    (self' : t) (g' : rng) (l : nat) (m : grid) (a b : nat * nat) :
  generate (init width0 height0 n) depth g = Ok (self', g') ->
  get_maze_data self' !! l = Some m ->
  passable m a.1 a.2 -> passable m b.1 b.2 -> rtc (link m) a b.
Proof. intros Hgen Hm. by eapply connected_at. Qed.

Lemma generate_connected_witness :
  rtc (link (sample_layer 1)) (1%nat, 1%nat) (5%nat, 5%nat).
Proof.
  apply (generate_connected 6 7 2 100 tape0 sample sample_rng 1
           (sample_layer 1) (1%nat, 1%nat) (5%nat, 5%nat));
    [vm_compute; reflexivity|reflexivity
    |exists END; by split|exists OPEN; by split].
Defined.

(** X4: a layer that [generate] returns has as many passable cells as a
    spanning tree of its rooms needs: with [k] rooms, [2 * k - 1] cells
    are passable and all others are wall. *)
Theorem generate_wall_count (width0 height0 n : Z) (depth : nat) (g : rng)
    (self' : t) (g' : rng) (l : nat) (m : grid) :
  generate (init width0 height0 n) depth g = Ok (self', g') ->
  get_maze_data self' !! l = Some m ->
  let h := Z.to_nat (height self') in
  let w := Z.to_nat (width self') in
  (count_cell WALL m + 2 * ((h / 2) * (w / 2)) = h * w + 1)%nat.
Proof. intros Hgen Hm. by eapply walls_at. Qed.

Lemma generate_wall_count_witness :
  (count_cell WALL (sample_layer 0) + 2 * ((7 / 2) * (7 / 2)) = 7 * 7 + 1)%nat.
Proof.
  apply (generate_wall_count 6 7 2 100 tape0 sample sample_rng 0
           (sample_layer 0)); [vm_compute; reflexivity|reflexivity].
Defined.

(** X5: when [generate] returns, [get_start_coords] is a cell of layer 0
    that holds the start mark, and [get_end_coords] is a cell of the last
    layer that holds the end mark, except for a single layer of 3 x 3
    cells, where the end falls back to (1, 1) and no cell holds the end
    mark. *)
Theorem generate_coords_recorded (width0 height0 n : Z) (depth : nat) (g : rng)
    (self' : t) (g' : rng) :
  generate (init width0 height0 n) depth g = Ok (self', g') ->
  (∃ sr sc m,
     get_start_coords self' = Some (sr, sc) ∧ 0 <= sr ∧ 0 <= sc
     ∧ get_maze_data self' !! 0%nat = Some m
     ∧ cell_at m (Z.to_nat sr) (Z.to_nat sc) = Some START)
  ∧ (∃ er ec m,
       get_end_coords self' = Some (er, ec)
       ∧ get_maze_data self' !! Z.to_nat (n - 1) = Some m
       ∧ ((0 <= er ∧ 0 <= ec
           ∧ cell_at m (Z.to_nat er) (Z.to_nat ec) = Some END)
          ∨ ((er, ec) = (1, 1) ∧ count_cell END m = 0%nat
             ∧ n = 1 ∧ height self' = 3 ∧ width self' = 3))).
Proof.
  intros Hgen. destruct (generate_finished _ _ _ _ _ Hgen)
    as [Eh Ew _ _ [Hh2 Hw2] _ Hstart (er & ec & m & He & Hm & Hcase) _].
  split; [exact Hstart|]. exists er, ec, m. split; [done|]. split; [done|].
  destruct Hcase as [?|(? & ? & ? & Hh1 & Hw1)]; [by left|right].
  repeat (split; [done|]).
  destruct (init_odd width0 height0 n) as ([i Hi] & _ & [j Hj] & _).
  rewrite Eh, Ew.
  assert (∀ x : nat, (x / 2 = 1)%nat -> (x < 4)%nat) as Hlt.
  { intros x Hx. pose proof (Nat.div_mod_eq x 2) as E.
    pose proof (Nat.mod_upper_bound x 2 ltac:(done)). lia. }
  apply Hlt in Hh1, Hw1. lia.
Qed.

Lemma generate_coords_recorded_witness :
  (∃ sr sc m,
     get_start_coords sample = Some (sr, sc) ∧ 0 <= sr ∧ 0 <= sc
     ∧ get_maze_data sample !! 0%nat = Some m
     ∧ cell_at m (Z.to_nat sr) (Z.to_nat sc) = Some START)
  ∧ (∃ er ec m,
       get_end_coords sample = Some (er, ec)
       ∧ get_maze_data sample !! Z.to_nat (2 - 1) = Some m
       ∧ ((0 <= er ∧ 0 <= ec
           ∧ cell_at m (Z.to_nat er) (Z.to_nat ec) = Some END)
          ∨ ((er, ec) = (1, 1) ∧ count_cell END m = 0%nat
             ∧ 2 = 1 ∧ height sample = 3 ∧ width sample = 3))).
Proof.
  apply (generate_coords_recorded 6 7 2 100 tape0 sample sample_rng).
  vm_compute. reflexivity.
Defined.

(** X6: when [generate] returns, every entry of [teleporter_coords]
    names a cell of its layer that holds the entry's teleporter mark. *)
Theorem generate_teleporters_recorded (width0 height0 n : Z) (depth : nat)
    (g : rng) (self' : t) (g' : rng) (l : Z) (entry : list teleporter)
    (e : teleporter) :
  generate (init width0 height0 n) depth g = Ok (self', g') ->
  teleporter_coords self' !! l = Some entry -> e ∈ entry ->
  0 <= l ∧ 0 <= tp_r e ∧ 0 <= tp_c e
  ∧ (tp_type e = UP ∨ tp_type e = DOWN)
  ∧ ∃ m, get_maze_data self' !! Z.to_nat l = Some m
         ∧ cell_at m (Z.to_nat (tp_r e)) (Z.to_nat (tp_c e))
           = Some (tp_type e).
Proof.
  intros Hgen. destruct (generate_finished _ _ _ _ _ Hgen)
    as [_ _ _ _ _ _ _ _ Hrec]. apply Hrec.
Qed.

Lemma generate_teleporters_recorded_witness :
  let e := {| tp_r := 1; tp_c := 3; tp_type := UP |} in
  0 <= 0 ∧ 0 <= tp_r e ∧ 0 <= tp_c e
  ∧ (tp_type e = UP ∨ tp_type e = DOWN)
  ∧ ∃ m, get_maze_data sample !! Z.to_nat 0 = Some m
         ∧ cell_at m (Z.to_nat (tp_r e)) (Z.to_nat (tp_c e))
           = Some (tp_type e).
Proof.
  apply (generate_teleporters_recorded 6 7 2 100 tape0 sample sample_rng 0
           [{| tp_r := 1; tp_c := 3; tp_type := UP |}]);
    [vm_compute; reflexivity|reflexivity|by left].
Defined.

(** X7: without layers [generate] raises [IndexError], when it looks for
    layer 0 to place the start. *)
Theorem generate_no_layers (width0 height0 n : Z) (depth : nat) (g : rng) :
  n <= 0 -> generate (init width0 height0 n) depth g = Raise IndexError.
Proof.
  intros Hn. unfold generate. unfold gbind at 1.
  assert (range (num_layers (init width0 height0 n)) = []) as ->.
  { unfold range. simpl. by replace (Z.to_nat n) with 0%nat by lia. }
  reflexivity.
Qed.

Lemma generate_no_layers_witness :
  generate (init 17 17 0) 1000 tape0 = Raise IndexError.
Proof. apply (generate_no_layers 17 17 0 1000 tape0). lia. Defined.

(** X8: with at least one layer and a height or a width below 2,
    [generate] raises [ValueError]: there is no odd coordinate to start
    carving from. *)
Theorem generate_too_small (width0 height0 n : Z) (depth : nat) (g : rng) :
  1 <= n -> height0 <= 1 ∨ width0 <= 1 ->
  generate (init width0 height0 n) depth g = Raise ValueError.
Proof.
  intros Hn Hsmall.
  destruct (init_odd width0 height0 n) as ([i Hi] & Hwb & [j Hj] & Hhb & _).
  set (self := init width0 height0 n) in *.
  assert (∀ stop g0, stop <= 1 -> randrange_step2 1 stop g0 = Raise ValueError)
    as Hempty.
  { intros stop g0 Hs. unfold randrange_step2.
    replace (stop - 1 + 1) with stop by lia.
    destruct (Z.ltb_spec 0 (stop / 2)) as [Hpos|]; [|done].
    pose proof (Z.div_lt_upper_bound stop 2 1 ltac:(lia) ltac:(lia)). lia. }
  unfold generate. unfold gbind at 1.
  assert (∃ idx, range (num_layers self) = 0 :: idx) as [idx ->].
  { unfold range. change (num_layers self) with n.
    destruct (Z.to_nat n) as [|k] eqn:E; [lia|]. simpl. eauto. }
  simpl carve_layers. unfold gbind at 1.
  destruct (Z.le_gt_cases (height self) 1) as [Hh|Hh].
  { by rewrite Hempty. }
  match goal with
  | |- context [randrange_step2 1 ?hh g] =>
      destruct (randrange_step2_spec hh g) as (r & g1 & -> & _);
        [change hh with (height self); lia|]
  end.
  unfold gbind at 1. rewrite Hempty; [done|].
  match goal with |- ?ww <= 1 => change ww with (width self) end. lia.
Qed.

Lemma generate_too_small_witness :
  generate (init 1 17 2) 1000 tape0 = Raise ValueError.
Proof. apply (generate_too_small 1 17 2 1000 tape0); lia. Defined.

End MazeFacts.

(** ** The server *)

Module ServerFacts.
Import MazeGenerator MazeFacts.

(** *** Coordinates *)

(** The round trip through world coordinates of one grid cell, in
    binary64 arithmetic as the server computes it. *)
Definition roundtrip (r c : Z) : bool :=
  match grid_to_world_coords r c 0 with
  | Ok v =>
      match world_to_grid_coords (vx v) (vz v) with
      | Ok (r', c') => (r' =? r) && (c' =? c)
      | Raise _ => false
      end
  | Raise _ => false
  end.

Lemma roundtrip_grid :
  forallb (fun r => forallb (roundtrip r) (range MAZE_WIDTH)) (range MAZE_HEIGHT)
  = true.
Proof. vm_compute. reflexivity. Qed.

(** The layer only shows in the [y] component. *)
Lemma grid_to_world_coords_layer (r c l : Z) :
  grid_to_world_coords r c l
  = match grid_to_world_coords r c 0 with
    | Ok v => Ok (set_vy (Int (l * WALL_HEIGHT)) v)
    | Raise e => Raise e
    end.
Proof.
  unfold grid_to_world_coords, rbind.
  destruct (int_to_float (c * BLOCK_SIZE)); [|done].
  by destruct (int_to_float (r * BLOCK_SIZE)).
Qed.

Lemma roundtrip_cell (r c : Z) :
  0 <= r < MAZE_HEIGHT -> 0 <= c < MAZE_WIDTH -> roundtrip r c = true.
Proof.
  intros Hr Hc. pose proof roundtrip_grid as H.
  rewrite forallb_forall in H.
  specialize (H r). rewrite forallb_forall in H.
  apply H; apply list_elem_of_In, elem_of_range; done.
Qed.

(** The two mappings on the cells of the grid. *)
Lemma grid_round_trip (r c l : Z) :
  0 <= r < MAZE_HEIGHT -> 0 <= c < MAZE_WIDTH ->
  ∃ v, grid_to_world_coords r c l = Ok v
       ∧ world_to_grid_coords (vx v) (vz v) = Ok (r, c).
Proof.
  intros Hr Hc. pose proof (roundtrip_cell r c Hr Hc) as H.
  unfold roundtrip in H. rewrite grid_to_world_coords_layer.
  destruct (grid_to_world_coords r c 0) as [v|]; [|done].
  exists (set_vy (Int (l * WALL_HEIGHT)) v). split; [done|]. simpl.
  destruct (world_to_grid_coords (vx v) (vz v)) as [[r' c']|]; [|done].
  apply andb_true_iff in H as [->%Z.eqb_eq ->%Z.eqb_eq]. done.
Qed.

(** C3: for every cell (r, c) of the grid and every layer,
    [world_to_grid_coords] applied to the x and z components of
    [grid_to_world_coords r c layer] returns exactly (r, c). *)
Theorem world_to_grid_of_grid_to_world (r c l : Z) :
  0 <= r < MAZE_HEIGHT -> 0 <= c < MAZE_WIDTH ->
  ∃ v, grid_to_world_coords r c l = Ok v
       ∧ world_to_grid_coords (vx v) (vz v) = Ok (r, c).
Proof. apply grid_round_trip. Qed.

Lemma world_to_grid_of_grid_to_world_witness :
  (0 <= 3 < MAZE_HEIGHT) ∧ (0 <= 16 < MAZE_WIDTH)
  ∧ ∃ v, grid_to_world_coords 3 16 1 = Ok v
         ∧ world_to_grid_coords (vx v) (vz v) = Ok (3, 16).
Proof.
  split; [done|]. split; [done|].
  apply (world_to_grid_of_grid_to_world 3 16 1); done.
Defined.

(** *** The generated maze of the server *)

(** [G] is what [MazeGenerator(MAZE_WIDTH, MAZE_HEIGHT, NUM_MAZE_LAYERS)]
    holds after [generate()] has returned, whatever the random draws and
    the recursion limit were. *)
Definition generated (G : MazeGenerator.t) : Prop :=
  ∃ depth g g',
    generate (init MAZE_WIDTH MAZE_HEIGHT NUM_MAZE_LAYERS) depth g = Ok (G, g').

Lemma generated_layers (G : MazeGenerator.t) :
  generated G ->
  length (mazes G) = 2%nat
  ∧ is_Some (start_coords G) ∧ is_Some (end_coords G)
  ∧ ∀ l m, mazes G !! l = Some m ->
           placed 17 17 2 (teleporter_coords G) l m.
Proof.
  intros (depth & g & g' & Hgen).
  destruct (generate_returned 17 17 2
              (init MAZE_WIDTH MAZE_HEIGHT NUM_MAZE_LAYERS) depth g G g')
    as (_ & Hlen & Hs & He & Hall); try done; lia.
Qed.

(** *** Running handlers *)

Lemma run_bind {A B} (m : M A) (k : A -> M B) st a st1 tr1 r st2 tr2 :
  m st = (Ok a, st1, tr1) -> k a st1 = (r, st2, tr2) ->
  mbind m k st = (r, st2, tr1 ++ tr2).
Proof. intros H1 H2. unfold mbind. by rewrite H1, H2. Qed.

Lemma run_bind_raise {A B} (m : M A) (k : A -> M B) st e st1 tr1 :
  m st = (Raise e, st1, tr1) -> mbind m k st = (Raise e, st1, tr1).
Proof. intros H1. unfold mbind. by rewrite H1. Qed.

Lemma players_get_set_eq ps ws p : players_get (players_set ps ws p) ws = Some p.
Proof.
  induction ps as [|[ws' p'] ps IH]; simpl.
  - by rewrite Nat.eqb_refl.
  - destruct (Nat.eqb_spec ws' ws) as [->|Hne]; simpl.
    + by rewrite Nat.eqb_refl.
    + by destruct (Nat.eqb_spec ws' ws).
Qed.

Lemma players_get_set_ne ps ws ws' p :
  ws ≠ ws' -> players_get (players_set ps ws p) ws' = players_get ps ws'.
Proof.
  intros Hne. induction ps as [|[ws0 p0] ps IH]; simpl.
  - by destruct (Nat.eqb_spec ws ws').
  - destruct (Nat.eqb_spec ws0 ws) as [->|Hne0]; simpl.
    + destruct (Nat.eqb_spec ws ws'); done.
    + by rewrite IH.
Qed.

Lemma players_set_set ps ws p1 p2 :
  players_set (players_set ps ws p1) ws p2 = players_set ps ws p2.
Proof.
  induction ps as [|[ws' p'] ps IH]; simpl.
  - by rewrite Nat.eqb_refl.
  - destruct (Nat.eqb_spec ws' ws) as [->|Hne]; simpl.
    + by rewrite Nat.eqb_refl.
    + destruct (Nat.eqb_spec ws' ws); [done|]. by rewrite IH.
Qed.

Lemma run_the_player ws st p :
  players_get (PLAYERS st) ws = Some p -> the_player ws st = (Ok p, st, []).
Proof. intros H. unfold the_player. by rewrite H. Qed.

Lemma run_assign ws f st p :
  players_get (PLAYERS st) ws = Some p ->
  assign ws f st
  = (Ok tt, with_players st (players_set (PLAYERS st) ws (f p)), []).
Proof. intros H. unfold assign. by rewrite H. Qed.

Lemma run_deref ws st p :
  players_get (PLAYERS st) ws = Some p -> deref ws st = (Ok p, st, []).
Proof. intros H. unfold deref, object. by rewrite H. Qed.

(** Layer 0 of the maze data is a grid of the server's size with at
    least one open cell. *)
Definition layer0_has_open (G : MazeGenerator.t) : Prop :=
  ∃ m0, mazes G !! 0%nat = Some m0
        ∧ dims (Z.to_nat MAZE_HEIGHT) (Z.to_nat MAZE_WIDTH) m0
        ∧ (1 <= count_cell OPEN m0)%nat.

Lemma layer0_open (G : MazeGenerator.t) : generated G -> layer0_has_open G.
Proof.
  intros HG. destruct (generated_layers G HG) as (Hlen & _ & _ & Hall).
  destruct (lookup_lt_is_Some_2 (mazes G) 0) as [m0 Hm0]; [lia|].
  exists m0. split; [done|].
  destruct (Hall _ _ Hm0) as (? & _ & _ & _ & _ & ? & _). done.
Qed.

Section OpenLayer.
Variable G : MazeGenerator.t.
Hypothesis HG : layer0_has_open G.

(** [get_random_open_position_on_layer(0)] returns the world position of
    an open cell of layer 0; only the random source changes. *)
Lemma random_open_position (g : rng) :
  ∃ sr sc v g' m0,
    (∀ st, RANDOM st = g ->
       get_random_open_position_on_layer G 0 st
       = (Ok v, with_random st g', []))
    ∧ grid_to_world_coords sr sc 0 = Ok v
    ∧ world_to_grid_coords (vx v) (vz v) = Ok (sr, sc)
    ∧ 0 <= sr < MAZE_HEIGHT ∧ 0 <= sc < MAZE_WIDTH
    ∧ mazes G !! 0%nat = Some m0
    ∧ cell_at m0 (Z.to_nat sr) (Z.to_nat sc) = Some OPEN.
Proof.
  destruct HG as (m0 & Hm0 & Hd & Hop).
  change (dims 17 17 m0) in Hd.
  destruct (open_spots_spec 17 17 m0 Hd) as (spots & Hs & Hspec).
  pose proof (open_spots_nonempty 17 17 m0 Hd spots Hs) as Hne.
  destruct (choice_spec spots g) as ([sr sc] & g' & Hch & Hin);
    [apply Hne; lia|].
  apply Hspec in Hin as (Hr & Hc & Hopen). simpl in Hr, Hc.
  destruct (grid_round_trip sr sc 0) as (v & Hv & Hback);
    [done..|].
  exists sr, sc, v, g', m0. repeat (split; [|done]).
  intros st <-.
  unfold get_random_open_position_on_layer. simpl.
  eapply (run_bind _ _ _ _ _ []).
  { unfold lift, GENERATED_MAZE_DATA.
    by rewrite (py_get_valid (mazes G) 0 m0). }
  eapply (run_bind _ _ _ _ _ []).
  { unfold lift. change MAZE_HEIGHT with (Z.of_nat 17).
    change MAZE_WIDTH with (Z.of_nat 17). by rewrite Hs. }
  destruct spots as [|s spots]; [by destruct Hne; [lia|]|].
  eapply (run_bind _ _ _ _ _ []).
  { unfold random. by rewrite Hch. }
  unfold lift. by rewrite Hv.
Qed.

End OpenLayer.

(** *** The dictionary of players *)

Lemma players_get_del_eq ps ws : players_get (players_del ps ws) ws = None.
Proof.
  induction ps as [|[ws' p'] ps IH]; [done|]. simpl.
  destruct (Nat.eqb_spec ws' ws) as [->|Hne]; [done|]. simpl.
  by destruct (Nat.eqb_spec ws' ws).
Qed.

Lemma players_get_del_ne ps ws ws' :
  ws' ≠ ws -> players_get (players_del ps ws) ws' = players_get ps ws'.
Proof.
  intros Hne. induction ps as [|[ws0 p0] ps IH]; simpl; [done|].
  destruct (Nat.eqb_spec ws0 ws) as [->|Hne0]; simpl.
  - by destruct (Nat.eqb_spec ws ws').
  - by rewrite IH.
Qed.


Lemma players_del_set_eq ps ws p :
  players_del (players_set ps ws p) ws = players_del ps ws.
Proof.
  induction ps as [|[ws' p'] ps IH]; simpl.
  { by rewrite Nat.eqb_refl. }
  destruct (Nat.eqb_spec ws' ws) as [->|Hne]; simpl.
  - by rewrite Nat.eqb_refl.
  - destruct (Nat.eqb_spec ws' ws); [done|]. by rewrite IH.
Qed.


Lemma players_del_set_ne ps a b p :
  a ≠ b -> is_Some (players_get ps a) ->
  players_del (players_set ps a p) b = players_set (players_del ps b) a p.
Proof.
  intros Hab. induction ps as [|[k q] ps IH]; simpl.
  { by intros [? ?]. }
  destruct (Nat.eqb_spec k a) as [->|Hka]; simpl.
  - intros _. destruct (Nat.eqb_spec a b); [done|]. simpl.
    by rewrite Nat.eqb_refl.
  - intros H. destruct (Nat.eqb_spec k b) as [->|Hkb]; simpl.
    + by apply IH.
    + destruct (Nat.eqb_spec k a); [done|]. by rewrite IH.
Qed.

Lemma players_del_comm ps a b :
  players_del (players_del ps a) b = players_del (players_del ps b) a.
Proof.
  induction ps as [|[k q] ps IH]; [done|]. simpl.
  destruct (Nat.eqb_spec k a) as [Hka|Hka], (Nat.eqb_spec k b) as [Hkb|Hkb];
    simpl; rewrite ?IH; try done.
  - destruct (Nat.eqb_spec k a); done.
  - destruct (Nat.eqb_spec k b); done.
  - destruct (Nat.eqb_spec k a), (Nat.eqb_spec k b); done.
Qed.

Lemma players_del_sublist ps ws : players_del ps ws `sublist_of` ps.
Proof.
  induction ps as [|[ws' p'] ps IH]; [done|]. simpl.
  destruct (Nat.eqb ws' ws); [by apply sublist_cons|by apply sublist_skip].
Qed.

Lemma players_del_length ps ws p :
  players_get ps ws = Some p -> (length (players_del ps ws) < length ps)%nat.
Proof.
  induction ps as [|[ws' p'] ps IH]; [done|]. simpl.
  destruct (Nat.eqb_spec ws' ws) as [->|Hne].
  - intros _. pose proof (sublist_length _ _ (players_del_sublist ps ws)). lia.
  - intros H. simpl. specialize (IH H). lia.
Qed.

Lemma players_get_elem ps ws p : players_get ps ws = Some p -> (ws, p) ∈ ps.
Proof.
  induction ps as [|[ws' p'] ps IH]; [done|]. simpl.
  destruct (Nat.eqb_spec ws' ws) as [->|Hne].
  - intros [= ->]. left.
  - intros H. right. by apply IH.
Qed.

Lemma players_get_None ps ws : players_get ps ws = None <-> ws ∉ ps.*1.
Proof.
  induction ps as [|[ws' p'] ps IH]; csimpl.
  { split; [intros _ []%elem_of_nil|done]. }
  rewrite not_elem_of_cons.
  destruct (Nat.eqb_spec ws' ws) as [->|Hne].
  - split; [done|]. by intros [? _].
  - rewrite IH. split; [by split|by intros [_ ?]].
Qed.

Lemma elem_of_players_set ps ws p x :
  x ∈ players_set ps ws p -> x ∈ ps ∨ x = (ws, p).
Proof.
  induction ps as [|[ws' p'] ps IH]; simpl.
  { intros ->%list_elem_of_singleton. by right. }
  destruct (Nat.eqb_spec ws' ws) as [->|Hne].
  - intros [->|Hx]%elem_of_cons; [by right|]. left. by right.
  - intros [->|Hx]%elem_of_cons; [left; left|].
    destruct (IH Hx) as [?|?]; [left; by right|by right].
Qed.

(** Several deletions. *)
Definition players_del_all (ps : list (websocket * player))
    (gone : list websocket) : list (websocket * player) :=
  foldl players_del ps gone.

Lemma players_del_all_app ps gone1 gone2 :
  players_del_all ps (gone1 ++ gone2)
  = players_del_all (players_del_all ps gone1) gone2.
Proof. apply foldl_app. Qed.

Lemma players_del_all_del ps gone ws :
  players_del_all (players_del ps ws) gone
  = players_del (players_del_all ps gone) ws.
Proof.
  revert ps. induction gone as [|w gone IH]; intros ps; [done|]. simpl.
  by rewrite players_del_comm, IH.
Qed.

Lemma players_get_del_all ps gone ws :
  players_get (players_del_all ps gone) ws
  = if decide (ws ∈ gone) then None else players_get ps ws.
Proof.
  unfold players_del_all.
  revert ps. induction gone as [|w gone IH]; intros ps; cbn [foldl].
  { destruct (decide (ws ∈ [])) as [H|]; [by apply elem_of_nil in H|done]. }
  rewrite IH. destruct (decide (ws ∈ gone)) as [Hin|Hnin].
  - destruct (decide (ws ∈ w :: gone)) as [|Hn]; [done|].
    destruct Hn. by right.
  - destruct (decide (ws = w)) as [->|Hne].
    + destruct (decide (w ∈ w :: gone)) as [|Hn]; [|destruct Hn; left].
      apply players_get_del_eq.
    + destruct (decide (ws ∈ w :: gone)) as [[?|?]%elem_of_cons|]; [done..|].
      by apply players_get_del_ne.
Qed.

Lemma players_del_all_sublist ps gone : players_del_all ps gone `sublist_of` ps.
Proof.
  revert ps. induction gone as [|w gone IH]; intros ps; [done|]. simpl.
  etrans; [apply IH|apply players_del_sublist].
Qed.

Lemma players_del_all_set ps gone ws p :
  is_Some (players_get (players_del_all ps gone) ws) ->
  players_del_all (players_set ps ws p) gone
  = players_set (players_del_all ps gone) ws p.
Proof.
  revert ps. induction gone as [|w gone IH]; intros ps; [done|]. simpl.
  intros H. assert (ws ≠ w) as Hne.
  { intros ->. rewrite players_del_all_del, players_get_del_eq in H.
    by destruct H. }
  assert (is_Some (players_get ps ws)) as Hps.
  { rewrite players_get_del_all in H. destruct (decide _); [by destruct H|].
    by rewrite players_get_del_ne in H. }
  rewrite players_del_set_ne by done. by apply IH.
Qed.

Lemma players_del_all_set_gone ps gone ws p :
  is_Some (players_get ps ws) ->
  players_get (players_del_all ps gone) ws = None ->
  players_del_all (players_set ps ws p) gone = players_del_all ps gone.
Proof.
  revert ps. induction gone as [|w gone IH]; intros ps; simpl.
  { intros [? ->]. done. }
  intros Hps H. destruct (decide (ws = w)) as [->|Hne].
  - by rewrite players_del_set_eq.
  - rewrite players_del_set_ne by done. apply IH; [|done].
    by rewrite players_get_del_ne.
Qed.



(** *** Dictionaries and the variables that refer to them *)

Lemma object_registered st ws p :
  players_get (PLAYERS st) ws = Some p -> object st ws = Some p.
Proof. intros H. unfold object. by rewrite H. Qed.

Lemma object_detach st ws p ws' :
  players_get (PLAYERS st) ws = Some p ->
  object (detach st ws p) ws' = object st ws'.
Proof.
  intros Hp. unfold object, detach. simpl.
  destruct (decide (ws' = ws)) as [->|Hne].
  - by rewrite players_get_del_eq, players_get_set_eq, Hp.
  - rewrite players_get_del_ne by done.
    by rewrite players_get_set_ne by done.
Qed.

(** *** The transport *)

(** Every send to come is delivered. *)
Definition reliable (n : net) : Prop :=
  ∀ k, (sent n <= k)%nat -> outcomes n k = Delivered.

(** The events that [broadcast] adds when a send fails: the error it
    prints and the [player_disconnected] of the connections it
    unregisters. *)
Definition notice (e : event) : bool :=
  match e with
  | Broadcast (player_disconnected _) _ => true
  | Print (BroadcastError _) => true
  | _ => false
  end.

(** What sends and the deletions that follow failed sends do to the
    state: some connections are gone from the registry, their
    dictionaries detached; nothing else but the transport changes.
    When every send is delivered nothing but the transport changes. *)
Definition drops (st st' : server) : Prop :=
  (∃ gone, PLAYERS st' = players_del_all (PLAYERS st) gone)
  ∧ (∀ ws, object st' ws = object st ws)
  ∧ BULLETS st' = BULLETS st
  ∧ NEXT_PLAYER_ID st' = NEXT_PLAYER_ID st
  ∧ NEXT_BULLET_ID st' = NEXT_BULLET_ID st
  ∧ RANDOM st' = RANDOM st
  ∧ (reliable (NETWORK st) ->
     PLAYERS st' = PLAYERS st ∧ DETACHED st' = DETACHED st
     ∧ reliable (NETWORK st')).

Lemma drops_refl st : drops st st.
Proof.
  split; [by exists []|]. do 5 (split; [done|]). by intros ?.
Qed.

Lemma drops_trans st1 st2 st3 : drops st1 st2 -> drops st2 st3 -> drops st1 st3.
Proof.
  intros ([g1 P1] & O1 & B1 & N1 & M1 & R1 & E1)
         ([g2 P2] & O2 & B2 & N2 & M2 & R2 & E2).
  split.
  { exists (g1 ++ g2). by rewrite players_del_all_app, <- P1. }
  split; [intros ws; by rewrite O2|].
  do 4 (split; [congruence|]).
  intros H. destruct (E1 H) as (? & ? & H2). destruct (E2 H2) as (? & ? & ?).
  split; [congruence|]. split; [congruence|done].
Qed.

Lemma drops_length st st' :
  drops st st' -> (length (PLAYERS st') <= length (PLAYERS st))%nat.
Proof.
  intros ([gone ->] & _). apply sublist_length, players_del_all_sublist.
Qed.

Lemma drops_network st n :
  (reliable (NETWORK st) -> reliable n) -> drops st (with_network st n).
Proof.
  intros H. split; [by exists []|]. do 5 (split; [done|]).
  intros Hr. by repeat split; [..|apply H].
Qed.

(** A registered player after drops: still registered and the same, or
    gone. *)
Lemma drops_get st st' ws p :
  drops st st' -> players_get (PLAYERS st') ws = Some p ->
  players_get (PLAYERS st) ws = Some p.
Proof.
  intros ([gone ->] & _). rewrite players_get_del_all.
  by destruct (decide _).
Qed.

Lemma drops_object st st' ws p :
  drops st st' -> players_get (PLAYERS st) ws = Some p ->
  object st' ws = Some p.
Proof. intros (_ & O & _) Hp. rewrite O. by apply object_registered. Qed.

(** *** [broadcast] *)

Lemma reliable_next n :
  reliable n ->
  outcomes n (sent n) = Delivered
  ∧ reliable {| outcomes := outcomes n; sent := S (sent n) |}.
Proof.
  intros H. split; [by apply H|]. intros k Hk. apply H. simpl in Hk. lia.
Qed.

(** The first loop: only the transport changes; the connections
    reported are registered ones; with a reliable transport none is. *)
Lemma send_each_spec receivers st :
  ∃ disconnected n tr,
    send_each receivers st = (Ok disconnected, with_network st n, tr)
    ∧ Forall (fun e => notice e = true) tr
    ∧ (reliable (NETWORK st) -> disconnected = [] ∧ tr = [] ∧ reliable n).
Proof.
  revert st. induction receivers as [|[ws p] rest IH]; intros st.
  { exists [], (NETWORK st), []. split; [by destruct st|].
    split; [done|]. by intros ?. }
  cbn [send_each]. unfold mbind at 1. unfold send_outcome at 1.
  set (st1 := with_network st _).
  destruct (IH st1) as (disc & n & tr & Hrun & Hno & Hrel).
  assert (∀ m : net, with_network st1 m = with_network st m) as Hst1 by done.
  rewrite Hst1 in Hrun.
  destruct (outcomes (NETWORK st) (sent (NETWORK st))) eqn:Ho.
  - rewrite Hrun. exists disc, n, tr. split; [done|]. split; [done|].
    intros Hr. apply Hrel. by apply reliable_next.
  - unfold mbind, mret. rewrite Hrun. exists (ws :: disc), n, tr.
    split; [by rewrite app_nil_r|]. split; [done|].
    intros Hr. apply reliable_next in Hr as [Hr _]. congruence.
  - unfold mbind, mret, print, emit. rewrite Hrun.
    exists (ws :: disc), n, (Print (BroadcastError (id p)) :: tr).
    split; [by rewrite app_nil_r|]. split; [by constructor|].
    intros Hr. apply reliable_next in Hr as [Hr _]. congruence.
Qed.

(** What a broadcast does, for a broadcast that is given enough depth. *)
Definition broadcast_ok (m : message) (st : server)
    (out : result unit * server * list event) : Prop :=
  ∃ st' noise,
    out = (Ok tt, st', Broadcast m (PLAYERS st) :: noise)
    ∧ drops st st'
    ∧ Forall (fun e => notice e = true) noise
    ∧ (reliable (NETWORK st) -> noise = []).

(** The second loop, for a [broadcast] that behaves on every smaller
    registry. *)
Lemma unregister_loop (bc1 bc2 : message -> M unit) (bound : nat) :
  (∀ m s, (length (PLAYERS s) < bound)%nat ->
          bc1 m s = bc2 m s ∧ broadcast_ok m s (bc1 m s)) ->
  ∀ disconnected s,
    (length (PLAYERS s) <= bound)%nat ->
    for_each disconnected (unregister_with bc1) s
    = for_each disconnected (unregister_with bc2) s
    ∧ ∃ s' tr,
        for_each disconnected (unregister_with bc1) s = (Ok tt, s', tr)
        ∧ (∃ gone, PLAYERS s' = players_del_all (PLAYERS s) gone)
        ∧ (∀ ws, object s' ws = object s ws)
        ∧ BULLETS s' = BULLETS s
        ∧ NEXT_PLAYER_ID s' = NEXT_PLAYER_ID s
        ∧ NEXT_BULLET_ID s' = NEXT_BULLET_ID s
        ∧ RANDOM s' = RANDOM s
        ∧ Forall (fun e => notice e = true) tr
        ∧ (disconnected = [] -> s' = s ∧ tr = []).
Proof.
  intros Hbc. induction disconnected as [|ws rest IH]; intros s Hlen.
  { split; [done|]. exists s, []. split; [done|]. split; [by exists []|].
    by repeat split. }
  cbn [for_each].
  assert (unregister_with bc1 ws s = unregister_with bc2 ws s
          ∧ ∃ s1 tr1,
              unregister_with bc1 ws s = (Ok tt, s1, tr1)
              ∧ (∃ gone, PLAYERS s1 = players_del_all (PLAYERS s) gone)
              ∧ (∀ ws, object s1 ws = object s ws)
              ∧ BULLETS s1 = BULLETS s
              ∧ NEXT_PLAYER_ID s1 = NEXT_PLAYER_ID s
              ∧ NEXT_BULLET_ID s1 = NEXT_BULLET_ID s
              ∧ RANDOM s1 = RANDOM s
              ∧ Forall (fun e => notice e = true) tr1)
    as (Heq & s1 & tr1 & Hrun1 & [g1 P1] & O1 & B1 & N1 & M1 & R1 & F1).
  { unfold unregister_with, mbind, get.
    destruct (players_get (PLAYERS s) ws) as [p|] eqn:Hp.
    2:{ split; [done|]. exists s, []. split; [done|]. split; [by exists []|].
        by repeat split. }
    destruct (negb (String.eqb (id p) "")).
    2:{ split; [done|]. exists s, []. split; [done|]. split; [by exists []|].
        by repeat split. }
    unfold put.
    assert (length (PLAYERS (detach s ws p)) < bound)%nat as Hlt.
    { simpl. pose proof (players_del_length _ _ _ Hp). lia. }
    destruct (Hbc (player_disconnected (id p)) (detach s ws p) Hlt)
      as (E & s1 & noise & Hrun & ([g P] & O & B & N & M & R & _) & Hno & _).
    rewrite <- E, Hrun. split; [done|]. eexists s1, _.
    split; [reflexivity|]. split.
    { exists (ws :: g). by rewrite P. }
    split.
    { intros w. rewrite O. by apply object_detach. }
    repeat (split; [done|]). by constructor. }
  assert (length (PLAYERS s1) <= bound)%nat as Hlen1.
  { rewrite P1. pose proof (sublist_length _ _ (players_del_all_sublist (PLAYERS s) g1)).
    lia. }
  destruct (IH s1 Hlen1)
    as (Heq2 & s2 & tr2 & Hrun2 & [g2 P2] & O2 & B2 & N2 & M2 & R2 & F2 & _).
  unfold mbind. rewrite <- Heq, Hrun1, <- Heq2, Hrun2.
  split; [done|]. exists s2, (tr1 ++ tr2). split; [done|]. split.
  { exists (g1 ++ g2). by rewrite players_del_all_app, <- P1. }
  split; [intros w; by rewrite O2|].
  do 4 (split; [congruence|]). split; [by apply Forall_app|done].
Qed.

(** One level of [broadcast], given the broadcast that the
    unregistrations call. *)
Definition broadcast_body (bc : message -> M unit) (m : message) : M unit :=
  (let* st := get in
   emit (Broadcast m (PLAYERS st)) ;;;
   let* disconnected_players := send_each (PLAYERS st) in
   for_each disconnected_players (unregister_with bc))%M.

Lemma broadcast_body_run bc m st disc n tr :
  send_each (PLAYERS st) st = (Ok disc, with_network st n, tr) ->
  broadcast_body bc m st
  = (let '(r, s', t) :=
       for_each disc (unregister_with bc) (with_network st n) in
     (r, s', Broadcast m (PLAYERS st) :: tr ++ t)).
Proof.
  intros H. unfold broadcast_body, mbind, get, emit. rewrite H.
  by destruct (for_each _ _ _) as [[r s'] t].
Qed.

(** With enough depth, [broadcast_within] is [broadcast], and it does
    what the source says. *)
Lemma broadcast_within_enough (depth : nat) :
  ∀ m st, (length (PLAYERS st) <= depth)%nat ->
    broadcast_within (S depth) m st = broadcast m st
    ∧ broadcast_ok m st (broadcast m st).
Proof.
  induction depth as [depth IH] using lt_wf_ind. intros m st Hlen.
  destruct (send_each_spec (PLAYERS st) st) as (disc & n & tr & Hsend & Hno & Hrel).
  assert (∀ d, (length (PLAYERS st) <= d)%nat -> (d <= depth)%nat ->
            ∀ m' s, (length (PLAYERS s) < length (PLAYERS st))%nat ->
              broadcast_within d m' s
              = broadcast_within (length (PLAYERS st)) m' s
              ∧ broadcast_ok m' s (broadcast_within d m' s)) as Hbc.
  { intros d Hd Hdd m' s Hs.
    destruct d as [|d']; [lia|].
    destruct (length (PLAYERS st)) as [|l'] eqn:El; [lia|].
    destruct (IH d' ltac:(lia) m' s ltac:(lia)) as [E1 Hok].
    destruct (IH l' ltac:(lia) m' s ltac:(lia)) as [E2 _].
    rewrite E1, E2. done. }
  specialize (Hbc depth Hlen ltac:(done)).
  destruct (unregister_loop _ _ _ Hbc disc (with_network st n) ltac:(done))
    as (Heq & s' & tr' & Hrun & [g P] & O & B & N & M & R & F & Hnil).
  change (broadcast_within (S depth) m st)
    with (broadcast_body (broadcast_within depth) m st).
  change (broadcast m st)
    with (broadcast_body (broadcast_within (length (PLAYERS st))) m st).
  rewrite !(broadcast_body_run _ m st disc n tr Hsend), <- Heq, Hrun.
  split; [done|]. exists s', (tr ++ tr'). split; [done|]. split.
  - split; [by exists g|]. do 5 (split; [done|]).
    intros Hr. destruct (Hrel Hr) as (-> & -> & Hn).
    destruct (Hnil eq_refl) as [-> ->]. done.
  - split; [by apply Forall_app|].
    intros Hr. destruct (Hrel Hr) as (-> & -> & Hn).
    by destruct (Hnil eq_refl) as [-> ->].
Qed.

(** [broadcast] as the source has it. *)
Lemma broadcast_eq (m : message) (st : server) :
  broadcast m st
  = (let* st := get in
     emit (Broadcast m (PLAYERS st)) ;;;
     let* disconnected_players := send_each (PLAYERS st) in
     for_each disconnected_players unregister_player)%M st.
Proof.
  change (broadcast m st)
    with (broadcast_body (broadcast_within (length (PLAYERS st))) m st).
  change (broadcast_body (broadcast_within (length (PLAYERS st))) m st
          = broadcast_body broadcast m st).
  destruct (send_each_spec (PLAYERS st) st) as (disc & n & tr & Hsend & _).
  rewrite !(broadcast_body_run _ m st disc n tr Hsend).
  assert (∀ m' s, (length (PLAYERS s) < length (PLAYERS st))%nat ->
            broadcast_within (length (PLAYERS st)) m' s = broadcast m' s
            ∧ broadcast_ok m' s (broadcast_within (length (PLAYERS st)) m' s))
    as Hbc.
  { intros m' s Hs. destruct (length (PLAYERS st)) as [|l'] eqn:El; [lia|].
    destruct (broadcast_within_enough l' m' s ltac:(lia)) as [E Hok].
    by rewrite E. }
  destruct (unregister_loop _ _ _ Hbc disc (with_network st n) ltac:(done))
    as (Heq & _).
  by rewrite Heq.
Qed.

(** What a broadcast does: a send to every registered connection is
    attempted; the connections whose send failed are gone afterwards,
    and what follows the broadcast in the trace are the notices of
    that. *)
Lemma broadcast_spec (m : message) (st : server) :
  ∃ st' noise,
    broadcast m st = (Ok tt, st', Broadcast m (PLAYERS st) :: noise)
    ∧ drops st st'
    ∧ Forall (fun e => notice e = true) noise
    ∧ (reliable (NETWORK st) -> noise = []).
Proof.
  destruct (broadcast_within_enough (length (PLAYERS st)) m st ltac:(done))
    as [_ H]. exact H.
Qed.

(** [unregister_player] *)
Lemma unregister_player_run ws st :
  unregister_player ws st
  = match players_get (PLAYERS st) ws with
    | Some p =>
        if negb (String.eqb (id p) "") then
          let '(r, st', tr) :=
            broadcast (player_disconnected (id p)) (detach st ws p) in
          (r, st', tr)
        else (Ok tt, st, [])
    | None => (Ok tt, st, [])
    end.
Proof.
  unfold unregister_player, unregister_with, mbind, get, put.
  destruct (players_get (PLAYERS st) ws) as [p|]; [|done].
  destruct (negb _); [|done].
  by destruct (broadcast _ _) as [[r s] t].
Qed.

(** *** Following a handler through failed sends

    A handler is followed with two states: the state [st] it is in, and
    the state [R] it would be in had every send been delivered, which is
    built from the first state by the writes of the handler alone.
    [drops R st] relates them: [st] is [R] without the connections that
    failed sends have removed, and the dictionaries the handler refers
    to hold the same values in both. *)

Lemma drops_assign R st ws f p :
  drops R st -> players_get (PLAYERS R) ws = Some p ->
  ∃ st2, assign ws f st = (Ok tt, st2, [])
         ∧ drops (with_players R (players_set (PLAYERS R) ws (f p))) st2.
Proof.
  intros ([gone P] & O & B & N & M & Rn & E) Hp.
  pose proof (O ws) as Ows. rewrite (object_registered R ws p Hp) in Ows.
  unfold assign. unfold object in Ows.
  destruct (players_get (PLAYERS st) ws) as [q|] eqn:Hq.
  - injection Ows as ->. eexists. split; [reflexivity|].
    split.
    { exists gone. simpl. rewrite P. symmetry. apply players_del_all_set.
      rewrite <- P, Hq. eauto. }
    split.
    { intros w. unfold object. simpl. destruct (decide (ws = w)) as [<-|Hne].
      - by rewrite !players_get_set_eq.
      - rewrite !players_get_set_ne by done. apply O. }
    do 4 (split; [done|]). intros Hr. destruct (E Hr) as (EP & ED & ?).
    simpl. by rewrite EP.
  - rewrite Ows. eexists. split; [reflexivity|].
    split.
    { exists gone. simpl. rewrite P. symmetry.
      apply players_del_all_set_gone; [by rewrite Hp; eauto|].
      by rewrite <- P. }
    split.
    { intros w. unfold object. simpl. destruct (decide (ws = w)) as [<-|Hne].
      - by rewrite Hq, !players_get_set_eq.
      - rewrite !players_get_set_ne by done. apply O. }
    do 4 (split; [done|]). intros Hr. destruct (E Hr) as (EP & ED & ?).
    rewrite EP, Hp in Hq. done.
Qed.

Lemma drops_deref R st ws p :
  drops R st -> players_get (PLAYERS R) ws = Some p ->
  deref ws st = (Ok p, st, []).
Proof.
  intros (_ & O & _) Hp. unfold deref.
  by rewrite O, (object_registered R ws p Hp).
Qed.

(** [PLAYERS[ws]] after drops: the dictionary, or [KeyError] when a
    failed send has removed the connection. *)
Lemma drops_the_player R st ws p :
  drops R st -> players_get (PLAYERS R) ws = Some p ->
  (the_player ws st = (Ok p, st, [])
   ∧ players_get (PLAYERS st) ws = Some p)
  ∨ (the_player ws st = (Raise KeyError, st, [])
     ∧ players_get (PLAYERS st) ws = None
     ∧ ¬ reliable (NETWORK R)).
Proof.
  intros Hd Hp. unfold the_player.
  destruct (players_get (PLAYERS st) ws) as [q|] eqn:Hq.
  - left. rewrite (drops_get _ _ _ _ Hd Hq) in Hp. injection Hp as ->. done.
  - right. split; [done|]. split; [done|].
    intros Hr. destruct Hd as (_ & _ & _ & _ & _ & _ & E).
    destruct (E Hr) as (EP & _). congruence.
Qed.

Lemma drops_with_random R st g :
  drops R st -> drops (with_random R g) (with_random st g).
Proof.
  intros (P & O & B & N & M & Rn & E).
  split; [exact P|]. split; [exact O|]. split; [exact B|].
  split; [exact N|]. split; [exact M|]. split; [reflexivity|exact E].
Qed.

Lemma drops_random {A} R st (m : Gen A) a g :
  drops R st -> m (RANDOM R) = Ok (a, g) ->
  random m st = (Ok a, with_random st g, [])
  ∧ drops (with_random R g) (with_random st g).
Proof.
  intros Hd Hm. pose proof Hd as (P & O & B & N & M & Rn & E).
  unfold random. rewrite Rn, Hm. split; [done|].
  by apply drops_with_random.
Qed.

Lemma drops_broadcast R st m :
  drops R st ->
  ∃ st' noise,
    broadcast m st = (Ok tt, st', Broadcast m (PLAYERS st) :: noise)
    ∧ drops R st'
    ∧ Forall (fun e => notice e = true) noise
    ∧ (reliable (NETWORK R) -> noise = [] ∧ PLAYERS st = PLAYERS R).
Proof.
  intros Hd. destruct (broadcast_spec m st) as (st' & noise & Hrun & Hd' & F & Hn).
  exists st', noise. split; [done|]. split; [by eapply drops_trans|].
  split; [done|]. intros Hr.
  destruct Hd as (_ & _ & _ & _ & _ & _ & E). destruct (E Hr) as (? & _ & ?).
  split; [by apply Hn|done].
Qed.

(** The messages that the handlers broadcast, without the
    [player_disconnected] of departures. *)
Definition engine (tr : list event) : list message :=
  omap (fun e => match e with
                 | Broadcast (player_disconnected _) _ => None
                 | Broadcast m _ => Some m
                 | _ => None
                 end) tr.

Lemma engine_app tr1 tr2 : engine (tr1 ++ tr2) = engine tr1 ++ engine tr2.
Proof. apply omap_app. Qed.

Lemma engine_notices tr : Forall (fun e => notice e = true) tr -> engine tr = [].
Proof.
  induction 1 as [|e tr He _ IH]; [done|]. unfold engine in *. csimpl.
  rewrite IH. destruct e as [[] ?| | [] |]; done.
Qed.

(** *** [unregister_player] and the [try] of the receive loop *)

Lemma detach_length st ws p :
  players_get (PLAYERS st) ws = Some p ->
  (length (PLAYERS (detach st ws p)) < length (PLAYERS st))%nat.
Proof. intros H. simpl. by eapply players_del_length. Qed.

Lemma unregister_player_spec ws st :
  match players_get (PLAYERS st) ws with
  | Some p =>
      if negb (String.eqb (id p) "") then
        ∃ st' noise,
          unregister_player ws st
          = (Ok tt, st',
             Broadcast (player_disconnected (id p))
               (players_del (PLAYERS st) ws) :: noise)
          ∧ drops (detach st ws p) st'
          ∧ Forall (fun e => notice e = true) noise
          ∧ (reliable (NETWORK st) -> noise = [])
      else unregister_player ws st = (Ok tt, st, [])
  | None => unregister_player ws st = (Ok tt, st, [])
  end.
Proof.
  rewrite unregister_player_run.
  destruct (players_get (PLAYERS st) ws) as [p|]; [|done].
  destruct (negb _); [|done].
  destruct (broadcast_spec (player_disconnected (id p)) (detach st ws p))
    as (st' & noise & -> & Hd & F & Hn).
  by exists st', noise.
Qed.

Lemma unregister_player_returns ws st :
  ∃ st' tr, unregister_player ws st = (Ok tt, st', tr)
            ∧ Forall (fun e => notice e = true) tr.
Proof.
  pose proof (unregister_player_spec ws st) as H.
  destruct (players_get (PLAYERS st) ws) as [p|]; [|by eexists _, _].
  destruct (negb _); [|by eexists _, _].
  destruct H as (st' & noise & -> & _ & F & _). eexists _, _.
  split; [done|]. by constructor.
Qed.

Lemma guarded_ok ws (m : M unit) st st1 tr1 :
  m st = (Ok tt, st1, tr1) -> guarded ws m st = (Ok true, st1, tr1).
Proof.
  intros H. unfold guarded, catch, mbind, mret. rewrite H.
  by rewrite app_nil_r.
Qed.

Lemma guarded_raise ws (m : M unit) st e st1 tr1 :
  m st = (Raise e, st1, tr1) ->
  guarded ws m st
  = (let '(_, st2, tr2) := unregister_player ws st1 in
     (Ok false, st2, tr1 ++ Print (UnexpectedError e) :: tr2)).
Proof.
  intros H. unfold guarded, catch, mbind, mret, print, emit. rewrite H.
  destruct (unregister_player_returns ws st1) as (st2 & tr2 & -> & _).
  by rewrite app_nil_r.
Qed.

(** *** Relating the state before and after a handler *)

(** What is left of [drops] when the connection itself is removed:
    connections are gone, nothing else changes. *)
Definition shrinks (st st' : server) : Prop :=
  (∃ gone, PLAYERS st' = players_del_all (PLAYERS st) gone)
  ∧ BULLETS st' = BULLETS st
  ∧ NEXT_PLAYER_ID st' = NEXT_PLAYER_ID st
  ∧ NEXT_BULLET_ID st' = NEXT_BULLET_ID st.

Lemma drops_shrinks st st' : drops st st' -> shrinks st st'.
Proof. intros (P & O & B & N & M & _). done. Qed.

Lemma shrinks_detach st ws p : shrinks st (detach st ws p).
Proof. split; [by exists [ws]|done]. Qed.

Lemma shrinks_trans st1 st2 st3 :
  shrinks st1 st2 -> shrinks st2 st3 -> shrinks st1 st3.
Proof.
  intros ([g1 P1] & B1 & N1 & M1) ([g2 P2] & B2 & N2 & M2).
  split; [|by repeat split; congruence].
  exists (g1 ++ g2). by rewrite players_del_all_app, <- P1.
Qed.

Lemma shrinks_unregister ws st : shrinks st (unregister_player ws st).1.2.
Proof.
  pose proof (unregister_player_spec ws st) as H.
  destruct (players_get (PLAYERS st) ws) as [p|]; [|rewrite H; by split; [exists []|]].
  destruct (negb _); [|rewrite H; by split; [exists []|]].
  destruct H as (st' & noise & -> & Hd & _). simpl.
  eapply shrinks_trans; [apply shrinks_detach|by apply drops_shrinks].
Qed.

Section After.
Variable R : server -> server -> Prop.
Hypothesis R_refl : ∀ s, R s s.
Hypothesis R_trans : ∀ s1 s2 s3, R s1 s2 -> R s2 s3 -> R s1 s3.
(** [R] allows departures, and does not look at the transport, at the
    random source or at the detached dictionaries. *)
Hypothesis R_shrinks : ∀ s s', shrinks s s' -> R s s'.

(** [R] relates a state to the state [m] leaves, whether [m] returns or
    raises. *)
Definition after {A} (m : M A) (st : server) : Prop := R st (m st).1.2.

Lemma after_bind {A B} (m : M A) (k : A -> M B) st :
  after m st ->
  (∀ a st1 tr1, m st = (Ok a, st1, tr1) -> after (k a) st1) ->
  after (mbind m k) st.
Proof.
  unfold after, mbind. intros Hm Hk.
  destruct (m st) as [[[a|e] st1] tr1]; simpl in *; [|done].
  specialize (Hk a st1 tr1 eq_refl).
  destruct (k a st1) as [[r st2] tr2]. simpl in *. eauto.
Qed.

Lemma after_catch {A} (m : M A) (h : exn -> M A) st :
  after m st ->
  (∀ e st1 tr1, m st = (Raise e, st1, tr1) -> after (h e) st1) ->
  after (catch m h) st.
Proof.
  unfold after, catch. intros Hm Hh.
  destruct (m st) as [[[a|e] st1] tr1]; simpl in *; [done|].
  specialize (Hh e st1 tr1 eq_refl).
  destruct (h e st1) as [[r st2] tr2]. simpl in *. eauto.
Qed.

Lemma after_same {A} (m : M A) st : (m st).1.2 = st -> after m st.
Proof. unfold after. intros ->. apply R_refl. Qed.

Lemma after_lift {A} (r : result A) st : after (lift r) st.
Proof. by apply after_same. Qed.
Lemma after_emit e st : after (emit e) st.
Proof. by apply after_same. Qed.
Lemma after_print d st : after (print d) st.
Proof. by apply after_same. Qed.
Lemma after_mret {A} (a : A) st : after (mret a) st.
Proof. by apply after_same. Qed.
Lemma after_get st : after get st.
Proof. by apply after_same. Qed.
Lemma after_lookup_player ws st : after (lookup_player ws) st.
Proof. by apply after_same. Qed.
Lemma after_the_player ws st : after (the_player ws) st.
Proof. apply after_same. unfold the_player. by destruct (players_get _ _). Qed.
Lemma after_deref ws st : after (deref ws) st.
Proof. apply after_same. unfold deref. by destruct (object _ _). Qed.

Lemma after_random {A} (m : Gen A) st : after (random m) st.
Proof.
  unfold after, random. destruct (m (RANDOM st)) as [[a g]|]; simpl;
    [|apply R_refl].
  apply R_shrinks. split; [by exists []|done].
Qed.

Lemma after_broadcast m st : after (broadcast m) st.
Proof.
  unfold after.
  destruct (broadcast_spec m st) as (st' & noise & -> & Hd & _). simpl.
  by apply R_shrinks, drops_shrinks.
Qed.

Lemma after_unregister_player ws st : after (unregister_player ws) st.
Proof. apply R_shrinks, shrinks_unregister. Qed.

Lemma after_send ws m st : after (send ws m) st.
Proof.
  unfold after, send, mbind, send_outcome.
  assert (R st (with_network st {| outcomes := outcomes (NETWORK st);
                                   sent := S (sent (NETWORK st)) |})) as H.
  { apply R_shrinks. split; [by exists []|done]. }
  by destruct (outcomes _ _).
Qed.

(** A write through a local variable: to the registry, or to a detached
    dictionary, which [R] does not look at. *)
Lemma after_assign ws f st :
  (∀ p, players_get (PLAYERS st) ws = Some p ->
        R st (with_players st (players_set (PLAYERS st) ws (f p)))) ->
  after (assign ws f) st.
Proof.
  intros Hf. unfold after, assign.
  destruct (players_get (PLAYERS st) ws) as [p|]; simpl; [by apply Hf|].
  destruct (players_get (DETACHED st) ws) as [p|]; simpl; [|apply R_refl].
  apply R_shrinks. split; [by exists []|done].
Qed.

Lemma after_guarded ws (m : M unit) st :
  after m st -> after (guarded ws m) st.
Proof.
  intros Hm. unfold guarded. apply after_catch.
  - apply after_bind; [done|]. intros. apply after_mret.
  - intros e st1 tr1 _. apply after_bind; [apply after_print|].
    intros u st2 tr2 _.
    apply after_bind; [apply after_unregister_player|].
    intros. apply after_mret.
Qed.

End After.

(** The leaves of a handler, for a relation with the properties [refl]
    and [shr] above. *)
Ltac after_leaf refl shr :=
  first
    [ apply (after_lift _ refl)
    | apply (after_emit _ refl)
    | apply (after_print _ refl)
    | apply (after_mret _ refl)
    | apply (after_get _ refl)
    | apply (after_lookup_player _ refl)
    | apply (after_the_player _ refl)
    | apply (after_deref _ refl)
    | apply (after_random _ refl shr)
    | apply (after_broadcast _ shr)
    | apply (after_unregister_player _ shr)
    | apply (after_send _ shr) ].

Lemma Forall_sublist_of {A} (P : A -> Prop) (l1 l2 : list A) :
  l1 `sublist_of` l2 -> Forall P l2 -> Forall P l1.
Proof.
  rewrite !Forall_forall. intros Hsub H x Hx. apply H.
  by eapply sublist_submseteq, elem_of_submseteq in Hsub.
Qed.

Lemma get_inv st a st1 tr1 : get st = (Ok a, st1, tr1) -> a = st ∧ st1 = st.
Proof. by intros [= <- <- _]. Qed.

Lemma the_player_inv ws st a st1 tr1 :
  the_player ws st = (Ok a, st1, tr1) ->
  players_get (PLAYERS st) ws = Some a ∧ st1 = st.
Proof.
  unfold the_player. destruct (players_get _ _); [|done]. by intros [= <- <- _].
Qed.

Lemma lookup_player_inv ws st a st1 tr1 :
  lookup_player ws st = (Ok a, st1, tr1) ->
  a = players_get (PLAYERS st) ws ∧ st1 = st.
Proof. by intros [= <- <- _]. Qed.

(** *** The broadcasts of a handler

    [issues ms tr]: the trace [tr] is the broadcasts of the messages of
    [ms], in this order, each to the registry that [ms] gives for it
    less the connections that have departed, and after each of them
    nothing but what the broadcaster does about the sends that failed:
    the error lines and the [player_disconnected] broadcasts of the
    departures. *)
Inductive issues :
  list (message * list (websocket * player)) -> list event -> Prop :=
| issues_nil : issues [] []
| issues_cons m reg gone noise ms tr :
    Forall (fun e => notice e = true) noise ->
    issues ms tr ->
    issues ((m, reg) :: ms)
      (Broadcast m (players_del_all reg gone) :: noise ++ tr).

(** The trace of [ms] when every send is delivered. *)
Definition delivered (ms : list (message * list (websocket * player)))
  : list event :=
  (fun x => Broadcast x.1 x.2) <$> ms.

Lemma issues_app ms1 tr1 ms2 tr2 :
  issues ms1 tr1 -> issues ms2 tr2 -> issues (ms1 ++ ms2) (tr1 ++ tr2).
Proof.
  induction 1 as [|m reg gone noise ms tr F _ IH]; intros H2; [done|].
  simpl. rewrite <- app_assoc. constructor; auto.
Qed.

Lemma issues_one m reg gone noise :
  Forall (fun e => notice e = true) noise ->
  issues [(m, reg)] (Broadcast m (players_del_all reg gone) :: noise).
Proof.
  intros F. rewrite <- (app_nil_r noise). constructor; [done|constructor].
Qed.

Lemma issues_delivered ms : issues ms (delivered ms).
Proof.
  induction ms as [|[m reg] ms IH]; [constructor|].
  exact (issues_cons m reg [] [] ms _ (Forall_nil_2 _) IH).
Qed.


(** Without the departures, the broadcasts of the trace are those of
    [ms]. *)
Lemma issues_engine ms tr :
  issues ms tr ->
  Forall (fun x => match x.1 with player_disconnected _ => False | _ => True end)
    ms ->
  engine tr = fst <$> ms.
Proof.
  induction 1 as [|m reg gone noise ms tr F _ IH]; intros Hms; [done|].
  apply Forall_cons in Hms as [Hm Hms].
  change (engine (Broadcast m (players_del_all reg gone) :: noise ++ tr))
    with (engine ([Broadcast m (players_del_all reg gone)] ++ noise ++ tr)).
  rewrite !engine_app, (engine_notices noise F), IH by done.
  simpl in Hm. by destruct m.
Qed.

(** [runs m R st r R' ms]: from the state [st], which is [R] after
    departures, [m] ends with [r] in a state which is [R'] after
    departures, having issued [ms]; on a transport that delivers every
    message its trace is [delivered ms]. *)
Definition runs {A} (m : M A) (R st : server) (r : result A) (R' : server)
    (ms : list (message * list (websocket * player))) : Prop :=
  ∃ st' tr, m st = (r, st', tr) ∧ drops R' st' ∧ issues ms tr
            ∧ (reliable (NETWORK R) -> tr = delivered ms).

Lemma runs_bind_at {A B} (m : M A) (k : A -> M B) R st a R1 ms1 st1 tr1
    r R2 ms2 :
  m st = (Ok a, st1, tr1) -> issues ms1 tr1 ->
  (reliable (NETWORK R) -> tr1 = delivered ms1) ->
  NETWORK R1 = NETWORK R ->
  runs (k a) R1 st1 r R2 ms2 ->
  runs (mbind m k) R st r R2 (ms1 ++ ms2).
Proof.
  intros Hm I1 E1 Hn (st2 & tr2 & Hk2 & Hd2 & I2 & E2).
  exists st2, (tr1 ++ tr2). split; [by apply (run_bind _ _ _ _ _ _ _ _ _ Hm)|].
  split; [done|]. split; [by apply issues_app|].
  intros Hr. unfold delivered. rewrite fmap_app.
  rewrite E1 by done. rewrite E2; [done|]. by rewrite Hn.
Qed.

Lemma runs_bind {A B} (m : M A) (k : A -> M B) R st a R1 ms1 r R2 ms2 :
  runs m R st (Ok a) R1 ms1 ->
  NETWORK R1 = NETWORK R ->
  (∀ st1, drops R1 st1 -> runs (k a) R1 st1 r R2 ms2) ->
  runs (mbind m k) R st r R2 (ms1 ++ ms2).
Proof.
  intros (st1 & tr1 & Hm & Hd1 & I1 & E1) Hn Hk.
  eapply runs_bind_at; eauto.
Qed.

(** The steps of a handler that come before its first send. *)
Lemma run_bind_silent {A B} (m : M A) (k : A -> M B) st a st1 :
  m st = (Ok a, st1, []) -> mbind m k st = k a st1.
Proof.
  intros H. unfold mbind. rewrite H. by destruct (k a st1) as [[? ?] ?].
Qed.

Lemma runs_start {A} (m m' : M A) st st1 r R' ms :
  m st = m' st1 -> NETWORK st1 = NETWORK st ->
  runs m' st1 st1 r R' ms -> runs m st st r R' ms.
Proof.
  intros Hm Hn (st' & tr & Hrun & Hd & Hi & Hr).
  exists st', tr. rewrite Hm. split; [done|]. split; [done|].
  split; [done|]. intros ?. apply Hr. by rewrite Hn.
Qed.

Lemma mbind_assoc {A B C} (m : M A) (f : A -> M B) (g : B -> M C) st :
  mbind (mbind m f) g st = mbind m (fun a => mbind (f a) g) st.
Proof.
  unfold mbind. destruct (m st) as [[[a|e] st1] tr1]; [|done].
  destruct (f a st1) as [[[b|e] st2] tr2]; [|done].
  destruct (g b st2) as [[r st3] tr3]. by rewrite app_assoc.
Qed.

Lemma mbind_ext {A B} (m : M A) (f g : A -> M B) st :
  (∀ a s, f a s = g a s) -> mbind m f st = mbind m g st.
Proof.
  intros H. unfold mbind. destruct (m st) as [[[a|e] st1] tr1]; [|done].
  by rewrite H.
Qed.

Lemma runs_raise {A B} (m : M A) (k : A -> M B) R st e R1 ms :
  runs m R st (Raise e) R1 ms ->
  runs (mbind m k) R st (Raise e) R1 ms.
Proof.
  intros (st1 & tr1 & Hm & Hd1 & I1 & E1).
  exists st1, tr1. split; [by apply run_bind_raise|]. auto.
Qed.

Lemma runs_same {A} (m : M A) R st r :
  m st = (r, st, []) -> drops R st -> runs m R st r R [].
Proof.
  intros Hm Hd. exists st, []. split; [done|]. split; [done|].
  split; [constructor|done].
Qed.

Lemma runs_eq {A} (m : M A) R st r R1 ms1 R2 ms2 :
  runs m R st r R1 ms1 -> R1 = R2 -> ms1 = ms2 -> runs m R st r R2 ms2.
Proof. by intros H <- <-. Qed.

Lemma runs_assign R st ws f p :
  players_get (PLAYERS R) ws = Some p -> drops R st ->
  runs (assign ws f) R st (Ok tt)
    (with_players R (players_set (PLAYERS R) ws (f p))) [].
Proof.
  intros Hp Hd. destruct (drops_assign R st ws f p Hd Hp) as (st2 & Hrun & Hd2).
  exists st2, []. split; [done|]. split; [done|]. split; [constructor|done].
Qed.

Lemma runs_deref R st ws p :
  players_get (PLAYERS R) ws = Some p -> drops R st ->
  runs (deref ws) R st (Ok p) R [].
Proof.
  intros Hp Hd. apply runs_same; [|done]. by eapply drops_deref.
Qed.

Lemma runs_broadcast R st m :
  drops R st -> runs (broadcast m) R st (Ok tt) R [(m, PLAYERS R)].
Proof.
  intros Hd.
  destruct (drops_broadcast R st m Hd) as (st' & noise & Hrun & Hd' & F & Hn).
  exists st', (Broadcast m (PLAYERS st) :: noise).
  split; [done|]. split; [done|]. split.
  - destruct Hd as ([gone ->] & _). by apply issues_one.
  - intros Hr. destruct (Hn Hr) as [-> ->]. done.
Qed.

(** A computation that looks at the random source only. *)
Lemma runs_random {A} (m : M A) R st a g :
  (∀ s, RANDOM s = RANDOM R -> m s = (Ok a, with_random s g, [])) ->
  drops R st ->
  runs m R st (Ok a) (with_random R g) [].
Proof.
  intros Hm Hd. exists (with_random st g), [].
  split; [apply Hm; by destruct Hd as (_ & _ & _ & _ & _ & ? & _)|].
  split; [by apply drops_with_random|]. split; [constructor|done].
Qed.

(** A tape and the maze it generates, for the examples. *)
Definition rng0 : rng := {| tape := fun i => (7 * i + 3)%nat; cursor := 0 |}.

Definition demo_generator : MazeGenerator.t :=
  Eval vm_compute in
    match generate (init MAZE_WIDTH MAZE_HEIGHT NUM_MAZE_LAYERS) 1000 rng0 with
    | Ok (G, _) => G
    | Raise _ => init MAZE_WIDTH MAZE_HEIGHT NUM_MAZE_LAYERS
    end.

Lemma demo_generated : generated demo_generator.
Proof.
  exists 1000%nat, rng0,
    (match generate (init MAZE_WIDTH MAZE_HEIGHT NUM_MAZE_LAYERS) 1000 rng0 with
     | Ok (_, g') => g'
     | Raise _ => rng0
     end).
  vm_compute. reflexivity.
Defined.

(** A transport that delivers every message, and one on which the
    [k]-th send from now raises. *)
Definition net0 : net := {| outcomes := fun _ => Delivered; sent := 0 |}.

Definition failing_at (k : nat) : net :=
  {| outcomes := fun i => if Nat.eqb i k then Failed else Delivered;
     sent := 0 |}.

Lemma reliable_net0 : reliable net0.
Proof. intros k _. reflexivity. Defined.

(** Steps of a run followed through failed sends: the goal is
    [runs m R st r ?R' ?ms]. *)
Ltac registered :=
  cbn [PLAYERS with_players with_random with_network with_bullets
       with_next_bullet_id with_next_player_id];
  first [ eassumption
        | apply players_get_set_eq
        | rewrite players_get_set_ne by done; registered ].

Ltac runs_leaf :=
  lazymatch goal with
  | |- runs (assign _ _) _ _ _ _ _ => eapply runs_assign; [registered|done]
  | |- runs (deref _) _ _ _ _ _ => eapply runs_deref; [registered|done]
  | |- runs (broadcast _) _ _ _ _ _ => eapply runs_broadcast; done
  | |- runs (lookup_player _) _ _ _ _ _ =>
      eapply runs_same; [reflexivity|done]
  | |- runs get _ _ _ _ _ => eapply runs_same; [reflexivity|done]
  | |- runs (mret _) _ _ _ _ _ => eapply runs_same; [reflexivity|done]
  end.

Ltac runs_step :=
  eapply runs_bind; [runs_leaf|reflexivity|]; intros ? ?.

Section Generated.
Variable G : MazeGenerator.t.
Hypothesis HG : generated G.


End Generated.

Definition demo_player : player :=
  {| id := "player_0"; position := zero3; rotation := zero3; layer := 1;
     health := 40; score := 30; color := "#00ff00" |}.

Definition demo_server : server :=
  {| PLAYERS := [(7%nat, demo_player)]; BULLETS := [];
     NEXT_PLAYER_ID := 1; NEXT_BULLET_ID := 0; RANDOM := rng0;
     NETWORK := net0; DETACHED := [] |}.


(** The player record a respawn leaves. *)
Definition respawned (p : player) (v : vec3) (s : Z) : player :=
  {| id := id p; position := v; rotation := zero3; layer := 0;
     health := MAX_HEALTH; score := s; color := color p |}.

(** The penalty test of [respawn_player]: [killer_id and reset_score]. *)
Definition penalty (killer_id : option string) (reset_score : bool) : bool :=
  match killer_id with
  | Some k => negb (String.eqb k "")
  | None => false
  end && reset_score.

(** [respawn_player] on a connection that is not registered. *)
Lemma respawn_player_gone G ws pid killer reset st :
  players_get (PLAYERS st) ws = None ->
  respawn_player G ws pid killer reset st = (Raise KeyError, st, []).
Proof.
  intros H. unfold respawn_player. apply run_bind_raise.
  unfold the_player. by rewrite H.
Qed.

Section OpenLayer.
Variable G : MazeGenerator.t.
Hypothesis HG : layer0_has_open G.

(** What a call of [respawn_player] does for a connection that is
    registered, in a state [st] that is [R] after departures; [v] and
    [g'] are the position and the random source that
    [get_random_open_position_on_layer] gives. *)
Lemma respawn_player_runs R st ws pid killer reset p v g' :
  drops R st ->
  players_get (PLAYERS R) ws = Some p ->
  is_Some (players_get (PLAYERS st) ws) ->
  (∀ s, RANDOM s = RANDOM R ->
        get_random_open_position_on_layer G 0 s
        = (Ok v, with_random s g', [])) ->
  let s := if penalty killer reset then Z.max 0 (score p - 100) else score p in
  let reg := players_set (PLAYERS R) ws (respawned p v s) in
  runs (respawn_player G ws pid killer reset) R st (Ok tt)
    (with_players (with_random R g') reg)
    [(player_defeated pid s killer, reg);
     (player_respawned pid v 0 MAX_HEALTH s (color p) zero3, reg)].
Proof.
  intros Hd Hp [q Hq] Hpos. cbv zeta.
  unfold respawn_player. fold (penalty killer reset).
  destruct (penalty killer reset).
  - eapply runs_eq.
    + eapply runs_bind;
        [eapply runs_same; [by apply run_the_player|done]|reflexivity|].
      intros st1 Hd1. runs_step.
      eapply runs_bind; [eapply runs_random; [exact Hpos|done]|reflexivity|].
      intros ? ?. do 6 runs_step. runs_step. runs_leaf.
    + cbn [PLAYERS with_players with_random]. rewrite !players_set_set.
      destruct R; reflexivity.
    + cbn [PLAYERS with_players with_random app]. rewrite !players_set_set.
      reflexivity.
  - eapply runs_eq.
    + eapply runs_bind;
        [eapply runs_same; [by apply run_the_player|done]|reflexivity|].
      intros st1 Hd1. runs_step.
      eapply runs_bind; [eapply runs_random; [exact Hpos|done]|reflexivity|].
      intros ? ?. do 6 runs_step. runs_step. runs_leaf.
    + cbn [PLAYERS with_players with_random]. rewrite !players_set_set.
      destruct R; reflexivity.
    + cbn [PLAYERS with_players with_random app]. rewrite !players_set_set.
      reflexivity.
Qed.

(** C6: given that layer 0 has an open cell, a respawn of a registered
    player returns and leaves the dictionary of that player with health
    100, layer 0, rotation (0,0,0) and a position that
    [world_to_grid_coords] maps to an open cell of layer 0; with the
    penalty the score drops by 100 but not below 0, and without it the
    score stays.  The state is the one with that dictionary in the
    registry and the random source advanced, less the connections to
    which a send of the two broadcasts of the respawn failed;
    [player_defeated] and [player_respawned] are broadcast, in this
    order, with the new values. *)
Theorem respawn_player_resets ws pid killer reset st p :
  players_get (PLAYERS st) ws = Some p ->
  ∃ st' tr p' sr sc m0 g',
    respawn_player G ws pid killer reset st = (Ok tt, st', tr)
    ∧ object st' ws = Some p'
    ∧ health p' = 100 ∧ layer p' = 0 ∧ rotation p' = zero3
    ∧ world_to_grid_coords (vx (position p')) (vz (position p')) = Ok (sr, sc)
    ∧ mazes G !! 0%nat = Some m0
    ∧ cell_at m0 (Z.to_nat sr) (Z.to_nat sc) = Some OPEN
    ∧ score p' = (if penalty killer reset
                  then Z.max 0 (score p - 100) else score p)
    ∧ drops (with_players (with_random st g')
               (players_set (PLAYERS st) ws p')) st'
    ∧ issues [(player_defeated pid (score p') killer,
               players_set (PLAYERS st) ws p');
              (player_respawned pid (position p') 0 100 (score p') (color p)
                 zero3,
               players_set (PLAYERS st) ws p')] tr.
Proof.
  intros Hp.
  destruct (random_open_position G HG (RANDOM st))
    as (sr & sc & v & g' & m0 & Hpos & Hv & Hback & Hr & Hc & Hm0 & Hopen).
  destruct (respawn_player_runs st st ws pid killer reset p v g'
              (drops_refl st) Hp (mk_is_Some _ _ Hp) Hpos)
    as (st' & tr & Hrun & Hd & Hi & _).
  eexists st', tr, _, sr, sc, m0, g'. split; [exact Hrun|].
  split; [eapply drops_object; [exact Hd|apply players_get_set_eq]|].
  by repeat (split; [done|]).
Qed.

End OpenLayer.

Lemma respawn_player_resets_witness :
  ∃ st' tr p' sr sc m0 g',
    respawn_player demo_generator 7%nat "player_0" (Some "player_1"%string)
      true demo_server = (Ok tt, st', tr)
    ∧ object st' 7%nat = Some p'
    ∧ health p' = 100 ∧ layer p' = 0 ∧ rotation p' = zero3
    ∧ world_to_grid_coords (vx (position p')) (vz (position p')) = Ok (sr, sc)
    ∧ mazes demo_generator !! 0%nat = Some m0
    ∧ cell_at m0 (Z.to_nat sr) (Z.to_nat sc) = Some OPEN
    ∧ score p' = (if penalty (Some "player_1"%string) true
                  then Z.max 0 (score demo_player - 100) else score demo_player)
    ∧ drops (with_players (with_random demo_server g')
               (players_set (PLAYERS demo_server) 7%nat p')) st'
    ∧ issues [(player_defeated "player_0" (score p') (Some "player_1"%string),
               players_set (PLAYERS demo_server) 7%nat p');
              (player_respawned "player_0" (position p') 0 100 (score p')
                 (color demo_player) zero3,
               players_set (PLAYERS demo_server) 7%nat p')] tr.
Proof.
  apply (respawn_player_resets demo_generator);
    [|exact (eq_refl : players_get (PLAYERS demo_server) 7%nat
                       = Some demo_player)].
  eexists. split; [reflexivity|]. split; [|vm_compute; lia].
  split; [reflexivity|]. repeat constructor.
Defined.

(** The registry after the two mutations every processed hit makes: the
    damage to the target, then the hit score of the shooter.  The second
    write reads the registry the first one left, so a shooter who is the
    target keeps the damage. *)
Definition after_hit (reg : list (websocket * player))
    (ws target_ws : websocket) : list (websocket * player) :=
  match players_get reg target_ws with
  | Some tp =>
      let reg1 :=
        players_set reg target_ws (set_health (health tp - BULLET_DAMAGE) tp) in
      match players_get reg1 ws with
      | Some sh => players_set reg1 ws (set_score (score sh + 10) sh)
      | None => reg1
      end
  | None => reg
  end.

(** The registry after the respawn of the defeated target. *)
Definition after_respawn (reg : list (websocket * player))
    (target_ws : websocket) (v : vec3) : list (websocket * player) :=
  match players_get reg target_ws with
  | Some tp =>
      players_set reg target_ws (respawned tp v (Z.max 0 (score tp - 100)))
  | None => reg
  end.

(** The registry after the defeat award. *)
Definition after_award (reg : list (websocket * player)) (ws : websocket)
  : list (websocket * player) :=
  match players_get reg ws with
  | Some sh => players_set reg ws (set_score (score sh + 500) sh)
  | None => reg
  end.

Definition score_of (reg : list (websocket * player)) (ws : websocket) : Z :=
  match players_get reg ws with Some p => score p | None => 0 end.
Definition health_of (reg : list (websocket * player)) (ws : websocket) : Z :=
  match players_get reg ws with Some p => health p | None => 0 end.

(** The two broadcasts of every processed hit. *)
Definition hit_messages (reg1 : list (websocket * player))
    (ws tws : websocket) (sid tid : string)
  : list (message * list (websocket * player)) :=
  [(score_update sid (score_of reg1 ws), reg1);
   (health_update tid (health_of reg1 tws) (score_of reg1 tws), reg1)].

(** The three broadcasts that follow on a defeat. *)
Definition defeat_messages (reg2 reg3 : list (websocket * player))
    (ws tws : websocket) (sid tid : string) (v : vec3) (target_color : string)
  : list (message * list (websocket * player)) :=
  [(player_defeated tid (score_of reg2 tws) (Some sid), reg2);
   (player_respawned tid v 0 MAX_HEALTH (score_of reg2 tws) target_color zero3,
    reg2);
   (score_update sid (score_of reg3 ws), reg3)].

Lemma players_get_set_is_Some ps ws ws' p :
  is_Some (players_get ps ws') -> is_Some (players_get (players_set ps ws p) ws').
Proof.
  intros H. destruct (decide (ws = ws')) as [->|Hne].
  - rewrite players_get_set_eq. eauto.
  - by rewrite players_get_set_ne.
Qed.

(** The handler from its first broadcast to the test of the target's
    health, and what it does on a defeat. *)
Definition hit_reports (ws tws : websocket) (sid tid : string) : M player :=
  (let* shooter_data := deref ws in
   broadcast (score_update sid (score shooter_data)) ;;;
   let* target_player_data := deref tws in
   broadcast (health_update tid (health target_player_data)
                (score target_player_data)) ;;;
   deref tws)%M.

Definition hit_defeat (G : MazeGenerator.t) (ws tws : websocket)
    (sid tid : string) : M unit :=
  (respawn_player G tws tid (Some sid) true ;;;
   assign ws (fun p => set_score (score p + 500) p) ;;;
   let* shooter_data := deref ws in
   broadcast (score_update sid (score shooter_data)))%M.

Lemma handle_player_hit_split G ws data st sh tj tws tid tp :
  players_get (PLAYERS st) ws = Some sh -> id sh ≠ ""%string ->
  dict_get data "target_id" = Some tj -> truthy tj = true ->
  find_target (PLAYERS st) tj = Some (tws, tid) ->
  players_get (PLAYERS st) tws = Some tp ->
  handle_player_hit G ws data st
  = mbind (hit_reports ws tws (id sh) tid)
      (fun t => if health t <=? 0 then hit_defeat G ws tws (id sh) tid
                else mret tt)
      (with_players st (after_hit (PLAYERS st) ws tws)).
Proof.
  intros Hsh Hid Hdata Htruthy Hfind Htp.
  set (tp1 := set_health (health tp - BULLET_DAMAGE) tp).
  set (ps1 := players_set (PLAYERS st) tws tp1).
  assert (∃ sh1, players_get ps1 ws = Some sh1) as (sh1 & Hsh1).
  { subst ps1. apply players_get_set_is_Some. eauto. }
  assert (after_hit (PLAYERS st) ws tws
          = players_set ps1 ws (set_score (score sh1 + 10) sh1)) as ->.
  { unfold after_hit. rewrite Htp. fold tp1. fold ps1. by rewrite Hsh1. }
  assert (negb (String.eqb (id sh) "") = true) as Hnonempty.
  { by destruct (String.eqb_spec (id sh) ""). }
  unfold handle_player_hit. rewrite Hdata.
  cbn [default from_option Datatypes.id].
  rewrite (run_bind_silent _ _ st _ st eq_refl).
  rewrite Hsh, Htruthy, Hnonempty. cbn [andb].
  rewrite (run_bind_silent _ _ st _ st eq_refl). rewrite Hfind.
  rewrite (run_bind_silent _ _ st _ st (run_the_player tws st tp Htp)).
  rewrite (run_bind_silent _ _ st _ _ (run_assign tws _ st tp Htp)).
  fold tp1. fold ps1.
  rewrite (run_bind_silent _ _ _ _ _
             (run_the_player ws (with_players st ps1) sh1 Hsh1)).
  rewrite (run_bind_silent _ _ _ _ _
             (run_assign ws _ (with_players st ps1) sh1 Hsh1)).
  cbn [PLAYERS with_players].
  change (with_players (with_players st ps1) ?x) with (with_players st x).
  unfold hit_reports, hit_defeat. symmetry.
  etransitivity; [apply mbind_assoc|]. apply mbind_ext. intros a1 s1.
  etransitivity; [apply mbind_assoc|]. apply mbind_ext. intros a2 s2.
  etransitivity; [apply mbind_assoc|]. apply mbind_ext. intros a3 s3.
  etransitivity; [apply mbind_assoc|]. apply mbind_ext. intros a4 s4.
  reflexivity.
Qed.

Section Generated.
Variable G : MazeGenerator.t.
Hypothesis HG : generated G.

(** A processed hit.  When the target is defeated, the respawn looks the
    target up in [PLAYERS] again: the handler goes on if the connection
    of the target is still registered after the first two broadcasts,
    and raises [KeyError] if a send to it has failed. *)
Lemma handle_player_hit_run ws data st sh tj tws tid tp :
  players_get (PLAYERS st) ws = Some sh -> id sh ≠ ""%string ->
  dict_get data "target_id" = Some tj -> truthy tj = true ->
  find_target (PLAYERS st) tj = Some (tws, tid) ->
  players_get (PLAYERS st) tws = Some tp ->
  let reg1 := after_hit (PLAYERS st) ws tws in
  if health_of reg1 tws <=? 0 then
    ∃ v g' sr sc m0,
      let reg2 := after_respawn reg1 tws v in
      let reg3 := after_award reg2 ws in
      (runs (handle_player_hit G ws data) st st (Ok tt)
         (with_players (with_random st g') reg3)
         (hit_messages reg1 ws tws (id sh) tid
          ++ defeat_messages reg2 reg3 ws tws (id sh) tid v (color tp))
       ∨ (¬ reliable (NETWORK st)
          ∧ ∃ st' tr,
              handle_player_hit G ws data st = (Raise KeyError, st', tr)
              ∧ players_get (PLAYERS st') tws = None
              ∧ drops (with_players st reg1) st'
              ∧ issues (hit_messages reg1 ws tws (id sh) tid) tr))
      ∧ grid_to_world_coords sr sc 0 = Ok v
      ∧ mazes G !! 0%nat = Some m0
      ∧ cell_at m0 (Z.to_nat sr) (Z.to_nat sc) = Some OPEN
  else
    runs (handle_player_hit G ws data) st st (Ok tt) (with_players st reg1)
      (hit_messages reg1 ws tws (id sh) tid).
Proof.
  intros Hsh Hid Hdata Htruthy Hfind Htp reg1.
  pose proof (handle_player_hit_split G ws data st sh tj tws tid tp
                Hsh Hid Hdata Htruthy Hfind Htp) as Hsplit.
  fold reg1 in Hsplit.
  set (tp1 := set_health (health tp - BULLET_DAMAGE) tp).
  set (ps1 := players_set (PLAYERS st) tws tp1).
  assert (∃ sh1, players_get ps1 ws = Some sh1 ∧ id sh1 = id sh) as (sh1 & Hsh1 & Hid1).
  { subst ps1. destruct (decide (tws = ws)) as [->|Hne].
    - rewrite players_get_set_eq. exists tp1. split; [done|].
      subst tp1. simpl. congruence.
    - rewrite players_get_set_ne by done. eauto. }
  set (sh2 := set_score (score sh1 + 10) sh1).
  assert (reg1 = players_set ps1 ws sh2) as Hreg1.
  { subst reg1 sh2. unfold after_hit. rewrite Htp. fold tp1. fold ps1.
    by rewrite Hsh1. }
  assert (∃ tp2, players_get reg1 tws = Some tp2
                 ∧ health tp2 = health tp - BULLET_DAMAGE
                 ∧ color tp2 = color tp) as (tp2 & Htp2 & Hh2 & Hc2).
  { rewrite Hreg1. destruct (decide (ws = tws)) as [E|Hne].
    - subst tws. rewrite players_get_set_eq. exists sh2. split; [done|].
      subst sh2 ps1. rewrite players_get_set_eq in Hsh1. injection Hsh1 as <-.
      done.
    - rewrite players_get_set_ne by done. subst ps1.
      rewrite players_get_set_eq. by exists tp1. }
  assert (players_get reg1 ws = Some sh2) as Hsh2
    by (rewrite Hreg1; apply players_get_set_eq).
  assert (health_of reg1 tws = health tp2) as Hho
    by (unfold health_of; by rewrite Htp2).
  assert (score_of reg1 tws = score tp2) as Hso
    by (unfold score_of; by rewrite Htp2).
  assert (score_of reg1 ws = score sh2) as Hss
    by (unfold score_of; by rewrite Hsh2).
  set (R1 := with_players st reg1) in *.
  (* the two broadcasts of every hit *)
  assert (runs (hit_reports ws tws (id sh) tid) R1 R1 (Ok tp2) R1
            (hit_messages reg1 ws tws (id sh) tid)) as Hreports.
  { unfold hit_reports, hit_messages. rewrite Hho, Hso, Hss.
    eapply runs_eq.
    - eapply runs_bind;
        [eapply runs_deref; [exact Hsh2|apply drops_refl]|reflexivity|].
      intros ? ?. runs_step.
      eapply runs_bind; [eapply runs_deref; [exact Htp2|done]|reflexivity|].
      intros ? ?. runs_step.
      eapply runs_deref; [exact Htp2|done].
    - reflexivity.
    - reflexivity. }
  rewrite Hho. destruct (health tp2 <=? 0) eqn:Hdead.
  - destruct (random_open_position G (layer0_open G HG) (RANDOM st))
      as (sr & sc & v & g' & m0 & Hpos & Hv & _ & _ & _ & Hm0 & Hopen).
    exists v, g', sr, sc, m0. cbv zeta. split; [|done].
    destruct Hreports as (st3 & tr3 & Hrun3 & Hd3 & Hi3 & Hr3).
    set (tp3 := respawned tp2 v (Z.max 0 (score tp2 - 100))).
    set (reg2 := players_set reg1 tws tp3).
    assert (after_respawn reg1 tws v = reg2) as Hreg2.
    { unfold after_respawn. by rewrite Htp2. }
    assert (∃ sh3, players_get reg2 ws = Some sh3) as [sh3 Hsh3].
    { subst reg2. apply players_get_set_is_Some. eauto. }
    set (sh4 := set_score (score sh3 + 500) sh3).
    assert (after_award reg2 ws = players_set reg2 ws sh4) as Hreg3.
    { unfold after_award. by rewrite Hsh3. }
    rewrite Hreg2, Hreg3.
    destruct (drops_the_player R1 st3 tws tp2 Hd3 Htp2)
      as [[_ Hthere]|(_ & Hgone & Hlossy)].
    + left. eapply runs_start; [exact Hsplit|reflexivity|].
      eapply runs_bind_at; [exact Hrun3|exact Hi3|exact Hr3|reflexivity|].
      rewrite Hdead. unfold hit_defeat, defeat_messages.
      assert (penalty (Some (id sh)) true = true) as Hpen.
      { unfold penalty. by destruct (String.eqb_spec (id sh) ""). }
      pose proof (respawn_player_runs G R1 st3 tws tid
                    (Some (id sh)) true tp2 v g' Hd3 Htp2
                    (mk_is_Some _ _ Hthere) Hpos) as Hrespawn.
      cbv zeta in Hrespawn. rewrite Hpen in Hrespawn.
      fold tp3 in Hrespawn.
      change (players_set (PLAYERS R1) tws tp3) with reg2 in Hrespawn.
      assert (score_of reg2 tws = Z.max 0 (score tp2 - 100)) as ->.
      { unfold score_of. subst reg2. by rewrite players_get_set_eq. }
      assert (score_of (players_set reg2 ws sh4) ws = score sh4) as ->.
      { unfold score_of. by rewrite players_get_set_eq. }
      rewrite <- Hc2.
      eapply runs_eq.
      * eapply runs_bind; [exact Hrespawn|reflexivity|]. intros ? ?.
        eapply runs_bind;
          [eapply runs_assign; [exact Hsh3|done]|reflexivity|].
        intros ? ?. runs_step. runs_leaf.
      * subst R1. destruct st; reflexivity.
      * reflexivity.
    + right. split; [exact Hlossy|]. exists st3, tr3.
      split; [|split; [exact Hgone|split; [exact Hd3|exact Hi3]]].
      rewrite Hsplit. rewrite <- (app_nil_r tr3).
      eapply run_bind; [exact Hrun3|]. rewrite Hdead.
      unfold hit_defeat. apply run_bind_raise.
      by apply respawn_player_gone.
  - eapply runs_start; [exact Hsplit|reflexivity|].
    destruct Hreports as (st3 & tr3 & Hrun3 & Hd3 & Hi3 & Hr3).
    eapply runs_eq.
    + eapply runs_bind_at; [exact Hrun3|exact Hi3|exact Hr3|reflexivity|].
      rewrite Hdead. eapply runs_same; [reflexivity|exact Hd3].
    + reflexivity.
    + by rewrite app_nil_r.
Qed.

End Generated.


Section Generated.
Variable G : MazeGenerator.t.
Hypothesis HG : generated G.



End Generated.

(** Two players for the examples; the second has 10 health left. *)
Definition demo_target : player :=
  {| id := "player_1"; position := zero3; rotation := zero3; layer := 0;
     health := 10; score := 130; color := "#0000ff" |}.

Definition demo_pair : server :=
  {| PLAYERS := [(7%nat, demo_player); (8%nat, demo_target)]; BULLETS := [];
     NEXT_PLAYER_ID := 2; NEXT_BULLET_ID := 0; RANDOM := rng0;
     NETWORK := net0; DETACHED := [] |}.

Definition hit_on (target : string) : dict :=
  [("type"%string, JStr "player_hit"); ("target_id"%string, JStr target)].




(** C9 fails when a send fails: the second player, with 10 health left,
    hits itself, and the send of the first broadcast to its own
    connection (the second send) raises.  The broadcaster unregisters
    the player; the handler still broadcasts the health of 0, and the
    respawn then raises [KeyError]: the player is left with health 0 and
    the 10 points of the hit, without the penalty and without the award
    of 500. *)
Lemma self_hit_unregistered_no_award :
  ∃ st' tr p',
    handle_player_hit demo_generator 8%nat (hit_on "player_1")
      (with_network demo_pair (failing_at 1))
    = (Raise KeyError, st', tr)
    ∧ broadcasts tr
      = [score_update "player_1" 140; player_disconnected "player_1";
         health_update "player_1" 0 140]
    ∧ players_get (PLAYERS st') 8%nat = None
    ∧ object st' 8%nat = Some p'
    ∧ health p' = 0 ∧ score p' = score demo_target + 10.
Proof.
  eexists _, _, _. split; [vm_compute; reflexivity|].
  split; [reflexivity|]. split; [reflexivity|]. split; [reflexivity|]. done.
Qed.

(** The test of [handle_teleport_request] on the cell the player stands
    on. *)
Definition teleport_allowed (ch : ascii) (p : player) (target_layer : Z)
  : bool :=
  Ascii.eqb ch UP && (target_layer =? layer p + 1)
  && (target_layer <? NUM_MAZE_LAYERS).

(** The indexing [GENERATED_MAZE_DATA[layer][r][c]]. *)
Definition maze_cell (G : MazeGenerator.t) (l r c : Z) : result ascii :=
  (let* maze := py_get (GENERATED_MAZE_DATA G) l in
   let* row := py_get maze r in
   py_get row c)%res.

(** The search loop of [handle_teleport_request]: the first teleporter
    of type ['l'] in [teleporter_coords.get(target_layer, [])]. *)
Definition down_teleporter (G : MazeGenerator.t) (target_layer : Z)
  : option teleporter :=
  List.find (fun t => Ascii.eqb (tp_type t) DOWN)
    (default [] (teleporter_coords G !! target_layer)).




(** What the handler does once a teleport is allowed and a teleporter
    [t] is found. *)
Definition teleport_to_cell (ws : websocket) (t : teleporter)
    (target_layer : Z) : M unit :=
  (let* new_position :=
     lift (grid_to_world_coords (tp_r t) (tp_c t) target_layer) in
   assign ws (set_position new_position) ;;;
   assign ws (set_layer target_layer) ;;;
   let* p := deref ws in
   broadcast (player_update (id p) (position p) (rotation p) (layer p)))%M.

(** A handler of a registered player up to the decision. *)
Lemma handle_teleport_request_indexing G ws data st p tl r c :
  players_get (PLAYERS st) ws = Some p ->
  as_int (default JNull (dict_get data "target_layer")) = Some tl ->
  world_to_grid_coords (vx (position p)) (vz (position p)) = Ok (r, c) ->
  handle_teleport_request G ws data st
  = match maze_cell G (layer p) r c with
    | Raise e => (Raise e, st, [])
    | Ok ch =>
        if teleport_allowed ch p tl then
          match down_teleporter G tl with
          | Some t => teleport_to_cell ws t tl st
          | None => (Ok tt, st, [Print (NoDownTeleporter tl)])
          end
        else (Ok tt, st, [Print InvalidTeleport])
    end.
Proof.
  intros Hp Htl Hgrid. unfold handle_teleport_request.
  rewrite (run_bind_silent _ _ st _ st eq_refl). rewrite Hp, Htl.
  unfold mbind at 1. unfold lift at 1. cbv beta iota.
  rewrite Hgrid. cbv beta iota.
  unfold mbind at 1. unfold lift at 1. cbv beta iota.
  fold (maze_cell G (layer p) r c).
  destruct (maze_cell G (layer p) r c) as [ch|e]; [|done].
  fold (teleport_allowed ch p tl). fold (down_teleporter G tl).
  destruct (teleport_allowed ch p tl).
  - destruct (down_teleporter G tl) as [t|].
    + fold (teleport_to_cell ws t tl).
      by destruct (teleport_to_cell ws t tl st) as [[? ?] ?].
    + unfold print, emit. reflexivity.
  - unfold print, emit. reflexivity.
Qed.


Lemma py_get_outside {A} (l : list A) (i : Z) :
  Z.of_nat (length l) <= i ∨ i < - Z.of_nat (length l) ->
  py_get l i = Raise IndexError.
Proof.
  intros H. unfold py_get, py_index.
  destruct (Z.leb_spec 0 i).
  - destruct (Z.ltb_spec i (Z.of_nat (length l))); [lia|done].
  - destruct (Z.leb_spec (- Z.of_nat (length l)) i); [lia|done].
Qed.

Section Generated.
Variable G : MazeGenerator.t.
Hypothesis HG : generated G.




End Generated.

(** A player the client has moved out of the grid. *)
Definition far_player : player :=
  {| id := "player_0";
     position := {| vx := Float 1000; vy := Float 0; vz := Float 1000 |};
     rotation := zero3; layer := 0; health := 100; score := 0;
     color := "#00ff00" |}.

Definition far_server : server :=
  {| PLAYERS := [(7%nat, far_player); (8%nat, demo_target)]; BULLETS := [];
     NEXT_PLAYER_ID := 2; NEXT_BULLET_ID := 0; RANDOM := rng0;
     NETWORK := net0; DETACHED := [] |}.

Definition teleport_to (target_layer : Z) : dict :=
  [("type"%string, JStr "teleport_request");
   ("target_layer"%string, JNum (Int target_layer))].

(** A player on the up-teleporter of layer 0 of the example maze. *)
Definition demo_up_cell : Z * Z :=
  match teleporter_coords demo_generator !! 0 with
  | Some (t :: _) => (tp_r t, tp_c t)
  | _ => (0, 0)
  end.

Definition on_teleporter : player :=
  {| id := "player_0";
     position := match grid_to_world_coords demo_up_cell.1 demo_up_cell.2 0 with
                 | Ok v => v
                 | Raise _ => zero3
                 end;
     rotation := zero3; layer := 0; health := 100; score := 0;
     color := "#00ff00" |}.

Definition teleporter_server : server :=
  {| PLAYERS := [(7%nat, on_teleporter)]; BULLETS := [];
     NEXT_PLAYER_ID := 1; NEXT_BULLET_ID := 0; RANDOM := rng0;
     NETWORK := net0; DETACHED := [] |}.


(** The example above is an accepted request. *)
Example teleporter_server_accepted :
  ∃ st' tr,
    handle_teleport_request demo_generator 7%nat (teleport_to 1) teleporter_server
    = (Ok tt, st', tr)
    ∧ message_type <$> broadcasts tr = ["player_update"%string]
    ∧ (layer <$> players_get (PLAYERS st') 7%nat) = Some 1.
Proof. eexists _, _. split; [vm_compute; reflexivity|]. done. Qed.


(** A player whose stored position is outside the maze, at x = -75 and
    z = -70: its grid cell is (-6, -7), which the indexing of Python
    counts from the end of the lists; that is the cell (11, 10) of the
    up-teleporter of layer 0, and the request is accepted. *)
Definition behind_player : player :=
  {| id := "player_0";
     position := {| vx := Float (-75); vy := Float 0; vz := Float (-70) |};
     rotation := zero3; layer := 0; health := 100; score := 0;
     color := "#00ff00" |}.

Definition behind_server : server :=
  {| PLAYERS := [(7%nat, behind_player)]; BULLETS := [];
     NEXT_PLAYER_ID := 1; NEXT_BULLET_ID := 0; RANDOM := rng0;
     NETWORK := net0; DETACHED := [] |}.

Example teleport_request_from_outside_accepted :
  world_to_grid_coords (vx (position behind_player))
    (vz (position behind_player)) = Ok (-6, -7)
  ∧ demo_up_cell = (11, 10)
  ∧ ∃ st' tr,
      handle_teleport_request demo_generator 7%nat (teleport_to 1) behind_server
      = (Ok tt, st', tr)
      ∧ message_type <$> broadcasts tr = ["player_update"%string]
      ∧ (layer <$> players_get (PLAYERS st') 7%nat) = Some 1.
Proof.
  split; [vm_compute; reflexivity|]. split; [vm_compute; reflexivity|].
  eexists _, _. split; [vm_compute; reflexivity|]. done.
Qed.

(** *** Unvalidated layer values *)

(** C10, as amended: [handle_player_update] stores an integer layer that
    lies outside the maze without any check, and broadcasts it.  When
    that player, still registered, then sends a [teleport_request], the
    handler indexes the maze data with the stored layer and raises
    [IndexError]; when it sends [player_reached_end], the handler does
    not index the maze data: it compares the stored layer with the index
    of the last layer and rejects the event. *)
Theorem stored_layer_unvalidated (float_of_string : string -> option float)
    (int_of_string : string -> option Z) (G : MazeGenerator.t)
    (ws : websocket) (st : server) (p : player) (n : Z) (data : dict)
    (tl r c : Z) :
  players_get (PLAYERS st) ws = Some p ->
  length (mazes G) = Z.to_nat NUM_MAZE_LAYERS ->
  NUM_MAZE_LAYERS <= n ∨ n < - NUM_MAZE_LAYERS ->
  as_int (default JNull (dict_get data "target_layer")) = Some tl ->
  world_to_grid_coords (vx (position p)) (vz (position p)) = Ok (r, c) ->
  let reg := players_set (PLAYERS st) ws (set_layer n p) in
  ∃ st1 tr1,
    handle_player_update float_of_string int_of_string ws
      [("layer"%string, JNum (Int n))] st
    = (Ok tt, st1, tr1)
    ∧ object st1 ws = Some (set_layer n p)
    ∧ drops (with_players st reg) st1
    ∧ issues [(player_update (id p) (position p) (rotation p) n, reg)] tr1
    ∧ (reliable (NETWORK st) ->
       players_get (PLAYERS st1) ws = Some (set_layer n p)
       ∧ tr1 = [Broadcast (player_update (id p) (position p) (rotation p) n)
                  reg])
    ∧ (players_get (PLAYERS st1) ws = Some (set_layer n p) ->
       handle_teleport_request G ws data st1 = (Raise IndexError, st1, [])
       ∧ handle_player_reached_end G ws st1 = (Ok tt, st1, [Print NotAtEnd])).
Proof.
  intros Hp Hlen Hn Htl Hgrid reg.
  assert (runs (handle_player_update float_of_string int_of_string ws
                  [("layer"%string, JNum (Int n))]) st st (Ok tt)
            (with_players st reg)
            [(player_update (id p) (position p) (rotation p) n, reg)])
    as (st1 & tr1 & Hrun & Hd & Hi & Hr).
  { unfold handle_player_update. eapply runs_eq.
    - eapply runs_bind;
        [eapply runs_same; [reflexivity|apply drops_refl]|reflexivity|].
      intros ? ?. rewrite Hp.
      cbn [dict_get String.eqb Ascii.eqb Bool.eqb].
      do 2 runs_step.
      eapply runs_bind.
      { eapply runs_bind; [eapply runs_same; [reflexivity|done]|reflexivity|].
        intros ? ?. runs_leaf. }
      { reflexivity. }
      intros ? ?. runs_step. runs_leaf.
    - destruct st; reflexivity.
    - reflexivity. }
  exists st1, tr1. split; [exact Hrun|].
  split; [eapply drops_object; [exact Hd|apply players_get_set_eq]|].
  split; [exact Hd|]. split; [exact Hi|]. split.
  { intros Hrel. split; [|by apply Hr].
    destruct Hd as (_ & _ & _ & _ & _ & _ & E). destruct (E Hrel) as (-> & _).
    apply players_get_set_eq. }
  intros Hp1. split.
  - rewrite (handle_teleport_request_indexing G ws data st1 (set_layer n p)
               tl r c Hp1 Htl Hgrid).
    unfold maze_cell, GENERATED_MAZE_DATA. cbn [layer set_layer].
    rewrite py_get_outside; [done|]. rewrite Hlen.
    unfold NUM_MAZE_LAYERS in *. lia.
  - unfold handle_player_reached_end.
    rewrite (run_bind_silent _ _ st1 _ st1 eq_refl). rewrite Hp1.
    unfold mbind at 1. unfold lift at 1. cbn [position set_layer].
    rewrite Hgrid. cbv beta iota. cbn [layer set_layer].
    destruct (Z.eqb_spec n (NUM_MAZE_LAYERS - 1)) as [E|_].
    { unfold NUM_MAZE_LAYERS in *. lia. }
    unfold mbind, lift, print, emit. reflexivity.
Qed.

Lemma stored_layer_unvalidated_witness :
  let reg := players_set (PLAYERS far_server) 7%nat (set_layer 7 far_player) in
  ∃ st1 tr1,
    handle_player_update (fun _ => None) (fun _ => None) 7%nat
      [("layer"%string, JNum (Int 7))] far_server
    = (Ok tt, st1, tr1)
    ∧ object st1 7%nat = Some (set_layer 7 far_player)
    ∧ drops (with_players far_server reg) st1
    ∧ issues [(player_update (id far_player) (position far_player)
                 (rotation far_player) 7, reg)] tr1
    ∧ (reliable (NETWORK far_server) ->
       players_get (PLAYERS st1) 7%nat = Some (set_layer 7 far_player)
       ∧ tr1 = [Broadcast (player_update (id far_player) (position far_player)
                             (rotation far_player) 7) reg])
    ∧ (players_get (PLAYERS st1) 7%nat = Some (set_layer 7 far_player) ->
       handle_teleport_request demo_generator 7%nat (teleport_to 8) st1
       = (Raise IndexError, st1, [])
       ∧ handle_player_reached_end demo_generator 7%nat st1
         = (Ok tt, st1, [Print NotAtEnd])).
Proof.
  apply (stored_layer_unvalidated (fun _ => None) (fun _ => None)
           demo_generator 7%nat far_server far_player 7 (teleport_to 8) 8
           208 208); vm_compute; (reflexivity || (left; congruence)).
Defined.

(** C10 fails for [player_reached_end]: on the maze of the example, with
    a stored layer of 7 and a position outside the grid, indexing the
    maze data with the stored layer raises [IndexError], as the
    [teleport_request] of that player shows; its [player_reached_end]
    returns without an exception, the event rejected. *)
Lemma reached_end_reads_no_maze_data :
  let st1 := with_players far_server
               (players_set (PLAYERS far_server) 7%nat (set_layer 7 far_player)) in
  py_get (GENERATED_MAZE_DATA demo_generator) 7 = Raise IndexError
  ∧ handle_teleport_request demo_generator 7%nat (teleport_to 8) st1
    = (Raise IndexError, st1, [])
  ∧ handle_player_reached_end demo_generator 7%nat st1
    = (Ok tt, st1, [Print NotAtEnd]).
Proof. vm_compute. done. Qed.

(** *** Scores stay non-negative *)

Definition scores_nonneg (st : server) : Prop :=
  Forall (fun wp => 0 <= score wp.2) (PLAYERS st).

(** The invariant as a relation between two states. *)
Definition keeps_scores (st st' : server) : Prop :=
  scores_nonneg st -> scores_nonneg st'.

Lemma keeps_scores_refl s : keeps_scores s s.
Proof. by intros ?. Qed.
Lemma keeps_scores_trans s1 s2 s3 :
  keeps_scores s1 s2 -> keeps_scores s2 s3 -> keeps_scores s1 s3.
Proof. unfold keeps_scores. eauto. Qed.

Lemma keeps_scores_shrinks s s' : shrinks s s' -> keeps_scores s s'.
Proof.
  intros ([gone P] & _) H. unfold scores_nonneg in *. rewrite P.
  eapply Forall_sublist_of; [apply players_del_all_sublist|done].
Qed.

Lemma nonneg_get ps ws p :
  Forall (fun wp : websocket * player => 0 <= score wp.2) ps ->
  players_get ps ws = Some p -> 0 <= score p.
Proof.
  induction 1 as [|[ws' p'] ps Hp _ IH]; simpl; [done|].
  destruct (Nat.eqb ws' ws); [by intros [= <-]|done].
Qed.

Lemma nonneg_set ps ws p :
  Forall (fun wp : websocket * player => 0 <= score wp.2) ps ->
  0 <= score p ->
  Forall (fun wp : websocket * player => 0 <= score wp.2) (players_set ps ws p).
Proof.
  induction 1 as [|[ws' p'] ps Hp Hps IH]; simpl; intros H.
  - by repeat constructor.
  - destruct (Nat.eqb ws' ws); constructor; auto.
Qed.

Lemma scores_assign ws f st :
  (∀ p, 0 <= score p -> 0 <= score (f p)) ->
  after keeps_scores (assign ws f) st.
Proof.
  intros Hf.
  apply (after_assign _ keeps_scores_refl keeps_scores_shrinks).
  intros p Hp H. unfold scores_nonneg in *. simpl.
  apply nonneg_set; [done|]. apply Hf. by eapply nonneg_get.
Qed.

Lemma scores_put st st' :
  (scores_nonneg st -> scores_nonneg st') ->
  after keeps_scores (put st') st.
Proof. done. Qed.

Ltac scores_leaf :=
  first
    [ after_leaf keeps_scores_refl keeps_scores_shrinks
    | apply scores_assign; intros ? ?; cbn; lia ].

Ltac scores_walk :=
  repeat
    first
      [ scores_leaf
      | apply (after_bind keeps_scores keeps_scores_trans);
        [|intros ? ? ? ?; cbv beta]
      | match goal with
        | |- after _ (if ?b then _ else _) _ => destruct b
        | |- after _ (match ?x with _ => _ end) _ => destruct x
        | |- after _ (let '(_, _) := ?x in _) _ => destruct x
        end ].

Section Handlers.
Variable G : MazeGenerator.t.
Variable float_of_string : string -> option float.
Variable int_of_string : string -> option Z.

Lemma scores_get_random_open_position l st :
  after keeps_scores (get_random_open_position_on_layer G l) st.
Proof. unfold get_random_open_position_on_layer. scores_walk. Qed.

Lemma scores_respawn_player ws pid killer reset st :
  after keeps_scores (respawn_player G ws pid killer reset) st.
Proof.
  unfold respawn_player.
  apply (after_bind keeps_scores keeps_scores_trans); [scores_leaf|].
  intros _ st1 _ _.
  apply (after_bind keeps_scores keeps_scores_trans).
  { destruct (_ && _); scores_leaf. }
  intros _ st2 _ _.
  apply (after_bind keeps_scores keeps_scores_trans);
    [apply scores_get_random_open_position|].
  intros v st3 _ _. scores_walk.
Qed.

Lemma scores_register_player ws st :
  after keeps_scores (register_player G ws) st.
Proof.
  unfold register_player.
  apply (after_bind keeps_scores keeps_scores_trans); [scores_leaf|].
  intros a st1 tr1 [-> ->]%get_inv.
  apply (after_bind keeps_scores keeps_scores_trans); [by apply scores_put|].
  intros _ st1 _ _.
  apply (after_bind keeps_scores keeps_scores_trans); [scores_leaf|].
  intros n st2 _ _.
  apply (after_bind keeps_scores keeps_scores_trans);
    [apply scores_get_random_open_position|].
  intros v st3 _ _.
  apply (after_bind keeps_scores keeps_scores_trans); [scores_leaf|].
  intros a st4 tr4 [-> ->]%get_inv.
  apply (after_bind keeps_scores keeps_scores_trans).
  { apply scores_put. unfold scores_nonneg. simpl. intros H.
    by apply nonneg_set. }
  intros _ st5 _ _. scores_walk.
Qed.

Lemma scores_update_axis ws src axis read write st :
  (∀ n p, score (write n p) = score p) ->
  after keeps_scores (update_axis float_of_string ws src axis read write) st.
Proof.
  intros Hw. unfold update_axis.
  apply (after_bind keeps_scores keeps_scores_trans); [scores_leaf|].
  intros p st1 _ _.
  apply (after_bind keeps_scores keeps_scores_trans); [scores_leaf|].
  intros f st2 _ _. apply scores_assign. intros q Hq. by rewrite Hw.
Qed.

Lemma scores_handle_player_update ws data st :
  after keeps_scores
    (handle_player_update float_of_string int_of_string ws data) st.
Proof.
  unfold handle_player_update.
  apply (after_bind keeps_scores keeps_scores_trans); [scores_leaf|].
  intros [p|] st1 _ _; [|scores_leaf].
  apply (after_bind keeps_scores keeps_scores_trans).
  { destruct (dict_get data "position") as [pos|]; [|scores_leaf].
    destruct (is_dict pos); [|scores_leaf].
    repeat (apply (after_bind keeps_scores keeps_scores_trans);
            [by apply scores_update_axis|intros _ ? _ _]).
    by apply scores_update_axis. }
  intros _ st2 _ _.
  apply (after_bind keeps_scores keeps_scores_trans).
  { destruct (dict_get data "rotation") as [rot|]; [|scores_leaf].
    destruct (is_dict rot); [|scores_leaf].
    repeat (apply (after_bind keeps_scores keeps_scores_trans);
            [by apply scores_update_axis|intros _ ? _ _]).
    by apply scores_update_axis. }
  intros _ st3 _ _. scores_walk.
Qed.

Lemma scores_handle_bullet_fired ws data now st :
  after keeps_scores
    (handle_bullet_fired float_of_string int_of_string ws data now) st.
Proof.
  unfold handle_bullet_fired.
  apply (after_bind keeps_scores keeps_scores_trans); [scores_leaf|].
  intros [p|] st1 _ _; [|scores_leaf].
  apply (after_bind keeps_scores keeps_scores_trans); [scores_leaf|].
  intros a st2 tr2 [-> ->]%get_inv.
  apply (after_bind keeps_scores keeps_scores_trans); [by apply scores_put|].
  intros _ st3 _ _.
  apply (after_bind keeps_scores keeps_scores_trans); [scores_leaf|].
  intros sp st4 _ _.
  apply (after_bind keeps_scores keeps_scores_trans); [scores_leaf|].
  intros dir st5 _ _.
  apply (after_bind keeps_scores keeps_scores_trans); [scores_leaf|].
  intros l st6 _ _.
  apply (after_bind keeps_scores keeps_scores_trans); [scores_leaf|].
  intros a st7 tr7 [-> ->]%get_inv.
  apply (after_bind keeps_scores keeps_scores_trans); [by apply scores_put|].
  intros _ st8 _ _. scores_leaf.
Qed.

Lemma scores_handle_player_hit ws data st :
  after keeps_scores (handle_player_hit G ws data) st.
Proof.
  unfold handle_player_hit. cbv zeta.
  apply (after_bind keeps_scores keeps_scores_trans); [scores_leaf|].
  intros [sh|] st1 _ _; [|scores_leaf].
  destruct (_ && _); [|scores_leaf].
  apply (after_bind keeps_scores keeps_scores_trans); [scores_leaf|].
  intros st0 st2 _ _.
  destruct (find_target _ _) as [[tws tid]|]; [|scores_leaf].
  do 9 (apply (after_bind keeps_scores keeps_scores_trans);
        [scores_leaf|intros ? ? _ _]).
  destruct (_ <=? _); [|scores_leaf].
  apply (after_bind keeps_scores keeps_scores_trans);
    [apply scores_respawn_player|intros ? ? _ _].
  scores_walk.
Qed.

Lemma scores_handle_teleport_request ws data st :
  after keeps_scores (handle_teleport_request G ws data) st.
Proof.
  unfold handle_teleport_request.
  apply (after_bind keeps_scores keeps_scores_trans); [scores_leaf|].
  intros [p|] st1 _ _; [|scores_leaf].
  destruct (as_int _); [|scores_leaf].
  apply (after_bind keeps_scores keeps_scores_trans); [scores_leaf|].
  intros [r c] st2 _ _.
  apply (after_bind keeps_scores keeps_scores_trans); [scores_leaf|].
  intros ch st3 _ _.
  destruct (_ && _); [|scores_leaf].
  destruct (List.find _ _); [|scores_leaf].
  scores_walk.
Qed.

Lemma scores_handle_teleport_to_start ws st :
  after keeps_scores (handle_teleport_to_start G ws) st.
Proof.
  unfold handle_teleport_to_start.
  apply (after_bind keeps_scores keeps_scores_trans); [scores_leaf|].
  intros [p|] st1 _ _; [|scores_leaf].
  apply (after_bind keeps_scores keeps_scores_trans);
    [apply scores_get_random_open_position|].
  intros v st2 _ _. scores_walk.
Qed.

Lemma scores_handle_player_reached_end ws st :
  after keeps_scores (handle_player_reached_end G ws) st.
Proof.
  unfold handle_player_reached_end.
  apply (after_bind keeps_scores keeps_scores_trans); [scores_leaf|].
  intros [p|] st1 _ _; [|scores_leaf]. cbv zeta.
  apply (after_bind keeps_scores keeps_scores_trans); [scores_leaf|].
  intros [r c] st2 _ _.
  apply (after_bind keeps_scores keeps_scores_trans); [scores_leaf|].
  intros [|] st3 _ _; [|scores_leaf].
  apply (after_bind keeps_scores keeps_scores_trans); [scores_leaf|].
  intros _ st4 _ _. scores_leaf.
Qed.

Lemma scores_dispatch ws message now st :
  after keeps_scores
    (dispatch G float_of_string int_of_string ws message now) st.
Proof.
  unfold dispatch.
  apply (after_bind keeps_scores keeps_scores_trans); [scores_leaf|].
  intros data st1 _ _.
  apply (after_bind keeps_scores keeps_scores_trans); [scores_leaf|].
  intros ty st2 _ _. cbv zeta.
  destruct (eq_str ty "player_update"); [apply scores_handle_player_update|].
  destruct (eq_str ty "bullet_fired"); [apply scores_handle_bullet_fired|].
  destruct (eq_str ty "player_hit"); [apply scores_handle_player_hit|].
  destruct (eq_str ty "teleport_request");
    [apply scores_handle_teleport_request|].
  destruct (eq_str ty "teleport_to_start");
    [apply scores_handle_teleport_to_start|].
  destruct (eq_str ty "player_reached_end");
    [apply scores_handle_player_reached_end|].
  scores_leaf.
Qed.

Lemma scores_serve i st :
  after keeps_scores (serve G float_of_string int_of_string i) st.
Proof.
  destruct i as [ws|ws message now|ws player_id|ws]; simpl.
  - apply scores_register_player.
  - apply (after_bind keeps_scores keeps_scores_trans); [|intros; scores_leaf].
    apply (after_guarded _ keeps_scores_refl keeps_scores_trans
             keeps_scores_shrinks).
    apply scores_dispatch.
  - apply (after_bind keeps_scores keeps_scores_trans); [|intros; scores_leaf].
    apply (after_guarded _ keeps_scores_refl keeps_scores_trans
             keeps_scores_shrinks).
    apply scores_respawn_player.
  - scores_leaf.
Qed.

(** C7: after every sequence of connections, frames, ends of a sleep
    and disconnections, processed from the empty registry, whatever the
    transport does with the sends, the score of every player is at
    least 0. *)
Theorem scores_never_negative (inputs : list input) (g : rng) (n : net) :
  ∀ ws p,
    players_get
      (PLAYERS (run G float_of_string int_of_string inputs (initial g n)).1) ws
    = Some p ->
    0 <= score p.
Proof.
  assert (∀ st, scores_nonneg st ->
                scores_nonneg
                  (run G float_of_string int_of_string inputs st).1) as Hrun.
  { induction inputs as [|i inputs IH]; intros st Hst; simpl; [done|].
    pose proof (scores_serve i st Hst) as Hi.
    destruct (serve G float_of_string int_of_string i st) as [[r st1] tr1].
    simpl in Hi. specialize (IH st1 Hi).
    by destruct (run G float_of_string int_of_string inputs st1). }
  intros ws p Hp. eapply nonneg_get; [|exact Hp].
  apply Hrun. constructor.
Qed.

End Handlers.

(** *** Events that are rejected or that raise *)

(** Every player but the one of connection [ws] that is registered in
    the second state has there the record it had in the first. *)
Definition others_kept (ws : websocket) (st st' : server) : Prop :=
  ∀ ws' p', ws' ≠ ws ->
            players_get (PLAYERS st') ws' = Some p' ->
            players_get (PLAYERS st) ws' = Some p'.

Lemma others_kept_refl ws s : others_kept ws s s.
Proof. by intros ? ? ?. Qed.
Lemma others_kept_trans ws s1 s2 s3 :
  others_kept ws s1 s2 -> others_kept ws s2 s3 -> others_kept ws s1 s3.
Proof. intros H1 H2 ws' p' Hne H. apply H1; [done|]. by apply H2. Qed.

Lemma others_kept_shrinks ws s s' : shrinks s s' -> others_kept ws s s'.
Proof.
  intros ([gone P] & _) ws' p' _. rewrite P, players_get_del_all.
  by destruct (decide _).
Qed.

Lemma others_assign ws f st : after (others_kept ws) (assign ws f) st.
Proof.
  apply (after_assign _ (others_kept_refl ws) (others_kept_shrinks ws)).
  intros p Hp ws' p' Hne. simpl. by rewrite players_get_set_ne.
Qed.


Ltac others_leaf ws :=
  first
    [ after_leaf (others_kept_refl ws) (others_kept_shrinks ws)
    | apply others_assign ].

Ltac others_walk ws :=
  repeat
    first
      [ others_leaf ws
      | apply (after_bind (others_kept ws) (others_kept_trans ws));
        [|intros ? ? ? ?; cbv beta]
      | match goal with
        | |- after _ (if ?b then _ else _) _ => destruct b
        | |- after _ (match ?x with _ => _ end) _ => destruct x
        end ].

Lemma find_target_registered ps tj tws tid :
  find_target ps tj = Some (tws, tid) -> is_Some (players_get ps tws).
Proof.
  induction ps as [|[ws p] ps IH]; simpl; [done|].
  destruct (eq_str tj (id p)).
  - intros [= <- _]. rewrite Nat.eqb_refl. eauto.
  - intros H. destruct (Nat.eqb ws tws); eauto.
Qed.


Lemma lift_inv {A} (r : result A) st r' st' tr :
  lift r st = (r', st', tr) -> st' = st.
Proof. by intros [= _ <- _]. Qed.

Section Handlers.
Variable G : MazeGenerator.t.
Hypothesis HG : generated G.
Variable float_of_string : string -> option float.
Variable int_of_string : string -> option Z.

Lemma others_get_random_open_position ws l st :
  after (others_kept ws) (get_random_open_position_on_layer G l) st.
Proof. unfold get_random_open_position_on_layer. others_walk ws. Qed.

Lemma others_respawn_player ws pid killer reset st :
  after (others_kept ws) (respawn_player G ws pid killer reset) st.
Proof.
  unfold respawn_player.
  apply (after_bind _ (others_kept_trans ws)); [others_leaf ws|].
  intros _ st1 _ _.
  apply (after_bind _ (others_kept_trans ws)).
  { destruct (_ && _); others_leaf ws. }
  intros _ st2 _ _.
  apply (after_bind _ (others_kept_trans ws));
    [apply others_get_random_open_position|].
  intros v st3 _ _. others_walk ws.
Qed.











(** A hit without a usable or known target is dropped. *)
Lemma handle_player_hit_rejected ws data st :
  truthy (default JNull (dict_get data "target_id")) = false
  ∨ find_target (PLAYERS st) (default JNull (dict_get data "target_id")) = None ->
  ∃ d, handle_player_hit G ws data st = (Ok tt, st, [Print d])
       ∧ (d = InvalidPlayerHit ∨ d = TargetNotFound).
Proof.
  intros H. unfold handle_player_hit. cbv zeta.
  unfold mbind at 1. unfold lookup_player at 1. cbv beta iota.
  destruct (players_get (PLAYERS st) ws) as [sh|];
    [|exists InvalidPlayerHit; split; [reflexivity|by left]].
  destruct (truthy (default JNull (dict_get data "target_id"))) eqn:Ht;
    [|exists InvalidPlayerHit; split; [reflexivity|by left]].
  destruct H as [H|H]; [done|].
  destruct (negb (String.eqb (id sh) ""));
    [|exists InvalidPlayerHit; split; [reflexivity|by left]].
  cbn [andb].
  unfold mbind at 1. unfold get at 1. cbv beta iota. rewrite H.
  exists TargetNotFound. split; [reflexivity|by right].
Qed.



End Handlers.



(** Two players join and the second defeats the first with ten hits. *)
Definition demo_inputs : list input :=
  [Connect 7%nat; Connect 8%nat]
  ++ replicate 10 (Receive 8%nat (Decoded (JDict (hit_on "player_0"))) 0%float).

Lemma scores_never_negative_witness :
  ∃ p,
    players_get
      (PLAYERS (run demo_generator (fun _ => None) (fun _ => None)
                  demo_inputs (initial rng0 net0)).1) 7%nat
    = Some p
    ∧ health p = 100 ∧ 0 <= score p.
Proof.
  eexists. split; [vm_compute; reflexivity|]. split; [reflexivity|].
  eapply (scores_never_negative demo_generator (fun _ => None)
            (fun _ => None) demo_inputs rng0 net0 7%nat).
  vm_compute. reflexivity.
Defined.

Example demo_inputs_scores :
  (fun wp => (wp.1, health wp.2, score wp.2))
    <$> PLAYERS (run demo_generator (fun _ => None) (fun _ => None)
                   demo_inputs (initial rng0 net0)).1
  = [(7%nat, 100, 0); (8%nat, 100, 600)].
Proof. vm_compute. reflexivity. Qed.

(** *** Who is registered *)

(** The connections of the registry with the ids of their players, in
    the order of the dictionary. *)
Definition roster (st : server) : list (websocket * string) :=
  (fun wp => (wp.1, id wp.2)) <$> PLAYERS st.

(** Bullets [bs] carry the ids of an increasing sequence of numbers from
    [n] on, all below [n']. *)
Inductive numbered : Z -> list bullet -> Z -> Prop :=
| numbered_nil n n' : n <= n' -> numbered n [] n'
| numbered_cons n k b bs n' :
    n <= k -> bullet_id b = "bullet_" +:+ pretty k ->
    numbered (k + 1) bs n' -> numbered n (b :: bs) n'.

Lemma numbered_le n bs n' : numbered n bs n' -> n <= n'.
Proof. induction 1; lia. Qed.

Lemma numbered_weaken n0 n bs n' : n0 <= n -> numbered n bs n' -> numbered n0 bs n'.
Proof.
  intros Hle H. destruct H; [constructor; lia|].
  econstructor; [|done..]. lia.
Qed.

Lemma numbered_app n bs n1 bs' n2 :
  numbered n bs n1 -> numbered n1 bs' n2 -> numbered n (bs ++ bs') n2.
Proof.
  induction 1 as [n n1 Hle|n k b bs n1 Hle Hid _ IH]; intros H2; simpl.
  - by eapply numbered_weaken.
  - econstructor; eauto.
Qed.

(** What a frame can change: connections may leave the roster (those
    to which a send has failed), the counter of player ids stays, and
    bullets are only appended, with fresh ids. *)
Definition steady (st st' : server) : Prop :=
  roster st' `sublist_of` roster st
  ∧ NEXT_PLAYER_ID st' = NEXT_PLAYER_ID st
  ∧ ∃ new, BULLETS st' = BULLETS st ++ new
           ∧ numbered (NEXT_BULLET_ID st) new (NEXT_BULLET_ID st').

Lemma steady_refl s : steady s s.
Proof.
  split; [done|]. split; [done|]. exists []. split; [by rewrite app_nil_r|].
  by constructor.
Qed.

Lemma steady_trans s1 s2 s3 : steady s1 s2 -> steady s2 s3 -> steady s1 s3.
Proof.
  intros (R1 & N1 & new1 & B1 & F1) (R2 & N2 & new2 & B2 & F2).
  split; [by etrans|]. split; [congruence|]. exists (new1 ++ new2).
  split; [by rewrite B2, B1, app_assoc|]. by eapply numbered_app.
Qed.

Lemma steady_shrinks s s' : shrinks s s' -> steady s s'.
Proof.
  intros ([gone P] & B & N & M). split.
  { unfold roster. rewrite P. apply fmap_sublist, players_del_all_sublist. }
  split; [done|]. exists []. split; [by rewrite app_nil_r|].
  constructor. lia.
Qed.

Lemma roster_set ps ws p q :
  players_get ps ws = Some p -> id q = id p ->
  (fun wp : websocket * player => (wp.1, id wp.2)) <$> players_set ps ws q
  = (fun wp => (wp.1, id wp.2)) <$> ps.
Proof.
  intros Hp Hid. induction ps as [|[ws' p'] ps IH]; [done|].
  cbn [players_get players_set] in *.
  destruct (Nat.eqb_spec ws' ws) as [->|Hne]; rewrite !fmap_cons; cbn [fst snd].
  - injection Hp as ->. by rewrite Hid.
  - by rewrite IH.
Qed.

Lemma steady_assign ws f st :
  (∀ p, id (f p) = id p) -> after steady (assign ws f) st.
Proof.
  intros Hf. apply (after_assign _ steady_refl steady_shrinks).
  intros p Hp. split.
  { unfold roster. simpl. by rewrite (roster_set _ _ p). }
  split; [done|]. exists [].
  split; [by rewrite app_nil_r|]. by constructor.
Qed.

Ltac steady_leaf :=
  first
    [ after_leaf steady_refl steady_shrinks
    | apply steady_assign; intros ?; reflexivity ].

Ltac steady_walk :=
  repeat
    first
      [ steady_leaf
      | apply (after_bind steady steady_trans);
        [|intros ? ? ? ?; cbv beta]
      | match goal with
        | |- after _ (if ?b then _ else _) _ => destruct b
        | |- after _ (match ?x with _ => _ end) _ => destruct x
        | |- after _ (let '(_, _) := ?x in _) _ => destruct x
        end ].

Section Handlers.
Variable G : MazeGenerator.t.
Variable float_of_string : string -> option float.
Variable int_of_string : string -> option Z.

Lemma steady_get_random_open_position l st :
  after steady (get_random_open_position_on_layer G l) st.
Proof. unfold get_random_open_position_on_layer. steady_walk. Qed.

Lemma steady_respawn_player ws pid killer reset st :
  after steady (respawn_player G ws pid killer reset) st.
Proof.
  unfold respawn_player.
  apply (after_bind steady steady_trans); [steady_leaf|].
  intros _ st1 _ _.
  apply (after_bind steady steady_trans).
  { destruct (_ && _); steady_leaf. }
  intros _ st2 _ _.
  apply (after_bind steady steady_trans);
    [apply steady_get_random_open_position|].
  intros v st3 _ _. steady_walk.
Qed.

Lemma steady_update_axis ws src axis read write st :
  (∀ n p, id (write n p) = id p) ->
  after steady (update_axis float_of_string ws src axis read write) st.
Proof.
  intros Hw. unfold update_axis.
  apply (after_bind steady steady_trans); [steady_leaf|].
  intros p st1 _ _.
  apply (after_bind steady steady_trans); [steady_leaf|].
  intros f st2 _ _. apply steady_assign. intros q. by rewrite Hw.
Qed.

Lemma steady_handle_player_update ws data st :
  after steady (handle_player_update float_of_string int_of_string ws data) st.
Proof.
  unfold handle_player_update.
  apply (after_bind steady steady_trans); [steady_leaf|].
  intros [p|] st1 _ _; [|steady_leaf].
  apply (after_bind steady steady_trans).
  { destruct (dict_get data "position") as [pos|]; [|steady_leaf].
    destruct (is_dict pos); [|steady_leaf].
    repeat (apply (after_bind steady steady_trans);
            [by apply steady_update_axis|intros _ ? _ _]).
    by apply steady_update_axis. }
  intros _ st2 _ _.
  apply (after_bind steady steady_trans).
  { destruct (dict_get data "rotation") as [rot|]; [|steady_leaf].
    destruct (is_dict rot); [|steady_leaf].
    repeat (apply (after_bind steady steady_trans);
            [by apply steady_update_axis|intros _ ? _ _]).
    by apply steady_update_axis. }
  intros _ st3 _ _. steady_walk.
Qed.

Lemma steady_handle_bullet_fired ws data now st :
  after steady
    (handle_bullet_fired float_of_string int_of_string ws data now) st.
Proof.
  unfold handle_bullet_fired.
  apply (after_bind steady steady_trans); [steady_leaf|].
  intros [p|] st1 tr1 [= Hp <- _]; [|steady_leaf].
  unfold after.
  rewrite (run_bind_silent _ _ st _ st eq_refl).
  rewrite (run_bind_silent _ _ st _ _ eq_refl).
  set (st1 := with_next_bullet_id st (NEXT_BULLET_ID st + 1)).
  assert (Hbump : steady st st1).
  { split; [done|]. split; [done|]. exists []. split; [by rewrite app_nil_r|].
    constructor. simpl. lia. }
  destruct (float_vec _ (subscript (JDict data) "start_position")) as [sp|];
    [|by rewrite (run_bind_raise _ _ st1 _ st1 [] eq_refl)].
  rewrite (run_bind_silent _ _ st1 _ st1 eq_refl).
  destruct (float_vec _ (subscript (JDict data) "direction")) as [dir|];
    [|by rewrite (run_bind_raise _ _ st1 _ st1 [] eq_refl)].
  rewrite (run_bind_silent _ _ st1 _ st1 eq_refl).
  destruct (rbind _ _) as [l|];
    [|by rewrite (run_bind_raise _ _ st1 _ st1 [] eq_refl)].
  rewrite (run_bind_silent _ _ st1 _ st1 eq_refl).
  rewrite (run_bind_silent _ _ st1 _ st1 eq_refl).
  rewrite (run_bind_silent _ _ st1 _ _ eq_refl).
  eapply steady_trans; [|apply (after_broadcast _ steady_shrinks)].
  split; [done|]. split; [done|]. eexists. split; [done|].
  apply (numbered_cons _ (NEXT_BULLET_ID st)); [lia|reflexivity|].
  constructor. simpl. lia.
Qed.

Lemma steady_handle_player_hit ws data st :
  after steady (handle_player_hit G ws data) st.
Proof.
  unfold handle_player_hit. cbv zeta.
  apply (after_bind steady steady_trans); [steady_leaf|].
  intros [sh|] st1 _ _; [|steady_leaf].
  destruct (_ && _); [|steady_leaf].
  apply (after_bind steady steady_trans); [steady_leaf|].
  intros st0 st2 _ _.
  destruct (find_target _ _) as [[tws tid]|]; [|steady_leaf].
  do 9 (apply (after_bind steady steady_trans);
        [steady_leaf|intros ? ? _ _]).
  destruct (_ <=? _); [|steady_leaf].
  apply (after_bind steady steady_trans);
    [apply steady_respawn_player|intros ? ? _ _].
  steady_walk.
Qed.

Lemma steady_handle_teleport_request ws data st :
  after steady (handle_teleport_request G ws data) st.
Proof.
  unfold handle_teleport_request.
  apply (after_bind steady steady_trans); [steady_leaf|].
  intros [p|] st1 _ _; [|steady_leaf].
  destruct (as_int _); [|steady_leaf].
  apply (after_bind steady steady_trans); [steady_leaf|].
  intros [r c] st2 _ _.
  apply (after_bind steady steady_trans); [steady_leaf|].
  intros ch st3 _ _.
  destruct (_ && _); [|steady_leaf].
  destruct (List.find _ _); [|steady_leaf].
  steady_walk.
Qed.

Lemma steady_handle_teleport_to_start ws st :
  after steady (handle_teleport_to_start G ws) st.
Proof.
  unfold handle_teleport_to_start.
  apply (after_bind steady steady_trans); [steady_leaf|].
  intros [p|] st1 _ _; [|steady_leaf].
  apply (after_bind steady steady_trans);
    [apply steady_get_random_open_position|].
  intros v st2 _ _. steady_walk.
Qed.

Lemma steady_handle_player_reached_end ws st :
  after steady (handle_player_reached_end G ws) st.
Proof.
  unfold handle_player_reached_end.
  apply (after_bind steady steady_trans); [steady_leaf|].
  intros [p|] st1 _ _; [|steady_leaf]. cbv zeta.
  apply (after_bind steady steady_trans); [steady_leaf|].
  intros [r c] st2 _ _.
  apply (after_bind steady steady_trans); [steady_leaf|].
  intros [|] st3 _ _; [|steady_leaf].
  apply (after_bind steady steady_trans); [steady_leaf|].
  intros _ st4 _ _. steady_leaf.
Qed.

Lemma steady_dispatch ws message now st :
  after steady (dispatch G float_of_string int_of_string ws message now) st.
Proof.
  unfold dispatch.
  apply (after_bind steady steady_trans); [steady_leaf|].
  intros data st1 _ _.
  apply (after_bind steady steady_trans); [steady_leaf|].
  intros ty st2 _ _. cbv zeta.
  destruct (eq_str ty "player_update"); [apply steady_handle_player_update|].
  destruct (eq_str ty "bullet_fired"); [apply steady_handle_bullet_fired|].
  destruct (eq_str ty "player_hit"); [apply steady_handle_player_hit|].
  destruct (eq_str ty "teleport_request");
    [apply steady_handle_teleport_request|].
  destruct (eq_str ty "teleport_to_start");
    [apply steady_handle_teleport_to_start|].
  destruct (eq_str ty "player_reached_end");
    [apply steady_handle_player_reached_end|].
  steady_leaf.
Qed.

End Handlers.

(** *** The dictionary of players *)

Lemma players_set_keys ps ws p :
  NoDup ps.*1 -> NoDup (players_set ps ws p).*1.
Proof.
  induction ps as [|[ws' p'] ps IH]; csimpl.
  { intros _. apply NoDup_singleton. }
  intros [Hnin Hnd]%NoDup_cons.
  destruct (Nat.eqb_spec ws' ws) as [->|Hne]; csimpl.
  - by apply NoDup_cons.
  - apply NoDup_cons. split; [|by apply IH].
    intros ([ws2 p2] & E & [Hin| [= -> ->]]%elem_of_players_set)%list_elem_of_fmap;
      simpl in E; subst; [|done].
    apply Hnin. apply list_elem_of_fmap. by exists (ws2, p2).
Qed.

Lemma players_set_ids ps ws p :
  NoDup ((fun wp => id wp.2) <$> ps) ->
  (∀ wp, wp ∈ ps -> id wp.2 ≠ id p) ->
  NoDup ((fun wp : websocket * player => id wp.2) <$> players_set ps ws p).
Proof.
  induction ps as [|[ws' p'] ps IH]; csimpl.
  { intros _ _. apply NoDup_singleton. }
  intros [Hnin Hnd]%NoDup_cons Hfresh.
  destruct (Nat.eqb_spec ws' ws) as [->|Hne]; csimpl.
  - apply NoDup_cons. split; [|done].
    intros ([ws2 p2] & E & Hin)%list_elem_of_fmap. simpl in E.
    apply (Hfresh (ws2, p2)); [by right|done].
  - apply NoDup_cons. split.
    + intros ([ws2 p2] & E & [Hin| [= -> ->]]%elem_of_players_set)%list_elem_of_fmap;
        simpl in E.
      * apply Hnin. apply list_elem_of_fmap. by exists (ws2, p2).
      * apply (Hfresh (ws', p')); [left|done].
    + apply IH; [done|]. intros wp Hwp. apply Hfresh. by right.
Qed.

(** *** [register_player] on any maze *)

Section AnyMaze.
Variable G : MazeGenerator.t.
Variable float_of_string : string -> option float.
Variable int_of_string : string -> option Z.

(** [get_random_open_position_on_layer] changes the random source only. *)
Lemma get_random_open_position_state l st :
  ∃ r g tr, get_random_open_position_on_layer G l st = (r, with_random st g, tr).
Proof.
  assert (Hsame : ∀ s : server, s = with_random s (RANDOM s)) by (by intros []).
  unfold get_random_open_position_on_layer.
  destruct (_ || _).
  { unfold mbind, print, emit, lift. eexists _, _, _. by rewrite (Hsame st) at 1. }
  unfold mbind at 1. unfold lift at 1.
  destruct (py_get _ _) as [m|]; [|eexists _, _, _; by rewrite (Hsame st) at 1].
  unfold mbind at 1. unfold lift at 1.
  destruct (open_spots _ _ _) as [[|s spots]|];
    [| |eexists _, _, _; by rewrite (Hsame st) at 1].
  { unfold mbind, print, emit, lift. eexists _, _, _. by rewrite (Hsame st) at 1. }
  unfold mbind at 1. unfold random at 1.
  destruct (choice _ _) as [[[sr sc] g]|];
    [|eexists _, _, _; by rewrite (Hsame st) at 1].
  unfold lift. eexists _, _, _. done.
Qed.

(** The state [mbind m k] leaves satisfies [P] when the state left by
    [m] does, if [m] raises, and the state left by [k] does, if not. *)
Lemma state_bind {A B} (P : server -> Prop) (m : M A) (k : A -> M B) st :
  (∀ e st1 tr1, m st = (Raise e, st1, tr1) -> P st1) ->
  (∀ a st1 tr1, m st = (Ok a, st1, tr1) -> P (k a st1).1.2) ->
  P (mbind m k st).1.2.
Proof.
  intros Hraise Hok. unfold mbind.
  destruct (m st) as [[[a|e] st1] tr1]; simpl.
  - specialize (Hok a st1 tr1 eq_refl). by destruct (k a st1) as [[? ?] ?].
  - by apply (Hraise e st1 tr1).
Qed.

(** The registry and the counters after [register_player], whether it
    returns or raises: the counter of player ids has advanced, and the
    registry is as it was (when the function raised before the
    assignment to [PLAYERS]) or has the new player, less the connections
    to which a send of the broadcast failed. *)
Definition joined (ws : websocket) (st st' : server) : Prop :=
  NEXT_PLAYER_ID st' = NEXT_PLAYER_ID st + 1
  ∧ BULLETS st' = BULLETS st ∧ NEXT_BULLET_ID st' = NEXT_BULLET_ID st
  ∧ (PLAYERS st' = PLAYERS st
     ∨ ∃ p gone,
         id p = "player_" +:+ pretty (NEXT_PLAYER_ID st)
         ∧ health p = MAX_HEALTH ∧ score p = 0 ∧ layer p = 0
         ∧ PLAYERS st'
           = players_del_all (players_set (PLAYERS st) ws p) gone).

Lemma register_player_state ws st :
  joined ws st (register_player G ws st).1.2.
Proof.
  unfold register_player.
  apply state_bind; [done|]. intros a ? ? [-> ->]%get_inv.
  apply state_bind; [done|]. intros [] ? ? [= <- _].
  set (st1 := with_next_player_id st (NEXT_PLAYER_ID st + 1)).
  assert (Hbump : ∀ g, joined ws st (with_random st1 g)).
  { intros g. split; [done|]. split; [done|]. split; [done|]. by left. }
  assert (Hset : ∀ s p gone,
            id p = "player_" +:+ pretty (NEXT_PLAYER_ID st) ->
            health p = MAX_HEALTH -> score p = 0 -> layer p = 0 ->
            NEXT_PLAYER_ID s = NEXT_PLAYER_ID st + 1 ->
            BULLETS s = BULLETS st -> NEXT_BULLET_ID s = NEXT_BULLET_ID st ->
            PLAYERS s = players_del_all (players_set (PLAYERS st) ws p) gone ->
            joined ws st s).
  { intros s p gone ? ? ? ? ? ? ? ?. split; [done|]. split; [done|].
    split; [done|]. right. by exists p, gone. }
  apply state_bind.
  { intros e st2 tr2. unfold random.
    destruct (randint _ _ _) as [[? ?]|]; [done|]. intros [= _ <- _].
    split; [done|]. split; [done|]. split; [done|]. by left. }
  intros n ? ?. unfold random.
  destruct (randint _ _ _) as [[? g1]|]; [|done]. intros [= _ <- _].
  destruct (get_random_open_position_state 0 (with_random st1 g1))
    as (r & g2 & tr & Hpos).
  apply state_bind.
  { intros e st3 tr3. rewrite Hpos. intros [= _ <- _]. apply Hbump. }
  intros v ? ?. rewrite Hpos. intros [= _ <- _].
  apply state_bind; [done|]. intros a ? ? [-> ->]%get_inv.
  apply state_bind; [done|]. intros [] ? ? [= <- _].
  apply state_bind.
  { intros e ? ? ->%lift_inv. eapply (Hset _ _ []); [..|reflexivity]; done. }
  intros rc ? ? ->%lift_inv.
  apply state_bind; [done|]. intros a ? ? [-> ->]%get_inv.
  apply state_bind.
  { intros e ? ? ->%lift_inv. eapply (Hset _ _ []); [..|reflexivity]; done. }
  intros vE ? ? ->%lift_inv.
  apply state_bind.
  { intros e s ? Hsend. unfold send, mbind, send_outcome in Hsend.
    destruct (outcomes _ _); simpl in Hsend; [done| |];
      injection Hsend as _ <- _;
      (eapply (Hset _ _ []); [..|reflexivity]; done). }
  intros [] s ? Hsend.
  assert (PLAYERS s = players_set (PLAYERS st) ws
                        {| id := "player_" +:+ pretty (NEXT_PLAYER_ID st);
                           position := v; rotation := zero3; layer := 0;
                           health := MAX_HEALTH; score := 0;
                           color := color_code n |}
          ∧ NEXT_PLAYER_ID s = NEXT_PLAYER_ID st + 1
          ∧ BULLETS s = BULLETS st
          ∧ NEXT_BULLET_ID s = NEXT_BULLET_ID st) as (Hps & Hn & Hb & Hnb).
  { unfold send, mbind, send_outcome in Hsend.
    destruct (outcomes _ _); simpl in Hsend; [|done..].
    injection Hsend as <- _. done. }
  match goal with
  | |- joined _ _ (broadcast ?m s).1.2 =>
      destruct (broadcast_spec m s) as (s' & noise & -> & Hd & _)
  end.
  destruct (drops_shrinks _ _ Hd) as ([gone P] & B & N & M). simpl.
  eapply (Hset _ _ gone); [..|by rewrite P, Hps]; (done || congruence).
Qed.

End AnyMaze.

(** *** Identifiers *)

Lemma append_inj (s a b : string) : s +:+ a = s +:+ b -> a = b.
Proof. induction s as [|ch s IH]; simpl; [done|]. intros [= H]. by apply IH. Qed.

Lemma numbered_ids n bs n' :
  numbered n bs n' ->
  Forall (fun b => ∃ k, bullet_id b = "bullet_" +:+ pretty k ∧ n <= k < n') bs
  ∧ NoDup (bullet_id <$> bs)
  ∧ n + Z.of_nat (length bs) <= n'.
Proof.
  induction 1 as [n n' Hle|n k b bs n' Hle Hid Hrest (IH1 & IH2 & IH3)]; csimpl.
  { split; [done|]. split; [constructor|lia]. }
  pose proof (numbered_le _ _ _ Hrest) as Hk.
  split; [|split; [|lia]].
  - constructor; [exists k; split; [done|lia]|].
    eapply Forall_impl; [exact IH1|]. intros b' (k' & ? & ?). exists k'.
    split; [done|lia].
  - apply NoDup_cons. split; [|done].
    intros (b' & E & Hin)%list_elem_of_fmap.
    eapply Forall_forall in IH1 as (k' & Hid' & Hk'); [|exact Hin].
    rewrite Hid, Hid' in E. apply append_inj, (inj pretty) in E. lia.
Qed.

(** The invariant of the registry and of the bullets: a connection is
    registered once, ids are pairwise distinct and were handed out by the
    counters. *)
Definition wf (st : server) : Prop :=
  NoDup (roster st).*1
  ∧ NoDup (roster st).*2
  ∧ Forall (fun wi => ∃ k, wi.2 = "player_" +:+ pretty k
                           ∧ 0 <= k < NEXT_PLAYER_ID st) (roster st)
  ∧ 0 <= NEXT_PLAYER_ID st
  ∧ numbered 0 (BULLETS st) (NEXT_BULLET_ID st).

Lemma roster_keys st : (roster st).*1 = (PLAYERS st).*1.
Proof. unfold roster. by rewrite <- list_fmap_compose. Qed.

Lemma roster_ids st : (roster st).*2 = (fun wp => id wp.2) <$> PLAYERS st.
Proof. unfold roster. by rewrite <- list_fmap_compose. Qed.

Lemma wf_initial g n : wf (initial g n).
Proof.
  unfold wf, roster. simpl. repeat split; try constructor; done.
Qed.

(** Connections leaving the roster keep the invariant. *)
Lemma wf_sublist st st' :
  roster st' `sublist_of` roster st ->
  NEXT_PLAYER_ID st' = NEXT_PLAYER_ID st ->
  numbered 0 (BULLETS st') (NEXT_BULLET_ID st') ->
  wf st -> wf st'.
Proof.
  intros Hsub Hn Hb (H1 & H2 & H3 & H4 & H5). unfold wf. rewrite Hn.
  split; [eapply sublist_NoDup; [exact H1|by apply fmap_sublist]|].
  split; [eapply sublist_NoDup; [exact H2|by apply fmap_sublist]|].
  split; [by eapply Forall_sublist_of|done].
Qed.

Lemma wf_steady st st' : steady st st' -> wf st -> wf st'.
Proof.
  intros (Hr & Hn & new & Hb & Hnew) Hwf.
  apply (wf_sublist st); [done..| |done].
  rewrite Hb. eapply numbered_app; [|done]. by destruct Hwf as (_ & _ & _ & _ & ?).
Qed.

Lemma wf_joined ws st st' : joined ws st st' -> wf st -> wf st'.
Proof.
  intros (Hn & Hb & Hnb & Hps) (H1 & H2 & H3 & H4 & H5).
  assert (Hold : Forall (fun wi => ∃ k, wi.2 = "player_" +:+ pretty k
                                        ∧ 0 <= k < NEXT_PLAYER_ID st')
                   (roster st)).
  { eapply Forall_impl; [exact H3|]. intros wi (k & ? & ?). exists k.
    split; [done|lia]. }
  destruct Hps as [Hps|(p & gone & Hid & _ & _ & _ & Hps)].
  { unfold wf. rewrite Hb, Hnb. unfold roster in *. rewrite Hps.
    repeat (split; [done|]). split; [lia|done]. }
  (* the state with the new player, before any departure *)
  set (s := with_next_player_id
              (with_players st (players_set (PLAYERS st) ws p))
              (NEXT_PLAYER_ID st + 1)).
  assert (wf s) as Hs.
  { unfold wf. rewrite roster_keys, roster_ids in *.
    cbn [s PLAYERS BULLETS NEXT_PLAYER_ID NEXT_BULLET_ID with_players
         with_next_player_id].
    split; [by apply players_set_keys|]. split.
    { apply players_set_ids; [done|]. intros wp Hwp E.
      eapply Forall_forall in H3 as (k & Hk & Hlt).
      2:{ unfold roster. apply list_elem_of_fmap. by exists wp. }
      simpl in Hk. rewrite E, Hid in Hk.
      apply append_inj, (inj pretty) in Hk. lia. }
    split; [|split; [lia|done]].
    unfold roster. simpl. apply Forall_fmap, Forall_forall.
    intros wp [Hwp| ->]%elem_of_players_set; simpl.
    - eapply Forall_forall in H3 as (k & Hk & Hlt).
      2:{ unfold roster. apply list_elem_of_fmap. by exists wp. }
      exists k. split; [done|lia].
    - exists (NEXT_PLAYER_ID st). split; [done|lia]. }
  apply (wf_sublist s); [| |by rewrite Hb, Hnb|done].
  - unfold roster. rewrite Hps. simpl.
    apply fmap_sublist, players_del_all_sublist.
  - done.
Qed.

Section Runs.
Variable G : MazeGenerator.t.
Variable float_of_string : string -> option float.
Variable int_of_string : string -> option Z.

Local Abbreviation serve' := (serve G float_of_string int_of_string).
Local Abbreviation run' := (run G float_of_string int_of_string).

(** What one input does to the invariant, to the counter of player ids
    and to the bullets. *)
Definition is_connect (i : input) : bool :=
  match i with Connect _ => true | _ => false end.

Lemma steady_serve i st :
  is_connect i = false -> steady st (serve' i st).1.2.
Proof.
  destruct i as [ws|ws message now|ws player_id|ws]; [done|..]; intros _;
    simpl.
  - apply (after_bind steady steady_trans); [|intros; steady_leaf].
    apply (after_guarded _ steady_refl steady_trans steady_shrinks).
    apply steady_dispatch.
  - apply (after_bind steady steady_trans); [|intros; steady_leaf].
    apply (after_guarded _ steady_refl steady_trans steady_shrinks).
    apply steady_respawn_player.
  - apply (after_unregister_player _ steady_shrinks).
Qed.

Lemma serve_state i st :
  let st' := (serve' i st).1.2 in
  (wf st -> wf st')
  ∧ NEXT_PLAYER_ID st' = NEXT_PLAYER_ID st + Z.b2z (is_connect i)
  ∧ BULLETS st `prefix_of` BULLETS st'.
Proof.
  destruct (is_connect i) eqn:Hi.
  - destruct i as [ws| | |]; try done. simpl.
    pose proof (register_player_state G ws st) as Hj.
    split; [by apply (wf_joined ws)|].
    destruct Hj as (Hn & Hb & _). rewrite Hb. split; [lia|done].
  - pose proof (steady_serve i st Hi) as Hs. cbv zeta.
    split; [by apply wf_steady|].
    destruct Hs as (_ & Hn & new & Hb & _). rewrite Hn, Hb.
    split; [simpl; lia|by apply prefix_app_r].
Qed.

Lemma run_cons i inputs st :
  (run' (i :: inputs) st).1 = (run' inputs (serve' i st).1.2).1.
Proof.
  simpl. destruct (serve' i st) as [[r st1] tr1]. simpl.
  by destruct (run' inputs st1).
Qed.

Lemma run_app inputs1 inputs2 st :
  (run' (inputs1 ++ inputs2) st).1 = (run' inputs2 (run' inputs1 st).1).1.
Proof.
  revert st. induction inputs1 as [|i inputs1 IH]; intros st; [done|].
  rewrite <- app_comm_cons, !run_cons. apply IH.
Qed.

Lemma run_state inputs st :
  let st' := (run' inputs st).1 in
  (wf st -> wf st')
  ∧ NEXT_PLAYER_ID st'
    = NEXT_PLAYER_ID st + Z.of_nat (length (filter (fun i => is_connect i = true) inputs))
  ∧ BULLETS st `prefix_of` BULLETS st'.
Proof.
  revert st. induction inputs as [|i inputs IH]; intros st.
  { simpl. split; [done|]. split; [lia|done]. }
  cbv zeta. rewrite run_cons.
  destruct (serve_state i st) as (W1 & N1 & B1).
  destruct (IH (serve' i st).1.2) as (W2 & N2 & B2).
  split; [by intros ?%W1%W2|]. split; [|by etrans].
  rewrite N2, N1. destruct i; cbn [is_connect Z.b2z].
  - rewrite filter_cons_True by done. cbn [length]. lia.
  - rewrite filter_cons_False by done. lia.
  - rewrite filter_cons_False by done. lia.
  - rewrite filter_cons_False by done. lia.
Qed.

(** X9: after any sequence of inputs, whatever the transport does with
    the sends, the ids of the registered players are pairwise distinct;
    each is "player_k" for a [k] below the counter, and the counter is
    the number of connections accepted so far. *)
Theorem player_ids_unique (inputs : list input) (g : rng) (n : net) :
  let st := (run' inputs (initial g n)).1 in
  NEXT_PLAYER_ID st
  = Z.of_nat (length (filter (fun i => is_connect i = true) inputs))
  ∧ ∀ ws p,
      players_get (PLAYERS st) ws = Some p ->
      (∃ k, id p = "player_" +:+ pretty k ∧ 0 <= k < NEXT_PLAYER_ID st)
      ∧ ∀ ws' p', players_get (PLAYERS st) ws' = Some p' ->
                  id p' = id p -> ws' = ws.
Proof.
  destruct (run_state inputs (initial g n)) as (Hwf & Hn & _).
  specialize (Hwf (wf_initial g n)). cbv zeta. split; [by rewrite Hn|].
  destruct Hwf as (H1 & H2 & H3 & _).
  intros ws p Hp%players_get_elem. split.
  - eapply Forall_forall in H3 as Hk.
    2:{ unfold roster. apply list_elem_of_fmap. by exists (ws, p). }
    done.
  - intros ws' p' Hp'%players_get_elem Hid.
    rewrite roster_ids in H2.
    apply list_elem_of_lookup in Hp as [i Hi].
    apply list_elem_of_lookup in Hp' as [j Hj].
    assert (i = j) as ->; [|by simplify_eq].
    eapply NoDup_lookup; [exact H2|..].
    + by rewrite list_lookup_fmap, Hi.
    + rewrite list_lookup_fmap, Hj. simpl. by rewrite Hid.
Qed.

(** X10: bullets are never removed, and after any sequence of inputs,
    whatever the transport does with the sends, the ids of the bullets
    are pairwise distinct and there are no more bullets than ids handed
    out. *)
Theorem bullet_ids_unique (inputs more : list input) (g : rng) (n : net) :
  let st := (run' inputs (initial g n)).1 in
  let st' := (run' (inputs ++ more) (initial g n)).1 in
  BULLETS st `prefix_of` BULLETS st'
  ∧ NoDup (bullet_id <$> BULLETS st')
  ∧ Z.of_nat (length (BULLETS st')) <= NEXT_BULLET_ID st'.
Proof.
  cbv zeta. rewrite run_app. split.
  { apply run_state. }
  rewrite <- run_app.
  destruct (run_state (inputs ++ more) (initial g n)) as (Hwf & _).
  destruct (Hwf (wf_initial g n)) as (_ & _ & _ & _ & Hb).
  apply numbered_ids in Hb as (_ & ? & ?). split; [done|lia].
Qed.

End Runs.

Lemma player_ids_unique_witness :
  let st := (run demo_generator (fun _ => None) (fun _ => None)
               demo_inputs (initial rng0 net0)).1 in
  ∃ p,
    players_get (PLAYERS st) 8%nat = Some p
    ∧ id p = "player_1"%string
    ∧ (∃ k, id p = "player_" +:+ pretty k ∧ 0 <= k < NEXT_PLAYER_ID st)
    ∧ ∀ ws' p', players_get (PLAYERS st) ws' = Some p' ->
                id p' = id p -> ws' = 8%nat.
Proof.
  cbv zeta. eexists. split; [vm_compute; reflexivity|]. split; [reflexivity|].
  destruct (player_ids_unique demo_generator (fun _ => None) (fun _ => None)
              demo_inputs rng0 net0) as [_ H].
  apply (H 8%nat). vm_compute. reflexivity.
Defined.

(** *** The start and the end of the server's maze *)

Lemma generated_marks (G : MazeGenerator.t) :
  generated G ->
  (∃ sr sc m0,
     START_GRID_COORDS G = Some (sr, sc)
     ∧ 0 <= sr < MAZE_HEIGHT ∧ 0 <= sc < MAZE_WIDTH
     ∧ mazes G !! 0%nat = Some m0
     ∧ cell_at m0 (Z.to_nat sr) (Z.to_nat sc) = Some START)
  ∧ (∃ er ec m1,
       END_GRID_COORDS G = Some (er, ec)
       ∧ 0 <= er < MAZE_HEIGHT ∧ 0 <= ec < MAZE_WIDTH
       ∧ mazes G !! 1%nat = Some m1
       ∧ cell_at m1 (Z.to_nat er) (Z.to_nat ec) = Some END).
Proof.
  intros HG. destruct (generated_layers G HG) as (Hlen & _ & _ & Hall).
  destruct HG as (depth & g & g' & Hgen).
  destruct (generate_finished _ _ _ _ _ Hgen)
    as [_ _ _ _ _ _ (sr & sc & m0 & Hs & Hsr & Hsc & Hm0 & Hcs)
        (er & ec & m1 & He & Hm1 & Hce) _].
  split.
  - exists sr, sc, m0. split; [done|].
    destruct (Hall _ _ Hm0) as (Hd & _).
    destruct (cell_at_dims _ _ _ _ _ _ Hd Hcs). unfold MAZE_HEIGHT, MAZE_WIDTH.
    repeat split; (done || lia).
  - exists er, ec, m1. split; [done|].
    change (Z.to_nat (num_layers (init MAZE_WIDTH MAZE_HEIGHT NUM_MAZE_LAYERS) - 1))
      with 1%nat in Hm1.
    destruct Hce as [(Her & Hec & Hc)|(_ & _ & Hn & _)]; [|done].
    destruct (Hall _ _ Hm1) as (Hd & _).
    destruct (cell_at_dims _ _ _ _ _ _ Hd Hc). unfold MAZE_HEIGHT, MAZE_WIDTH.
    repeat split; (done || lia).
Qed.

Lemma filter_players_set ps ws p :
  filter (fun wp : websocket * player => negb (Nat.eqb wp.1 ws))
    (players_set ps ws p)
  = filter (fun wp => negb (Nat.eqb wp.1 ws)) ps.
Proof.
  assert (Hself : ¬ (negb (Nat.eqb ws ws))) by (rewrite Nat.eqb_refl; by intros []).
  induction ps as [|[ws' p'] ps IH]; simpl.
  { by rewrite filter_cons_False. }
  destruct (Nat.eqb_spec ws' ws) as [->|Hne].
  - by rewrite !filter_cons_False.
  - assert (Hother : negb (Nat.eqb ws' ws)) by (by destruct (Nat.eqb_spec ws' ws)).
    by rewrite !filter_cons_True, IH.
Qed.

(** The transport after one more send. *)
Definition one_more_sent (n : net) : net :=
  {| outcomes := outcomes n; sent := S (sent n) |}.

Section Generated.
Variable G : MazeGenerator.t.
Hypothesis HG : generated G.

(** [register_player] on the server's maze, up to the send of [init]:
    the player [p] is in the registry when the message is sent. *)
Lemma register_player_prefix (ws : websocket) (st : server) :
  ∃ p n sr sc m0 er ec vE g',
    register_player G ws st
    = mbind (send ws (init_message (id p)
                        (snd <$> filter (fun wp => negb (Nat.eqb wp.1 ws))
                                   (PLAYERS st))
                        (get_maze_data G) (position p) vE))
        (fun _ => broadcast (player_connected p))
        (with_players
           (with_random (with_next_player_id st (NEXT_PLAYER_ID st + 1)) g')
           (players_set (PLAYERS st) ws p))
    ∧ id p = "player_" +:+ pretty (NEXT_PLAYER_ID st)
    ∧ health p = MAX_HEALTH ∧ score p = 0 ∧ layer p = 0 ∧ rotation p = zero3
    ∧ color p = color_code n ∧ 0 <= n <= 0xFFFFFF
    ∧ grid_to_world_coords sr sc 0 = Ok (position p)
    ∧ mazes G !! 0%nat = Some m0
    ∧ cell_at m0 (Z.to_nat sr) (Z.to_nat sc) = Some OPEN
    ∧ END_GRID_COORDS G = Some (er, ec)
    ∧ grid_to_world_coords er ec (NUM_MAZE_LAYERS - 1) = Ok vE.
Proof.
  destruct (generated_marks G HG) as
    (_ & er & ec & m1 & He & Her & Hec & Hm1 & Hce).
  destruct (grid_round_trip er ec (NUM_MAZE_LAYERS - 1) Her Hec) as (vE & HvE & _).
  set (st1 := with_next_player_id st (NEXT_PLAYER_ID st + 1)).
  set (n := 0 + Z.of_nat (tape (RANDOM st) (cursor (RANDOM st)))
                mod (16777215 - 0 + 1)).
  set (g1 := {| tape := tape (RANDOM st); cursor := S (cursor (RANDOM st)) |}).
  destruct (random_open_position G (layer0_open G HG) g1)
    as (sr & sc & v & g2 & m0 & Hpos & Hv & Hback & Hr & Hc & Hm0 & Hopen).
  set (p := {| id := "player_" +:+ pretty (NEXT_PLAYER_ID st); position := v;
               rotation := zero3; layer := 0; health := MAX_HEALTH; score := 0;
               color := color_code n |}).
  exists p, n, sr, sc, m0, er, ec, vE, g2. split.
  { unfold register_player.
    rewrite (run_bind_silent _ _ st _ st eq_refl).
    rewrite (run_bind_silent _ _ st _ st1 eq_refl).
    rewrite (run_bind_silent _ _ st1 n (with_random st1 g1) eq_refl).
    rewrite (run_bind_silent _ _ _ _ _ (Hpos (with_random st1 g1) eq_refl)).
    rewrite (run_bind_silent _ _ _ _ _ eq_refl).
    rewrite (run_bind_silent _ _ _ _ _ eq_refl).
    erewrite run_bind_silent; [|unfold lift; by rewrite Hback].
    rewrite (run_bind_silent _ _ _ _ _ eq_refl).
    erewrite run_bind_silent.
    2:{ unfold lift, end_row, end_col. rewrite He. simpl rbind. by rewrite HvE. }
    cbn [PLAYERS with_players with_random]. rewrite filter_players_set.
    reflexivity. }
  repeat (split; [done|]).
  split.
  { subst n. pose proof (Z.mod_pos_bound
                           (Z.of_nat (tape (RANDOM st) (cursor (RANDOM st))))
                           (16777215 - 0 + 1) ltac:(lia)). lia. }
  done.
Qed.

(** What [register_player] does on the server's maze. *)
Lemma register_player_run (ws : websocket) (st : server) :
  ∃ p n sr sc m0 er ec vE g' r st' tr,
    let reg := players_set (PLAYERS st) ws p in
    let joined :=
      with_network
        (with_players
           (with_random (with_next_player_id st (NEXT_PLAYER_ID st + 1)) g')
           reg)
        (one_more_sent (NETWORK st)) in
    let init_sent :=
      Send ws (init_message (id p)
                 (snd <$> filter (fun wp => negb (Nat.eqb wp.1 ws))
                            (PLAYERS st))
                 (get_maze_data G) (position p) vE) in
    register_player G ws st = (r, st', tr)
    ∧ id p = "player_" +:+ pretty (NEXT_PLAYER_ID st)
    ∧ health p = MAX_HEALTH ∧ score p = 0 ∧ layer p = 0 ∧ rotation p = zero3
    ∧ color p = color_code n ∧ 0 <= n <= 0xFFFFFF
    ∧ grid_to_world_coords sr sc 0 = Ok (position p)
    ∧ mazes G !! 0%nat = Some m0
    ∧ cell_at m0 (Z.to_nat sr) (Z.to_nat sc) = Some OPEN
    ∧ END_GRID_COORDS G = Some (er, ec)
    ∧ grid_to_world_coords er ec (NUM_MAZE_LAYERS - 1) = Ok vE
    ∧ match outcomes (NETWORK st) (sent (NETWORK st)) with
      | Delivered =>
          r = Ok tt
          ∧ drops joined st'
          ∧ ∃ noise,
              tr = init_sent :: Broadcast (player_connected p) reg :: noise
              ∧ Forall (fun e => notice e = true) noise
              ∧ (reliable (NETWORK st) -> noise = [])
      | ClosedOK => r = Raise ConnectionClosedOK ∧ st' = joined ∧ tr = []
      | Failed => r = Raise ConnectionClosedError ∧ st' = joined ∧ tr = []
      end.
Proof.
  destruct (register_player_prefix ws st)
    as (p & n & sr & sc & m0 & er & ec & vE & g' & Hrun & Hfacts).
  exists p, n, sr, sc, m0, er, ec, vE, g'.
  set (s5 := with_players _ _) in Hrun.
  set (s6 := with_network s5 (one_more_sent (NETWORK st))).
  destruct (outcomes (NETWORK st) (sent (NETWORK st))) eqn:Ho.
  - destruct (broadcast_spec (player_connected p) s6)
      as (st' & noise & Hb & Hd & F & Hn).
    exists (Ok tt), st', (Send ws (init_message (id p)
                 (snd <$> filter (fun wp => negb (Nat.eqb wp.1 ws))
                            (PLAYERS st))
                 (get_maze_data G) (position p) vE)
                          :: Broadcast (player_connected p) (PLAYERS s6) :: noise).
    cbv zeta. split.
    { rewrite Hrun. eapply (run_bind _ _ _ _ _ [_]); [|exact Hb].
      unfold send, mbind, send_outcome. cbn [NETWORK s5 with_players with_random
        with_next_player_id]. by rewrite Ho. }
    destruct Hfacts as (? & ? & ? & ? & ? & ? & ? & ? & ? & ? & ? & ?).
    repeat (split; [done|]). exists noise. split; [done|]. split; [done|].
    intros Hr. apply Hn. simpl. by apply reliable_next.
  - exists (Raise ConnectionClosedOK), s6, []. cbv zeta. split.
    { rewrite Hrun. apply run_bind_raise.
      unfold send, mbind, send_outcome. cbn [NETWORK s5 with_players with_random
        with_next_player_id]. by rewrite Ho. }
    destruct Hfacts as (? & ? & ? & ? & ? & ? & ? & ? & ? & ? & ? & ?).
    by repeat (split; [done|]).
  - exists (Raise ConnectionClosedError), s6, []. cbv zeta. split.
    { rewrite Hrun. apply run_bind_raise.
      unfold send, mbind, send_outcome. cbn [NETWORK s5 with_players with_random
        with_next_player_id]. by rewrite Ho. }
    destruct Hfacts as (? & ? & ? & ? & ? & ? & ? & ? & ? & ? & ? & ?).
    by repeat (split; [done|]).
Qed.

(** X11: [register_player] on the server's maze.  The new player gets
    the next id, full health, score 0, layer 0 and the position of an
    open cell of layer 0; the counter advances and the player is in the
    registry before anything is sent.  When the send of [init] to the
    new connection is delivered, the function returns: the connection
    has received [init] with the other players, and [player_connected]
    is broadcast to everyone registered, the new player included, after
    which only the departures of failed sends follow.  When the send of
    [init] fails, the exception leaves the function: nothing is
    broadcast, and the player stays in the registry. *)
Theorem register_player_joins (ws : websocket) (st : server) :
  ∃ p n sr sc m0 er ec vE g' r st' tr,
    let reg := players_set (PLAYERS st) ws p in
    let joined :=
      with_network
        (with_players
           (with_random (with_next_player_id st (NEXT_PLAYER_ID st + 1)) g')
           reg)
        (one_more_sent (NETWORK st)) in
    let init_sent :=
      Send ws (init_message (id p)
                 (snd <$> filter (fun wp => negb (Nat.eqb wp.1 ws))
                            (PLAYERS st))
                 (get_maze_data G) (position p) vE) in
    register_player G ws st = (r, st', tr)
    ∧ id p = "player_" +:+ pretty (NEXT_PLAYER_ID st)
    ∧ health p = MAX_HEALTH ∧ score p = 0 ∧ layer p = 0 ∧ rotation p = zero3
    ∧ color p = color_code n ∧ 0 <= n <= 0xFFFFFF
    ∧ grid_to_world_coords sr sc 0 = Ok (position p)
    ∧ mazes G !! 0%nat = Some m0
    ∧ cell_at m0 (Z.to_nat sr) (Z.to_nat sc) = Some OPEN
    ∧ END_GRID_COORDS G = Some (er, ec)
    ∧ grid_to_world_coords er ec (NUM_MAZE_LAYERS - 1) = Ok vE
    ∧ match outcomes (NETWORK st) (sent (NETWORK st)) with
      | Delivered =>
          r = Ok tt
          ∧ drops joined st'
          ∧ ∃ noise,
              tr = init_sent :: Broadcast (player_connected p) reg :: noise
              ∧ Forall (fun e => notice e = true) noise
              ∧ (reliable (NETWORK st) -> noise = [])
      | ClosedOK => r = Raise ConnectionClosedOK ∧ st' = joined ∧ tr = []
      | Failed => r = Raise ConnectionClosedError ∧ st' = joined ∧ tr = []
      end.
Proof. apply register_player_run. Qed.


End Generated.

(** A third player joins the two of the example; every send is
    delivered. *)
Example register_player_third :
  ∃ p st' tr,
    register_player demo_generator 9%nat demo_pair = (Ok tt, st', tr)
    ∧ players_get (PLAYERS st') 9%nat = Some p
    ∧ id p = "player_2"%string
    ∧ message_type <$> broadcasts tr = ["player_connected"%string].
Proof.
  eexists _, _, _. split; [vm_compute; reflexivity|].
  split; [reflexivity|]. done.
Qed.




(** A connection whose [init] is not delivered: the exception leaves
    [register_player], and the player stays in the registry. *)
Example register_player_init_fails :
  ∃ st' p,
    register_player demo_generator 9%nat
      (with_network demo_pair (failing_at 0))
    = (Raise ConnectionClosedError, st', [])
    ∧ players_get (PLAYERS st') 9%nat = Some p
    ∧ id p = "player_2"%string.
Proof.
  eexists _, _. split; [vm_compute; reflexivity|].
  split; [reflexivity|]. done.
Qed.

(** *** Health *)

(** A property of every player of a registry. *)
Lemma registry_get (P : player -> Prop) ps ws p :
  Forall (fun wp : websocket * player => P wp.2) ps ->
  players_get ps ws = Some p -> P p.
Proof.
  induction 1 as [|[ws' p'] ps Hp _ IH]; simpl; [done|].
  destruct (Nat.eqb ws' ws); [by intros [= <-]|done].
Qed.

Lemma registry_set (P : player -> Prop) ps ws p :
  Forall (fun wp : websocket * player => P wp.2) ps -> P p ->
  Forall (fun wp : websocket * player => P wp.2) (players_set ps ws p).
Proof.
  induction 1 as [|[ws' p'] ps Hp Hps IH]; simpl; intros H.
  - by repeat constructor.
  - destruct (Nat.eqb ws' ws); constructor; auto.
Qed.

Lemma registry_del_all (P : player -> Prop) ps gone :
  Forall (fun wp : websocket * player => P wp.2) ps ->
  Forall (fun wp : websocket * player => P wp.2) (players_del_all ps gone).
Proof. apply Forall_sublist_of, players_del_all_sublist. Qed.

(** A write to a field of the player of [ws], when there is one. *)
Definition upd (ps : list (websocket * player)) (ws : websocket)
    (f : player -> player) : list (websocket * player) :=
  match players_get ps ws with
  | Some p => players_set ps ws (f p)
  | None => ps
  end.

Lemma upd_cons k q ps ws f :
  upd ((k, q) :: ps) ws f
  = if Nat.eqb k ws then (ws, f q) :: ps else (k, q) :: upd ps ws f.
Proof.
  unfold upd. simpl. destruct (Nat.eqb k ws); [done|].
  by destruct (players_get ps ws).
Qed.

Lemma upd_upd ps ws f g : upd (upd ps ws f) ws g = upd ps ws (fun p => g (f p)).
Proof.
  induction ps as [|[k q] ps IH]; [done|]. rewrite !upd_cons.
  destruct (Nat.eqb_spec k ws) as [->|Hne].
  - by rewrite upd_cons, Nat.eqb_refl.
  - rewrite upd_cons. destruct (Nat.eqb_spec k ws); [done|]. by rewrite IH.
Qed.

Lemma upd_comm ps a b f g :
  a ≠ b -> upd (upd ps a f) b g = upd (upd ps b g) a f.
Proof.
  intros Hab. induction ps as [|[k q] ps IH]; [done|]. rewrite !upd_cons.
  destruct (Nat.eqb_spec k a) as [Hka|Hka], (Nat.eqb_spec k b) as [Hkb|Hkb];
    rewrite ?upd_cons.
  - congruence.
  - subst k. destruct (Nat.eqb_spec a b); [done|]. by rewrite Nat.eqb_refl.
  - subst k. destruct (Nat.eqb_spec b a); [done|]. by rewrite Nat.eqb_refl.
  - destruct (Nat.eqb_spec k a), (Nat.eqb_spec k b); try done. by rewrite IH.
Qed.

Lemma players_get_upd ps ws f :
  players_get (upd ps ws f) ws = f <$> players_get ps ws.
Proof.
  unfold upd. destruct (players_get ps ws) as [p|] eqn:Hp; simpl.
  - by rewrite players_get_set_eq.
  - by rewrite Hp.
Qed.

Lemma players_get_upd_ne ps ws ws' f :
  ws ≠ ws' -> players_get (upd ps ws f) ws' = players_get ps ws'.
Proof.
  intros Hne. unfold upd. destruct (players_get ps ws); [|done].
  by rewrite players_get_set_ne.
Qed.

Lemma registry_upd (P : player -> Prop) ps ws f :
  Forall (fun wp : websocket * player => P wp.2) ps ->
  (∀ p, players_get ps ws = Some p -> P (f p)) ->
  Forall (fun wp : websocket * player => P wp.2) (upd ps ws f).
Proof.
  intros Hps Hf. unfold upd.
  destruct (players_get ps ws) as [p|] eqn:Hp; [|done].
  apply registry_set; auto.
Qed.

Lemma elem_of_upd ps ws f x :
  x ∈ upd ps ws f ->
  x ∈ ps ∨ ∃ p, x = (ws, f p) ∧ players_get ps ws = Some p.
Proof.
  unfold upd. destruct (players_get ps ws) as [p|] eqn:Hp; [|by left].
  intros [?| ->]%elem_of_players_set; [by left|right; by exists p].
Qed.

(** The health a player has between two inputs: 10, 20, ..., 100. *)
Definition healthy (p : player) : Prop :=
  ∃ k, health p = BULLET_DAMAGE * k ∧ 1 <= k ∧ BULLET_DAMAGE * k <= MAX_HEALTH.

Definition all_healthy (st : server) : Prop :=
  Forall (fun wp => healthy wp.2) (PLAYERS st).

Definition keeps_health (st st' : server) : Prop :=
  all_healthy st -> all_healthy st'.

Lemma keeps_health_refl s : keeps_health s s.
Proof. by intros ?. Qed.
Lemma keeps_health_trans s1 s2 s3 :
  keeps_health s1 s2 -> keeps_health s2 s3 -> keeps_health s1 s3.
Proof. unfold keeps_health. eauto. Qed.

Lemma healthy_full p : health p = MAX_HEALTH -> healthy p.
Proof. intros H. exists 10. rewrite H. by repeat split. Qed.

Lemma keeps_health_shrinks s s' : shrinks s s' -> keeps_health s s'.
Proof.
  intros ([gone P] & _) H. unfold all_healthy in *. rewrite P.
  by apply (registry_del_all healthy).
Qed.

Lemma health_assign ws f st :
  (∀ p, healthy p -> healthy (f p)) ->
  after keeps_health (assign ws f) st.
Proof.
  intros Hf. apply (after_assign _ keeps_health_refl keeps_health_shrinks).
  intros p Hp H. unfold all_healthy in *. simpl.
  apply (registry_set healthy); [done|]. apply Hf.
  by eapply (registry_get healthy).
Qed.

Lemma health_put st st' :
  (all_healthy st -> all_healthy st') -> after keeps_health (put st') st.
Proof. done. Qed.

Ltac health_leaf :=
  first
    [ after_leaf keeps_health_refl keeps_health_shrinks
    | apply health_assign;
      let H := fresh in
      intros ? H; first [exact H | by apply healthy_full]
    | apply health_put; let H := fresh in intros H; exact H ].

Ltac health_walk :=
  repeat
    first
      [ health_leaf
      | apply (after_bind keeps_health keeps_health_trans);
        [|let H := fresh in
          intros ? ? ? H; try (apply get_inv in H as [-> ->]); cbv beta]
      | match goal with
        | |- after _ (if ?b then _ else _) _ => destruct b
        | |- after _ (match ?x with _ => _ end) _ => destruct x
        | |- after _ (let '(_, _) := ?x in _) _ => destruct x
        end ].

Section Handlers.
Variable G : MazeGenerator.t.
Hypothesis HG : generated G.
Variable float_of_string : string -> option float.
Variable int_of_string : string -> option Z.

Lemma health_get_random_open_position l st :
  after keeps_health (get_random_open_position_on_layer G l) st.
Proof. unfold get_random_open_position_on_layer. health_walk. Qed.

Lemma health_respawn_player ws pid killer reset st :
  after keeps_health (respawn_player G ws pid killer reset) st.
Proof.
  unfold respawn_player.
  apply (after_bind keeps_health keeps_health_trans); [health_leaf|].
  intros _ st1 _ _.
  apply (after_bind keeps_health keeps_health_trans).
  { destruct (_ && _); health_leaf. }
  intros _ st2 _ _.
  apply (after_bind keeps_health keeps_health_trans);
    [apply health_get_random_open_position|].
  intros v st3 _ _. health_walk.
Qed.

Lemma health_register_player ws st :
  after keeps_health (register_player G ws) st.
Proof.
  pose proof (register_player_state G ws st) as (_ & _ & _ & Hps).
  unfold after. intros H. unfold all_healthy.
  destruct Hps as [-> | (p & gone & _ & Hp & _ & _ & ->)]; [done|].
  apply (registry_del_all healthy).
  apply (registry_set healthy); [done|]. by apply healthy_full.
Qed.

Lemma health_handle_player_update ws data st :
  after keeps_health
    (handle_player_update float_of_string int_of_string ws data) st.
Proof.
  unfold handle_player_update, update_axis.
  apply (after_bind keeps_health keeps_health_trans); [health_leaf|].
  intros [p|] st1 _ _; [|health_leaf].
  apply (after_bind keeps_health keeps_health_trans).
  { destruct (dict_get data "position") as [pos|]; [|health_leaf].
    destruct (is_dict pos); [|health_leaf]. health_walk. }
  intros _ st2 _ _.
  apply (after_bind keeps_health keeps_health_trans).
  { destruct (dict_get data "rotation") as [rot|]; [|health_leaf].
    destruct (is_dict rot); [|health_leaf]. health_walk. }
  intros _ st3 _ _. health_walk.
Qed.

Lemma health_handle_bullet_fired ws data now st :
  after keeps_health
    (handle_bullet_fired float_of_string int_of_string ws data now) st.
Proof.
  unfold handle_bullet_fired.
  apply (after_bind keeps_health keeps_health_trans); [health_leaf|].
  intros [p|] st1 _ _; [|health_leaf].
  do 2 (apply (after_bind keeps_health keeps_health_trans);
        [health_leaf|intros ? ? ? [-> ->]%get_inv || intros ? ? _ _]).
  do 3 (apply (after_bind keeps_health keeps_health_trans);
        [health_leaf|intros ? ? _ _]).
  health_walk.
Qed.

Lemma health_handle_teleport_request ws data st :
  after keeps_health (handle_teleport_request G ws data) st.
Proof.
  unfold handle_teleport_request.
  apply (after_bind keeps_health keeps_health_trans); [health_leaf|].
  intros [p|] st1 _ _; [|health_leaf].
  destruct (as_int _); [|health_leaf].
  apply (after_bind keeps_health keeps_health_trans); [health_leaf|].
  intros [r c] st2 _ _.
  apply (after_bind keeps_health keeps_health_trans); [health_leaf|].
  intros ch st3 _ _.
  destruct (_ && _); [|health_leaf].
  destruct (List.find _ _); [|health_leaf].
  health_walk.
Qed.

Lemma health_handle_teleport_to_start ws st :
  after keeps_health (handle_teleport_to_start G ws) st.
Proof.
  unfold handle_teleport_to_start.
  apply (after_bind keeps_health keeps_health_trans); [health_leaf|].
  intros [p|] st1 _ _; [|health_leaf].
  apply (after_bind keeps_health keeps_health_trans);
    [apply health_get_random_open_position|].
  intros v st2 _ _. health_walk.
Qed.

Lemma health_handle_player_reached_end ws st :
  after keeps_health (handle_player_reached_end G ws) st.
Proof.
  unfold handle_player_reached_end.
  apply (after_bind keeps_health keeps_health_trans); [health_leaf|].
  intros [p|] st1 _ _; [|health_leaf]. cbv zeta.
  apply (after_bind keeps_health keeps_health_trans); [health_leaf|].
  intros [r c] st2 _ _.
  apply (after_bind keeps_health keeps_health_trans); [health_leaf|].
  intros [|] st3 _ _; [|health_leaf].
  apply (after_bind keeps_health keeps_health_trans); [health_leaf|].
  intros _ st4 _ _. health_leaf.
Qed.

(** A hit takes 10 from the target, and a target that falls to 0 is
    respawned with full health before the handler returns. *)
Lemma health_handle_player_hit ws data st :
  after keeps_health (handle_player_hit G ws data) st.
Proof.
  unfold after.
  destruct (players_get (PLAYERS st) ws) as [sh|] eqn:Hsh.
  2:{ unfold handle_player_hit, mbind, lookup_player. rewrite Hsh.
      apply keeps_health_refl. }
  destruct (truthy (default JNull (dict_get data "target_id"))
            && negb (String.eqb (id sh) "")) eqn:Hok.
  2:{ unfold handle_player_hit, mbind, lookup_player. rewrite Hsh, Hok.
      apply keeps_health_refl. }
  apply andb_true_iff in Hok as [Htruthy Hid].
  destruct (find_target (PLAYERS st) (default JNull (dict_get data "target_id")))
    as [[tws tid]|] eqn:Hfind.
  2:{ destruct (handle_player_hit_rejected G ws data st) as (d & -> & _);
        [by right|]. apply keeps_health_refl. }
  destruct (dict_get data "target_id") as [tj|] eqn:Hdata; [|done].
  cbn [default from_option Datatypes.id] in *.
  destruct (find_target_registered _ _ _ _ Hfind) as [tp Htp].
  assert (id sh ≠ ""%string) as Hne.
  { intros E. rewrite E in Hid. done. }
  pose proof (handle_player_hit_run G HG ws data st sh tj tws tid tp
                Hsh Hne Hdata Htruthy Hfind Htp) as Hrun.
  cbv zeta in Hrun.
  set (fh := fun p => set_health (health p - BULLET_DAMAGE) p).
  set (fs := fun p => set_score (score p + 10) p).
  assert (Hreg1 : after_hit (PLAYERS st) ws tws
                  = upd (upd (PLAYERS st) tws fh) ws fs).
  { unfold after_hit, upd at 2. by rewrite Htp. }
  rewrite Hreg1 in Hrun. intros Hst. unfold all_healthy in *.
  pose proof (registry_get healthy _ _ _ Hst Htp) as (k & Hk & Hk1 & Hk2).
  destruct (health_of _ tws <=? 0) eqn:Hdead.
  - destruct Hrun as (v & g' & sr & sc & m0 & [Hrun|(_ & Hrun)] & _).
    + destruct Hrun as (st' & tr & -> & ([gone P] & _) & _). simpl.
      rewrite P. apply (registry_del_all healthy). simpl.
      unfold after_award, after_respawn.
      change (Forall (fun wp => healthy wp.2)
                (upd (upd (upd (upd (PLAYERS st) tws fh) ws fs) tws
                        (fun tp => respawned tp v (Z.max 0 (score tp - 100))))
                   ws (fun sh => set_score (score sh + 500) sh))).
      destruct (decide (ws = tws)) as [->|Hwt].
      * rewrite !upd_upd. apply (registry_upd healthy); [done|].
        intros p _. by apply healthy_full.
      * rewrite (upd_comm _ ws tws) by done. rewrite !upd_upd.
        match goal with
        | |- Forall _ (upd ?reg _ _) =>
            assert (Hback : Forall (fun wp => healthy wp.2) reg)
        end.
        { apply (registry_upd healthy); [done|].
          intros p _. by apply healthy_full. }
        apply (registry_upd healthy); [done|].
        intros p Hp. by eapply (registry_get healthy) in Hp.
    + (* the target has left: its dictionary is no longer registered *)
      destruct Hrun as (st' & tr & -> & Hgone & ([gone P] & _) & _). simpl.
      apply Forall_forall. intros [w q] Hin.
      assert (w ≠ tws) as Hw.
      { intros ->. apply players_get_None in Hgone. apply Hgone.
        apply list_elem_of_fmap. by exists (tws, q). }
      rewrite P in Hin. simpl in Hin.
      eapply elem_of_sublist in Hin; [|apply players_del_all_sublist].
      rewrite Forall_forall in Hst.
      apply elem_of_upd in Hin as [Hin|(p & [= -> ->] & Hp)].
      * apply elem_of_upd in Hin as [Hin|(p & [= -> ->] & Hp)]; [|done].
        by apply (Hst (w, q)).
      * rewrite players_get_upd_ne in Hp by done.
        apply players_get_elem in Hp. by apply (Hst (ws, p)).
  - destruct Hrun as (st' & tr & -> & ([gone P] & _) & _). simpl.
    rewrite P. apply (registry_del_all healthy). simpl.
    apply Z.leb_gt in Hdead. unfold health_of in Hdead.
    assert (Hleft : healthy (fh tp)).
    { exists (k - 1). unfold BULLET_DAMAGE, MAX_HEALTH in *.
      assert (health (fh tp) = health tp - 10) as -> by done.
      destruct (decide (ws = tws)) as [->|Hwt].
      - rewrite upd_upd, players_get_upd, Htp in Hdead. simpl in Hdead.
        unfold BULLET_DAMAGE in Hdead. lia.
      - rewrite players_get_upd_ne, players_get_upd, Htp in Hdead by done.
        simpl in Hdead. unfold BULLET_DAMAGE in Hdead. lia. }
    assert (Hfirst : Forall (fun wp => healthy wp.2) (upd (PLAYERS st) tws fh)).
    { apply (registry_upd healthy); [done|]. intros p Hp.
      rewrite Htp in Hp. by injection Hp as <-. }
    apply (registry_upd healthy); [done|].
    intros p Hp. eapply (registry_get healthy) in Hp; [|exact Hfirst].
    exact Hp.
Qed.

Lemma health_dispatch ws message now st :
  after keeps_health
    (dispatch G float_of_string int_of_string ws message now) st.
Proof.
  unfold dispatch.
  apply (after_bind keeps_health keeps_health_trans); [health_leaf|].
  intros data st1 _ _.
  apply (after_bind keeps_health keeps_health_trans); [health_leaf|].
  intros ty st2 _ _. cbv zeta.
  destruct (eq_str ty "player_update"); [apply health_handle_player_update|].
  destruct (eq_str ty "bullet_fired"); [apply health_handle_bullet_fired|].
  destruct (eq_str ty "player_hit"); [apply health_handle_player_hit|].
  destruct (eq_str ty "teleport_request");
    [apply health_handle_teleport_request|].
  destruct (eq_str ty "teleport_to_start");
    [apply health_handle_teleport_to_start|].
  destruct (eq_str ty "player_reached_end");
    [apply health_handle_player_reached_end|].
  health_leaf.
Qed.

Lemma health_serve i st :
  after keeps_health (serve G float_of_string int_of_string i) st.
Proof.
  destruct i as [ws|ws message now|ws player_id|ws]; simpl.
  - apply health_register_player.
  - apply (after_bind keeps_health keeps_health_trans); [|intros; health_leaf].
    apply (after_guarded _ keeps_health_refl keeps_health_trans
             keeps_health_shrinks).
    apply health_dispatch.
  - apply (after_bind keeps_health keeps_health_trans); [|intros; health_leaf].
    apply (after_guarded _ keeps_health_refl keeps_health_trans
             keeps_health_shrinks).
    apply health_respawn_player.
  - health_leaf.
Qed.

(** X14: with a generated maze, after every sequence of connections,
    frames, ends of a sleep and disconnections handled one after another
    from the empty registry, whatever the transport does with the sends,
    the health of every registered player is one of 10, 20, ..., 100: a
    player whose health a hit brings to 0 has been respawned with 100,
    or is no longer registered, before the next input is handled. *)
Theorem health_between_inputs (inputs : list input) (g : rng) (n : net) :
  ∀ ws p,
    players_get
      (PLAYERS (run G float_of_string int_of_string inputs (initial g n)).1) ws
    = Some p ->
    ∃ k, health p = 10 * k ∧ 1 <= k <= 10.
Proof.
  assert (∀ st, all_healthy st ->
                all_healthy
                  (run G float_of_string int_of_string inputs st).1) as Hrun.
  { induction inputs as [|i inputs IH]; intros st Hst; [done|].
    rewrite run_cons. apply IH. by apply health_serve. }
  intros ws p Hp.
  assert (Hinit : all_healthy (initial g n)) by constructor.
  destruct (registry_get healthy _ _ _ (Hrun _ Hinit) Hp)
    as (k & Hk & Hk1 & Hk2).
  exists k. unfold BULLET_DAMAGE, MAX_HEALTH in *. split; [done|lia].
Qed.

End Handlers.

(** Nine hits leave the target with 10. *)
Definition nine_hits : list input :=
  [Connect 7%nat; Connect 8%nat]
  ++ replicate 9 (Receive 8%nat (Decoded (JDict (hit_on "player_0"))) 0%float).

Lemma health_between_inputs_witness :
  ∃ p,
    players_get
      (PLAYERS (run demo_generator (fun _ => None) (fun _ => None)
                  nine_hits (initial rng0 net0)).1) 7%nat
    = Some p
    ∧ health p = 10
    ∧ ∃ k, health p = 10 * k ∧ 1 <= k <= 10.
Proof.
  eexists. split; [vm_compute; reflexivity|]. split; [reflexivity|].
  eapply (health_between_inputs demo_generator demo_generated (fun _ => None)
            (fun _ => None) nine_hits rng0 net0 7%nat).
  vm_compute. reflexivity.
Defined.

(** *** Frames *)

(** The test of [handle_player_reached_end]: the last layer and the
    cell of the end. *)
Definition at_end (G : MazeGenerator.t) (p : player) (r c : Z) : bool :=
  (layer p =? NUM_MAZE_LAYERS - 1)
  && match END_GRID_COORDS G with
     | Some (er, ec) => (r =? er) && (c =? ec)
     | None => false
     end.

Section AnyMaze.
Variable G : MazeGenerator.t.
Variable float_of_string : string -> option float.
Variable int_of_string : string -> option Z.



End AnyMaze.

Section Generated.
Variable G : MazeGenerator.t.
Hypothesis HG : generated G.
Variable float_of_string : string -> option float.
Variable int_of_string : string -> option Z.

(** X17: [get_random_open_position_on_layer] on a layer of the maze
    draws one random number and returns the world position of an open
    cell of that layer, at the height of the layer; on any other index
    it draws nothing, prints a diagnostic and returns the position of
    the start cell of layer 0. *)
Theorem open_position_on_layer (l : Z) (st : server) :
  if (0 <=? l) && (l <? NUM_MAZE_LAYERS) then
    ∃ sr sc v g' m,
      get_random_open_position_on_layer G l st = (Ok v, with_random st g', [])
      ∧ grid_to_world_coords sr sc l = Ok v
      ∧ vy v = Int (l * WALL_HEIGHT)
      ∧ world_to_grid_coords (vx v) (vz v) = Ok (sr, sc)
      ∧ mazes G !! Z.to_nat l = Some m
      ∧ cell_at m (Z.to_nat sr) (Z.to_nat sc) = Some OPEN
  else
    ∃ sr sc v m0,
      get_random_open_position_on_layer G l st
      = (Ok v, st, [Print (LayerOutOfBounds l)])
      ∧ start_coords G = Some (sr, sc)
      ∧ grid_to_world_coords sr sc 0 = Ok v
      ∧ mazes G !! 0%nat = Some m0
      ∧ cell_at m0 (Z.to_nat sr) (Z.to_nat sc) = Some START.
Proof.
  destruct (generated_layers G HG) as (Hlen & _ & _ & Hall).
  destruct ((0 <=? l) && (l <? NUM_MAZE_LAYERS)) eqn:Hin.
  - apply andb_true_iff in Hin as [Hl0%Z.leb_le Hl1%Z.ltb_lt].
    unfold NUM_MAZE_LAYERS in Hl1.
    destruct (lookup_lt_is_Some_2 (mazes G) (Z.to_nat l)) as [m Hm]; [lia|].
    destruct (Hall _ _ Hm) as (Hd & _ & _ & _ & _ & Hop & _).
    destruct (open_spots_spec 17 17 m Hd) as (spots & Hs & Hspec).
    pose proof (open_spots_nonempty 17 17 m Hd spots Hs) as Hne.
    destruct (choice_spec spots (RANDOM st)) as ([sr sc] & g' & Hch & Hmem);
      [apply Hne; lia|].
    apply Hspec in Hmem as (Hr & Hc & Hopen). simpl in Hr, Hc.
    destruct (grid_round_trip sr sc l) as (v & Hv & Hback); [done..|].
    exists sr, sc, v, g', m. split; [|split; [done|split; [|by repeat split]]].
    + unfold get_random_open_position_on_layer.
      assert ((l <? 0) || (NUM_MAZE_LAYERS <=? l) = false) as ->.
      { apply orb_false_iff. split; [by apply Z.ltb_ge|apply Z.leb_gt].
        unfold NUM_MAZE_LAYERS. lia. }
      eapply (run_bind _ _ _ _ _ []).
      { unfold lift, GENERATED_MAZE_DATA.
        by rewrite (py_get_valid (mazes G) l m). }
      eapply (run_bind _ _ _ _ _ []).
      { unfold lift. change MAZE_HEIGHT with (Z.of_nat 17).
        change MAZE_WIDTH with (Z.of_nat 17). by rewrite Hs. }
      destruct spots as [|s spots]; [by destruct Hne; [lia|]|].
      eapply (run_bind _ _ _ _ _ []).
      { unfold random. by rewrite Hch. }
      unfold lift. by rewrite Hv.
    + rewrite grid_to_world_coords_layer in Hv.
      destruct (grid_to_world_coords sr sc 0); [|done]. by injection Hv as <-.
  - destruct (generated_marks G HG)
      as ((sr & sc & m0 & Hs & Hsr & Hsc & Hm0 & Hcell) & _).
    destruct (grid_round_trip sr sc 0) as (v & Hv & _); [done..|].
    exists sr, sc, v, m0. split; [|by repeat split].
    unfold get_random_open_position_on_layer.
    assert ((l <? 0) || (NUM_MAZE_LAYERS <=? l) = true) as ->.
    { apply andb_false_iff in Hin as [H%Z.leb_gt|H%Z.ltb_ge];
        apply orb_true_iff; [left; by apply Z.ltb_lt|right; by apply Z.leb_le]. }
    unfold mbind, print, emit, lift, INITIAL_START_POSITION. rewrite Hs, Hv.
    done.
Qed.

End Generated.


Lemma open_position_on_layer_witness :
  ∃ sr sc v g' m,
    get_random_open_position_on_layer demo_generator 1 demo_pair
    = (Ok v, with_random demo_pair g', [])
    ∧ grid_to_world_coords sr sc 1 = Ok v
    ∧ vy v = Int (1 * WALL_HEIGHT)
    ∧ world_to_grid_coords (vx v) (vz v) = Ok (sr, sc)
    ∧ mazes demo_generator !! Z.to_nat 1 = Some m
    ∧ cell_at m (Z.to_nat sr) (Z.to_nat sc) = Some OPEN.
Proof.
  apply (open_position_on_layer demo_generator demo_generated 1 demo_pair).
Defined.

(** A frame that raises while a send fails: the first player sends a
    [bullet_fired] without its fields, and the send of
    [player_disconnected] to the second player fails.  Both connections
    leave the roster. *)
Example frame_keeps_roster_two_leave :
  roster (receive demo_generator (fun _ => None) (fun _ => None) 7%nat
            (Decoded (JDict [("type"%string, JStr "bullet_fired")])) 0%float
            (with_network demo_pair (failing_at 0))).1.2
  = [].
Proof. vm_compute. reflexivity. Qed.

(** *** Bullets and the end of the maze *)

(** The state after the bullet counter has advanced. *)
Definition next_bullet (st : server) : server :=
  with_next_bullet_id st (NEXT_BULLET_ID st + 1).

Definition with_bullet (st : server) (b : bullet) : server :=
  with_bullets st (BULLETS st ++ [b]).

Section AnyMaze.
Variable float_of_string : string -> option float.
Variable int_of_string : string -> option Z.

Variable G : MazeGenerator.t.

(** [handle_bullet_fired] for a registered sender. *)
Lemma handle_bullet_fired_run ws data now st p :
  players_get (PLAYERS st) ws = Some p ->
  let bid := "bullet_" +:+ pretty (NEXT_BULLET_ID st) in
  let start := float_vec float_of_string (subscript (JDict data) "start_position") in
  let dir := float_vec float_of_string (subscript (JDict data) "direction") in
  let lay := rbind (subscript (JDict data) "layer") (py_int int_of_string) in
  match start, dir, lay with
  | Ok sp, Ok d, Ok l =>
      runs (handle_bullet_fired float_of_string int_of_string ws data now)
        st st (Ok tt)
        (with_bullet (next_bullet st)
           {| bullet_id := bid; shooter_id := id p; bullet_position := sp;
              direction := d; bullet_layer := l; creation_time := now |})
        [(bullet_fired bid (id p) sp d l, PLAYERS st)]
  | Raise e, _, _ | Ok _, Raise e, _ | Ok _, Ok _, Raise e =>
      handle_bullet_fired float_of_string int_of_string ws data now st
      = (Raise e, next_bullet st, [])
  end.
Proof.
  intros Hp. cbv zeta.
  assert (handle_bullet_fired float_of_string int_of_string ws data now st
          = (let* start_position :=
               lift (float_vec float_of_string
                       (subscript (JDict data) "start_position")) in
             let* direction :=
               lift (float_vec float_of_string
                       (subscript (JDict data) "direction")) in
             let* layer := lift (let* l := subscript (JDict data) "layer" in
                                 py_int int_of_string l)%res in
             let bullet_data :=
               {| bullet_id := "bullet_" +:+ pretty (NEXT_BULLET_ID st);
                  shooter_id := id p;
                  bullet_position := start_position; direction := direction;
                  bullet_layer := layer; creation_time := now |} in
             let* st0 := get in
             put (with_bullets st0 (BULLETS st0 ++ [bullet_data])) ;;;
             broadcast (bullet_fired ("bullet_" +:+ pretty (NEXT_BULLET_ID st))
                          (id p) start_position direction layer))%M
              (next_bullet st)) as Hpre.
  { unfold handle_bullet_fired.
    rewrite (run_bind_silent _ _ st _ st eq_refl). rewrite Hp.
    rewrite (run_bind_silent _ _ st _ st eq_refl).
    by rewrite (run_bind_silent _ _ st _ (next_bullet st) eq_refl). }
  destruct (float_vec _ (subscript (JDict data) "start_position")) as [sp|e];
    [|rewrite Hpre;
      by rewrite (run_bind_raise _ _ _ e (next_bullet st) [] eq_refl)].
  destruct (float_vec _ (subscript (JDict data) "direction")) as [d|e];
    [|rewrite Hpre;
      rewrite (run_bind_silent _ _ _ _ (next_bullet st) eq_refl);
      by rewrite (run_bind_raise _ _ _ e (next_bullet st) [] eq_refl)].
  destruct (rbind _ _) as [l|e] eqn:El.
  2:{ rewrite Hpre.
      rewrite (run_bind_silent _ _ _ _ (next_bullet st) eq_refl).
      rewrite (run_bind_silent _ _ _ _ (next_bullet st) eq_refl).
      by rewrite (run_bind_raise _ _ _ e (next_bullet st) [] eq_refl). }
  set (b := {| bullet_id := "bullet_" +:+ pretty (NEXT_BULLET_ID st);
               shooter_id := id p; bullet_position := sp; direction := d;
               bullet_layer := l; creation_time := now |}).
  destruct (runs_broadcast (with_bullet (next_bullet st) b)
              (with_bullet (next_bullet st) b)
              (bullet_fired ("bullet_" +:+ pretty (NEXT_BULLET_ID st))
                 (id p) sp d l) (drops_refl _))
    as (st' & tr & Hrun & Hd & Hi & Hr).
  exists st', tr. split; [|split; [exact Hd|split; [exact Hi|exact Hr]]].
  rewrite <- Hrun, Hpre.
  rewrite (run_bind_silent _ _ _ _ (next_bullet st) eq_refl).
  rewrite (run_bind_silent _ _ _ _ (next_bullet st) eq_refl).
  rewrite (run_bind_silent _ _ _ l (next_bullet st) eq_refl).
  cbv zeta.
  rewrite (run_bind_silent _ _ _ _ (next_bullet st) eq_refl).
  by rewrite (run_bind_silent _ _ _ _ (with_bullet (next_bullet st) b) eq_refl).
Qed.

Lemma dispatch_bullet_fired ws data now st :
  dict_get data "type" = Some (JStr "bullet_fired") ->
  dispatch G float_of_string int_of_string ws (Decoded (JDict data)) now st
  = handle_bullet_fired float_of_string int_of_string ws data now st.
Proof.
  intros Hty. unfold dispatch, mbind, lift. cbn [subscript]. rewrite Hty.
  cbn [eq_str String.eqb Ascii.eqb Bool.eqb andb].
  destruct (handle_bullet_fired _ _ ws data now st) as [[r s] t]. done.
Qed.

(** X18: a [bullet_fired] frame of a registered player.  When the three
    fields of the frame convert, the bullet is appended with the next
    id, the id of the sender as shooter and the time of the event loop,
    it is broadcast to the registry, and the connection stays open.
    When a field is missing or does not convert, the error of the first
    such field (in the order start position, direction, layer) ends the
    session: the sender is unregistered and the others are told; no
    bullet is added, but the id has been used up.  In both cases the
    state is the one named here less the connections to which a send
    has failed, and the trace holds nothing more than what is named
    here and the departures of such connections. *)
Theorem bullet_fired_decided ws data now st p :
  players_get (PLAYERS st) ws = Some p -> id p ≠ ""%string ->
  dict_get data "type" = Some (JStr "bullet_fired") ->
  let bid := "bullet_" +:+ pretty (NEXT_BULLET_ID st) in
  let start := float_vec float_of_string (subscript (JDict data) "start_position") in
  let dir := float_vec float_of_string (subscript (JDict data) "direction") in
  let lay := rbind (subscript (JDict data) "layer") (py_int int_of_string) in
  let left := players_del (PLAYERS st) ws in
  ∃ b st' tr,
    receive G float_of_string int_of_string ws (Decoded (JDict data)) now st
    = (Ok b, st', tr)
    ∧ match start, dir, lay with
      | Ok sp, Ok d, Ok l =>
          b = true
          ∧ drops (with_bullet (next_bullet st)
                     {| bullet_id := bid; shooter_id := id p;
                        bullet_position := sp; direction := d;
                        bullet_layer := l; creation_time := now |}) st'
          ∧ issues [(bullet_fired bid (id p) sp d l, PLAYERS st)] tr
          ∧ (reliable (NETWORK st) ->
             tr = [Broadcast (bullet_fired bid (id p) sp d l) (PLAYERS st)])
      | Raise e, _, _ | Ok _, Raise e, _ | Ok _, Ok _, Raise e =>
          b = false
          ∧ drops (detach (next_bullet st) ws p) st'
          ∧ ∃ noise,
              tr = Print (UnexpectedError e)
                   :: Broadcast (player_disconnected (id p)) left :: noise
              ∧ Forall (fun e => notice e = true) noise
              ∧ (reliable (NETWORK st) -> noise = [])
      end.
Proof.
  intros Hp Hid Hty. cbv zeta.
  pose proof (handle_bullet_fired_run ws data now st p Hp) as Hrun.
  cbv zeta in Hrun.
  assert (Hleave : ∀ e,
    handle_bullet_fired float_of_string int_of_string ws data now st
    = (Raise e, next_bullet st, []) ->
    ∃ b st' tr,
      receive G float_of_string int_of_string ws (Decoded (JDict data)) now st
      = (Ok b, st', tr)
      ∧ b = false
      ∧ drops (detach (next_bullet st) ws p) st'
      ∧ ∃ noise,
          tr = Print (UnexpectedError e)
               :: Broadcast (player_disconnected (id p))
                    (players_del (PLAYERS st) ws) :: noise
          ∧ Forall (fun e => notice e = true) noise
          ∧ (reliable (NETWORK st) -> noise = [])).
  { intros e Hd. rewrite <- (dispatch_bullet_fired ws data now st Hty) in Hd.
    unfold receive. rewrite (guarded_raise _ _ _ _ _ _ Hd).
    pose proof (unregister_player_spec ws (next_bullet st)) as Hspec.
    cbn [PLAYERS next_bullet with_next_bullet_id] in Hspec. rewrite Hp in Hspec.
    destruct (String.eqb_spec (id p) ""); [done|]. simpl in Hspec.
    destruct Hspec as (st' & noise & -> & Hdr & F & Hn).
    eexists false, st', _. split; [reflexivity|]. split; [done|].
    split; [done|]. exists noise. done. }
  destruct (float_vec _ (subscript (JDict data) "start_position")) as [sp|e];
    [|by apply Hleave].
  destruct (float_vec _ (subscript (JDict data) "direction")) as [d|e];
    [|by apply Hleave].
  destruct (rbind _ _) as [l|e]; [|by apply Hleave].
  destruct Hrun as (st' & tr & Hrun & Hd & Hi & Hr).
  rewrite <- (dispatch_bullet_fired ws data now st Hty) in Hrun.
  exists true, st', tr. split; [by apply guarded_ok|]. done.
Qed.

End AnyMaze.

Section Generated.
Variable G : MazeGenerator.t.
Hypothesis HG : generated G.




End Generated.

(** A frame with the three fields of a bullet. *)
Definition axes (x y z : Z) : json :=
  JDict [("x"%string, JNum (Int x)); ("y"%string, JNum (Int y));
         ("z"%string, JNum (Int z))].

Definition shot : dict :=
  [("type"%string, JStr "bullet_fired");
   ("start_position"%string, axes 1 2 3);
   ("direction"%string, axes 0 0 1);
   ("layer"%string, JNum (Int 1))].

Lemma bullet_fired_decided_witness :
  ∃ b st' tr,
    receive demo_generator (fun _ => None) (fun _ => None) 7%nat
      (Decoded (JDict shot)) 0%float demo_pair
    = (Ok b, st', tr)
    ∧ match float_vec (fun _ => None) (subscript (JDict shot) "start_position"),
            float_vec (fun _ => None) (subscript (JDict shot) "direction"),
            rbind (subscript (JDict shot) "layer") (py_int (fun _ => None))
      with
      | Ok sp, Ok d, Ok l =>
          b = true
          ∧ drops (with_bullet (next_bullet demo_pair)
                     {| bullet_id := "bullet_" +:+ pretty (NEXT_BULLET_ID demo_pair);
                        shooter_id := id demo_player;
                        bullet_position := sp; direction := d;
                        bullet_layer := l; creation_time := 0%float |}) st'
          ∧ issues [(bullet_fired
                       ("bullet_" +:+ pretty (NEXT_BULLET_ID demo_pair))
                       (id demo_player) sp d l, PLAYERS demo_pair)] tr
          ∧ (reliable (NETWORK demo_pair) ->
             tr = [Broadcast (bullet_fired
                                ("bullet_" +:+ pretty (NEXT_BULLET_ID demo_pair))
                                (id demo_player) sp d l) (PLAYERS demo_pair)])
      | Raise e, _, _ | Ok _, Raise e, _ | Ok _, Ok _, Raise e =>
          b = false
          ∧ drops (detach (next_bullet demo_pair) 7%nat demo_player) st'
          ∧ ∃ noise,
              tr = Print (UnexpectedError e)
                   :: Broadcast (player_disconnected (id demo_player))
                        (players_del (PLAYERS demo_pair) 7%nat) :: noise
              ∧ Forall (fun e => notice e = true) noise
              ∧ (reliable (NETWORK demo_pair) -> noise = [])
      end.
Proof.
  apply (bullet_fired_decided (fun _ => None) (fun _ => None) demo_generator
           7%nat shot 0%float demo_pair demo_player);
    [reflexivity|discriminate|reflexivity].
Defined.

(** The frame above is a bullet that is accepted. *)
Example shot_accepted :
  ∃ st' tr,
    receive demo_generator (fun _ => None) (fun _ => None) 7%nat
      (Decoded (JDict shot)) 0%float demo_pair
    = (Ok true, st', tr)
    ∧ bullet_id <$> BULLETS st' = ["bullet_0"%string]
    ∧ message_type <$> broadcasts tr = ["bullet_fired"%string].
Proof. eexists _, _. split; [vm_compute; reflexivity|]. done. Qed.

(** A player standing on the end cell (7, 12) of the last layer. *)
Definition end_player : player :=
  {| id := "player_0";
     position := {| vx := Float 20; vy := Int 6; vz := Float (-5) |};
     rotation := zero3; layer := 1; health := 70; score := 250;
     color := "#00ff00" |}.

Definition end_server : server :=
  {| PLAYERS := [(7%nat, end_player)]; BULLETS := [];
     NEXT_PLAYER_ID := 1; NEXT_BULLET_ID := 0; RANDOM := rng0;
     NETWORK := net0; DETACHED := [] |}.


(** A win, a hit on the winner during the sleep, and the end of the
    sleep: the respawn keeps the 250 points of the winner and restores
    the health that the hit took. *)
Example win_hit_wake :
  (fun wp => (wp.1, health wp.2, score wp.2))
    <$> PLAYERS (run demo_generator (fun _ => None) (fun _ => None)
                   [Receive 7%nat
                      (Decoded (JDict [("type"%string,
                                        JStr "player_reached_end")]))
                      0%float;
                    Receive 7%nat (Decoded (JDict (hit_on "player_0")))
                      0%float;
                    Wake 7%nat "player_0"]
                   end_server).1
  = [(7%nat, 100, 260)].
Proof. vm_compute. reflexivity. Qed.

(** *** What a client cannot write *)

(** The fields of a player that no client writes directly. *)
Definition stats (p : player) : string * Z * Z * string :=
  (id p, health p, score p, color p).

(** Every player registered in the second state was registered in the
    first, with the same id, health, score and color. *)
Definition stats_kept (st st' : server) : Prop :=
  ∀ ws p', players_get (PLAYERS st') ws = Some p' ->
           ∃ p, players_get (PLAYERS st) ws = Some p ∧ stats p' = stats p.

Lemma stats_kept_refl s : stats_kept s s.
Proof. intros ws p H. by exists p. Qed.

Lemma stats_kept_trans s1 s2 s3 :
  stats_kept s1 s2 -> stats_kept s2 s3 -> stats_kept s1 s3.
Proof.
  intros H1 H2 ws p3 H3.
  destruct (H2 _ _ H3) as (p2 & Hp2 & E2).
  destruct (H1 _ _ Hp2) as (p1 & Hp1 & E1).
  exists p1. split; [done|]. by rewrite E2.
Qed.

Lemma stats_kept_shrinks s s' : shrinks s s' -> stats_kept s s'.
Proof.
  intros ([gone P] & _) ws p'. rewrite P, players_get_del_all.
  destruct (decide _); [done|]. intros H. by exists p'.
Qed.

Lemma stats_assign ws f st :
  (∀ p, stats (f p) = stats p) -> after stats_kept (assign ws f) st.
Proof.
  intros Hf. apply (after_assign _ stats_kept_refl stats_kept_shrinks).
  intros p Hp ws' p'. simpl. destruct (decide (ws = ws')) as [<-|Hne].
  - rewrite players_get_set_eq. intros [= <-]. by exists p.
  - rewrite players_get_set_ne by done. intros H. by exists p'.
Qed.

Lemma stats_put st st' :
  PLAYERS st' = PLAYERS st -> after stats_kept (put st') st.
Proof. intros H ws p'. simpl. rewrite H. intros Hp. by exists p'. Qed.

Ltac stats_leaf :=
  first
    [ after_leaf stats_kept_refl stats_kept_shrinks
    | apply stats_assign; intros ?; reflexivity
    | apply stats_put; reflexivity ].

Ltac stats_walk :=
  repeat
    first
      [ stats_leaf
      | apply (after_bind stats_kept stats_kept_trans);
        [|let H := fresh in
          intros ? ? ? H; try (apply get_inv in H as [-> ->]); cbv beta]
      | match goal with
        | |- after _ (if ?b then _ else _) _ => destruct b
        | |- after _ (match ?x with _ => _ end) _ => destruct x
        | |- after _ (let '(_, _) := ?x in _) _ => destruct x
        end ].

Lemma eq_str_inv v s : eq_str v s = true -> v = JStr s.
Proof. destruct v; try done. simpl. by intros ->%String.eqb_eq. Qed.

Section Handlers.
Variable G : MazeGenerator.t.
Variable float_of_string : string -> option float.
Variable int_of_string : string -> option Z.

Lemma stats_update_axis ws src axis read write st :
  (∀ n p, stats (write n p) = stats p) ->
  after stats_kept (update_axis float_of_string ws src axis read write) st.
Proof.
  intros Hw. unfold update_axis.
  apply (after_bind stats_kept stats_kept_trans); [stats_leaf|].
  intros p st1 _ _.
  apply (after_bind stats_kept stats_kept_trans); [stats_leaf|].
  intros f st2 _ _. apply stats_assign. intros q. by rewrite Hw.
Qed.

Lemma stats_handle_player_update ws data st :
  after stats_kept
    (handle_player_update float_of_string int_of_string ws data) st.
Proof.
  unfold handle_player_update.
  apply (after_bind stats_kept stats_kept_trans); [stats_leaf|].
  intros [p|] st1 _ _; [|stats_leaf].
  apply (after_bind stats_kept stats_kept_trans).
  { destruct (dict_get data "position") as [pos|]; [|stats_leaf].
    destruct (is_dict pos); [|stats_leaf].
    repeat (apply (after_bind stats_kept stats_kept_trans);
            [by apply stats_update_axis|intros _ ? _ _]).
    by apply stats_update_axis. }
  intros _ st2 _ _.
  apply (after_bind stats_kept stats_kept_trans).
  { destruct (dict_get data "rotation") as [rot|]; [|stats_leaf].
    destruct (is_dict rot); [|stats_leaf].
    repeat (apply (after_bind stats_kept stats_kept_trans);
            [by apply stats_update_axis|intros _ ? _ _]).
    by apply stats_update_axis. }
  intros _ st3 _ _. stats_walk.
Qed.

Lemma stats_handle_bullet_fired ws data now st :
  after stats_kept
    (handle_bullet_fired float_of_string int_of_string ws data now) st.
Proof.
  unfold handle_bullet_fired.
  apply (after_bind stats_kept stats_kept_trans); [stats_leaf|].
  intros [p|] st1 _ _; [|stats_leaf].
  apply (after_bind stats_kept stats_kept_trans); [stats_leaf|].
  intros ? ? ? [-> ->]%get_inv.
  apply (after_bind stats_kept stats_kept_trans); [stats_leaf|].
  intros _ ? _ _.
  do 3 (apply (after_bind stats_kept stats_kept_trans);
        [stats_leaf|intros ? ? _ _]).
  stats_walk.
Qed.

Lemma stats_handle_teleport_request ws data st :
  after stats_kept (handle_teleport_request G ws data) st.
Proof.
  unfold handle_teleport_request.
  apply (after_bind stats_kept stats_kept_trans); [stats_leaf|].
  intros [p|] st1 _ _; [|stats_leaf].
  destruct (as_int _); [|stats_leaf].
  apply (after_bind stats_kept stats_kept_trans); [stats_leaf|].
  intros [r c] st2 _ _.
  apply (after_bind stats_kept stats_kept_trans); [stats_leaf|].
  intros ch st3 _ _.
  destruct (_ && _); [|stats_leaf].
  destruct (List.find _ _); [|stats_leaf].
  stats_walk.
Qed.

Lemma stats_handle_teleport_to_start ws st :
  after stats_kept (handle_teleport_to_start G ws) st.
Proof.
  unfold handle_teleport_to_start, get_random_open_position_on_layer.
  apply (after_bind stats_kept stats_kept_trans); [stats_leaf|].
  intros [p|] st1 _ _; [|stats_leaf].
  apply (after_bind stats_kept stats_kept_trans); [stats_walk|].
  intros v st2 _ _. stats_walk.
Qed.

(** X20: only a hit and the arrival at the end change a health or a
    score.  Whatever else a client sends (a [player_update], a
    [bullet_fired], a teleport, an unknown or undecodable frame),
    whether the handler returns or raises and whatever the transport
    does with the sends, every player who is registered afterwards was
    registered before, with the same id, health, score and color. *)
Theorem only_hits_and_wins_change_stats ws message now st :
  (∀ data, message = Decoded data ->
           subscript data "type" ≠ Ok (JStr "player_hit")
           ∧ subscript data "type" ≠ Ok (JStr "player_reached_end")) ->
  let out := receive G float_of_string int_of_string ws message now st in
  ∀ ws' p',
    players_get (PLAYERS out.1.2) ws' = Some p' ->
    ∃ p, players_get (PLAYERS st) ws' = Some p
         ∧ (id p', health p', score p', color p')
           = (id p, health p, score p, color p).
Proof.
  intros Hty. cbv zeta.
  apply (after_guarded _ stats_kept_refl stats_kept_trans stats_kept_shrinks).
  unfold dispatch.
  apply (after_bind stats_kept stats_kept_trans); [stats_leaf|].
  intros data st1 tr1 Hdata.
  apply (after_bind stats_kept stats_kept_trans); [stats_leaf|].
  intros ty st2 tr2 Hsub. cbv zeta.
  destruct message as [|data']; [done|].
  injection Hdata as Hdd Hst1 _. injection Hsub as Hsub Hst2 _. subst.
  destruct (Hty _ eq_refl) as [Hhit Hend].
  destruct (eq_str ty "player_update"); [apply stats_handle_player_update|].
  destruct (eq_str ty "bullet_fired"); [apply stats_handle_bullet_fired|].
  destruct (eq_str ty "player_hit") eqn:E1.
  { apply eq_str_inv in E1 as ->. by destruct Hhit. }
  destruct (eq_str ty "teleport_request");
    [apply stats_handle_teleport_request|].
  destruct (eq_str ty "teleport_to_start");
    [apply stats_handle_teleport_to_start|].
  destruct (eq_str ty "player_reached_end") eqn:E2.
  { apply eq_str_inv in E2 as ->. by destruct Hend. }
  stats_leaf.
Qed.

End Handlers.

Section Generated.
Variable G : MazeGenerator.t.
Hypothesis HG : generated G.

(** X21: on a generated maze [debug_coordinates] returns: it leaves in
    [INITIAL_START_POSITION] the world position of the start cell of
    layer 0, its conversion test succeeds, and the centre of the map it
    prints is the origin. *)
Theorem debug_coordinates_passes :
  ∃ sr sc v m0,
    debug_coordinates G
    = Ok (v, true, {| vx := Float 0; vy := Int 0; vz := Float 0 |})
    ∧ INITIAL_START_POSITION G = Ok v
    ∧ start_coords G = Some (sr, sc)
    ∧ grid_to_world_coords sr sc 0 = Ok v
    ∧ mazes G !! 0%nat = Some m0
    ∧ cell_at m0 (Z.to_nat sr) (Z.to_nat sc) = Some START.
Proof.
  destruct (generated_marks G HG)
    as ((sr & sc & m0 & Hs & Hsr & Hsc & Hm0 & Hcell)
        & er & ec & m1 & He & Her & Hec & _).
  destruct (grid_round_trip sr sc 0) as (v & Hv & Hback); [done..|].
  destruct (grid_round_trip er ec (NUM_MAZE_LAYERS - 1)) as (vE & HvE & _);
    [done..|].
  exists sr, sc, v, m0. split; [|split; [|by repeat split]].
  - unfold debug_coordinates, end_row, end_col. rewrite Hs, He. simpl.
    rewrite Hv. simpl. rewrite HvE. simpl. rewrite Hback. simpl.
    by rewrite !Z.eqb_refl.
  - unfold INITIAL_START_POSITION. by rewrite Hs.
Qed.

End Generated.

Lemma only_hits_and_wins_change_stats_witness :
  ∃ p, players_get (PLAYERS demo_pair) 8%nat = Some p
       ∧ (id demo_target, health demo_target, score demo_target,
          color demo_target)
         = (id p, health p, score p, color p).
Proof.
  apply (only_hits_and_wins_change_stats demo_generator (fun _ => None)
           (fun _ => None) 7%nat (Decoded (JDict shot)) 0%float demo_pair).
  - intros data [= <-]. split; discriminate.
  - reflexivity.
Defined.

Lemma debug_coordinates_passes_witness :
  ∃ sr sc v m0,
    debug_coordinates demo_generator
    = Ok (v, true, {| vx := Float 0; vy := Int 0; vz := Float 0 |})
    ∧ INITIAL_START_POSITION demo_generator = Ok v
    ∧ start_coords demo_generator = Some (sr, sc)
    ∧ grid_to_world_coords sr sc 0 = Ok v
    ∧ mazes demo_generator !! 0%nat = Some m0
    ∧ cell_at m0 (Z.to_nat sr) (Z.to_nat sc) = Some START.
Proof. apply (debug_coordinates_passes demo_generator demo_generated). Defined.

End ServerFacts.
